(** * expjit3: the 30 minute optimizing native code compiler

    A shallow embedding of [expjit3.c] (the RISC-V port) and of its 32-bit
    x86 predecessor: lexer, recursive descent parser, the interning and
    rewriting node constructor [mk], the unparser and both code generators,
    together with small interpreters for the instructions they emit.

    The process-wide variables of the C program ([nodes], [next], [s],
    [lookahead], [cp], [next_free], ...) are threaded explicitly.  C [int]s
    are integers of [Z] with the 32-bit two's complement wrap-around written
    out ([wrap32]); undefined behaviour, failed assertions and exhausted
    recursion budgets are distinct outcomes of the [result] type. *)

From Stdlib Require Import ZArith String Ascii Lia Bool DecimalString DecimalPos.
From stdpp Require Import base list.

Local Open Scope Z_scope.

(** ** Outcomes *)

Inductive result (A : Type) : Type :=
| Ok (a : A)          (* the C code returns normally *)
| Undef               (* undefined behaviour: wild dereference, overflow of a static array *)
| AssertFail          (* a failed [assert] *)
| OutOfFuel.          (* the recursion budget of the model ran out *)

Arguments Ok {A} a.
Arguments Undef {A}.
Arguments AssertFail {A}.
Arguments OutOfFuel {A}.

Definition rbind {A B} (m : result A) (f : A -> result B) : result B :=
  match m with
  | Ok a => f a
  | Undef => Undef
  | AssertFail => AssertFail
  | OutOfFuel => OutOfFuel
  end.

Notation "'let*' x ':=' m 'in' k" := (rbind m (fun x => k))
  (at level 10, x pattern, m at level 100, k at level 200).

(** [c1 && c2] of C where evaluating [c2] may be undefined. *)
Definition andr (b : bool) (c : result bool) : result bool :=
  if b then c else Ok false.

(** ** Machine integers *)

Definition wrap32 (z : Z) : Z := (z + 2^31) mod 2^32 - 2^31.
Definition in_int32 (z : Z) : Prop := - 2^31 <= z < 2^31.
Definition u32 (z : Z) : Z := z mod 2^32.

(** ** Tokens ([token_t]): one-char tokens represent themselves *)

Definition token_t := Z.
Definition END_OF_FILE : token_t := 0.
Definition ERROR : token_t := 1.
Definition INT : token_t := 256.
Definition NAME : token_t := 257.
Definition PLUS : token_t := 43.    (* '+' *)
Definition STAR : token_t := 42.    (* '*' *)
Definition LPAREN : token_t := 40.  (* '(' *)
Definition RPAREN : token_t := 41.  (* ')' *)

(** ** The AST node pool *)

(** [ast_t] is a pointer into [nodes]: the null pointer, the address of
    [nodes[i]], or the indeterminate value of an uninitialised variable. *)
Inductive ast_t : Type :=
| NULL
| Ptr (i : nat)
| Indet.

Definition ast_eqb (a b : ast_t) : bool :=
  match a, b with
  | NULL, NULL => true
  | Ptr i, Ptr j => Nat.eqb i j
  | _, _ => false
  end.

Definition is_indet (a : ast_t) : bool :=
  match a with Indet => true | _ => false end.

(** Which of the two programs: they differ in how [mk] keeps [shared] and in
    the code generator. *)
Inductive target : Type := X86 | RISCV.

Module Node.
(** [struct node].  The x86 program has [saved] (a pointer into
    [cse_values], here the slot number), the RISC-V program has [alloc]
    and [reg]; the record carries both sets of back-end fields. *)
Record node : Type := Build {
  kind : token_t;
  l : ast_t;
  r : ast_t;
  intValue : Z;
  shared : Z;
  alloc : Z;
  reg : Z;
  saved : option nat
}.

Definition set_shared (f : Z -> Z) (n : node) : node :=
  Build (kind n) (l n) (r n) (intValue n) (f (shared n)) (alloc n) (reg n) (saved n).
Definition set_alloc (a : Z) (n : node) : node :=
  Build (kind n) (l n) (r n) (intValue n) (shared n) a (reg n) (saved n).
Definition set_reg (x : Z) (n : node) : node :=
  Build (kind n) (l n) (r n) (intValue n) (shared n) (alloc n) x (saved n).
Definition set_saved (s : option nat) (n : node) : node :=
  Build (kind n) (l n) (r n) (intValue n) (shared n) (alloc n) (reg n) s.
End Node.

Abbreviation node := Node.node.
Abbreviation pool := (list node).

(** [nodes[9999]] *)
Definition NODES_MAX : Z := 9999.

(** [t->field]: defined only for the address of a node below [next]. *)
Definition deref (p : pool) (t : ast_t) : result node :=
  match t with
  | Ptr i => match p !! i with Some n => Ok n | None => Undef end
  | _ => Undef
  end.

(** The test of the CSE loop. *)
Definition same_tuple (n : node) (kind : token_t) (l r : ast_t) (k : Z) : bool :=
  (Node.kind n =? kind) && ast_eqb (Node.l n) l && ast_eqb (Node.r n) r
  && (Node.intValue n =? k).

(** [for (p = &nodes[0]; p != &nodes[next]; ++p) if (...)]: the index of the
    first node that passes the test, counted from [base]. *)
Fixpoint find_from (base : nat) (p : pool) (kind : token_t) (l r : ast_t) (k : Z)
  : option nat :=
  match p with
  | [] => None
  | n :: p' =>
      if same_tuple n kind l r k then Some base
      else find_from (S base) p' kind l r k
  end.

Definition find_node (p : pool) := find_from 0 p.

Definition is_binop (kind : token_t) : bool := (kind =? STAR) || (kind =? PLUS).

(** [if ((kind == '*' || kind == '+') && l->kind == INT) t = l, l = r, r = t;] *)
Definition canon (p : pool) (kind : token_t) (l r : ast_t) : result (ast_t * ast_t) :=
  if is_binop kind then
    let* nl := deref p l in
    if Node.kind nl =? INT then Ok (r, l) else Ok (l, r)
  else Ok (l, r).

(** What a CSE hit does to [p->shared]: [p->shared = 1] in the x86 program,
    [p->shared++] in the RISC-V one. *)
Definition mark (tgt : target) (sh : Z) : Z :=
  match tgt with X86 => 1 | RISCV => sh + 1 end.

(** [nodes[next].shared = ...] of a new node. *)
Definition fresh_shared (tgt : target) : Z :=
  match tgt with X86 => 0 | RISCV => 1 end.

Definition new_node (tgt : target) (kind : token_t) (l r : ast_t) (k : Z) : node :=
  Node.Build kind l r k (fresh_shared tgt) 0 0 None.

(** [l->r->kind == INT] *)
Definition lr_is_int (p : pool) (nl : node) : result bool :=
  let* nlr := deref p (Node.r nl) in Ok (Node.kind nlr =? INT).

Section Build.
Variable tgt : target.
(** C leaves the order in which the two argument calls of the last rewrite
    are evaluated to the compiler: [true] evaluates left to right. *)
Variable l2r : bool.

Definition append (kind : token_t) (l r : ast_t) (k : Z) (p : pool)
  : result (pool * ast_t) :=
  if Z.of_nat (length p) <? NODES_MAX
  then Ok (p ++ [new_node tgt kind l r k], Ptr (length p))
  else Undef.

(** The rewrites of [mk], tried in order once the CSE loop found nothing;
    [nl] and [nr] are [*l] and [*r], [rec] stands for the recursive calls. *)
Definition rewrite_rules
    (rec : token_t -> ast_t -> ast_t -> Z -> pool -> result (pool * ast_t))
    (kind : token_t) (l r : ast_t) (k : Z) (p : pool) (nl nr : node)
  : result (pool * ast_t) :=
  let kl := Node.kind nl in
  let kr := Node.kind nr in
  (* k1 + k2 -> [k1 + k2] *)
  if (kind =? PLUS) && (kl =? INT) && (kr =? INT) then
    rec INT NULL NULL (wrap32 (Node.intValue nl + Node.intValue nr)) p
  (* k1 * k2 -> [k1 * k2] *)
  else if (kind =? STAR) && (kl =? INT) && (kr =? INT) then
    rec INT NULL NULL (wrap32 (Node.intValue nl * Node.intValue nr)) p
  (* x * 0 -> 0 *)
  else if (kind =? STAR) && (kr =? INT) && (Node.intValue nr =? 0) then
    rec INT NULL NULL 0 p
  (* x * 1 -> x *)
  else if (kind =? STAR) && (kr =? INT) && (Node.intValue nr =? 1) then
    Ok (p, l)
  (* x + 0 -> x *)
  else if (kind =? PLUS) && (kr =? INT) && (Node.intValue nr =? 0) then
    Ok (p, l)
  (* x + x -> 2 * x *)
  else if (kind =? PLUS) && ast_eqb r l then
    let* (p1, two) := rec INT NULL NULL 2 p in
    rec STAR two l 0 p1
  else
    (* (x + k1) + y -> x + (y + k1) *)
    let* c1 := andr ((kind =? PLUS) && (kl =? PLUS)) (lr_is_int p nl) in
    if c1 then
      let* (p1, t) := rec PLUS r (Node.r nl) 0 p in
      rec PLUS (Node.l nl) t 0 p1
    else
    let* c2 := andr ((kind =? STAR) && (kl =? STAR)) (lr_is_int p nl) in
    if c2 then
      let* (p1, t) := rec STAR r (Node.r nl) 0 p in
      rec STAR (Node.l nl) t 0 p1
    else
    (* (x + k2) * k1 -> x * k1 + k2 * k1 *)
    let* c3 := andr ((kind =? STAR) && (kr =? INT) && (kl =? PLUS)) (lr_is_int p nl) in
    if c3 then
      if l2r then
        let* (p1, a) := rec STAR (Node.l nl) r 0 p in
        let* (p2, b) := rec STAR (Node.r nl) r 0 p1 in
        rec PLUS a b 0 p2
      else
        let* (p1, b) := rec STAR (Node.r nl) r 0 p in
        let* (p2, a) := rec STAR (Node.l nl) r 0 p1 in
        rec PLUS a b 0 p2
    else append kind l r k p.

(** One activation of [mk]. *)
Definition mk_body
    (rec : token_t -> ast_t -> ast_t -> Z -> pool -> result (pool * ast_t))
    (kind : token_t) (l r : ast_t) (k : Z) (p : pool) : result (pool * ast_t) :=
  (* an indeterminate argument is compared by the loop or dereferenced by
     the tests that follow on every path *)
  if is_indet l || is_indet r then Undef else
  let* (l, r) := canon p kind l r in
  match find_node p kind l r k with
  | Some i => Ok (alter (Node.set_shared (mark tgt)) i p, Ptr i)
  | None =>
    if is_binop kind then
      let* nl := deref p l in
      let* nr := deref p r in
      rewrite_rules rec kind l r k p nl nr
    else append kind l r k p
  end.

(** [mk], with the depth of its recursion bounded by [fuel]. *)
Fixpoint mk (fuel : nat) (kind : token_t) (l r : ast_t) (k : Z) (p : pool)
  : result (pool * ast_t) :=
  match fuel with
  | O => OutOfFuel
  | S fuel' => mk_body (mk fuel') kind l r k p
  end.

(** The budget the parser hands to [mk]: on a well-formed pool the rewrites
    nest a few levels deep only, see [mk_plus_c] and [mk_mul_c]. *)
Definition mk_fuel (p : pool) : nat := (length p + 5)%nat.
End Build.

(** ** Lexical analysis *)

Module Lex.
(** The lexer's variables: the source text with the cursor [s] as an offset
    into it, [lookahead], [intValue] and [symbolValue] (an offset as well).
    [symbolLength] is never read and is left out. *)
Record lexer : Type := Build {
  src : string;
  s : nat;
  lookahead : token_t;
  intValue : Z;
  symbolValue : nat
}.
End Lex.

Abbreviation lexer := Lex.lexer.

(** [s[i]] of a zero-terminated string: the terminator sits at offset
    [length src]; reading further is out of bounds. *)
Definition char_at (src : string) (i : nat) : result Z :=
  match String.get i src with
  | Some c => Ok (Z.of_nat (nat_of_ascii c))
  | None => if Nat.eqb i (String.length src) then Ok 0 else Undef
  end.

(** <ctype.h> in the C locale *)
Definition isspace (c : Z) : bool := (c =? 32) || ((9 <=? c) && (c <=? 13)).
Definition isdigit (c : Z) : bool := (48 <=? c) && (c <=? 57).
Definition isalpha (c : Z) : bool :=
  ((65 <=? c) && (c <=? 90)) || ((97 <=? c) && (c <=? 122)).
Definition isalnum (c : Z) : bool := isalpha c || isdigit c.

(** [while (isspace( *s)) ++s;] and the like: advance while [f] holds.  A run
    ends at the terminator at the latest, so [fuel] beyond the rest of the
    text is never used up. *)
Fixpoint skip_while (f : Z -> bool) (fuel : nat) (src : string) (i : nat) : result nat :=
  match fuel with
  | O => OutOfFuel
  | S fuel' =>
      let* c := char_at src i in
      if f c then skip_while f fuel' src (S i) else Ok i
  end.

(** [while (isdigit( *s)) intValue = 10*intValue + *s++ - '0';] *)
Fixpoint scan_int (fuel : nat) (src : string) (i : nat) (acc : Z) : result (nat * Z) :=
  match fuel with
  | O => OutOfFuel
  | S fuel' =>
      let* c := char_at src i in
      if isdigit c then scan_int fuel' src (S i) (wrap32 (10 * acc + c - 48))
      else Ok (i, acc)
  end.

Definition nexttoken (lx : lexer) : result lexer :=
  let src := Lex.src lx in
  let fuel := S (String.length src) in
  let* i := skip_while isspace fuel src (Lex.s lx) in
  let* c := char_at src i in
  if isdigit c then
    let* (j, v) := scan_int fuel src i 0 in
    Ok (Lex.Build src j INT v (Lex.symbolValue lx))
  else if isalpha c then
    let* j := skip_while isalnum fuel src i in
    Ok (Lex.Build src j NAME (Lex.intValue lx) i)
  else
    Ok (Lex.Build src (S i) c (Lex.intValue lx) (Lex.symbolValue lx)).

Definition set_lookahead (t : token_t) (lx : lexer) : lexer :=
  Lex.Build (Lex.src lx) (Lex.s lx) t (Lex.intValue lx) (Lex.symbolValue lx).

(** [match] *)
Definition match_ (expect : token_t) (lx : lexer) : result lexer :=
  if negb (Lex.lookahead lx =? expect)
  then Ok (set_lookahead ERROR lx)   (* Terminate all parsing *)
  else nexttoken lx.

(** ** Recursive descent parsing *)

Section Parse.
Variable tgt : target.
Variable l2r : bool.

Definition comp : Type := lexer * pool.

Definition mk' (kind : token_t) (l r : ast_t) (k : Z) (p : pool) :=
  mk tgt l2r (mk_fuel p) kind l r k p.

(** [pFactor], [pTerm] and [pExp] in one recursion: [lvl] selects the
    function (0, 1, 2) and [fuel] bounds the nesting.  The loops of [pTerm]
    and [pExp] are the inner fixpoints over [n]. *)
Section Loops.
Variable operand : comp -> result (comp * ast_t).
Variable op : token_t.

(** [while (lookahead == op) match(op), v = mk(op, v, operand(), 0);] *)
Fixpoint ploop (n : nat) (st : comp) (v : ast_t) : result (comp * ast_t) :=
  match n with
  | O => OutOfFuel
  | S n' =>
      let '(lx, p) := st in
      if Lex.lookahead lx =? op then
        let* lx1 := match_ op lx in
        let* (st2, w) := operand (lx1, p) in
        let '(lx2, p2) := st2 in
        let* (p3, v') := mk' op v w 0 p2 in
        ploop n' (lx2, p3) v'
      else Ok (st, v)
  end.
End Loops.

Definition pFactor_body (pExp : comp -> result (comp * ast_t)) (st : comp)
  : result (comp * ast_t) :=
  let '(lx, p) := st in
  let la := Lex.lookahead lx in
  if la =? LPAREN then
    let* lx1 := match_ LPAREN lx in
    let* (st2, v) := pExp (lx1, p) in
    let '(lx2, p2) := st2 in
    let* lx3 := match_ RPAREN lx2 in
    Ok ((lx3, p2), v)
  else if la =? NAME then
    let* c := char_at (Lex.src lx) (Lex.symbolValue lx) in
    let* (p1, v) := mk' NAME NULL NULL c p in
    let* lx1 := match_ NAME lx in
    Ok ((lx1, p1), v)
  else if la =? INT then
    let* (p1, v) := mk' INT NULL NULL (Lex.intValue lx) p in
    let* lx1 := match_ INT lx in
    Ok ((lx1, p1), v)
  else
    (* no case of the switch applies: [v] is returned uninitialised *)
    Ok (st, Indet).

Fixpoint pExp (fuel : nat) (st : comp) : result (comp * ast_t) :=
  match fuel with
  | O => OutOfFuel
  | S fuel' =>
      let pFactor := pFactor_body (pExp fuel') in
      let pTerm := fun st =>
        let* (st1, v) := pFactor st in
        ploop pFactor STAR fuel' st1 v in
      let* (st1, v) := pTerm st in
      ploop pTerm PLUS fuel' st1 v
  end.

Definition pFactor (fuel : nat) : comp -> result (comp * ast_t) :=
  pFactor_body (pExp fuel).

Definition pTerm (fuel : nat) (st : comp) : result (comp * ast_t) :=
  let* (st1, v) := pFactor fuel st in
  ploop (pFactor fuel) STAR fuel st1 v.
End Parse.

(** ** Unparsing the AST *)


(** [printf("%d", z)] *)
Definition print_int (z : Z) : string := NilZero.string_of_int (Z.to_int z).

(** [printf("%c", c)]: the argument is converted to [unsigned char]. *)
Definition print_char (c : Z) : string :=
  String (ascii_of_nat (Z.to_nat (c mod 256))) EmptyString.

Fixpoint unparse (fuel : nat) (p : pool) (t : ast_t) : result string :=
  match fuel with
  | O => OutOfFuel
  | S fuel' =>
      let* n := deref p t in
      if Node.kind n =? INT then Ok (print_int (Node.intValue n))
      else if Node.kind n =? NAME then Ok (print_char (Node.intValue n))
      else
        let bang := if Node.shared n =? 0 then ""%string else "!"%string in
        let* sl := unparse fuel' p (Node.l n) in
        let* sr := unparse fuel' p (Node.r n) in
        Ok ("(" ++ bang ++ sl ++ print_char (Node.kind n) ++ sr ++ ")")%string
  end.

(** ** Reference semantics *)

(** The direct tree-walking evaluation the code generators are compared
    with: a literal is its value, a name is looked up in the environment,
    ['+'] and ['*'] are the machine operations on the values of the
    subtrees.  It is not part of the C program. *)
Fixpoint eval_walk (fuel : nat) (env : Z -> Z) (p : pool) (t : ast_t) : option Z :=
  match fuel with
  | O => None
  | S fuel' =>
      match deref p t with
      | Ok n =>
          if Node.kind n =? INT then Some (Node.intValue n)
          else if Node.kind n =? NAME then Some (env (Node.intValue n))
          else if Node.kind n =? PLUS then
            match eval_walk fuel' env p (Node.l n), eval_walk fuel' env p (Node.r n) with
            | Some a, Some b => Some (wrap32 (a + b))
            | _, _ => None
            end
          else if Node.kind n =? STAR then
            match eval_walk fuel' env p (Node.l n), eval_walk fuel' env p (Node.r n) with
            | Some a, Some b => Some (wrap32 (a * b))
            | _, _ => None
            end
          else None
      | _ => None
      end
  end.

Definition eval (env : Z -> Z) (p : pool) (t : ast_t) : option Z :=
  eval_walk (length p) env p t.

(** [static int env[256] = { ['x'] = 2, ['y'] = 3 };] *)
Definition default_env (c : Z) : Z :=
  if c =? 120 then 2 else if c =? 121 then 3 else 0.

(** ** Emitted code *)

(** The buffer obtained from [alloc_executable_memory(9999)]. *)
Definition CODE_BYTES : Z := 9999.

Definition byte (z : Z) : Z := z mod 256.

(** A 32-bit quantity stored through an [int *], least significant byte first. *)
Definition le32 (z : Z) : list Z :=
  [byte z; byte (z / 2^8); byte (z / 2^16); byte (z / 2^24)].

Definition of_le32 (b0 b1 b2 b3 : Z) : Z := b0 + 2^8 * b1 + 2^16 * b2 + 2^24 * b3.

(** ** Code generator A: 32-bit x86, accumulator and stack *)

Module GenA.
Record state : Type := Build {
  nodes : pool;
  code : list Z;          (* the bytes from [code] up to [cp] *)
  instructions : Z;
  cse_p : nat             (* [cse_p - cse_values] *)
}.

Section Emit.
(** The addresses the linker gave [env] and [cse_values]. *)
Variable env_addr cse_addr : Z.

(** [*cp++ = b] and the four-byte stores: writing past the mapping is
    undefined. *)
Definition emit (bs : list Z) (st : state) : result state :=
  if Z.of_nat (length (code st) + length bs) <=? CODE_BYTES
  then Ok (Build (nodes st) (code st ++ bs) (instructions st) (cse_p st))
  else Undef.

Definition count (d : Z) (st : state) : state :=
  Build (nodes st) (code st) (instructions st + d) (cse_p st).

(** [t->saved = cse_p++]: [cse_values] has 9999 elements. *)
Definition save_slot (i : nat) (st : state) : result (state * nat) :=
  let k := cse_p st in
  if Z.of_nat k <? 9999
  then Ok (Build (alter (Node.set_saved (Some k)) i (nodes st)) (code st)
                 (instructions st) (S k), k)
  else Undef.

Definition env_entry (c : Z) : Z := env_addr + 4 * c.
Definition cse_slot (k : nat) : Z := cse_addr + 4 * Z.of_nat k.

Fixpoint codegen (fuel : nat) (t : ast_t) (st : state) : result state :=
  match fuel with
  | O => OutOfFuel
  | S fuel' =>
      let* n := deref (nodes st) t in
      if Node.kind n =? INT then
        (* movl $<intValue>, %eax *)
        let* st := emit (0xB8 :: le32 (Node.intValue n)) st in
        Ok (count 1 st)
      else if Node.kind n =? NAME then
        (* mov <env[..]>, %eax *)
        let* st := emit (0xA1 :: le32 (env_entry (Node.intValue n))) st in
        Ok (count 1 st)
      else
        match Node.saved n with
        | Some k =>
            (* CSE part 2: mov <saved>, %eax *)
            let* st := emit (0xA1 :: le32 (cse_slot k)) st in
            Ok (count 1 st)
        | None =>
            let* st := codegen fuel' (Node.r n) st in
            let* st := emit [0x50] st in                  (* push %eax *)
            let* st := codegen fuel' (Node.l n) st in
            let* st := emit [0x5B] st in                  (* pop %ebx *)
            let* st :=
              if Node.kind n =? PLUS
              then emit [0x01; 0xD8] st                   (* add %ebx,%eax *)
              else emit [0x0F; 0xAF; 0xC3] st in          (* imul %ebx,%eax *)
            let st := count 2 st in
            (* CSE part 3 *)
            if Node.shared n =? 0 then Ok st
            else
              match t with
              | Ptr i =>
                  let* (st, k) := save_slot i st in
                  (* mov %eax, <...> *)
                  let* st := emit (0xA3 :: le32 (cse_slot k)) st in
                  Ok (count 1 st)
              | _ => Undef
              end
        end
  end.

(** The code generation part of [main]. *)
Definition compile (p : pool) (res : ast_t) : result state :=
  let* st := emit [0x53] (Build p [] 0 0) in             (* push %ebx *)
  let* st := codegen (length p) res st in
  let* st := emit [0x5B] st in                           (* pop %ebx *)
  let* st := emit [0xC3] st in                           (* ret *)
  Ok (count 1 st).
End Emit.
End GenA.

(** The instructions of IA-32 that generator A emits, run on the emitted
    bytes: [eax], [ebx], the values pushed since entry, and the contents of
    [cse_values]. *)
Module X86.
Record machine : Type := Build {
  eax : Z;
  ebx : Z;
  stack : list Z;
  slots : Z -> Z          (* data memory written by the code, by address *)
}.

Section Run.
Variable env : Z -> Z.
Variable env_addr cse_addr : Z.

(** A four-byte load: an element of [env], or an element of [cse_values]. *)
Definition load (m : machine) (a : Z) : result Z :=
  if (env_addr <=? a) && (a <? env_addr + 4 * 256) && ((a - env_addr) mod 4 =? 0)
  then Ok (env ((a - env_addr) / 4))
  else if (cse_addr <=? a) && (a <? cse_addr + 4 * 9999) && ((a - cse_addr) mod 4 =? 0)
  then Ok (slots m a)
  else Undef.

Definition store (m : machine) (a v : Z) : result machine :=
  if (cse_addr <=? a) && (a <? cse_addr + 4 * 9999) && ((a - cse_addr) mod 4 =? 0)
  then Ok (Build (eax m) (ebx m) (stack m) (fun a' => if a' =? a then v else slots m a'))
  else Undef.

(** Runs the byte sequence up to its [ret]; the result is [eax]. *)
Fixpoint run (bs : list Z) (m : machine) {struct bs} : result Z :=
  match bs with
  | 0x53 :: bs' => run bs' (Build (eax m) (ebx m) (ebx m :: stack m) (slots m))
  | 0x50 :: bs' => run bs' (Build (eax m) (ebx m) (eax m :: stack m) (slots m))
  | 0x5B :: bs' =>
      match stack m with
      | v :: stk => run bs' (Build (eax m) v stk (slots m))
      | [] => Undef
      end
  | 0xB8 :: b0 :: b1 :: b2 :: b3 :: bs' =>
      run bs' (Build (wrap32 (of_le32 b0 b1 b2 b3)) (ebx m) (stack m) (slots m))
  | 0xA1 :: b0 :: b1 :: b2 :: b3 :: bs' =>
      let* v := load m (of_le32 b0 b1 b2 b3) in
      run bs' (Build v (ebx m) (stack m) (slots m))
  | 0xA3 :: b0 :: b1 :: b2 :: b3 :: bs' =>
      let* m' := store m (of_le32 b0 b1 b2 b3) (eax m) in
      run bs' m'
  | 0x01 :: 0xD8 :: bs' =>
      run bs' (Build (wrap32 (eax m + ebx m)) (ebx m) (stack m) (slots m))
  | 0x0F :: 0xAF :: 0xC3 :: bs' =>
      run bs' (Build (wrap32 (eax m * ebx m)) (ebx m) (stack m) (slots m))
  | 0xC3 :: _ =>
      match stack m with
      | [] => Ok (eax m)
      | _ => Undef          (* returns to whatever was pushed last *)
      end
  | _ => Undef
  end.

(** [((int_function_pointer) code)()] *)
Definition call (bs : list Z) : result Z :=
  run bs (Build 0 0 [] (fun _ => 0)).
End Run.
End X86.

(** ** Code generator B: RISC-V, registers handed out by sharing counts *)

Module GenB.
Definition reg_a0 : Z := 10.

(** free registers {t0 .. s1, a1, ... t6} *)
Definition reg_poll_init : list Z :=
  [5; 6; 7; 8; 9; 11; 12; 13; 14; 15; 16; 17; 18; 19; 20;
   21; 22; 23; 24; 25; 26; 27; 28; 29; 30; 31].

(** [sizeof reg_poll / sizeof *reg_poll] *)
Definition NREGS : nat := 26.

Record state : Type := Build {
  nodes : pool;
  code : list Z;          (* the 32-bit words from [code] up to [cp] *)
  reg_poll : list Z;
  next_free : nat
}.

Definition set_nodes (p : pool) (st : state) : state :=
  Build p (code st) (reg_poll st) (next_free st).

(** [*cp++ = w] through a [uint32_t *] *)
Definition emit (w : Z) (st : state) : result state :=
  if 4 * Z.of_nat (S (length (code st))) <=? CODE_BYTES
  then Ok (Build (nodes st) (code st ++ [u32 w]) (reg_poll st) (next_free st))
  else Undef.

Definition set_reg_of (i : nat) (x : Z) (st : state) : state :=
  set_nodes (alter (Node.set_reg x) i (nodes st)) st.

(** [alloc]: sets [t->reg]. *)
Definition alloc (i : nat) (st : state) : result state :=
  let* n := deref (nodes st) (Ptr i) in
  if negb (Node.alloc n =? 0) then Ok (set_reg_of i (Node.alloc n) st)
  else
    if (next_free st <? NREGS)%nat then
      match reg_poll st !! next_free st with
      | Some x =>
          Ok (Build (alter (Node.set_reg x) i (nodes st)) (code st)
                    (reg_poll st) (S (next_free st)))
      | None => Undef
      end
    else AssertFail.

(** [use]: returns [t->reg] and gives the register back with the last
    reference. *)
Definition use (i : nat) (st : state) : result (state * Z) :=
  let* n := deref (nodes st) (Ptr i) in
  let x := Node.reg n in
  if negb (0 <? Node.shared n) then AssertFail
  else
    let sh := Node.shared n - 1 in
    let p := alter (Node.set_shared (fun _ => sh)) i (nodes st) in
    if sh =? 0 then
      match next_free st with
      | O => AssertFail
      | S nf => Ok (Build p (code st) (<[nf := x]> (reg_poll st)) nf, x)
      end
    else Ok (set_nodes p st, x).

Definition shl (z : Z) (n : Z) : Z := Z.shiftl z n.

Fixpoint codegen (fuel : nat) (t : ast_t) (st : state) : result state :=
  match fuel with
  | O => OutOfFuel
  | S fuel' =>
      let* n := deref (nodes st) t in
      match t with
      | Ptr i =>
          if negb (Node.reg n =? 0) then Ok st
          else if Node.kind n =? INT then
            let* st := alloc i st in
            let* n := deref (nodes st) t in
            let x := Node.reg n in
            let v := Node.intValue n in
            let* (st, hi) :=
              if negb (Z.land v 0xFFFFF000 =? 0) then
                (* lui $reg, %hi(t->intValue) *)
                let* st := emit (Z.lor (Z.lor (Z.land v 0xFFFFF000) (shl x 7)) 0x37) st in
                Ok (st, x)
              else Ok (st, 0) in
            (* addi $reg, $hi, %lo(t->intValue) *)
            emit (Z.lor (Z.lor (Z.lor (shl (Z.land v 0xFFF) 20) (shl hi 15)) (shl x 7)) 0x13) st
          else if Node.kind n =? NAME then
            let* st := alloc i st in
            let* n := deref (nodes st) t in
            let x := Node.reg n in
            (* lw $reg, off(a0) *)
            emit (Z.lor (Z.lor (Z.lor (Z.lor (shl (Node.intValue n * 4) 20) (shl 2 12))
                                      (shl reg_a0 15)) (shl x 7)) 0x03) st
          else if (Node.kind n =? PLUS) || (Node.kind n =? STAR) then
            let* st := codegen fuel' (Node.l n) st in
            let* st := codegen fuel' (Node.r n) st in
            match Node.r n, Node.l n with
            | Ptr ir, Ptr il =>
                let* (st, r) := use ir st in
                let* (st, l) := use il st in
                let* st := alloc i st in
                let* n' := deref (nodes st) t in
                let x := Node.reg n' in
                let f7 := if Node.kind n =? PLUS then 0 else shl 1 25 in
                (* add $reg, $l, $r / mul $reg, $l, $r *)
                emit (Z.lor (Z.lor (Z.lor (Z.lor f7 (shl r 20)) (shl l 15)) (shl x 7)) 0x33) st
            | _, _ => Undef
            end
          else AssertFail     (* default: assert(0) *)
      | _ => Undef
      end
  end.

(** The code generation part of [main]. *)
Definition compile (p : pool) (res : ast_t) : result state :=
  match res with
  | Ptr i =>
      let* _ := deref p res in
      let st := Build (alter (Node.set_alloc reg_a0) i p) [] reg_poll_init 0 in
      let* st := codegen (length p) res st in
      emit 0x8082 st          (* c.ret *)
  | _ => Undef
  end.
End GenB.

(** The RV64 instructions that generator B emits, run on the emitted words.
    Registers hold 64-bit values; [a0] holds the address of [env] on entry. *)
Module RV.
Definition sext (bits : Z) (z : Z) : Z :=
  (z + 2^(bits - 1)) mod 2^bits - 2^(bits - 1).

Definition field (w : Z) (lo : Z) (n : Z) : Z := Z.land (Z.shiftr w lo) (2^n - 1).

Definition regs : Type := Z -> Z.
Definition get (x : regs) (i : Z) : Z := if i =? 0 then 0 else x i.
Definition set (x : regs) (i v : Z) : regs :=
  fun j => if j =? i then sext 64 v else x j.

Section Run.
Variable env : Z -> Z.
Variable env_addr : Z.

(** [lw]: only [env] is mapped for data. *)
Definition load (a : Z) : result Z :=
  if (env_addr <=? a) && (a <? env_addr + 4 * 256) && ((a - env_addr) mod 4 =? 0)
  then Ok (env ((a - env_addr) / 4))
  else Undef.

Definition step (w : Z) (x : regs) : result regs :=
  let opc := field w 0 7 in
  let rd := field w 7 5 in
  let f3 := field w 12 3 in
  let rs1 := field w 15 5 in
  let rs2 := field w 20 5 in
  let f7 := field w 25 7 in
  let imm12 := sext 12 (field w 20 12) in
  if opc =? 0x37 then                                   (* lui *)
    Ok (set x rd (sext 32 (Z.land w 0xFFFFF000)))
  else if (opc =? 0x13) && (f3 =? 0) then               (* addi *)
    Ok (set x rd (get x rs1 + imm12))
  else if (opc =? 0x03) && (f3 =? 2) then               (* lw *)
    let* v := load (get x rs1 + imm12) in
    Ok (set x rd (sext 32 v))
  else if (opc =? 0x33) && (f3 =? 0) && (f7 =? 0) then  (* add *)
    Ok (set x rd (get x rs1 + get x rs2))
  else if (opc =? 0x33) && (f3 =? 0) && (f7 =? 1) then  (* mul *)
    Ok (set x rd (get x rs1 * get x rs2))
  else Undef.

(** Runs the words up to [c.ret]; the [int] result is the low half of [a0]. *)
Fixpoint run (ws : list Z) (x : regs) : result Z :=
  match ws with
  | [] => Undef
  | w :: ws' =>
      if w =? 0x8082 then Ok (sext 32 (get x 10))
      else let* x' := step w x in run ws' x'
  end.

(** [((int_function_pointer) code)(env)] *)
Definition call (ws : list Z) : result Z :=
  run ws (fun i => if i =? 10 then env_addr else 0).
End Run.
End RV.

(** ** Main *)

Inductive outcome : Type :=
| SyntaxError (rest : result string)          (* "Syntax error at:%s", exit code -1 *)
| Done (text : string) (count : Z) (value : Z). (* the two lines printed, exit code 0 *)

(** The text from offset [i] on, as [printf("%s", s)] reads it. *)
Definition rest_of (src : string) (i : nat) : result string :=
  if (i <=? String.length src)%nat
  then Ok (String.substring i (String.length src - i) src)
  else Undef.

Section Main.
Variable tgt : target.
Variable l2r : bool.
Variable env : Z -> Z.
Variable env_addr cse_addr : Z.

(** [nexttoken(); res = pExp();] *)
Definition parse (src : string) : result (comp * ast_t) :=
  let* lx := nexttoken (Lex.Build src 0 0 0 0) in
  pExp tgt l2r (S (String.length src)) (lx, []).

Definition main (src : string) : result outcome :=
  let* (st, res) := parse src in
  let '(lx, p) := st in
  if negb (Lex.lookahead lx =? 0) then
    Ok (SyntaxError (rest_of src (Lex.s lx)))
  else
    let* text := unparse (length p) p res in
    match tgt with
    | X86 =>
        let* g := GenA.compile env_addr cse_addr p res in
        let* v := X86.call env env_addr cse_addr (GenA.code g) in
        Ok (Done text (GenA.instructions g) v)
    | RISCV =>
        let* g := GenB.compile p res in
        let* v := RV.call env env_addr (GenB.code g) in
        Ok (Done text (Z.of_nat (length (GenB.code g))) v)
    end.
End Main.

(** ** Well-formed pools *)

(** The four fields the CSE loop compares; [shared] and the back-end fields
    are the only ones that change once a node exists. *)
Definition tuple_of (n : node) : token_t * ast_t * ast_t * Z :=
  (Node.kind n, Node.l n, Node.r n, Node.intValue n).

(** Every node of [p] is found again, with the same four fields, in [p']. *)
Definition ext (p p' : pool) : Prop :=
  forall i n, p !! i = Some n -> exists n', p' !! i = Some n' /\ tuple_of n' = tuple_of n.

(** [t] is the address of a node of the pool. *)
Definition valid (p : pool) (t : ast_t) : Prop :=
  exists i n, t = Ptr i /\ p !! i = Some n.

Definition kind_at (p : pool) (t : ast_t) : option token_t :=
  match deref p t with Ok n => Some (Node.kind n) | _ => None end.

(** [n] is [x op k] with a literal [k]. *)
Definition const_right (p : pool) (op : token_t) (n : node) : Prop :=
  Node.kind n = op /\ kind_at p (Node.r n) = Some INT.

(** No rewrite of [mk] applies to [kind] with operands [na] (at [a]) and
    [nb] (at [b]). *)
Definition no_rule (p : pool) (kind : token_t) (a b : nat) (na nb : node) : Prop :=
  Node.kind na <> INT /\
  ~ (Node.kind nb = INT /\ Node.intValue nb = 0) /\
  (kind = PLUS -> a <> b /\ ~ const_right p PLUS na) /\
  (kind = STAR ->
     ~ (Node.kind nb = INT /\ Node.intValue nb = 1) /\
     ~ const_right p STAR na /\
     ~ (Node.kind nb = INT /\ const_right p PLUS na)).

Definition shared_ok (tgt : target) (sh : Z) : Prop :=
  match tgt with X86 => sh = 0 \/ sh = 1 | RISCV => 1 <= sh end.

Inductive node_ok (p : pool) (i : nat) (n : node) : Prop :=
| ok_leaf :
    Node.kind n = INT \/ Node.kind n = NAME ->
    Node.l n = NULL -> Node.r n = NULL -> in_int32 (Node.intValue n) ->
    node_ok p i n
| ok_binop (a b : nat) (na nb : node) :
    Node.kind n = PLUS \/ Node.kind n = STAR ->
    Node.l n = Ptr a -> Node.r n = Ptr b ->
    (a < i)%nat -> (b < i)%nat ->
    p !! a = Some na -> p !! b = Some nb ->
    no_rule p (Node.kind n) a b na nb ->
    node_ok p i n.

(** The invariant of the pool between calls of [mk]: nodes are leaves or
    operators over earlier nodes to which no rewrite applies, no two nodes
    carry the same four fields, and [shared] is as [mk] keeps it. *)
Record wf_pool (tgt : target) (p : pool) : Prop := {
  wf_cap : Z.of_nat (length p) <= NODES_MAX;
  wf_ok : forall i n, p !! i = Some n -> node_ok p i n;
  wf_uniq : forall i n, p !! i = Some n ->
      find_node p (Node.kind n) (Node.l n) (Node.r n) (Node.intValue n) = Some i;
  wf_shared : forall i n, p !! i = Some n -> shared_ok tgt (Node.shared n)
}.

(** *** A checker for concrete pools *)

Definition in_int32b (z : Z) : bool := (- 2^31 <=? z) && (z <? 2^31).

Definition const_rightb (p : pool) (op : token_t) (n : node) : bool :=
  (Node.kind n =? op) &&
  match kind_at p (Node.r n) with Some k => k =? INT | None => false end.

Definition no_ruleb (p : pool) (kind : token_t) (a b : nat) (na nb : node) : bool :=
  negb (Node.kind na =? INT) &&
  negb ((Node.kind nb =? INT) && (Node.intValue nb =? 0)) &&
  (if kind =? PLUS then negb (Nat.eqb a b) && negb (const_rightb p PLUS na) else true) &&
  (if kind =? STAR then
     negb ((Node.kind nb =? INT) && (Node.intValue nb =? 1)) &&
     negb (const_rightb p STAR na) &&
     negb ((Node.kind nb =? INT) && const_rightb p PLUS na)
   else true).

Definition shared_okb (tgt : target) (sh : Z) : bool :=
  match tgt with X86 => (sh =? 0) || (sh =? 1) | RISCV => 1 <=? sh end.

Definition node_okb (p : pool) (i : nat) (n : node) : bool :=
  if (Node.kind n =? INT) || (Node.kind n =? NAME) then
    match Node.l n, Node.r n with
    | NULL, NULL => in_int32b (Node.intValue n)
    | _, _ => false
    end
  else if (Node.kind n =? PLUS) || (Node.kind n =? STAR) then
    match Node.l n, Node.r n with
    | Ptr a, Ptr b =>
        (a <? i)%nat && (b <? i)%nat &&
        match p !! a, p !! b with
        | Some na, Some nb => no_ruleb p (Node.kind n) a b na nb
        | _, _ => false
        end
    | _, _ => false
    end
  else false.

Fixpoint all_from (f : nat -> node -> bool) (i : nat) (q : pool) : bool :=
  match q with
  | [] => true
  | n :: q' => f i n && all_from f (S i) q'
  end.

Definition wf_poolb (tgt : target) (p : pool) : bool :=
  (Z.of_nat (length p) <=? NODES_MAX) &&
  all_from (fun i n =>
      node_okb p i n &&
      match find_node p (Node.kind n) (Node.l n) (Node.r n) (Node.intValue n) with
      | Some j => Nat.eqb j i
      | None => false
      end &&
      shared_okb tgt (Node.shared n)) 0 p.

(** ** What a call of [mk] guarantees *)

Arguments mk : simpl never.

Definition binop_val (kind : token_t) (a b : Z) : Z :=
  if kind =? PLUS then wrap32 (a + b) else wrap32 (a * b).

(** The call returns a node of value [v] in a well-formed pool that extends
    [p] by at most [g] nodes. *)
Definition mk_post (tgt : target) (env : Z -> Z) (p : pool) (g : Z) (v : Z)
    (res : result (pool * ast_t)) : Prop :=
  exists p' t, res = Ok (p', t) /\ wf_pool tgt p' /\ ext p p' /\
    Z.of_nat (length p') <= Z.of_nat (length p) + g /\
    valid p' t /\ eval env p' t = Some v.

(** The same for a call that returns the literal [k]. *)
Definition mk_post_int (tgt : target) (p : pool) (g : Z) (k : Z)
    (res : result (pool * ast_t)) : Prop :=
  exists p' i n, res = Ok (p', Ptr i) /\ wf_pool tgt p' /\ ext p p' /\
    Z.of_nat (length p') <= Z.of_nat (length p) + g /\
    p' !! i = Some n /\ Node.kind n = INT /\ Node.intValue n = k.

(** Decides the tests of [rewrite_rules] from what is known about the kinds. *)
Ltac tests :=
  repeat match goal with
  | H : ?x = ?y |- context [Z.eqb ?x _] => rewrite H
  | H : ?x <> ?y |- context [Z.eqb ?x ?y] => rewrite (proj2 (Z.eqb_neq x y) H)
  end.

(** ** Properties of the code generators *)

(** The free list of generator B is intact: [reg_poll] keeps its 26 slots
    and [next_free], the number of registers handed out and not yet given
    back, does not pass them. *)
Definition regs_ok (st : GenB.state) : Prop :=
  length (GenB.reg_poll st) = GenB.NREGS /\ (GenB.next_free st <= GenB.NREGS)%nat.

(** No slot of [reg_poll] holds register 0. *)
Definition regs_nonzero (st : GenB.state) : Prop :=
  Forall (fun x => x <> 0) (GenB.reg_poll st).

(** Generator B has emitted the code of node [i]: its [reg] is set. *)
Definition compiled (p : pool) (i : nat) : Prop :=
  exists n, p !! i = Some n /\ Node.reg n <> 0.



(** ** Edges of the final AST *)

(** Node [j] is [t] or below it. *)
Fixpoint reachable (fuel : nat) (p : pool) (t : ast_t) (j : nat) : bool :=
  match fuel with
  | O => false
  | S fuel' =>
      match t with
      | Ptr i =>
          Nat.eqb i j ||
          match p !! i with
          | Some n => reachable fuel' p (Node.l n) j || reachable fuel' p (Node.r n) j
          | None => false
          end
      | _ => false
      end
  end.

(** The number of operand slots, of the nodes at or below [root], that hold
    the address of node [i]. *)
Definition edges_into (p : pool) (root : ast_t) (i : nat) : nat :=
  let slot (t : ast_t) := if ast_eqb t (Ptr i) then 1%nat else 0%nat in
  foldr (fun j acc =>
           match p !! j with
           | Some n =>
               if reachable (length p) p root j
               then (slot (Node.l n) + slot (Node.r n) + acc)%nat
               else acc
           | None => acc
           end) 0%nat (seq 0 (length p)).

(** ** Sample link addresses for running the compiled code *)

Definition env_at : Z := 0x0804A040.
Definition cse_at : Z := 0x0804A440.

(** ** Sample programs *)

(** The pool and the root that parsing [src] leaves. *)
Definition ast_of (tgt : target) (l2r : bool) (src : string) : result (pool * ast_t) :=
  let* (st, res) := parse tgt l2r src in Ok (snd st, res).


(** The words generator B emits for [src]. *)
Definition codeB (src : string) : result (list Z) :=
  let* (p, res) := ast_of RISCV true src in
  let* g := GenB.compile p res in
  Ok (GenB.code g).

(** A small well-formed pool: [x], [0], [1], [7] and [x*7]. *)
Definition demo_pool (tgt : target) : pool :=
  [ new_node tgt NAME NULL NULL 120;
    new_node tgt INT NULL NULL 0;
    new_node tgt INT NULL NULL 1;
    new_node tgt INT NULL NULL 7;
    new_node tgt STAR (Ptr 0) (Ptr 3) 0 ].





(** The pool that parsing ["(x+1)*(x+1)"] leaves in the x86 program: [x+1]
    is marked, the root is the product. *)
Definition demo_sq : pool :=
  [ Node.Build NAME NULL NULL 120 1 0 0 None;
    Node.Build INT NULL NULL 1 1 0 0 None;
    Node.Build PLUS (Ptr 0) (Ptr 1) 0 1 0 0 None;
    Node.Build STAR (Ptr 2) (Ptr 2) 0 0 0 0 None ].


(** ** Running the code of generator A *)

Section ExecA.
Variable env : Z -> Z.
Variable env_addr cse_addr : Z.

(** The bytes [c] are whole instructions that take the machine from [m]
    to [m'] and fall through to whatever follows them. *)
Definition exec (c : list Z) (m m' : X86.machine) : Prop :=
  forall rest, X86.run env env_addr cse_addr (c ++ rest) m
               = X86.run env env_addr cse_addr rest m'.

(** [env] and [cse_values] lie in the 32-bit address space and do not
    overlap. *)
Definition layout_ok : Prop :=
  0 <= env_addr /\ env_addr + 4 * 256 <= 2^32 /\
  0 <= cse_addr /\ cse_addr + 4 * 9999 <= 2^32 /\
  (env_addr + 4 * 256 <= cse_addr \/ cse_addr + 4 * 9999 <= env_addr).

(** The pool [q] of the generator is the parsed pool [p0] up to [saved]. *)
Definition same_ast (p0 q : pool) : Prop :=
  length q = length p0 /\
  forall i n', q !! i = Some n' ->
    exists n, p0 !! i = Some n /\ tuple_of n' = tuple_of n /\
              Node.shared n' = Node.shared n.

(** Every slot handed out holds the value of its node. *)
Definition slots_ok (p0 q : pool) (cse_p : nat) (m : X86.machine) : Prop :=
  forall i n' k, q !! i = Some n' -> Node.saved n' = Some k ->
    (k < cse_p)%nat /\ Z.of_nat k < 9999 /\
    eval env p0 (Ptr i) = Some (X86.slots m (GenA.cse_slot cse_addr k)).
End ExecA.

(** A name is an index into [env]. *)
Definition names_ok (p : pool) : Prop :=
  forall i n, p !! i = Some n -> Node.kind n = NAME -> 0 <= Node.intValue n < 256.

(** No node has a cache slot yet. *)
Definition unsaved (p : pool) : Prop :=
  forall i n, p !! i = Some n -> Node.saved n = None.

(** ** Invariants of [mk], the lexer and the parser *)

(** What a call [rec] of [mk] on an operator guarantees when it returns: the
    pool stays well-formed and only grows, and the node returned has the
    value of the operation. *)
Definition binop_sound (tgt : target) (env : Z -> Z)
    (rec : token_t -> ast_t -> ast_t -> Z -> pool -> result (pool * ast_t)) : Prop :=
  forall kind a b k p na nb va vb p' t,
    kind = PLUS \/ kind = STAR -> wf_pool tgt p ->
    p !! a = Some na -> p !! b = Some nb ->
    eval env p (Ptr a) = Some va -> eval env p (Ptr b) = Some vb ->
    rec kind (Ptr a) (Ptr b) k p = Ok (p', t) ->
    wf_pool tgt p' /\ ext p p' /\ valid p' t /\
    eval env p' t = Some (binop_val kind va vb).
(** The lexer may be asked for another token: [intValue] is an [int], the
    cursor has not passed the terminator unless the token read last was the
    terminator itself (or the lexer was stopped by [ERROR]), and
    [symbolValue] points at the letter a name starts with. *)
Definition lex_ok (lx : lexer) : Prop :=
  in_int32 (Lex.intValue lx) /\
  (Lex.lookahead lx <> END_OF_FILE -> Lex.lookahead lx <> ERROR ->
   (Lex.s lx <= String.length (Lex.src lx))%nat) /\
  (Lex.lookahead lx = NAME ->
   exists c, char_at (Lex.src lx) (Lex.symbolValue lx) = Ok c /\ 0 <= c < 256).

(** The fields the code generators use are as [mk] sets them. *)
Definition fresh_pool (p : pool) : Prop :=
  forall i n, p !! i = Some n ->
    Node.alloc n = 0 /\ Node.reg n = 0 /\ Node.saved n = None.

(** What holds of the lexer and the pool between two steps of the parser
    on the text [src]. *)
Definition parse_inv (tgt : target) (src : string) (st : comp) : Prop :=
  Lex.src (fst st) = src /\ lex_ok (fst st) /\
  wf_pool tgt (snd st) /\ names_ok (snd st) /\ fresh_pool (snd st).

(** The pointer a parsing function returns: a node of the pool, or the
    indeterminate value of [pFactor]'s uninitialised [v]. *)
Definition parsed (p : pool) (v : ast_t) : Prop := v = Indet \/ valid p v.

(** A parsing function that returned has kept the invariant, moved the
    cursor forward only and added to the pool only. *)
Definition parse_post (tgt : target) (src : string) (st st' : comp) (v : ast_t) : Prop :=
  parse_inv tgt src st' /\ ext (snd st) (snd st') /\ parsed (snd st') v /\
  (Lex.s (fst st) <= Lex.s (fst st'))%nat.

Definition parser_ok (tgt : target) (src : string)
    (f : comp -> result (comp * ast_t)) : Prop :=
  forall st st' v, parse_inv tgt src st -> f st = Ok (st', v) -> parse_post tgt src st st' v.

(** A property of nodes that [mk] keeps: marking keeps it and the nodes the
    rewrites build have it. *)
Definition mk_closed (tgt : target) (P : node -> Prop) : Prop :=
  (forall f n, P n -> P (Node.set_shared f n)) /\
  (forall kind l r k, kind = INT \/ kind = PLUS \/ kind = STAR ->
                      P (new_node tgt kind l r k)).
(** How [mk] changes the pool: it marks a node, or appends a new one while
    [nodes] has room. *)
Inductive grows (tgt : target) (p : pool) : pool -> Prop :=
| grows_refl : grows tgt p p
| grows_mark p' i :
    grows tgt p p' -> grows tgt p (alter (Node.set_shared (mark tgt)) i p')
| grows_new p' kind l r k :
    grows tgt p p' -> Z.of_nat (length p') < NODES_MAX ->
    grows tgt p (p' ++ [new_node tgt kind l r k]).
(** The number a run of decimal digits stands for, read as [nexttoken]
    reads it: from the left, starting from [acc]. *)
Fixpoint digits_val (d : Decimal.uint) (acc : Z) : Z :=
  match d with
  | Decimal.Nil => acc
  | Decimal.D0 d => digits_val d (10 * acc + 0)
  | Decimal.D1 d => digits_val d (10 * acc + 1)
  | Decimal.D2 d => digits_val d (10 * acc + 2)
  | Decimal.D3 d => digits_val d (10 * acc + 3)
  | Decimal.D4 d => digits_val d (10 * acc + 4)
  | Decimal.D5 d => digits_val d (10 * acc + 5)
  | Decimal.D6 d => digits_val d (10 * acc + 6)
  | Decimal.D7 d => digits_val d (10 * acc + 7)
  | Decimal.D8 d => digits_val d (10 * acc + 8)
  | Decimal.D9 d => digits_val d (10 * acc + 9)
  end.

(** The digits that [printf("%d")] prints for a number that is not negative. *)
Definition digits_of (n : Z) : Decimal.uint :=
  match n with
  | Z.pos p => Pos.to_uint p
  | _ => Decimal.D0 Decimal.Nil
  end.

(** The text [t] stands in [src] from offset [i] on. *)
Definition text_at (src : string) (i : nat) (t : string) : Prop :=
  forall m c, String.get m t = Some c -> String.get (i + m) src = Some c.
(** ** More sample data *)

(** The pool and the node that building [x*7 + 7] in [demo_pool] gives. *)
Definition demo_sum : pool * ast_t :=
  Eval vm_compute in
    match mk RISCV true 10 PLUS (Ptr 4) (Ptr 3) 0 (demo_pool RISCV) with
    | Ok x => x
    | _ => ([], NULL)
    end.

(** The lexer when ["(x+1)*(x+1)"] has been parsed. *)
Definition demo_lx : lexer := Lex.Build "(x+1)*(x+1)" 12 END_OF_FILE 1 7.

(** The lexer on ["x+"] with ['+'] as the lookahead, and after the next
    token has been read. *)
Definition demo_plus : lexer := Lex.Build "x+" 2 PLUS 0 0.
Definition demo_plus_end : lexer := Lex.Build "x+" 3 END_OF_FILE 0 0.

(** Generator B before anything is compiled. *)
Definition demoB0 : GenB.state := GenB.Build (demo_pool RISCV) [] GenB.reg_poll_init 0.

(** ** Generator B on the machine *)

(** What the [lui] and [addi] of generator B load for the literal [v]:
    [addi] sign-extends the low 12 bits it is given. *)
Definition lit_val (v : Z) : Z := if v mod 4096 <? 2048 then v else wrap32 (v - 4096).

(** The node as the code of generator B reads it. *)
Definition lit_fix (n : node) : node :=
  if Node.kind n =? INT
  then Node.Build (Node.kind n) (Node.l n) (Node.r n) (lit_val (Node.intValue n))
         (Node.shared n) (Node.alloc n) (Node.reg n) (Node.saved n)
  else n.

(** The tree-walking value of the AST with its literals read that way. *)
Definition evalB (env : Z -> Z) (p : pool) (t : ast_t) : option Z :=
  eval env (lit_fix <$> p) t.

(** That value for the node at [j], 0 off the pool. *)
Definition valB (env : Z -> Z) (p : pool) (j : nat) : Z :=
  match evalB env p (Ptr j) with Some v => v | None => 0 end.

(** The registers of [reg_poll]: [t0] to [t6] without [a0]. *)
Definition pool_reg (x : Z) : Prop := 5 <= x <= 31 /\ x <> GenB.reg_a0.

(** The node holds a register that [use] has not given back. *)
Definition live (n : node) : Prop := Node.reg n <> 0 /\ 0 < Node.shared n.

(** The pool [q] of the generator is the parsed pool [p] with
    [res->alloc = reg_a0], up to [reg] and [shared]. *)
Definition genB_ast (root : nat) (p q : pool) : Prop :=
  length q = length p /\
  forall j n', q !! j = Some n' ->
    exists n, p !! j = Some n /\ tuple_of n' = tuple_of n /\
      Node.alloc n' = (if (j =? root)%nat then GenB.reg_a0 else 0).

Section ExecB.
Variable env : Z -> Z.
Variable env_addr : Z.

(** The words [c] are instructions that take the registers from [x] to
    [x'] and fall through to whatever follows them. *)
Definition execB (c : list Z) (x x' : RV.regs) : Prop :=
  forall rest, RV.run env env_addr (c ++ rest) x = RV.run env env_addr rest x'.

(** What holds between the generator and the machine that has run the
    code emitted so far, while the operands of the root are compiled:
    the free part of [reg_poll] holds distinct registers, [a0] still
    points to [env], and every live node has a register of its own, off
    the free part, that holds the node's value [val] in its low half. *)
Record genB_inv (val : nat -> Z) (root : nat) (p : pool)
    (st : GenB.state) (x : RV.regs) : Prop := {
  gi_len : length (GenB.reg_poll st) = GenB.NREGS;
  gi_nf : (GenB.next_free st <= GenB.NREGS)%nat;
  gi_pool : Forall pool_reg (GenB.reg_poll st);
  gi_free : NoDup (drop (GenB.next_free st) (GenB.reg_poll st));
  gi_a0 : x GenB.reg_a0 = env_addr;
  gi_ast : genB_ast root p (GenB.nodes st);
  gi_root : forall n', GenB.nodes st !! root = Some n' -> Node.reg n' = 0;
  gi_live : forall j n', GenB.nodes st !! j = Some n' -> live n' ->
      pool_reg (Node.reg n') /\
      ~ elem_of (Node.reg n') (drop (GenB.next_free st) (GenB.reg_poll st)) /\
      wrap32 (x (Node.reg n')) = val j;
  gi_dist : forall j k nj nk,
      GenB.nodes st !! j = Some nj -> GenB.nodes st !! k = Some nk ->
      live nj -> live nk -> j <> k -> Node.reg nj <> Node.reg nk
}.
End ExecB.

(** ** Sample inputs for the register pool *)

Definition sum14 : string := "a+b+c+d+e+f+g+h+i+j+k+l+m+n".
Definition square14 : string :=
  "(a+b+c+d+e+f+g+h+i+j+k+l+m+n)*(a+b+c+d+e+f+g+h+i+j+k+l+m+n)".

(** Generator B on the AST of [square14], up to the call [alloc(t)] for
    the sum [a+...+n], node 26: its operands, nodes 24 and 25, are
    compiled and used. *)
Definition before_alloc14 (l2r : bool) : result GenB.state :=
  let* (p, t) := ast_of RISCV l2r square14 in
  let st0 := GenB.Build (alter (Node.set_alloc GenB.reg_a0) 27%nat p) []
                        GenB.reg_poll_init 0%nat in
  let* st1 := GenB.codegen 28%nat (Ptr 24%nat) st0 in
  let* st2 := GenB.codegen 28%nat (Ptr 25%nat) st1 in
  let* (st3, _) := GenB.use 25%nat st2 in
  let* (st4, _) := GenB.use 24%nat st3 in
  Ok st4.

(** ** Paths of the AST *)

(** The number of paths that lead from [t] down to node [y]: how often a
    walk from [t] that shares nothing comes to [y]. *)
Fixpoint occ (fuel : nat) (p : pool) (t : ast_t) (y : nat) : nat :=
  match fuel with
  | O => 0%nat
  | S fuel' =>
      match t with
      | Ptr i =>
          ((if Nat.eqb i y then 1 else 0) +
           match p !! i with
           | Some n => occ fuel' p (Node.l n) y + occ fuel' p (Node.r n) y
           | None => 0
           end)%nat
      | _ => 0%nat
      end
  end.

Definition paths (p : pool) (t : ast_t) (y : nat) : nat := occ (length p) p t y.

(** The paths to [y] from the pointers in [held], counted together. *)
Definition total (p : pool) (held : list ast_t) (y : nat) : nat :=
  foldr (fun s acc => (paths p s y + acc)%nat) 0%nat held.

(** The pointers the parser holds at some moment, the values of its
    variables [v] in the active calls and the operands of the call of [mk]
    under way, lead to every operator node that is not marked shared by at
    most one path. *)
Definition paths_ok (p : pool) (held : list ast_t) : Prop :=
  forall y n, p !! y = Some n ->
    Node.kind n = PLUS \/ Node.kind n = STAR -> Node.shared n = 0 ->
    (total p held y <= 1)%nat.


(** The same for a parsing function: the pointer it returns is held next to
    those held before. *)
Definition parser_paths (src : string) (f : comp -> result (comp * ast_t)) : Prop :=
  forall st st' v held,
    parse_inv X86 src st -> Forall (parsed (snd st)) held ->
    paths_ok (snd st) held ->
    f st = Ok (st', v) -> paths_ok (snd st') (v :: held).


(** ** The nodes generator A computes *)

(** The operator nodes that [codegen], called on [t] in state [st],
    computes, in the order in which it comes to them: those for which it
    passes the test of [saved] and emits the code of the operands and of the
    operator.  A reference that is answered by the reload of the slot is not
    in the list, nor is a literal or a name. *)
Fixpoint computedA (env_addr cse_addr : Z) (fuel : nat) (t : ast_t) (st : GenA.state)
  : list nat :=
  match fuel with
  | O => []
  | S fuel' =>
      match t, deref (GenA.nodes st) t with
      | Ptr i, Ok n =>
          if (Node.kind n =? INT) || (Node.kind n =? NAME) then []
          else
            match Node.saved n with
            | Some _ => []
            | None =>
                i :: computedA env_addr cse_addr fuel' (Node.r n) st ++
                match (let* st1 := GenA.codegen env_addr cse_addr fuel' (Node.r n) st in
                       GenA.emit [0x50] st1) with
                | Ok st2 => computedA env_addr cse_addr fuel' (Node.l n) st2
                | _ => []
                end
            end
      | _, _ => []
      end
  end.

(** * Facts *)

(** ** Pointers, tuples and the CSE loop *)

Lemma ast_eqb_true a b : ast_eqb a b = true -> a = b.
Proof.
  destruct a, b; simpl; try discriminate; try reflexivity.
  intros H. apply Nat.eqb_eq in H. now subst.
Qed.

Lemma ast_eqb_ptr i j : ast_eqb (Ptr i) (Ptr j) = Nat.eqb i j.
Proof. reflexivity. Qed.

Lemma same_tuple_true n kind l r k :
  same_tuple n kind l r k = true ->
  Node.kind n = kind /\ Node.l n = l /\ Node.r n = r /\ Node.intValue n = k.
Proof.
  unfold same_tuple. rewrite !andb_true_iff.
  intros [[[Hk Hl] Hr] Hv].
  apply Z.eqb_eq in Hk, Hv. apply ast_eqb_true in Hl, Hr. auto.
Qed.

Lemma same_tuple_of n n' kind l r k :
  tuple_of n' = tuple_of n -> same_tuple n' kind l r k = same_tuple n kind l r k.
Proof.
  unfold tuple_of, same_tuple. intros H. injection H as -> -> -> ->. reflexivity.
Qed.

Lemma same_tuple_self n :
  Node.l n <> Indet -> Node.r n <> Indet ->
  same_tuple n (Node.kind n) (Node.l n) (Node.r n) (Node.intValue n) = true.
Proof.
  intros Hl Hr. unfold same_tuple. rewrite !Z.eqb_refl.
  assert (E : forall a, a <> Indet -> ast_eqb a a = true).
  { intros [| j |] Ha; simpl; auto using Nat.eqb_refl; congruence. }
  rewrite !E by assumption. reflexivity.
Qed.

Lemma find_from_Some base p kind l r k j :
  find_from base p kind l r k = Some j ->
  exists i n, j = (base + i)%nat /\ p !! i = Some n /\
              same_tuple n kind l r k = true /\
              forall i' n', (i' < i)%nat -> p !! i' = Some n' ->
                            same_tuple n' kind l r k = false.
Proof.
  revert base. induction p as [| n p IH]; intros base; simpl; [discriminate |].
  destruct (same_tuple n kind l r k) eqn:E.
  - intros [= <-]. exists 0%nat, n.
    split; [lia |]. split; [reflexivity |]. split; [assumption |].
    intros i' n' Hi'. lia.
  - intros H. apply IH in H as (i & m & -> & Hi & Hm & Hlt).
    exists (S i), m.
    split; [lia |]. split; [assumption |]. split; [assumption |].
    intros [| i'] n' Hi' Hn'; simpl in Hn'.
    + now injection Hn' as <-.
    + apply (Hlt i'); [lia | assumption].
Qed.

Lemma find_from_None base p kind l r k :
  find_from base p kind l r k = None <->
  forall i n, p !! i = Some n -> same_tuple n kind l r k = false.
Proof.
  revert base. induction p as [| n p IH]; intros base; simpl.
  - split; auto. intros _ i n Hn. destruct i; discriminate.
  - destruct (same_tuple n kind l r k) eqn:E.
    + split; [discriminate |]. intros H. specialize (H 0%nat n eq_refl). congruence.
    + rewrite IH. split.
      * intros H [| i] m Hi; simpl in Hi; [now injection Hi as <- | eauto].
      * intros H i m Hi. apply (H (S i)). exact Hi.
Qed.

Lemma find_from_first base p kind l r k i n :
  p !! i = Some n -> same_tuple n kind l r k = true ->
  (forall i' n', (i' < i)%nat -> p !! i' = Some n' -> same_tuple n' kind l r k = false) ->
  find_from base p kind l r k = Some (base + i)%nat.
Proof.
  revert base i. induction p as [| m p IH]; intros base i Hi Hn Hlt.
  - destruct i; discriminate.
  - simpl. destruct i as [| i]; simpl in Hi.
    + injection Hi as ->. rewrite Hn. apply (f_equal Some). lia.
    + rewrite (Hlt 0%nat m (Nat.lt_0_succ i) eq_refl).
      rewrite (IH (S base) i Hi Hn).
      * apply (f_equal Some). lia.
      * intros i' n' Hi' Hn'. apply (Hlt (S i')); [lia | assumption].
Qed.

(** The loop only reads the four fields. *)
Lemma find_from_shape base p p' kind l r k :
  length p = length p' -> ext p p' ->
  find_from base p kind l r k = find_from base p' kind l r k.
Proof.
  revert base p'. induction p as [| n p IH]; intros base [| n' p'] Hlen Hext;
    simpl in *; try discriminate; auto.
  destruct (Hext 0%nat n eq_refl) as (m & Hm & Ht). simpl in Hm. injection Hm as <-.
  rewrite (same_tuple_of _ _ _ _ _ _ Ht).
  destruct (same_tuple n kind l r k); auto.
  apply IH; [lia |]. intros i m Hi. exact (Hext (S i) m Hi).
Qed.

Lemma find_node_app_miss p n kind l r k :
  find_node p kind l r k = None ->
  find_node (p ++ [n]) kind l r k =
    if same_tuple n kind l r k then Some (length p) else None.
Proof.
  unfold find_node. intros H.
  destruct (same_tuple n kind l r k) eqn:E.
  - apply (find_from_first 0 (p ++ [n]) kind l r k (length p) n).
    + apply list_lookup_middle. reflexivity.
    + exact E.
    + intros i' n' Hi' Hn'. rewrite lookup_app_l in Hn' by assumption.
      eapply find_from_None; eauto.
  - apply find_from_None. intros i m Hi.
    destruct (decide (i < length p)%nat) as [Hlt | Hge].
    + rewrite lookup_app_l in Hi by assumption. eapply find_from_None; eauto.
    + rewrite lookup_app_r in Hi by lia.
      destruct (i - length p)%nat as [| [| ?]]; simpl in Hi; congruence.
Qed.

Lemma find_node_app_hit p q kind l r k i :
  find_node p kind l r k = Some i -> find_node (p ++ q) kind l r k = Some i.
Proof.
  unfold find_node. intros H.
  apply find_from_Some in H as (j & n & -> & Hj & Hn & Hlt).
  apply (find_from_first 0 (p ++ q) kind l r k j n).
  - rewrite lookup_app_l; eauto using lookup_lt_Some.
  - exact Hn.
  - intros i' n' Hi' Hn'. apply lookup_lt_Some in Hj.
    rewrite lookup_app_l in Hn' by lia. eauto.
Qed.

(** ** Machine arithmetic *)

Lemma wrap32_range z : in_int32 (wrap32 z).
Proof.
  unfold in_int32, wrap32.
  pose proof (Z.mod_pos_bound (z + 2^31) (2^32) ltac:(lia)). lia.
Qed.

Lemma wrap32_id z : in_int32 z -> wrap32 z = z.
Proof.
  unfold in_int32, wrap32. intros H.
  rewrite Z.mod_small by lia. lia.
Qed.

Lemma wrap32_congr a b : (a - b) mod 2^32 = 0 -> wrap32 a = wrap32 b.
Proof.
  unfold wrap32. intros H. f_equal.
  apply Z.mod_divide in H; [| lia]. destruct H as [q Hq].
  replace (a + 2^31) with (b + 2^31 + q * 2^32) by lia.
  apply Z.mod_add. lia.
Qed.

Lemma wrap32_mod z : (wrap32 z - z) mod 2^32 = 0.
Proof.
  unfold wrap32. apply Z.mod_divide; [lia |].
  exists (- ((z + 2^31) / 2^32)).
  pose proof (Z.div_mod (z + 2^31) (2^32) ltac:(lia)). lia.
Qed.

Lemma wrap32_add_l a b : wrap32 (wrap32 a + b) = wrap32 (a + b).
Proof.
  apply wrap32_congr. replace (wrap32 a + b - (a + b)) with (wrap32 a - a) by lia.
  apply wrap32_mod.
Qed.

Lemma wrap32_add_r a b : wrap32 (a + wrap32 b) = wrap32 (a + b).
Proof. rewrite (Z.add_comm a), wrap32_add_l. f_equal. lia. Qed.

Lemma wrap32_mul_l a b : wrap32 (wrap32 a * b) = wrap32 (a * b).
Proof.
  apply wrap32_congr.
  replace (wrap32 a * b - a * b) with ((wrap32 a - a) * b) by lia.
  pose proof (wrap32_mod a) as H. apply Z.mod_divide in H; [| lia].
  apply Z.mod_divide; [lia |]. destruct H as [q Hq]. exists (q * b). lia.
Qed.

Lemma wrap32_mul_r a b : wrap32 (a * wrap32 b) = wrap32 (a * b).
Proof. rewrite (Z.mul_comm a), wrap32_mul_l. f_equal. lia. Qed.

(** ** Growing pools *)

Lemma ext_refl p : ext p p.
Proof. intros i n H. eauto. Qed.

Lemma ext_trans p1 p2 p3 : ext p1 p2 -> ext p2 p3 -> ext p1 p3.
Proof.
  intros H12 H23 i n H.
  destruct (H12 i n H) as (n2 & H2 & E2).
  destruct (H23 i n2 H2) as (n3 & H3 & E3).
  exists n3. split; [assumption | congruence].
Qed.

Lemma ext_app p q : ext p (p ++ q).
Proof.
  intros i n H. exists n. split; [| reflexivity].
  rewrite lookup_app_l; eauto using lookup_lt_Some.
Qed.

Lemma ext_length p p' : ext p p' -> (length p <= length p')%nat.
Proof.
  intros H. destruct (decide (length p = 0)%nat) as [-> | Hne]; [lia |].
  destruct (lookup_lt_is_Some_2 p (length p - 1)) as [n Hn]; [lia |].
  destruct (H _ _ Hn) as (n' & Hn' & _). apply lookup_lt_Some in Hn'. lia.
Qed.

Lemma tuple_of_set_shared f n : tuple_of (Node.set_shared f n) = tuple_of n.
Proof. reflexivity. Qed.

Lemma ext_alter_shared f j p : ext p (alter (Node.set_shared f) j p).
Proof.
  intros i n H. destruct (decide (i = j)) as [-> | Hne].
  - exists (Node.set_shared f n). split; [| reflexivity].
    rewrite list_lookup_alter_eq, H. reflexivity.
  - exists n. split; [| reflexivity]. rewrite list_lookup_alter_ne; auto.
Qed.

Lemma ext_alter_shared_inv f j p : ext (alter (Node.set_shared f) j p) p.
Proof.
  intros i n H. destruct (decide (i = j)) as [-> | Hne].
  - rewrite list_lookup_alter_eq in H.
    destruct (p !! j) as [m |] eqn:E; simpl in H; [| discriminate].
    injection H as <-. exists m. split; reflexivity.
  - rewrite list_lookup_alter_ne in H by auto. exists n. split; [assumption | reflexivity].
Qed.

Lemma find_node_alter_shared f j p kind l r k :
  find_node (alter (Node.set_shared f) j p) kind l r k = find_node p kind l r k.
Proof.
  unfold find_node. apply find_from_shape.
  - apply length_alter.
  - apply ext_alter_shared_inv.
Qed.

Lemma ext_valid p p' t : ext p p' -> valid p t -> valid p' t.
Proof.
  intros H (i & n & -> & Hn). destruct (H i n Hn) as (n' & Hn' & _).
  exists i, n'. auto.
Qed.

Lemma deref_Ok p t n : deref p t = Ok n -> exists i, t = Ptr i /\ p !! i = Some n.
Proof.
  destruct t as [| i |]; simpl; try discriminate.
  destruct (p !! i) eqn:E; [| discriminate]. intros [= <-]. eauto.
Qed.

Lemma deref_ptr p i n : p !! i = Some n -> deref p (Ptr i) = Ok n.
Proof. simpl. now intros ->. Qed.

Lemma kind_at_ptr p i n : p !! i = Some n -> kind_at p (Ptr i) = Some (Node.kind n).
Proof. unfold kind_at. simpl. now intros ->. Qed.

Lemma kind_at_Some p t k :
  kind_at p t = Some k -> exists i n, t = Ptr i /\ p !! i = Some n /\ Node.kind n = k.
Proof.
  unfold kind_at. destruct (deref p t) as [n | | |] eqn:E; try discriminate.
  intros [= <-]. apply deref_Ok in E as (i & -> & Hi). eauto.
Qed.

Lemma tuple_kind n n' : tuple_of n' = tuple_of n -> Node.kind n' = Node.kind n.
Proof. unfold tuple_of. congruence. Qed.
Lemma tuple_l n n' : tuple_of n' = tuple_of n -> Node.l n' = Node.l n.
Proof. unfold tuple_of. congruence. Qed.
Lemma tuple_r n n' : tuple_of n' = tuple_of n -> Node.r n' = Node.r n.
Proof. unfold tuple_of. congruence. Qed.
Lemma tuple_val n n' : tuple_of n' = tuple_of n -> Node.intValue n' = Node.intValue n.
Proof. unfold tuple_of. congruence. Qed.

Lemma kind_at_ext p p' t k : ext p p' -> kind_at p t = Some k -> kind_at p' t = Some k.
Proof.
  intros H Hk. apply kind_at_Some in Hk as (i & n & -> & Hn & <-).
  destruct (H i n Hn) as (n' & Hn' & E).
  rewrite (kind_at_ptr _ _ _ Hn'). f_equal. now apply tuple_kind.
Qed.

Lemma kind_at_ext_inv p p' t k :
  ext p p' -> valid p t -> kind_at p' t = Some k -> kind_at p t = Some k.
Proof.
  intros H (i & n & -> & Hn) Hk.
  destruct (H i n Hn) as (n' & Hn' & E).
  rewrite (kind_at_ptr _ _ _ Hn') in Hk. rewrite (kind_at_ptr _ _ _ Hn).
  rewrite <- (tuple_kind _ _ E). exact Hk.
Qed.

(** ** The reference evaluation on well-formed pools *)

Lemma eval_walk_mono env p f f' t v :
  (f <= f')%nat -> eval_walk f env p t = Some v -> eval_walk f' env p t = Some v.
Proof.
  revert f' t v. induction f as [| f IH]; intros f' t v Hle; [discriminate |].
  destruct f' as [| f']; [lia |]. simpl.
  destruct (deref p t) as [n | | |]; try discriminate.
  destruct (Node.kind n =? INT); [auto |].
  destruct (Node.kind n =? NAME); [auto |].
  destruct (Node.kind n =? PLUS).
  - destruct (eval_walk f env p (Node.l n)) as [a |] eqn:Ea; [| discriminate].
    destruct (eval_walk f env p (Node.r n)) as [b |] eqn:Eb; [| discriminate].
    rewrite (IH f' _ _ ltac:(lia) Ea), (IH f' _ _ ltac:(lia) Eb). auto.
  - destruct (Node.kind n =? STAR); [| discriminate].
    destruct (eval_walk f env p (Node.l n)) as [a |] eqn:Ea; [| discriminate].
    destruct (eval_walk f env p (Node.r n)) as [b |] eqn:Eb; [| discriminate].
    rewrite (IH f' _ _ ltac:(lia) Ea), (IH f' _ _ ltac:(lia) Eb). auto.
Qed.

Lemma eval_walk_ext env p p' f t v :
  ext p p' -> eval_walk f env p t = Some v -> eval_walk f env p' t = Some v.
Proof.
  intros Hext. revert t v. induction f as [| f IH]; intros t v; [discriminate |].
  simpl. destruct (deref p t) as [n | | |] eqn:E; try discriminate.
  apply deref_Ok in E as (i & -> & Hi).
  destruct (Hext i n Hi) as (n' & Hi' & Ht).
  rewrite (deref_ptr _ _ _ Hi').
  rewrite (tuple_kind _ _ Ht), (tuple_l _ _ Ht), (tuple_r _ _ Ht), (tuple_val _ _ Ht).
  destruct (Node.kind n =? INT); [auto |].
  destruct (Node.kind n =? NAME); [auto |].
  destruct (Node.kind n =? PLUS).
  - destruct (eval_walk f env p (Node.l n)) as [a |] eqn:Ea; [| discriminate].
    destruct (eval_walk f env p (Node.r n)) as [b |] eqn:Eb; [| discriminate].
    rewrite (IH _ _ Ea), (IH _ _ Eb). auto.
  - destruct (Node.kind n =? STAR); [| discriminate].
    destruct (eval_walk f env p (Node.l n)) as [a |] eqn:Ea; [| discriminate].
    destruct (eval_walk f env p (Node.r n)) as [b |] eqn:Eb; [| discriminate].
    rewrite (IH _ _ Ea), (IH _ _ Eb). auto.
Qed.

Lemma eval_ext env p p' t v :
  ext p p' -> eval env p t = Some v -> eval env p' t = Some v.
Proof.
  unfold eval. intros Hext H.
  apply (eval_walk_mono env p' (length p)); [now apply ext_length |].
  now apply (eval_walk_ext env p).
Qed.

Section EvalWf.
Variable tgt : target.
Variable env : Z -> Z.
Hypothesis env_int : forall c, in_int32 (env c).
Variable p : pool.
Hypothesis Hwf : wf_pool tgt p.

Lemma eval_walk_total i n :
  p !! i = Some n -> exists v, eval_walk (S i) env p (Ptr i) = Some v /\ in_int32 v.
Proof.
  revert n. induction (lt_wf i) as [i _ IH]. intros n Hi.
  cbn [eval_walk]. rewrite (deref_ptr _ _ _ Hi).
  destruct (wf_ok _ _ Hwf i n Hi) as [[Hk | Hk] _ _ Hv | a b na nb [Hk | Hk] Hl Hr Ha Hb Hna Hnb _].
  - rewrite Hk. simpl. eauto.
  - rewrite Hk. simpl. eauto.
  - rewrite Hk, Hl, Hr. simpl.
    destruct (IH a Ha na Hna) as (va & Eva & _).
    destruct (IH b Hb nb Hnb) as (vb & Evb & _).
    rewrite (eval_walk_mono env p (S a) i _ _ ltac:(lia) Eva).
    rewrite (eval_walk_mono env p (S b) i _ _ ltac:(lia) Evb).
    eauto using wrap32_range.
  - rewrite Hk, Hl, Hr. simpl.
    destruct (IH a Ha na Hna) as (va & Eva & _).
    destruct (IH b Hb nb Hnb) as (vb & Evb & _).
    rewrite (eval_walk_mono env p (S a) i _ _ ltac:(lia) Eva).
    rewrite (eval_walk_mono env p (S b) i _ _ ltac:(lia) Evb).
    eauto using wrap32_range.
Qed.

Lemma eval_total t : valid p t -> exists v, eval env p t = Some v /\ in_int32 v.
Proof.
  intros (i & n & -> & Hi). destruct (eval_walk_total i n Hi) as (v & Hv & Hr).
  exists v. split; [| assumption]. unfold eval.
  apply (eval_walk_mono env p (S i)); [| assumption].
  apply lookup_lt_Some in Hi. lia.
Qed.

Lemma eval_int32 t v : eval env p t = Some v -> in_int32 v.
Proof.
  intros H. assert (Hv : valid p t).
  { unfold eval in H. destruct (length p) as [| m]; [discriminate |]. simpl in H.
    destruct (deref p t) as [n | | |] eqn:E; try discriminate.
    apply deref_Ok in E as (i & -> & Hi). exists i, n. auto. }
  destruct (eval_total t Hv) as (v' & Hv' & Hr). congruence.
Qed.

(** The value of a node from the values of its operands. *)
Lemma eval_walk_at i n f :
  p !! i = Some n -> (i < f)%nat ->
  eval_walk f env p (Ptr i) = eval env p (Ptr i).
Proof.
  intros Hi Hf. destruct (eval_walk_total i n Hi) as (v & Hv & _).
  rewrite (eval_walk_mono env p (S i) f _ _ ltac:(lia) Hv).
  unfold eval. symmetry. apply (eval_walk_mono env p (S i)); [| assumption].
  apply lookup_lt_Some in Hi. lia.
Qed.

Lemma eval_leaf_int i n :
  p !! i = Some n -> Node.kind n = INT -> eval env p (Ptr i) = Some (Node.intValue n).
Proof.
  intros Hi Hk. rewrite <- (eval_walk_at i n (S i) Hi ltac:(lia)).
  cbn [eval_walk]. rewrite (deref_ptr _ _ _ Hi), Hk. reflexivity.
Qed.

Lemma eval_leaf_name i n :
  p !! i = Some n -> Node.kind n = NAME ->
  eval env p (Ptr i) = Some (env (Node.intValue n)).
Proof.
  intros Hi Hk. rewrite <- (eval_walk_at i n (S i) Hi ltac:(lia)).
  cbn [eval_walk]. rewrite (deref_ptr _ _ _ Hi), Hk. reflexivity.
Qed.

Lemma eval_binop i n a b va vb :
  p !! i = Some n -> Node.l n = Ptr a -> Node.r n = Ptr b ->
  eval env p (Ptr a) = Some va -> eval env p (Ptr b) = Some vb ->
  (Node.kind n = PLUS -> eval env p (Ptr i) = Some (wrap32 (va + vb))) /\
  (Node.kind n = STAR -> eval env p (Ptr i) = Some (wrap32 (va * vb))).
Proof.
  intros Hi Hl Hr Hva Hvb.
  assert (Hab : exists na nb, (a < i)%nat /\ (b < i)%nat /\
                              p !! a = Some na /\ p !! b = Some nb).
  { destruct (wf_ok _ _ Hwf i n Hi) as [_ Hl' _ _ | a' b' na nb _ Hl' Hr' Ha Hb Hna Hnb _].
    - congruence.
    - rewrite Hl in Hl'. rewrite Hr in Hr'.
      injection Hl' as ->. injection Hr' as ->. eauto 6. }
  destruct Hab as (na & nb & Ha & Hb & Hna & Hnb).
  rewrite <- (eval_walk_at i n (S i) Hi ltac:(lia)).
  cbn [eval_walk]. rewrite (deref_ptr _ _ _ Hi), Hl, Hr.
  rewrite (eval_walk_at a na i Hna Ha), (eval_walk_at b nb i Hnb Hb), Hva, Hvb.
  split; intros ->; reflexivity.
Qed.
End EvalWf.

(** ** The invariant is kept when the pool changes as [mk] changes it *)

Lemma wf_nil tgt : wf_pool tgt [].
Proof.
  split.
  - simpl. unfold NODES_MAX. lia.
  - intros i n H. destruct i; discriminate.
  - intros i n H. destruct i; discriminate.
  - intros i n H. destruct i; discriminate.
Qed.

Lemma node_ok_tuple p i n n' : tuple_of n' = tuple_of n -> node_ok p i n -> node_ok p i n'.
Proof.
  intros E H.
  pose proof (tuple_kind _ _ E) as Ek. pose proof (tuple_l _ _ E) as El.
  pose proof (tuple_r _ _ E) as Er. pose proof (tuple_val _ _ E) as Ev.
  destruct H as [Hk Hl Hr Hv | a b na nb Hk Hl Hr Ha Hb Hna Hnb Hno].
  - apply ok_leaf; congruence.
  - apply (ok_binop p i n' a b na nb); congruence.
Qed.

Lemma const_right_ext p p' op na na' :
  ext p p' -> tuple_of na' = tuple_of na ->
  const_right p op na -> const_right p' op na'.
Proof.
  intros Hext E [Hk Hr]. split.
  - now rewrite (tuple_kind _ _ E).
  - rewrite (tuple_r _ _ E). now apply (kind_at_ext p).
Qed.

Section Transport.
Variable tgt : target.
Variables p p' : pool.
Hypothesis Hwf : wf_pool tgt p.
Hypothesis Hext : ext p p'.

Lemma const_right_ext_inv op a na na' :
  p !! a = Some na -> tuple_of na' = tuple_of na ->
  const_right p' op na' -> const_right p op na.
Proof.
  intros Ha E [Hk Hr].
  rewrite (tuple_kind _ _ E) in Hk. rewrite (tuple_r _ _ E) in Hr.
  split; [assumption |].
  destruct (wf_ok _ _ Hwf a na Ha) as [_ _ Hr' _ | a' b' na0 nb0 _ _ Hr' _ _ _ Hnb0 _].
  - rewrite Hr' in Hr. discriminate.
  - apply (kind_at_ext_inv p p'); [assumption | | assumption].
    exists b', nb0. auto.
Qed.

Lemma no_rule_ext kind a b na nb na' nb' :
  p !! a = Some na -> p !! b = Some nb ->
  tuple_of na' = tuple_of na -> tuple_of nb' = tuple_of nb ->
  no_rule p kind a b na nb -> no_rule p' kind a b na' nb'.
Proof.
  intros Ha Hb Ea Eb (H1 & H2 & H3 & H4).
  pose proof (tuple_kind _ _ Ea) as Eka. pose proof (tuple_kind _ _ Eb) as Ekb.
  pose proof (tuple_val _ _ Eb) as Evb.
  split; [| split; [| split]].
  - congruence.
  - rewrite Ekb, Evb. exact H2.
  - intros Hk. destruct (H3 Hk) as [H31 H32]. split; [assumption |].
    intros Hc. apply H32. eapply const_right_ext_inv; eauto.
  - intros Hk. destruct (H4 Hk) as (H41 & H42 & H43). split; [| split].
    + rewrite Ekb, Evb. exact H41.
    + intros Hc. apply H42. eapply const_right_ext_inv; eauto.
    + rewrite Ekb. intros [Hi Hc]. apply H43.
      split; [assumption |]. eapply const_right_ext_inv; eauto.
Qed.

Lemma node_ok_ext i n : node_ok p i n -> node_ok p' i n.
Proof.
  intros [Hk Hl Hr Hv | a b na nb Hk Hl Hr Ha Hb Hna Hnb Hno].
  - now apply ok_leaf.
  - destruct (Hext a na Hna) as (na' & Hna' & Ea).
    destruct (Hext b nb Hnb) as (nb' & Hnb' & Eb).
    apply (ok_binop p' i n a b na' nb'); auto.
    eapply no_rule_ext; eauto.
Qed.
End Transport.

Lemma shared_ok_mark tgt sh : shared_ok tgt sh -> shared_ok tgt (mark tgt sh).
Proof. destruct tgt; simpl; lia. Qed.

Lemma shared_ok_fresh tgt : shared_ok tgt (fresh_shared tgt).
Proof. destruct tgt; simpl; lia. Qed.

Lemma wf_alter_mark tgt p j :
  wf_pool tgt p -> wf_pool tgt (alter (Node.set_shared (mark tgt)) j p).
Proof.
  intros Hwf.
  set (p' := alter (Node.set_shared (mark tgt)) j p).
  assert (Hext : ext p p') by apply ext_alter_shared.
  assert (Hinv : ext p' p) by apply ext_alter_shared_inv.
  split.
  - unfold p'. rewrite length_alter. apply (wf_cap _ _ Hwf).
  - intros i n' Hi. destruct (Hinv i n' Hi) as (n & Hn & E).
    apply (node_ok_ext tgt p p' Hwf Hext).
    apply (node_ok_tuple p i n n'); [congruence |].
    apply (wf_ok _ _ Hwf i n Hn).
  - intros i n' Hi. destruct (Hinv i n' Hi) as (n & Hn & E).
    unfold p'. rewrite find_node_alter_shared.
    rewrite <- (tuple_kind _ _ E), <- (tuple_l _ _ E), <- (tuple_r _ _ E), <- (tuple_val _ _ E).
    apply (wf_uniq _ _ Hwf i n Hn).
  - intros i n' Hi. unfold p' in Hi.
    destruct (decide (i = j)) as [-> | Hne].
    + rewrite list_lookup_alter_eq in Hi.
      destruct (p !! j) as [n |] eqn:E; simpl in Hi; [| discriminate].
      injection Hi as <-. simpl. apply shared_ok_mark. apply (wf_shared _ _ Hwf j n E).
    + rewrite list_lookup_alter_ne in Hi by auto. apply (wf_shared _ _ Hwf i n' Hi).
Qed.

Lemma node_ok_not_indet p i n : node_ok p i n -> Node.l n <> Indet /\ Node.r n <> Indet.
Proof. intros [_ Hl Hr _ | a b na nb _ Hl Hr _ _ _ _ _]; rewrite Hl, Hr; split; discriminate. Qed.

Lemma wf_append tgt p kind l r k :
  wf_pool tgt p ->
  find_node p kind l r k = None ->
  node_ok p (length p) (new_node tgt kind l r k) ->
  Z.of_nat (length p) < NODES_MAX ->
  wf_pool tgt (p ++ [new_node tgt kind l r k]).
Proof.
  intros Hwf Hmiss Hok Hcap.
  set (m := new_node tgt kind l r k) in *.
  assert (Hext : ext p (p ++ [m])) by apply ext_app.
  assert (Hcase : forall i n, (p ++ [m]) !! i = Some n ->
            (p !! i = Some n /\ (i < length p)%nat) \/ (i = length p /\ n = m)).
  { intros i n Hi. destruct (decide (i < length p)%nat) as [Hlt | Hge].
    - rewrite lookup_app_l in Hi by assumption. auto.
    - rewrite lookup_app_r in Hi by lia.
      destruct (i - length p)%nat as [| [| ?]] eqn:E; simpl in Hi; try discriminate.
      injection Hi as <-. right. split; [lia | reflexivity]. }
  split.
  - rewrite length_app. simpl. lia.
  - intros i n Hi. apply (node_ok_ext tgt p _ Hwf Hext).
    destruct (Hcase i n Hi) as [[Hp _] | [-> ->]]; [apply (wf_ok _ _ Hwf i n Hp) | exact Hok].
  - intros i n Hi. destruct (Hcase i n Hi) as [[Hp _] | [-> ->]].
    + apply find_node_app_hit. apply (wf_uniq _ _ Hwf i n Hp).
    + change (find_node (p ++ [m]) kind l r k = Some (length p)).
      rewrite (find_node_app_miss p m kind l r k Hmiss).
      destruct (node_ok_not_indet _ _ _ Hok) as [Hl Hr].
      pose proof (same_tuple_self m Hl Hr) as Hs.
      change (same_tuple m kind l r k = true) in Hs. now rewrite Hs.
  - intros i n Hi. destruct (Hcase i n Hi) as [[Hp _] | [-> ->]].
    + apply (wf_shared _ _ Hwf i n Hp).
    + simpl. apply shared_ok_fresh.
Qed.

(** ** Soundness of the checker *)

Lemma const_rightb_sound p op n : const_right p op n -> const_rightb p op n = true.
Proof.
  intros [Hk Hr]. unfold const_rightb. rewrite Hk, Hr, !Z.eqb_refl. reflexivity.
Qed.

Lemma no_ruleb_sound p kind a b na nb :
  no_ruleb p kind a b na nb = true -> no_rule p kind a b na nb.
Proof.
  unfold no_ruleb. rewrite !andb_true_iff, !negb_true_iff.
  intros [[[H1 H2] H3] H4].
  split; [| split; [| split]].
  - intros E. rewrite E in H1. discriminate.
  - intros [E1 E2]. rewrite E1, E2 in H2. discriminate.
  - intros ->. simpl in H3. apply andb_true_iff in H3 as [H3 H3'].
    split.
    + intros ->. rewrite Nat.eqb_refl in H3. discriminate.
    + intros Hc. rewrite (const_rightb_sound _ _ _ Hc) in H3'. discriminate.
  - intros ->. simpl in H4. rewrite !andb_true_iff, !negb_true_iff in H4.
    destruct H4 as [[H4 H5] H6].
    split; [| split].
    + intros [E1 E2]. rewrite E1, E2 in H4. discriminate.
    + intros Hc. rewrite (const_rightb_sound _ _ _ Hc) in H5. discriminate.
    + intros [E1 Hc]. rewrite E1, (const_rightb_sound _ _ _ Hc) in H6. discriminate.
Qed.

Lemma node_okb_sound p i n : node_okb p i n = true -> node_ok p i n.
Proof.
  unfold node_okb.
  destruct ((Node.kind n =? INT) || (Node.kind n =? NAME)) eqn:E1.
  - destruct (Node.l n) eqn:El; try discriminate.
    destruct (Node.r n) eqn:Er; try discriminate.
    intros Hv. apply ok_leaf; auto.
    + apply orb_true_iff in E1 as [E | E]; apply Z.eqb_eq in E; auto.
    + unfold in_int32b in Hv. unfold in_int32. lia.
  - destruct ((Node.kind n =? PLUS) || (Node.kind n =? STAR)) eqn:E2; [| discriminate].
    destruct (Node.l n) as [| a |] eqn:El; try discriminate.
    destruct (Node.r n) as [| b |] eqn:Er; try discriminate.
    rewrite !andb_true_iff. intros [[Ha Hb] H].
    destruct (p !! a) as [na |] eqn:Hna; [| discriminate].
    destruct (p !! b) as [nb |] eqn:Hnb; [| discriminate].
    apply (ok_binop p i n a b na nb); auto.
    + apply orb_true_iff in E2 as [E | E]; apply Z.eqb_eq in E; auto.
    + apply Nat.ltb_lt. exact Ha.
    + apply Nat.ltb_lt. exact Hb.
    + now apply no_ruleb_sound.
Qed.

Lemma all_from_sound f base q :
  all_from f base q = true -> forall i n, q !! i = Some n -> f (base + i)%nat n = true.
Proof.
  revert base. induction q as [| m q IH]; intros base; simpl.
  - intros _ i n H. destruct i; discriminate.
  - rewrite andb_true_iff. intros [Hm Hq] [| i] n Hi; simpl in Hi.
    + injection Hi as <-. now rewrite Nat.add_0_r.
    + replace (base + S i)%nat with (S base + i)%nat by lia. now apply IH.
Qed.

Lemma wf_poolb_sound tgt p : wf_poolb tgt p = true -> wf_pool tgt p.
Proof.
  unfold wf_poolb. rewrite andb_true_iff. intros [Hcap Hall].
  pose proof (all_from_sound _ _ _ Hall) as H. simpl in H.
  split.
  - lia.
  - intros i n Hi. specialize (H i n Hi). rewrite !andb_true_iff in H.
    apply node_okb_sound. tauto.
  - intros i n Hi. specialize (H i n Hi). rewrite !andb_true_iff in H.
    destruct H as [[_ H] _].
    destruct (find_node p _ _ _ _) as [j |]; [| discriminate].
    apply Nat.eqb_eq in H. now subst.
  - intros i n Hi. specialize (H i n Hi). rewrite !andb_true_iff in H.
    destruct H as [_ H]. destruct tgt; simpl in *; lia.
Qed.

(** ** One activation of [mk] *)


Lemma find_node_hit p kind l r k i :
  find_node p kind l r k = Some i ->
  exists n, p !! i = Some n /\ Node.kind n = kind /\ Node.l n = l /\
            Node.r n = r /\ Node.intValue n = k.
Proof.
  unfold find_node. intros H.
  apply find_from_Some in H as (j & n & -> & Hj & Hn & _).
  apply same_tuple_true in Hn. exists n. tauto.
Qed.

Lemma find_no_rule tgt p kind a b k i na nb :
  wf_pool tgt p ->
  find_node p kind (Ptr a) (Ptr b) k = Some i ->
  p !! a = Some na -> p !! b = Some nb ->
  no_rule p kind a b na nb /\ (a < i)%nat /\ (b < i)%nat /\ (kind = PLUS \/ kind = STAR).
Proof.
  intros Hwf Hf Ha Hb.
  apply find_node_hit in Hf as (n & Hi & Hk & Hl & Hr & Hv).
  destruct (wf_ok _ _ Hwf i n Hi) as [_ Hl' _ _ | a' b' na' nb' Hk' Hl' Hr' Ha' Hb' Hna' Hnb' Hno].
  - congruence.
  - rewrite Hl in Hl'. rewrite Hr in Hr'. injection Hl' as <-. injection Hr' as <-.
    rewrite Ha in Hna'. rewrite Hb in Hnb'. injection Hna' as <-. injection Hnb' as <-.
    rewrite Hk in *. auto.
Qed.

Section MkStep.
Variable tgt : target.
Variable l2r : bool.

Lemma mk_S f kind l r k p :
  mk tgt l2r (S f) kind l r k p = mk_body tgt l2r (mk tgt l2r f) kind l r k p.
Proof. reflexivity. Qed.

Lemma mk_leaf_unfold f kind k p :
  is_binop kind = false ->
  mk tgt l2r (S f) kind NULL NULL k p =
  match find_node p kind NULL NULL k with
  | Some i => Ok (alter (Node.set_shared (mark tgt)) i p, Ptr i)
  | None => append tgt kind NULL NULL k p
  end.
Proof.
  intros H. rewrite mk_S. unfold mk_body, canon. simpl. rewrite H. simpl.
  reflexivity.
Qed.

Lemma mk_unfold f kind a b k p na nb :
  is_binop kind = true -> p !! a = Some na -> p !! b = Some nb ->
  Node.kind na <> INT ->
  mk tgt l2r (S f) kind (Ptr a) (Ptr b) k p =
  match find_node p kind (Ptr a) (Ptr b) k with
  | Some i => Ok (alter (Node.set_shared (mark tgt)) i p, Ptr i)
  | None => rewrite_rules tgt l2r (mk tgt l2r f) kind (Ptr a) (Ptr b) k p na nb
  end.
Proof.
  intros H Ha Hb Hk. rewrite mk_S. unfold mk_body, canon. simpl.
  rewrite H, Ha. simpl. rewrite (proj2 (Z.eqb_neq _ _) Hk). simpl.
  rewrite Ha, Hb. reflexivity.
Qed.

Lemma mk_unfold_swap f kind a b k p na nb :
  is_binop kind = true -> p !! a = Some na -> p !! b = Some nb ->
  Node.kind na = INT ->
  mk tgt l2r (S f) kind (Ptr a) (Ptr b) k p =
  match find_node p kind (Ptr b) (Ptr a) k with
  | Some i => Ok (alter (Node.set_shared (mark tgt)) i p, Ptr i)
  | None => rewrite_rules tgt l2r (mk tgt l2r f) kind (Ptr b) (Ptr a) k p nb na
  end.
Proof.
  intros H Ha Hb Hk. rewrite mk_S. unfold mk_body, canon. simpl.
  rewrite H, Ha. simpl. rewrite Hk. simpl.
  rewrite Ha, Hb. reflexivity.
Qed.

(** With a literal on the left only, the call is the one with the
    operands exchanged. *)
Lemma mk_swap f kind a b k p na nb :
  is_binop kind = true -> p !! a = Some na -> p !! b = Some nb ->
  Node.kind na = INT -> Node.kind nb <> INT ->
  mk tgt l2r (S f) kind (Ptr a) (Ptr b) k p = mk tgt l2r (S f) kind (Ptr b) (Ptr a) k p.
Proof.
  intros H Ha Hb Hka Hkb.
  rewrite (mk_unfold_swap f kind a b k p na nb) by assumption.
  rewrite (mk_unfold f kind b a k p nb na) by assumption.
  reflexivity.
Qed.
End MkStep.

(** ** What a call of [mk] guarantees *)

Section MkSpec.
Variable tgt : target.
Variable l2r : bool.
Variable env : Z -> Z.
Hypothesis env_int : forall c, in_int32 (env c).

Local Abbreviation post := (mk_post tgt env).
Local Abbreviation post_int := (mk_post_int tgt).

Lemma mk_post_intro p g v p' t :
  wf_pool tgt p' -> ext p p' ->
  Z.of_nat (length p') <= Z.of_nat (length p) + g ->
  valid p' t -> eval env p' t = Some v ->
  post p g v (Ok (p', t)).
Proof. intros. exists p', t. tauto. Qed.

Lemma mk_post_int_intro p g k p' i n :
  wf_pool tgt p' -> ext p p' ->
  Z.of_nat (length p') <= Z.of_nat (length p) + g ->
  p' !! i = Some n -> Node.kind n = INT -> Node.intValue n = k ->
  post_int p g k (Ok (p', Ptr i)).
Proof. intros. exists p', i, n. tauto. Qed.

Lemma mk_post_int_post p g k res : post_int p g k res -> post p g k res.
Proof.
  intros (p' & i & n & -> & Hwf & Hext & Hlen & Hi & Hk & Hv).
  apply mk_post_intro; auto.
  - exists i, n. auto.
  - rewrite <- Hv. apply (eval_leaf_int tgt env env_int p' Hwf i n Hi Hk).
Qed.

Lemma mk_post_weaken p g g' v res : g <= g' -> post p g v res -> post p g' v res.
Proof.
  intros Hg (p' & t & -> & Hwf & Hext & Hlen & Hv & He).
  apply mk_post_intro; auto. lia.
Qed.

Lemma mk_post_from p0 g0 p g v res :
  ext p0 p -> Z.of_nat (length p) <= Z.of_nat (length p0) + g0 ->
  post p g v res -> post p0 (g0 + g) v res.
Proof.
  intros Hext0 Hlen0 (p' & t & -> & Hwf & Hext & Hlen & Hv & He).
  apply mk_post_intro; auto.
  - eapply ext_trans; eauto.
  - lia.
Qed.

(** *** A hit of the CSE loop *)

Lemma hit_post p i t v :
  wf_pool tgt p -> p !! i = Some t -> eval env p (Ptr i) = Some v ->
  post p 0 v (Ok (alter (Node.set_shared (mark tgt)) i p, Ptr i)).
Proof.
  intros Hwf Hi He.
  pose proof (ext_alter_shared (mark tgt) i p) as Hext.
  apply mk_post_intro.
  - now apply wf_alter_mark.
  - exact Hext.
  - rewrite length_alter. lia.
  - apply (ext_valid p); [assumption |]. exists i, t. auto.
  - now apply (eval_ext env p).
Qed.

(** *** A new node *)

Lemma append_post p kind l r k v :
  wf_pool tgt p ->
  find_node p kind l r k = None ->
  node_ok p (length p) (new_node tgt kind l r k) ->
  Z.of_nat (length p) < NODES_MAX ->
  (forall p', wf_pool tgt p' -> ext p p' ->
              p' !! length p = Some (new_node tgt kind l r k) ->
              eval env p' (Ptr (length p)) = Some v) ->
  post p 1 v (append tgt kind l r k p).
Proof.
  intros Hwf Hmiss Hok Hcap Hev. unfold append.
  rewrite (proj2 (Z.ltb_lt _ _) Hcap).
  pose proof (wf_append tgt p kind l r k Hwf Hmiss Hok Hcap) as Hwf'.
  assert (Hm : (p ++ [new_node tgt kind l r k]) !! length p
               = Some (new_node tgt kind l r k)).
  { apply list_lookup_middle. reflexivity. }
  apply mk_post_intro.
  - exact Hwf'.
  - apply ext_app.
  - rewrite length_app. simpl. lia.
  - eexists _, _. split; [reflexivity | exact Hm].
  - apply Hev; auto. apply ext_app.
Qed.

(** *** Leaves *)

Lemma mk_leaf f kind k p :
  wf_pool tgt p -> kind = INT \/ kind = NAME -> in_int32 k ->
  Z.of_nat (length p) + 1 <= NODES_MAX ->
  exists p' i n, mk tgt l2r (S f) kind NULL NULL k p = Ok (p', Ptr i) /\
    wf_pool tgt p' /\ ext p p' /\
    Z.of_nat (length p') <= Z.of_nat (length p) + 1 /\
    p' !! i = Some n /\ Node.kind n = kind /\ Node.intValue n = k.
Proof.
  intros Hwf Hkind Hk Hcap.
  rewrite mk_leaf_unfold by (destruct Hkind as [-> | ->]; reflexivity).
  destruct (find_node p kind NULL NULL k) as [i |] eqn:F.
  - destruct (find_node_hit _ _ _ _ _ _ F) as (n & Hi & Hkn & _ & _ & Hv).
    exists (alter (Node.set_shared (mark tgt)) i p), i, (Node.set_shared (mark tgt) n).
    split; [reflexivity |]. split; [now apply wf_alter_mark |].
    split; [apply ext_alter_shared |]. split; [rewrite length_alter; lia |].
    split; [rewrite list_lookup_alter_eq, Hi; reflexivity |]. auto.
  - unfold append. rewrite (proj2 (Z.ltb_lt _ _)) by lia.
    exists (p ++ [new_node tgt kind NULL NULL k]), (length p), (new_node tgt kind NULL NULL k).
    split; [reflexivity |].
    split; [apply wf_append; auto; [now apply ok_leaf | lia] |].
    split; [apply ext_app |]. split; [rewrite length_app; simpl; lia |].
    split; [apply list_lookup_middle; reflexivity |]. auto.
Qed.

Lemma mk_int f k p :
  wf_pool tgt p -> in_int32 k -> Z.of_nat (length p) + 1 <= NODES_MAX ->
  post_int p 1 k (mk tgt l2r (S f) INT NULL NULL k p).
Proof.
  intros Hwf Hk Hcap.
  destruct (mk_leaf f INT k p Hwf (or_introl eq_refl) Hk Hcap)
    as (p' & i & n & -> & H).
  exists p', i, n. tauto.
Qed.
End MkSpec.

(** ** Which rewrite fires *)

Lemma lr_is_int_true p op nl : const_right p op nl -> lr_is_int p nl = Ok true.
Proof.
  intros [_ H]. apply kind_at_Some in H as (i & n & Hr & Hi & Hk).
  unfold lr_is_int. rewrite Hr, (deref_ptr _ _ _ Hi). simpl. now rewrite Hk.
Qed.

Lemma lr_is_int_false tgt p a nl op :
  wf_pool tgt p -> p !! a = Some nl -> Node.kind nl = op -> op = PLUS \/ op = STAR ->
  ~ const_right p op nl -> lr_is_int p nl = Ok false.
Proof.
  intros Hwf Ha Hk Hop Hn.
  destruct (wf_ok _ _ Hwf a nl Ha) as [Hk' _ _ _ | a' b' na nb _ _ Hr _ _ _ Hnb _].
  - exfalso. unfold PLUS, STAR, INT, NAME in *. lia.
  - unfold lr_is_int. rewrite Hr, (deref_ptr _ _ _ Hnb). simpl.
    destruct (Z.eqb_spec (Node.kind nb) INT) as [E | E]; [| reflexivity].
    exfalso. apply Hn. split; [assumption |].
    rewrite Hr, (kind_at_ptr _ _ _ Hnb). now f_equal.
Qed.

Section Rules.
Variable tgt : target.
Variable l2r : bool.
Variable rec : token_t -> ast_t -> ast_t -> Z -> pool -> result (pool * ast_t).
Variables (l r : ast_t) (k : Z) (p : pool) (nl nr : node).

Lemma rule_fold_plus :
  Node.kind nl = INT -> Node.kind nr = INT ->
  rewrite_rules tgt l2r rec PLUS l r k p nl nr =
  rec INT NULL NULL (wrap32 (Node.intValue nl + Node.intValue nr)) p.
Proof. intros. unfold rewrite_rules. tests. reflexivity. Qed.

Lemma rule_fold_star :
  Node.kind nl = INT -> Node.kind nr = INT ->
  rewrite_rules tgt l2r rec STAR l r k p nl nr =
  rec INT NULL NULL (wrap32 (Node.intValue nl * Node.intValue nr)) p.
Proof. intros. unfold rewrite_rules. tests. reflexivity. Qed.

Lemma rule_star_zero :
  Node.kind nl <> INT -> Node.kind nr = INT -> Node.intValue nr = 0 ->
  rewrite_rules tgt l2r rec STAR l r k p nl nr = rec INT NULL NULL 0 p.
Proof. intros. unfold rewrite_rules. tests. reflexivity. Qed.

Lemma rule_star_one :
  Node.kind nl <> INT -> Node.kind nr = INT -> Node.intValue nr = 1 ->
  rewrite_rules tgt l2r rec STAR l r k p nl nr = Ok (p, l).
Proof. intros. unfold rewrite_rules. tests. reflexivity. Qed.

Lemma rule_plus_zero :
  Node.kind nl <> INT -> Node.kind nr = INT -> Node.intValue nr = 0 ->
  rewrite_rules tgt l2r rec PLUS l r k p nl nr = Ok (p, l).
Proof. intros. unfold rewrite_rules. tests. reflexivity. Qed.

Lemma rule_double :
  Node.kind nl <> INT -> Node.kind nr <> INT -> ast_eqb r l = true ->
  rewrite_rules tgt l2r rec PLUS l r k p nl nr =
  (let* (p1, two) := rec INT NULL NULL 2 p in rec STAR two l 0 p1).
Proof. intros ? ? E. unfold rewrite_rules. tests. rewrite E. reflexivity. Qed.

Lemma rule_assoc_plus :
  Node.kind nl = PLUS -> lr_is_int p nl = Ok true ->
  ~ (Node.kind nr = INT /\ Node.intValue nr = 0) -> ast_eqb r l = false ->
  rewrite_rules tgt l2r rec PLUS l r k p nl nr =
  (let* (p1, t) := rec PLUS r (Node.r nl) 0 p in rec PLUS (Node.l nl) t 0 p1).
Proof.
  intros Hk Hlr Hz E. unfold rewrite_rules. tests. rewrite E, Hlr. simpl.
  destruct (Z.eqb_spec (Node.kind nr) INT) as [Ekr | Ekr]; [| reflexivity].
  destruct (Z.eqb_spec (Node.intValue nr) 0) as [Ev | Ev]; [tauto | reflexivity].
Qed.

Lemma rule_assoc_star :
  Node.kind nl = STAR -> lr_is_int p nl = Ok true ->
  ~ (Node.kind nr = INT /\ Node.intValue nr = 0) ->
  ~ (Node.kind nr = INT /\ Node.intValue nr = 1) ->
  rewrite_rules tgt l2r rec STAR l r k p nl nr =
  (let* (p1, t) := rec STAR r (Node.r nl) 0 p in rec STAR (Node.l nl) t 0 p1).
Proof.
  intros Hk Hlr Hz Ho. unfold rewrite_rules. tests. rewrite Hlr. simpl.
  destruct (Z.eqb_spec (Node.kind nr) INT) as [Ekr | Ekr]; [| reflexivity].
  destruct (Z.eqb_spec (Node.intValue nr) 0) as [Ev | Ev]; [tauto |].
  destruct (Z.eqb_spec (Node.intValue nr) 1) as [Ev1 | Ev1]; [tauto | reflexivity].
Qed.

Lemma rule_distr :
  Node.kind nl = PLUS -> lr_is_int p nl = Ok true ->
  Node.kind nr = INT -> Node.intValue nr <> 0 -> Node.intValue nr <> 1 ->
  rewrite_rules tgt l2r rec STAR l r k p nl nr =
  if l2r then
    let* (p1, a) := rec STAR (Node.l nl) r 0 p in
    let* (p2, b) := rec STAR (Node.r nl) r 0 p1 in
    rec PLUS a b 0 p2
  else
    let* (p1, b) := rec STAR (Node.r nl) r 0 p in
    let* (p2, a) := rec STAR (Node.l nl) r 0 p1 in
    rec PLUS a b 0 p2.
Proof.
  intros Hk Hlr Hkr Hz Ho. unfold rewrite_rules. tests. rewrite Hlr. reflexivity.
Qed.

Lemma rule_none_plus :
  Node.kind nl <> INT ->
  ~ (Node.kind nr = INT /\ Node.intValue nr = 0) -> ast_eqb r l = false ->
  (Node.kind nl = PLUS -> lr_is_int p nl = Ok false) ->
  rewrite_rules tgt l2r rec PLUS l r k p nl nr = append tgt PLUS l r k p.
Proof.
  intros Hkl Hz E Hlr. unfold rewrite_rules. tests. rewrite E. simpl.
  assert (Hz' : (Node.kind nr =? INT) && (Node.intValue nr =? 0) = false).
  { destruct (Z.eqb_spec (Node.kind nr) INT); [| reflexivity].
    destruct (Z.eqb_spec (Node.intValue nr) 0); [tauto | reflexivity]. }
  rewrite Hz'.
  destruct (Z.eqb_spec (Node.kind nl) PLUS) as [Ek | Ek]; simpl.
  - rewrite (Hlr Ek). reflexivity.
  - reflexivity.
Qed.

Lemma rule_none_star :
  Node.kind nl <> INT ->
  ~ (Node.kind nr = INT /\ Node.intValue nr = 0) ->
  ~ (Node.kind nr = INT /\ Node.intValue nr = 1) ->
  (Node.kind nl = STAR -> lr_is_int p nl = Ok false) ->
  (Node.kind nr = INT -> Node.kind nl = PLUS -> lr_is_int p nl = Ok false) ->
  rewrite_rules tgt l2r rec STAR l r k p nl nr = append tgt STAR l r k p.
Proof.
  intros Hkl Hz Ho Hls Hlp. unfold rewrite_rules. tests. simpl.
  assert (Hz' : (Node.kind nr =? INT) && (Node.intValue nr =? 0) = false).
  { destruct (Z.eqb_spec (Node.kind nr) INT); [| reflexivity].
    destruct (Z.eqb_spec (Node.intValue nr) 0); [tauto | reflexivity]. }
  assert (Ho' : (Node.kind nr =? INT) && (Node.intValue nr =? 1) = false).
  { destruct (Z.eqb_spec (Node.kind nr) INT); [| reflexivity].
    destruct (Z.eqb_spec (Node.intValue nr) 1); [tauto | reflexivity]. }
  rewrite Hz', Ho'.
  destruct (Z.eqb_spec (Node.kind nl) STAR) as [Ek | Ek]; simpl.
  - rewrite (Hls Ek). simpl.
    destruct (Z.eqb_spec (Node.kind nr) INT) as [Ekr | Ekr]; simpl; [| reflexivity].
    rewrite Ek. reflexivity.
  - destruct (Z.eqb_spec (Node.kind nr) INT) as [Ekr | Ekr]; simpl; [| reflexivity].
    destruct (Z.eqb_spec (Node.kind nl) PLUS) as [Ekp | Ekp]; simpl; [| reflexivity].
    rewrite (Hlp Ekr Ekp). reflexivity.
Qed.
End Rules.

(** ** The calls of [mk], from the simplest to the general one *)

Lemma wf_children tgt p a na :
  wf_pool tgt p -> p !! a = Some na ->
  Node.kind na = PLUS \/ Node.kind na = STAR ->
  exists y c ny nc, Node.l na = Ptr y /\ Node.r na = Ptr c /\
    (y < a)%nat /\ (c < a)%nat /\ p !! y = Some ny /\ p !! c = Some nc /\
    no_rule p (Node.kind na) y c ny nc.
Proof.
  intros Hwf Ha Hk.
  destruct (wf_ok _ _ Hwf a na Ha) as [Hk' _ _ _ | y c ny nc _ Hl Hr Hy Hc Hny Hnc Hno].
  - exfalso. unfold PLUS, STAR, INT, NAME in *. lia.
  - exists y, c, ny, nc. tauto.
Qed.

Lemma ext_lookup p p' a na :
  ext p p' -> p !! a = Some na ->
  exists na', p' !! a = Some na' /\ Node.kind na' = Node.kind na /\
    Node.l na' = Node.l na /\ Node.r na' = Node.r na /\
    Node.intValue na' = Node.intValue na.
Proof.
  intros Hext Ha. destruct (Hext a na Ha) as (na' & Ha' & E).
  exists na'. unfold tuple_of in E. injection E as E1 E2 E3 E4. auto.
Qed.

Lemma const_right_kind p op na c nc :
  const_right p op na -> Node.r na = Ptr c -> p !! c = Some nc -> Node.kind nc = INT.
Proof.
  intros [_ H] Hr Hc. rewrite Hr, (kind_at_ptr _ _ _ Hc) in H. congruence.
Qed.

Lemma const_right_intro p op na c nc :
  Node.kind na = op -> Node.r na = Ptr c -> p !! c = Some nc -> Node.kind nc = INT ->
  const_right p op na.
Proof.
  intros Hk Hr Hc Hi. split; [assumption |].
  rewrite Hr, (kind_at_ptr _ _ _ Hc). now f_equal.
Qed.

Lemma binop_val_plus a b : binop_val PLUS a b = wrap32 (a + b).
Proof. reflexivity. Qed.

Lemma binop_val_star a b : binop_val STAR a b = wrap32 (a * b).
Proof. reflexivity. Qed.

Section MkCalls.
Variable tgt : target.
Variable l2r : bool.
Variable env : Z -> Z.
Hypothesis env_int : forall c, in_int32 (env c).

Local Abbreviation M := (mk tgt l2r).
Local Abbreviation post := (mk_post tgt env).
Local Abbreviation post_int := (mk_post_int tgt).

Lemma eval_node_binop p i n a b va vb :
  wf_pool tgt p -> p !! i = Some n ->
  Node.kind n = PLUS \/ Node.kind n = STAR ->
  Node.l n = Ptr a -> Node.r n = Ptr b ->
  eval env p (Ptr a) = Some va -> eval env p (Ptr b) = Some vb ->
  eval env p (Ptr i) = Some (binop_val (Node.kind n) va vb).
Proof.
  intros Hwf Hi Hk Hl Hr Ha Hb.
  destruct (eval_binop tgt env env_int p Hwf i n a b va vb Hi Hl Hr Ha Hb) as [HP HS].
  unfold binop_val. destruct Hk as [Hk | Hk]; rewrite Hk; simpl; auto.
Qed.

(** *** Two literals *)

Lemma mk_fold f kind a b k p na nb :
  wf_pool tgt p -> kind = PLUS \/ kind = STAR ->
  p !! a = Some na -> p !! b = Some nb ->
  Node.kind na = INT -> Node.kind nb = INT ->
  Z.of_nat (length p) + 1 <= NODES_MAX ->
  post_int p 1 (binop_val kind (Node.intValue na) (Node.intValue nb))
           (M (S (S f)) kind (Ptr a) (Ptr b) k p).
Proof.
  intros Hwf Hkind Ha Hb Hka Hkb Hcap.
  rewrite (mk_unfold_swap tgt l2r (S f) kind a b k p na nb)
    by (destruct Hkind as [-> | ->]; auto).
  destruct (find_node p kind (Ptr b) (Ptr a) k) as [i |] eqn:F.
  - exfalso. destruct (find_no_rule tgt p kind b a k i nb na Hwf F Hb Ha) as [[H _] _].
    contradiction.
  - destruct Hkind as [-> | ->].
    + rewrite rule_fold_plus by assumption.
      unfold binop_val. simpl. rewrite Z.add_comm.
      apply mk_int; [assumption | apply wrap32_range | assumption].
    + rewrite rule_fold_star by assumption.
      unfold binop_val. simpl. rewrite Z.mul_comm.
      apply mk_int; [assumption | apply wrap32_range | assumption].
Qed.

(** *** No rewrite applies: the node is found or made *)

Lemma mk_plain f kind a b k p na nb va vb :
  wf_pool tgt p -> kind = PLUS \/ kind = STAR ->
  p !! a = Some na -> p !! b = Some nb ->
  no_rule p kind a b na nb ->
  eval env p (Ptr a) = Some va -> eval env p (Ptr b) = Some vb ->
  Z.of_nat (length p) + 1 <= NODES_MAX ->
  post p 1 (binop_val kind va vb) (M (S f) kind (Ptr a) (Ptr b) k p).
Proof.
  intros Hwf Hkind Ha Hb Hno Hva Hvb Hcap.
  pose proof Hno as (Hna & Hz & HP & HS).
  rewrite (mk_unfold tgt l2r f kind a b k p na nb)
    by (destruct Hkind as [-> | ->]; auto).
  destruct (find_node p kind (Ptr a) (Ptr b) k) as [i |] eqn:F.
  - apply (mk_post_weaken tgt env p 0); [lia |].
    apply find_node_hit in F as (n & Hi & Hk & Hl & Hr & _).
    apply (hit_post tgt env p i n); auto.
    rewrite <- Hk. apply (eval_node_binop p i n a b va vb); auto. now rewrite Hk.
  - assert (Happ : rewrite_rules tgt l2r (M f) kind (Ptr a) (Ptr b) k p na nb
                   = append tgt kind (Ptr a) (Ptr b) k p).
    { destruct Hkind as [-> | ->].
      - destruct (HP eq_refl) as [Hab Hc].
        apply rule_none_plus; auto.
        + simpl. apply Nat.eqb_neq. auto.
        + intros Hk. apply (lr_is_int_false tgt p a na PLUS); auto.
      - destruct (HS eq_refl) as (Ho & Hc & Hd).
        apply rule_none_star; auto.
        + intros Hk. apply (lr_is_int_false tgt p a na STAR); auto.
        + intros Hkb Hk. apply (lr_is_int_false tgt p a na PLUS); auto. }
    rewrite Happ.
    assert (Hla : (a < length p)%nat) by (eapply lookup_lt_Some; eauto).
    assert (Hlb : (b < length p)%nat) by (eapply lookup_lt_Some; eauto).
    apply append_post; auto.
    + apply (ok_binop p _ _ a b na nb); auto.
    + lia.
    + intros p' Hwf' Hext Hm.
      change (binop_val kind va vb)
        with (binop_val (Node.kind (new_node tgt kind (Ptr a) (Ptr b) k)) va vb).
      apply (eval_node_binop p' _ _ a b va vb); auto.
      * now apply (eval_ext env p).
      * now apply (eval_ext env p).
Qed.
End MkCalls.

Lemma const_right_dec p op n : const_right p op n \/ ~ const_right p op n.
Proof.
  unfold const_right.
  destruct (Z.eq_dec (Node.kind n) op) as [E | E]; [| tauto].
  destruct (kind_at p (Node.r n)) as [k |]; [| right; intros [_ H]; discriminate].
  destruct (Z.eq_dec k INT) as [-> | E']; [tauto |].
  right. intros [_ H]. congruence.
Qed.

Lemma wrap32_add_0 v : in_int32 v -> wrap32 (v + 0) = v.
Proof. intros H. rewrite Z.add_0_r. now apply wrap32_id. Qed.

Lemma wrap32_mul_1 v : in_int32 v -> wrap32 (v * 1) = v.
Proof. intros H. rewrite Z.mul_1_r. now apply wrap32_id. Qed.

Lemma wrap32_assoc_add y b c :
  wrap32 (y + wrap32 (b + c)) = wrap32 (wrap32 (y + c) + b).
Proof. rewrite wrap32_add_r, wrap32_add_l. f_equal. lia. Qed.

Lemma wrap32_assoc_mul y b c :
  wrap32 (y * wrap32 (b * c)) = wrap32 (wrap32 (y * c) * b).
Proof. rewrite wrap32_mul_r, wrap32_mul_l. f_equal. lia. Qed.

Lemma wrap32_distr y c b :
  wrap32 (wrap32 (y * b) + wrap32 (c * b)) = wrap32 (wrap32 (y + c) * b).
Proof. rewrite wrap32_add_l, wrap32_add_r, wrap32_mul_l. f_equal. lia. Qed.

Lemma wrap32_double a : wrap32 (a * 2) = wrap32 (a + a).
Proof. f_equal. lia. Qed.

Section MkPlusLit.
Variable tgt : target.
Variable l2r : bool.
Variable env : Z -> Z.
Hypothesis env_int : forall c, in_int32 (env c).

Local Abbreviation M := (mk tgt l2r).
Local Abbreviation post := (mk_post tgt env).

(** *** [x + r] where [x] is neither a literal nor [y + k] *)

Lemma mk_plus_simple F a b k p na nb va vb :
  wf_pool tgt p -> p !! a = Some na -> p !! b = Some nb ->
  Node.kind na <> INT -> ~ const_right p PLUS na -> a <> b ->
  eval env p (Ptr a) = Some va -> eval env p (Ptr b) = Some vb ->
  Z.of_nat (length p) + 1 <= NODES_MAX -> (1 <= F)%nat ->
  post p 1 (wrap32 (va + vb)) (M F PLUS (Ptr a) (Ptr b) k p).
Proof.
  intros Hwf Ha Hb Hka Hc Hab Hva Hvb Hcap HF.
  destruct F as [| F]; [lia |].
  destruct (Z.eq_dec (Node.kind nb) INT) as [Ekb | Ekb];
    [destruct (Z.eq_dec (Node.intValue nb) 0) as [Ez | Ez] |].
  - (* x + 0 *)
    rewrite (mk_unfold tgt l2r F PLUS a b k p na nb) by auto.
    destruct (find_node p PLUS (Ptr a) (Ptr b) k) as [i |] eqn:Fd.
    { exfalso. destruct (find_no_rule tgt p PLUS a b k i na nb Hwf Fd Ha Hb)
        as [(_ & Hz & _) _]. tauto. }
    rewrite rule_plus_zero by assumption.
    rewrite (eval_leaf_int tgt env env_int p Hwf b nb Hb Ekb) in Hvb.
    injection Hvb as <-. rewrite Ez.
    rewrite wrap32_add_0 by (eapply eval_int32; eauto).
    apply mk_post_intro; auto using ext_refl; [lia |]. exists a, na. auto.
  - change (wrap32 (va + vb)) with (binop_val PLUS va vb).
    apply (mk_plain tgt l2r env env_int F PLUS a b k p na nb va vb); auto.
    split; [assumption |]. split; [tauto |].
    split; [intros _; auto | intros E; discriminate E].
  - change (wrap32 (va + vb)) with (binop_val PLUS va vb).
    apply (mk_plain tgt l2r env env_int F PLUS a b k p na nb va vb); auto.
    split; [assumption |]. split; [tauto |].
    split; [intros _; auto | intros E; discriminate E].
Qed.

(** *** [x + k] with a literal [k] *)

Lemma mk_plus_lit F a b k p na nb va :
  wf_pool tgt p -> p !! a = Some na -> p !! b = Some nb ->
  Node.kind na <> INT -> Node.kind nb = INT ->
  eval env p (Ptr a) = Some va ->
  Z.of_nat (length p) + 2 <= NODES_MAX -> (3 <= F)%nat ->
  post p 2 (wrap32 (va + Node.intValue nb)) (M F PLUS (Ptr a) (Ptr b) k p).
Proof.
  intros Hwf Ha Hb Hka Hkb Hva Hcap HF.
  assert (Hab : a <> b) by (intros ->; congruence).
  pose proof (eval_leaf_int tgt env env_int p Hwf b nb Hb Hkb) as Hvb.
  destruct (const_right_dec p PLUS na) as [Hc | Hc];
    [| apply (mk_post_weaken tgt env p 1); [lia |];
       apply (mk_plus_simple F a b k p na nb); auto; lia].
  destruct F as [| [| [| F]]]; try lia.
  rewrite (mk_unfold tgt l2r _ PLUS a b k p na nb) by auto.
  destruct (find_node p PLUS (Ptr a) (Ptr b) k) as [i |] eqn:Fd.
  { exfalso. destruct (find_no_rule tgt p PLUS a b k i na nb Hwf Fd Ha Hb)
      as [(_ & _ & HP & _) _]. destruct (HP eq_refl). tauto. }
  destruct (Z.eq_dec (Node.intValue nb) 0) as [Ez | Ez].
  { rewrite rule_plus_zero by assumption. rewrite Ez.
    rewrite wrap32_add_0 by (eapply eval_int32; eauto).
    apply mk_post_intro; auto using ext_refl; [lia |]. exists a, na. auto. }
  destruct Hc as [Hkp Hcr]. pose proof (conj Hkp Hcr) as Hc.
  destruct (wf_children tgt p a na Hwf Ha (or_introl Hkp))
    as (y & c & ny & nc & Hl & Hr & Hy & Hcl & Hny & Hnc & Hno).
  pose proof (const_right_kind p PLUS na c nc Hc Hr Hnc) as Hkc.
  rewrite rule_assoc_plus;
    [| assumption | eapply lr_is_int_true; eauto | tauto
     | simpl; apply Nat.eqb_neq; auto].
  rewrite Hl, Hr.
  destruct (mk_fold tgt l2r F PLUS b c 0 p nb nc Hwf (or_introl eq_refl) Hb Hnc Hkb Hkc
              ltac:(lia))
    as (p1 & j & nj & Heq & Hwf1 & Hext1 & Hlen1 & Hj & Hkj & Hvj).
  rewrite Heq. simpl.
  destruct (ext_lookup p p1 a na Hext1 Ha) as (na1 & Ha1 & Ek1 & El1 & Er1 & _).
  destruct (wf_children tgt p1 a na1 Hwf1 Ha1 ltac:(rewrite Ek1; auto))
    as (y' & c' & ny1 & nc1 & Hl1 & Hr1 & _ & _ & Hny1 & Hnc1 & Hno1).
  rewrite El1, Hl in Hl1. injection Hl1 as <-.
  rewrite Ek1, Hkp in Hno1. destruct Hno1 as (Hky1 & _ & HP1 & _).
  destruct (HP1 eq_refl) as [_ Hcy1].
  destruct (eval_total tgt env env_int p Hwf (Ptr y)) as (vy & Hvy & _);
    [exists y, ny; auto |].
  pose proof (eval_leaf_int tgt env env_int p Hwf c nc Hnc Hkc) as Hvc.
  pose proof (eval_node_binop tgt env env_int p a na y c vy _ Hwf Ha
                (or_introl Hkp) Hl Hr Hvy Hvc) as Hva'.
  rewrite Hva in Hva'. injection Hva' as ->. rewrite Hkp.
  unfold binop_val at 1. simpl.
  rewrite <- wrap32_assoc_add.
  change 2 with (1 + 1). apply (mk_post_from tgt env p 1 p1); [assumption | lia |].
  unfold binop_val in Hvj. simpl in Hvj.
  apply (mk_plus_simple (S (S F)) y j 0 p1 ny1 nj); auto.
  - intros ->. congruence.
  - now apply (eval_ext env p).
  - rewrite <- Hvj. apply (eval_leaf_int tgt env env_int p1 Hwf1 j nj Hj Hkj).
  - lia.
  - lia.
Qed.

(** *** A sum with a literal on either side *)

Lemma mk_plus_K F a b k p na nb va vb :
  wf_pool tgt p -> p !! a = Some na -> p !! b = Some nb ->
  Node.kind na = INT \/ Node.kind nb = INT ->
  eval env p (Ptr a) = Some va -> eval env p (Ptr b) = Some vb ->
  Z.of_nat (length p) + 2 <= NODES_MAX -> (3 <= F)%nat ->
  post p 2 (wrap32 (va + vb)) (M F PLUS (Ptr a) (Ptr b) k p).
Proof.
  intros Hwf Ha Hb Hk Hva Hvb Hcap HF.
  destruct (Z.eq_dec (Node.kind na) INT) as [Eka | Eka];
    destruct (Z.eq_dec (Node.kind nb) INT) as [Ekb | Ekb]; try tauto.
  - destruct F as [| [| F]]; try lia.
    rewrite (eval_leaf_int tgt env env_int p Hwf a na Ha Eka) in Hva.
    rewrite (eval_leaf_int tgt env env_int p Hwf b nb Hb Ekb) in Hvb.
    injection Hva as <-. injection Hvb as <-.
    apply (mk_post_weaken tgt env p 1); [lia |].
    apply mk_post_int_post; [assumption |].
    change (wrap32 (Node.intValue na + Node.intValue nb))
      with (binop_val PLUS (Node.intValue na) (Node.intValue nb)).
    apply mk_fold; auto. lia.
  - destruct F as [| F]; [lia |].
    rewrite (mk_swap tgt l2r F PLUS a b k p na nb) by auto.
    rewrite (eval_leaf_int tgt env env_int p Hwf a na Ha Eka) in Hva.
    injection Hva as <-. rewrite (Z.add_comm (Node.intValue na) vb).
    apply (mk_plus_lit (S F) b a k p nb na); auto.
  - rewrite (eval_leaf_int tgt env env_int p Hwf b nb Hb Ekb) in Hvb.
    injection Hvb as <-.
    apply (mk_plus_lit F a b k p na nb); auto.
Qed.
End MkPlusLit.

(** ** [mk] returns whenever [nodes] has room for a few more nodes *)

Lemma if_bool_case {A} (P : A -> Prop) (b : bool) (x y : A) :
  (b = true -> P x) -> (b = false -> P y) -> P (if b then x else y).
Proof. destruct b; auto. Qed.

Section MkMulRank.
Variable tgt : target.
Variable l2r : bool.
Variable env : Z -> Z.
Hypothesis env_int : forall c, in_int32 (env c).

Local Abbreviation M := (mk tgt l2r).
Local Abbreviation post := (mk_post tgt env).

(** *** [x * k] with a literal [k], by the shape of [x]: [n] is 0 when
    [x] is neither [y * k1] nor [y + k1], 1 when it is not [y + k1].  In
    a well-formed pool the left operand of [y * k1] is of the first kind
    and that of [y + k1] of the second, so the rewrites nest twice at
    most. *)

Lemma mk_mul_lit_r n : forall F a b k p na nb va,
  wf_pool tgt p -> p !! a = Some na -> p !! b = Some nb ->
  Node.kind na <> INT -> Node.kind nb = INT ->
  (n = 0%nat -> ~ const_right p STAR na /\ ~ const_right p PLUS na) ->
  (n = 1%nat -> ~ const_right p PLUS na) ->
  eval env p (Ptr a) = Some va ->
  Z.of_nat (length p) + (3 * Z.of_nat n + 2) <= NODES_MAX -> (n + 4 <= F)%nat ->
  post p (3 * Z.of_nat n + 2) (wrap32 (va * Node.intValue nb))
       (M F STAR (Ptr a) (Ptr b) k p).
Proof.
  induction n as [n IH] using lt_wf_ind.
  intros F a b k p na nb va Hwf Ha Hb Hka Hkb Hr0 Hr1 Hva Hcap HF.
  assert (Hab : a <> b) by (intros ->; congruence).
  pose proof (eval_leaf_int tgt env env_int p Hwf b nb Hb Hkb) as Hvb.
  set (vb := Node.intValue nb) in *.
  destruct F as [| [| [| F]]]; try lia.
  assert (Hmiss : ~ no_rule p STAR a b na nb ->
            M (S (S (S F))) STAR (Ptr a) (Ptr b) k p =
            rewrite_rules tgt l2r (M (S (S F))) STAR (Ptr a) (Ptr b) k p na nb).
  { intros Hn. rewrite (mk_unfold tgt l2r _ STAR a b k p na nb) by auto.
    destruct (find_node p STAR (Ptr a) (Ptr b) k) as [i |] eqn:Fd; [| reflexivity].
    exfalso. apply Hn. apply (find_no_rule tgt p STAR a b k i na nb Hwf Fd Ha Hb). }
  destruct (Z.eq_dec vb 0) as [Ez | Ez].
  { (* x * 0 *)
    rewrite Hmiss by (intros (_ & Hz & _); tauto).
    rewrite rule_star_zero by assumption.
    rewrite Ez, Z.mul_0_r. change (wrap32 0) with 0.
    apply (mk_post_weaken tgt env p 1); [lia |].
    apply mk_post_int_post; [assumption |].
    apply mk_int; auto; [unfold in_int32; lia | lia]. }
  destruct (Z.eq_dec vb 1) as [Eo | Eo].
  { (* x * 1 *)
    rewrite Hmiss by (intros (_ & _ & _ & HS); destruct (HS eq_refl); tauto).
    rewrite rule_star_one by assumption.
    rewrite Eo, wrap32_mul_1 by (eapply eval_int32; eauto).
    apply mk_post_intro; auto using ext_refl; [lia |]. exists a, na. auto. }
  destruct (const_right_dec p STAR na) as [Hc | Hcs].
  { (* (y * k1) * k *)
    rewrite Hmiss by (intros (_ & _ & _ & HS); destruct (HS eq_refl); tauto).
    pose proof Hc as [Hks _].
    destruct (wf_children tgt p a na Hwf Ha (or_intror Hks))
      as (y & c & ny & nc & Hl & Hr & Hy & Hcl & Hny & Hnc & Hno).
    pose proof (const_right_kind p STAR na c nc Hc Hr Hnc) as Hkc.
    rewrite rule_assoc_star;
      [| assumption | eapply lr_is_int_true; eauto | tauto | tauto].
    rewrite Hl, Hr.
    destruct (mk_fold tgt l2r F STAR b c 0 p nb nc Hwf (or_intror eq_refl) Hb Hnc Hkb Hkc
                ltac:(lia))
      as (p1 & j & nj & Heq & Hwf1 & Hext1 & Hlen1 & Hj & Hkj & Hvj).
    rewrite Heq. simpl.
    destruct (ext_lookup p p1 y ny Hext1 Hny) as (ny1 & Hny1 & Eky & _).
    pose proof (proj1 Hno) as Hky.
    destruct (eval_total tgt env env_int p Hwf (Ptr y)) as (vy & Hvy & _);
      [exists y, ny; auto |].
    pose proof (eval_leaf_int tgt env env_int p Hwf c nc Hnc Hkc) as Hvc.
    pose proof (eval_node_binop tgt env env_int p a na y c vy _ Hwf Ha
                  (or_intror Hks) Hl Hr Hvy Hvc) as Hva'.
    rewrite Hva in Hva'. injection Hva' as ->. rewrite Hks.
    unfold binop_val at 1. simpl.
    rewrite <- wrap32_assoc_mul.
    unfold binop_val in Hvj. simpl in Hvj. fold vb in Hvj. rewrite <- Hvj.
    assert (Hn0 : n <> 0%nat) by (intros E; destruct (Hr0 E); tauto).
    destruct (Hext1 y ny Hny) as (ny1' & Hny1' & Ety).
    rewrite Hny1 in Hny1'. injection Hny1' as <-.
    destruct Hno as (_ & _ & _ & HS). destruct (HS Hks) as (_ & Hys & Hyp).
    apply (mk_post_weaken tgt env p (1 + (3 * Z.of_nat 0 + 2))); [lia |].
    apply (mk_post_from tgt env p 1 p1); [assumption | lia |].
    apply (IH 0%nat ltac:(lia) (S (S F)) y j 0 p1 ny1 nj); auto.
    - congruence.
    - intros _. split; intros Hc1.
      + apply Hys. apply (const_right_ext_inv tgt p p1 Hwf Hext1 STAR y ny ny1 Hny Ety Hc1).
      + apply Hyp. split; [assumption |].
        apply (const_right_ext_inv tgt p p1 Hwf Hext1 PLUS y ny ny1 Hny Ety Hc1).
    - intros E. discriminate E.
    - now apply (eval_ext env p).
    - lia.
    - lia. }
  destruct (const_right_dec p PLUS na) as [Hc | Hcp].
  { (* (y + k2) * k *)
    rewrite Hmiss by (intros (_ & _ & _ & HS); destruct (HS eq_refl); tauto).
    pose proof Hc as [Hkp _].
    destruct (wf_children tgt p a na Hwf Ha (or_introl Hkp))
      as (y & c & ny & nc & Hl & Hr & Hy & Hcl & Hny & Hnc & Hno).
    pose proof (const_right_kind p PLUS na c nc Hc Hr Hnc) as Hkc.
    rewrite rule_distr; [| assumption | eapply lr_is_int_true; eauto | assumption ..].
    rewrite Hl, Hr.
    assert (Hn2 : (2 <= n)%nat).
    { destruct n as [| [| n']]; [destruct (Hr0 eq_refl); tauto | elim (Hr1 eq_refl); exact Hc | lia]. }
    pose proof (proj1 Hno) as Hky.
    assert (Hyp : ~ const_right p PLUS ny).
    { destruct Hno as (_ & _ & HP & _). destruct (HP Hkp) as [_ Hyp]. exact Hyp. }
    destruct (eval_total tgt env env_int p Hwf (Ptr y)) as (vy & Hvy & _);
      [exists y, ny; auto |].
    pose proof (eval_leaf_int tgt env env_int p Hwf c nc Hnc Hkc) as Hvc.
    pose proof (eval_node_binop tgt env env_int p a na y c vy _ Hwf Ha
                  (or_introl Hkp) Hl Hr Hvy Hvc) as Hva'.
    rewrite Hva in Hva'. injection Hva' as ->. rewrite Hkp.
    unfold binop_val at 1. simpl.
    rewrite <- wrap32_distr.
    apply (if_bool_case (post p _ _)); intros _.
    - (* the product with [y] first *)
      destruct (IH 1%nat ltac:(lia) (S (S F)) y b 0 p ny nb vy Hwf Hny Hb Hky Hkb
                  ltac:(intros E; discriminate E) ltac:(intros _; exact Hyp)
                  Hvy ltac:(lia) ltac:(lia))
        as (p1 & tA & Heq1 & Hwf1 & Hext1 & Hlen1 & HvalA & HevA).
      rewrite Heq1. simpl.
      destruct (ext_lookup p p1 c nc Hext1 Hnc) as (nc1 & Hnc1 & Ekc1 & _ & _ & Evc1).
      destruct (ext_lookup p p1 b nb Hext1 Hb) as (nb1 & Hnb1 & Ekb1 & _ & _ & Evb1).
      destruct (mk_fold tgt l2r F STAR c b 0 p1 nc1 nb1 Hwf1 (or_intror eq_refl) Hnc1 Hnb1
                  ltac:(congruence) ltac:(congruence) ltac:(lia))
        as (p2 & j & nj & Heq2 & Hwf2 & Hext2 & Hlen2 & Hj & Hkj & Hvj).
      rewrite Heq2. simpl.
      destruct (ext_valid p1 p2 tA Hext2 HvalA) as (ia & nA & -> & HnA).
      apply (mk_post_weaken tgt env p ((3 * Z.of_nat 1 + 2 + 1) + 2)); [lia |].
      apply (mk_post_from tgt env p _ p2); [eapply ext_trans; eauto | lia |].
      apply (mk_plus_K tgt l2r env env_int (S (S F)) ia j 0 p2 nA nj); auto.
      + now apply (eval_ext env p1).
      + rewrite (eval_leaf_int tgt env env_int p2 Hwf2 j nj Hj Hkj), Hvj.
        unfold binop_val. simpl. rewrite Evc1, Evb1. reflexivity.
      + lia.
      + lia.
    - (* the product of the literals first *)
      destruct (mk_fold tgt l2r F STAR c b 0 p nc nb Hwf (or_intror eq_refl) Hnc Hb
                  Hkc Hkb ltac:(lia))
        as (p1 & j & nj & Heq1 & Hwf1 & Hext1 & Hlen1 & Hj & Hkj & Hvj).
      rewrite Heq1. simpl.
      destruct (ext_lookup p p1 y ny Hext1 Hny) as (ny1 & Hny1 & Eky1 & _).
      destruct (Hext1 y ny Hny) as (ny1' & Hny1' & Ety).
      rewrite Hny1 in Hny1'. injection Hny1' as <-.
      destruct (ext_lookup p p1 b nb Hext1 Hb) as (nb1 & Hnb1 & Ekb1 & _ & _ & Evb1).
      assert (Hyp1 : ~ const_right p1 PLUS ny1).
      { intros Hc1. apply Hyp.
        apply (const_right_ext_inv tgt p p1 Hwf Hext1 PLUS y ny ny1 Hny Ety Hc1). }
      destruct (IH 1%nat ltac:(lia) (S (S F)) y b 0 p1 ny1 nb1 vy Hwf1 Hny1 Hnb1
                  ltac:(congruence) ltac:(congruence)
                  ltac:(intros E; discriminate E) ltac:(intros _; exact Hyp1)
                  (eval_ext env p p1 _ _ Hext1 Hvy) ltac:(lia) ltac:(lia))
        as (p2 & tA & Heq2 & Hwf2 & Hext2 & Hlen2 & HvalA & HevA).
      rewrite Heq2. simpl.
      destruct HvalA as (ia & nA & -> & HnA).
      destruct (ext_lookup p1 p2 j nj Hext2 Hj) as (nj2 & Hj2 & Ekj2 & _ & _ & Evj2).
      apply (mk_post_weaken tgt env p ((1 + (3 * Z.of_nat 1 + 2)) + 2)); [lia |].
      apply (mk_post_from tgt env p _ p2); [eapply ext_trans; eauto | lia |].
      apply (mk_plus_K tgt l2r env env_int (S (S F)) ia j 0 p2 nA nj2); auto.
      + right. congruence.
      + rewrite HevA, Evb1. reflexivity.
      + rewrite (eval_leaf_int tgt env env_int p2 Hwf2 j nj2 Hj2 ltac:(congruence)).
        rewrite Evj2, Hvj. reflexivity.
      + lia.
      + lia. }
  (* no rewrite applies *)
  apply (mk_post_weaken tgt env p 1); [lia |].
  change (wrap32 (va * vb)) with (binop_val STAR va vb).
  apply (mk_plain tgt l2r env env_int (S (S F)) STAR a b k p na nb va vb); auto; [| lia].
  split; [assumption |]. split; [tauto |].
  split; [intros E; discriminate E | intros _; tauto].
Qed.
(** In a well-formed pool a node [y op k] has index 2 at least. *)
Lemma const_right_index p op a na :
  wf_pool tgt p -> p !! a = Some na -> op = PLUS \/ op = STAR ->
  const_right p op na -> (2 <= a)%nat.
Proof.
  intros Hwf Ha Hop Hc. pose proof Hc as [Hk _].
  destruct (wf_children tgt p a na Hwf Ha ltac:(rewrite Hk; exact Hop))
    as (y & c & ny & nc & Hl & Hr & Hy & Hcl & Hny & Hnc & Hno).
  pose proof (const_right_kind p op na c nc Hc Hr Hnc) as Hkc.
  pose proof (proj1 Hno) as Hky.
  assert (y <> c) by (intros ->; congruence). lia.
Qed.

(** The same with the bounds that hold for every [x]: eight nodes at
    most are made. *)
Lemma mk_mul_lit_c F a b k p na nb va :
  wf_pool tgt p -> p !! a = Some na -> p !! b = Some nb ->
  Node.kind na <> INT -> Node.kind nb = INT ->
  eval env p (Ptr a) = Some va ->
  Z.of_nat (length p) + 8 <= NODES_MAX -> (a + 4 <= F)%nat ->
  post p 8 (wrap32 (va * Node.intValue nb)) (M F STAR (Ptr a) (Ptr b) k p).
Proof.
  intros Hwf Ha Hb Hka Hkb Hva Hcap HF.
  destruct (const_right_dec p PLUS na) as [Hcp | Hcp].
  { pose proof (const_right_index p PLUS a na Hwf Ha (or_introl eq_refl) Hcp).
    apply (mk_mul_lit_r 2 F a b k p na nb va); auto; lia. }
  destruct (const_right_dec p STAR na) as [Hcs | Hcs].
  { pose proof (const_right_index p STAR a na Hwf Ha (or_intror eq_refl) Hcs).
    apply (mk_post_weaken tgt env p (3 * Z.of_nat 1 + 2)); [lia |].
    apply (mk_mul_lit_r 1 F a b k p na nb va); auto; lia. }
  apply (mk_post_weaken tgt env p (3 * Z.of_nat 0 + 2)); [lia |].
  apply (mk_mul_lit_r 0 F a b k p na nb va); auto; lia.
Qed.
End MkMulRank.

Section MkRoom.
Variable tgt : target.
Variable l2r : bool.
Variable env : Z -> Z.
Hypothesis env_int : forall c, in_int32 (env c).

Local Abbreviation M := (mk tgt l2r).
Local Abbreviation post := (mk_post tgt env).

(** *** The general calls, with the room they need in [nodes] *)

(** A product with a literal on either side *)

Lemma mk_mul_K_c F a b k p na nb va vb :
  wf_pool tgt p -> p !! a = Some na -> p !! b = Some nb ->
  Node.kind na = INT \/ Node.kind nb = INT ->
  eval env p (Ptr a) = Some va -> eval env p (Ptr b) = Some vb ->
  Z.of_nat (length p) + 8 <= NODES_MAX ->
  (length p + 4 <= F)%nat ->
  post p 8 (wrap32 (va * vb)) (M F STAR (Ptr a) (Ptr b) k p).
Proof.
  intros Hwf Ha Hb Hk Hva Hvb Hcap HF.
  assert (Hla : (a < length p)%nat) by (eapply lookup_lt_Some; eauto).
  assert (Hlb : (b < length p)%nat) by (eapply lookup_lt_Some; eauto).
  destruct (Z.eq_dec (Node.kind na) INT) as [Eka | Eka];
    destruct (Z.eq_dec (Node.kind nb) INT) as [Ekb | Ekb]; try tauto.
  - destruct F as [| [| F]]; try lia.
    rewrite (eval_leaf_int tgt env env_int p Hwf a na Ha Eka) in Hva.
    rewrite (eval_leaf_int tgt env env_int p Hwf b nb Hb Ekb) in Hvb.
    injection Hva as <-. injection Hvb as <-.
    apply (mk_post_weaken tgt env p 1); [lia |].
    apply mk_post_int_post; [assumption |].
    change (wrap32 (Node.intValue na * Node.intValue nb))
      with (binop_val STAR (Node.intValue na) (Node.intValue nb)).
    apply mk_fold; auto. lia.
  - destruct F as [| F]; [lia |].
    rewrite (mk_swap tgt l2r F STAR a b k p na nb) by auto.
    rewrite (eval_leaf_int tgt env env_int p Hwf a na Ha Eka) in Hva.
    injection Hva as <-. rewrite (Z.mul_comm (Node.intValue na) vb).
    apply (mk_post_weaken tgt env p 8); [lia |].
    apply (mk_mul_lit_c tgt l2r env env_int (S F) b a k p nb na); auto; lia.
  - rewrite (eval_leaf_int tgt env env_int p Hwf b nb Hb Ekb) in Hvb.
    injection Hvb as <-.
    apply (mk_post_weaken tgt env p 8); [lia |].
    apply (mk_mul_lit_c tgt l2r env env_int F a b k p na nb); auto; lia.
Qed.

(** *** [x + x] *)

Lemma mk_double_c F a k p na va :
  wf_pool tgt p -> p !! a = Some na -> Node.kind na <> INT ->
  eval env p (Ptr a) = Some va ->
  Z.of_nat (length p) + 9 <= NODES_MAX -> (a + 5 <= F)%nat ->
  post p 9 (wrap32 (va + va)) (M F PLUS (Ptr a) (Ptr a) k p).
Proof.
  intros Hwf Ha Hka Hva Hcap HF.
  destruct F as [| [| F]]; try lia.
  rewrite (mk_unfold tgt l2r _ PLUS a a k p na na) by auto.
  destruct (find_node p PLUS (Ptr a) (Ptr a) k) as [i |] eqn:Fd.
  { exfalso. destruct (find_no_rule tgt p PLUS a a k i na na Hwf Fd Ha Ha)
      as [(_ & _ & HP & _) _]. destruct (HP eq_refl). congruence. }
  rewrite rule_double; [| assumption | assumption | simpl; apply Nat.eqb_refl].
  destruct (mk_int tgt l2r F 2 p Hwf ltac:(unfold in_int32; lia) ltac:(lia))
    as (p1 & j & nj & Heq & Hwf1 & Hext1 & Hlen1 & Hj & Hkj & Hvj).
  rewrite Heq. simpl.
  destruct (ext_lookup p p1 a na Hext1 Ha) as (na1 & Ha1 & Eka1 & _).
  rewrite (mk_swap tgt l2r F STAR j a 0 p1 nj na1) by (auto; congruence).
  rewrite <- wrap32_double, <- Hvj.
  apply (mk_post_weaken tgt env p (1 + 8)); [lia |].
  apply (mk_post_from tgt env p 1 p1); [assumption | lia |].
  apply (mk_mul_lit_c tgt l2r env env_int (S F) a j 0 p1 na1 nj); auto.
  - congruence.
  - now apply (eval_ext env p).
  - lia.
  - lia.
Qed.

(** *** [x + r] where [x] is not [y + k] *)

Lemma mk_plus_outer_c F a b k p na nb va vb :
  wf_pool tgt p -> p !! a = Some na -> p !! b = Some nb ->
  Node.kind na <> INT -> ~ const_right p PLUS na ->
  eval env p (Ptr a) = Some va -> eval env p (Ptr b) = Some vb ->
  Z.of_nat (length p) + 9 <= NODES_MAX -> (a + 5 <= F)%nat ->
  post p 9 (wrap32 (va + vb)) (M F PLUS (Ptr a) (Ptr b) k p).
Proof.
  intros Hwf Ha Hb Hka Hc Hva Hvb Hcap HF.
  destruct (decide (a = b)) as [<- | Hab].
  - rewrite Hvb in Hva. injection Hva as ->.
    apply (mk_double_c F a k p na); auto.
  - apply (mk_post_weaken tgt env p 1); [lia |].
    apply (mk_plus_simple tgt l2r env env_int F a b k p na nb); auto; lia.
Qed.

(** *** The general sum *)

Lemma mk_plus_c F a b k p na nb va vb :
  wf_pool tgt p -> p !! a = Some na -> p !! b = Some nb ->
  eval env p (Ptr a) = Some va -> eval env p (Ptr b) = Some vb ->
  Z.of_nat (length p) + 11 <= NODES_MAX ->
  (length p + 5 <= F)%nat ->
  post p 11 (wrap32 (va + vb)) (M F PLUS (Ptr a) (Ptr b) k p).
Proof.
  intros Hwf Ha Hb Hva Hvb Hcap HF.
  assert (Hla : (a < length p)%nat) by (eapply lookup_lt_Some; eauto).
  assert (Hlb : (b < length p)%nat) by (eapply lookup_lt_Some; eauto).
  destruct (Z.eq_dec (Node.kind na) INT) as [Eka | Eka];
    [apply (mk_post_weaken tgt env p 2); [lia |];
     apply (mk_plus_K tgt l2r env env_int F a b k p na nb); auto; lia |].
  destruct (Z.eq_dec (Node.kind nb) INT) as [Ekb | Ekb];
    [apply (mk_post_weaken tgt env p 2); [lia |];
     apply (mk_plus_K tgt l2r env env_int F a b k p na nb); auto; lia |].
  destruct (const_right_dec p PLUS na) as [Hc | Hc];
    [| apply (mk_post_weaken tgt env p 9); [lia |];
       apply (mk_plus_outer_c F a b k p na nb); auto; lia].
  destruct (decide (a = b)) as [<- | Hab].
  { rewrite Hvb in Hva. injection Hva as ->.
    apply (mk_post_weaken tgt env p 9); [lia |].
    apply (mk_double_c F a k p na); auto; lia. }
  destruct F as [| F]; [lia |].
  rewrite (mk_unfold tgt l2r _ PLUS a b k p na nb) by auto.
  destruct (find_node p PLUS (Ptr a) (Ptr b) k) as [i |] eqn:Fd.
  { exfalso. destruct (find_no_rule tgt p PLUS a b k i na nb Hwf Fd Ha Hb)
      as [(_ & _ & HP & _) _]. destruct (HP eq_refl). tauto. }
  pose proof Hc as [Hkp _].
  destruct (wf_children tgt p a na Hwf Ha (or_introl Hkp))
    as (y & c & ny & nc & Hl & Hr & Hy & Hcl & Hny & Hnc & Hno).
  pose proof (const_right_kind p PLUS na c nc Hc Hr Hnc) as Hkc.
  rewrite rule_assoc_plus;
    [| assumption | eapply lr_is_int_true; eauto | tauto
     | simpl; apply Nat.eqb_neq; auto].
  rewrite Hl, Hr.
  destruct (eval_total tgt env env_int p Hwf (Ptr y)) as (vy & Hvy & _);
    [exists y, ny; auto |].
  pose proof (eval_leaf_int tgt env env_int p Hwf c nc Hnc Hkc) as Hvc.
  pose proof (eval_node_binop tgt env env_int p a na y c vy _ Hwf Ha
                (or_introl Hkp) Hl Hr Hvy Hvc) as Hva'.
  rewrite Hva in Hva'. injection Hva' as ->. rewrite Hkp.
  rewrite binop_val_plus, <- wrap32_assoc_add.
  destruct (mk_plus_K tgt l2r env env_int F b c 0 p nb nc vb _ Hwf Hb Hnc
              (or_intror Hkc) Hvb Hvc ltac:(lia) ltac:(lia))
    as (p1 & t & Heq & Hwf1 & Hext1 & Hlen1 & Hvalt & Hevt).
  rewrite Heq. simpl.
  destruct Hvalt as (j & nj & -> & Hj).
  destruct (ext_lookup p p1 a na Hext1 Ha) as (na1 & Ha1 & Ek1 & El1 & Er1 & _).
  destruct (wf_children tgt p1 a na1 Hwf1 Ha1 ltac:(rewrite Ek1; auto))
    as (y' & c' & ny1 & nc1 & Hl1 & Hr1 & _ & _ & Hny1 & Hnc1 & Hno1).
  rewrite El1, Hl in Hl1. injection Hl1 as <-.
  rewrite Ek1, Hkp in Hno1. destruct Hno1 as (Hky1 & _ & HP1 & _).
  destruct (HP1 eq_refl) as [_ Hcy1].
  apply (mk_post_weaken tgt env p (2 + 9)); [lia |].
  apply (mk_post_from tgt env p 2 p1); [assumption | lia |].
  apply (mk_plus_outer_c F y j 0 p1 ny1 nj); auto.
  - now apply (eval_ext env p).
  - lia.
  - lia.
Qed.

(** *** [x * r] where [x] is not [y * k] *)

Lemma mk_mul_outer_c F a b k p na nb va vb :
  wf_pool tgt p -> p !! a = Some na -> p !! b = Some nb ->
  Node.kind na <> INT -> ~ const_right p STAR na ->
  eval env p (Ptr a) = Some va -> eval env p (Ptr b) = Some vb ->
  Z.of_nat (length p) + 8 <= NODES_MAX -> (a + 4 <= F)%nat ->
  post p 8 (wrap32 (va * vb)) (M F STAR (Ptr a) (Ptr b) k p).
Proof.
  intros Hwf Ha Hb Hka Hc Hva Hvb Hcap HF.
  destruct (Z.eq_dec (Node.kind nb) INT) as [Ekb | Ekb].
  - rewrite (eval_leaf_int tgt env env_int p Hwf b nb Hb Ekb) in Hvb.
    injection Hvb as <-.
    apply (mk_mul_lit_c tgt l2r env env_int F a b k p na nb); auto.
  - destruct F as [| F]; [lia |].
    apply (mk_post_weaken tgt env p 1); [lia |].
    change (wrap32 (va * vb)) with (binop_val STAR va vb).
    apply (mk_plain tgt l2r env env_int F STAR a b k p na nb va vb); auto; [| lia].
    split; [assumption |]. split; [tauto |].
    split; [intros E; discriminate E | intros _; tauto].
Qed.

(** *** The general product *)

Lemma mk_mul_c F a b k p na nb va vb :
  wf_pool tgt p -> p !! a = Some na -> p !! b = Some nb ->
  eval env p (Ptr a) = Some va -> eval env p (Ptr b) = Some vb ->
  Z.of_nat (length p) + 16 <= NODES_MAX ->
  (length p + 5 <= F)%nat ->
  post p 16 (wrap32 (va * vb)) (M F STAR (Ptr a) (Ptr b) k p).
Proof.
  intros Hwf Ha Hb Hva Hvb Hcap HF.
  assert (Hla : (a < length p)%nat) by (eapply lookup_lt_Some; eauto).
  assert (Hlb : (b < length p)%nat) by (eapply lookup_lt_Some; eauto).
  destruct (Z.eq_dec (Node.kind na) INT) as [Eka | Eka];
    [apply (mk_post_weaken tgt env p 8); [lia |];
     apply (mk_mul_K_c F a b k p na nb); auto; lia |].
  destruct (Z.eq_dec (Node.kind nb) INT) as [Ekb | Ekb];
    [apply (mk_post_weaken tgt env p 8); [lia |];
     apply (mk_mul_K_c F a b k p na nb); auto; lia |].
  destruct (const_right_dec p STAR na) as [Hc | Hc];
    [| apply (mk_post_weaken tgt env p 8); [lia |];
       apply (mk_mul_outer_c F a b k p na nb); auto; lia].
  destruct F as [| F]; [lia |].
  rewrite (mk_unfold tgt l2r _ STAR a b k p na nb) by auto.
  destruct (find_node p STAR (Ptr a) (Ptr b) k) as [i |] eqn:Fd.
  { exfalso. destruct (find_no_rule tgt p STAR a b k i na nb Hwf Fd Ha Hb)
      as [(_ & _ & _ & HS) _]. destruct (HS eq_refl). tauto. }
  pose proof Hc as [Hks _].
  destruct (wf_children tgt p a na Hwf Ha (or_intror Hks))
    as (y & c & ny & nc & Hl & Hr & Hy & Hcl & Hny & Hnc & Hno).
  pose proof (const_right_kind p STAR na c nc Hc Hr Hnc) as Hkc.
  rewrite rule_assoc_star;
    [| assumption | eapply lr_is_int_true; eauto | tauto | tauto].
  rewrite Hl, Hr.
  destruct (eval_total tgt env env_int p Hwf (Ptr y)) as (vy & Hvy & _);
    [exists y, ny; auto |].
  pose proof (eval_leaf_int tgt env env_int p Hwf c nc Hnc Hkc) as Hvc.
  pose proof (eval_node_binop tgt env env_int p a na y c vy _ Hwf Ha
                (or_intror Hks) Hl Hr Hvy Hvc) as Hva'.
  rewrite Hva in Hva'. injection Hva' as ->. rewrite Hks.
  rewrite binop_val_star, <- wrap32_assoc_mul.
  destruct (mk_mul_lit_c tgt l2r env env_int F b c 0 p nb nc vb Hwf Hb Hnc Ekb Hkc
              Hvb ltac:(lia) ltac:(lia))
    as (p1 & t & Heq & Hwf1 & Hext1 & Hlen1 & Hvalt & Hevt).
  rewrite Heq. simpl.
  destruct Hvalt as (j & nj & -> & Hj).
  destruct (ext_lookup p p1 a na Hext1 Ha) as (na1 & Ha1 & Ek1 & El1 & Er1 & _).
  destruct (wf_children tgt p1 a na1 Hwf1 Ha1 ltac:(rewrite Ek1; auto))
    as (y' & c' & ny1 & nc1 & Hl1 & Hr1 & _ & _ & Hny1 & Hnc1 & Hno1).
  rewrite El1, Hl in Hl1. injection Hl1 as <-.
  rewrite Ek1, Hks in Hno1. destruct Hno1 as (Hky1 & _ & _ & HS1).
  destruct (HS1 eq_refl) as (_ & Hcy1 & _).
  apply (mk_post_weaken tgt env p (8 + 8)); [lia |].
  apply (mk_post_from tgt env p _ p1); [assumption | lia |].
  apply (mk_mul_outer_c F y j 0 p1 ny1 nj); auto.
  - now apply (eval_ext env p).
  - lia.
  - lia.
Qed.
End MkRoom.

(** ** The rewrite engine: interning, folding, identities *)

Section Engine.
Variable tgt : target.
Variable l2r : bool.

Local Abbreviation M := (mk tgt l2r).

(** A literal or name already in the pool is found at its own index. *)
Lemma find_leaf p i n :
  wf_pool tgt p -> p !! i = Some n -> Node.kind n = INT \/ Node.kind n = NAME ->
  find_node p (Node.kind n) NULL NULL (Node.intValue n) = Some i.
Proof.
  intros Hwf Hi Hk. pose proof (wf_uniq _ _ Hwf i n Hi) as Hu.
  destruct (wf_ok _ _ Hwf i n Hi) as [_ Hl Hr _ | a b na nb Hk' _ _ _ _ _ _ _].
  - now rewrite Hl, Hr in Hu.
  - exfalso. unfold PLUS, STAR, INT, NAME in *. lia.
Qed.

Lemma mk_int_hit f p i n :
  wf_pool tgt p -> p !! i = Some n -> Node.kind n = INT ->
  M (S f) INT NULL NULL (Node.intValue n) p
  = Ok (alter (Node.set_shared (mark tgt)) i p, Ptr i).
Proof.
  intros Hwf Hi Hk. rewrite mk_leaf_unfold by reflexivity.
  pose proof (find_leaf p i n Hwf Hi (or_introl Hk)) as Hf. rewrite Hk in Hf.
  now rewrite Hf.
Qed.

(** Two literals: the call is the interning of the folded literal. *)
Lemma mk_fold_eq f kind a b k p na nb :
  wf_pool tgt p -> kind = PLUS \/ kind = STAR ->
  p !! a = Some na -> p !! b = Some nb ->
  Node.kind na = INT -> Node.kind nb = INT ->
  M (S (S f)) kind (Ptr a) (Ptr b) k p
  = M (S f) INT NULL NULL (binop_val kind (Node.intValue na) (Node.intValue nb)) p.
Proof.
  intros Hwf Hkind Ha Hb Hka Hkb.
  rewrite (mk_unfold_swap tgt l2r (S f) kind a b k p na nb)
    by (destruct Hkind as [-> | ->]; auto).
  destruct (find_node p kind (Ptr b) (Ptr a) k) as [i |] eqn:F.
  - exfalso. destruct (find_no_rule tgt p kind b a k i nb na Hwf F Hb Ha) as [[H _] _].
    contradiction.
  - destruct Hkind as [-> | ->].
    + rewrite rule_fold_plus by assumption.
      rewrite binop_val_plus, Z.add_comm. reflexivity.
    + rewrite rule_fold_star by assumption.
      rewrite binop_val_star, Z.mul_comm. reflexivity.
Qed.

Lemma mk_int_shape f k p :
  Z.of_nat (length p) < NODES_MAX ->
  exists p' i n, M (S f) INT NULL NULL k p = Ok (p', Ptr i) /\
    p' !! i = Some n /\ Node.kind n = INT /\ Node.intValue n = k /\
    (p' = alter (Node.set_shared (mark tgt)) i p \/
     p' = p ++ [new_node tgt INT NULL NULL k]).
Proof.
  intros Hcap. rewrite mk_leaf_unfold by reflexivity.
  destruct (find_node p INT NULL NULL k) as [i |] eqn:F.
  - destruct (find_node_hit _ _ _ _ _ _ F) as (n & Hi & Hk & _ & _ & Hv).
    exists (alter (Node.set_shared (mark tgt)) i p), i, (Node.set_shared (mark tgt) n).
    split; [reflexivity |].
    split; [rewrite list_lookup_alter_eq, Hi; reflexivity |]. auto.
  - unfold append. rewrite (proj2 (Z.ltb_lt _ _) Hcap).
    exists (p ++ [new_node tgt INT NULL NULL k]), (length p), (new_node tgt INT NULL NULL k).
    split; [reflexivity |].
    split; [apply list_lookup_middle; reflexivity |]. auto.
Qed.
End Engine.

(** C5: building [Add(Int k1, Int k2)] or [Mul(Int k1, Int k2)] yields the
    one literal node holding the sum or product in 32-bit arithmetic; the
    pool is left as it was up to the share count of that literal, or grows
    by exactly that literal, so no binary node is added. *)
Theorem mk_constant_folding (tgt : target) (l2r : bool) (p : pool)
    (a b : nat) (na nb : node) (k : Z) (fuel : nat) :
  wf_pool tgt p -> p !! a = Some na -> p !! b = Some nb ->
  Node.kind na = INT -> Node.kind nb = INT ->
  Z.of_nat (length p) < NODES_MAX -> (2 <= fuel)%nat ->
  (exists p' i n,
      mk tgt l2r fuel PLUS (Ptr a) (Ptr b) k p = Ok (p', Ptr i) /\
      p' !! i = Some n /\ Node.kind n = INT /\
      Node.intValue n = wrap32 (Node.intValue na + Node.intValue nb) /\
      (p' = alter (Node.set_shared (mark tgt)) i p \/
       p' = p ++ [new_node tgt INT NULL NULL (wrap32 (Node.intValue na + Node.intValue nb))]))
  /\
  (exists p' i n,
      mk tgt l2r fuel STAR (Ptr a) (Ptr b) k p = Ok (p', Ptr i) /\
      p' !! i = Some n /\ Node.kind n = INT /\
      Node.intValue n = wrap32 (Node.intValue na * Node.intValue nb) /\
      (p' = alter (Node.set_shared (mark tgt)) i p \/
       p' = p ++ [new_node tgt INT NULL NULL (wrap32 (Node.intValue na * Node.intValue nb))])).
Proof.
  intros Hwf Ha Hb Hka Hkb Hcap Hfuel.
  destruct fuel as [| [| f]]; try lia.
  split.
  - rewrite (mk_fold_eq tgt l2r f PLUS a b k p na nb) by auto.
    rewrite binop_val_plus. now apply mk_int_shape.
  - rewrite (mk_fold_eq tgt l2r f STAR a b k p na nb) by auto.
    rewrite binop_val_star. now apply mk_int_shape.
Qed.

(** C4: for any node [x] of the pool, [Mul(x, Int 0)] is the interned
    [Int 0] itself, and [Mul(x, Int 1)] and [Add(x, Int 0)] are [x] itself;
    the pool gains no node (at most a share count moves). *)
Theorem mk_identities (tgt : target) (l2r : bool) (p : pool)
    (x z : nat) (nx nz : node) (k : Z) (fuel : nat) :
  wf_pool tgt p -> p !! x = Some nx -> p !! z = Some nz ->
  Node.kind nz = INT -> (2 <= fuel)%nat ->
  (Node.intValue nz = 0 ->
     mk tgt l2r fuel STAR (Ptr x) (Ptr z) k p
     = Ok (alter (Node.set_shared (mark tgt)) z p, Ptr z)) /\
  (Node.intValue nz = 1 ->
     exists p', mk tgt l2r fuel STAR (Ptr x) (Ptr z) k p = Ok (p', Ptr x) /\
       (p' = p \/ p' = alter (Node.set_shared (mark tgt)) x p)) /\
  (Node.intValue nz = 0 ->
     exists p', mk tgt l2r fuel PLUS (Ptr x) (Ptr z) k p = Ok (p', Ptr x) /\
       (p' = p \/ p' = alter (Node.set_shared (mark tgt)) x p)).
Proof.
  intros Hwf Hx Hz Hkz Hfuel.
  destruct fuel as [| [| f]]; try lia.
  assert (Hmiss : forall kind, kind = PLUS \/ kind = STAR ->
            Node.kind nx <> INT -> Node.intValue nz = 0 \/ (kind = STAR /\ Node.intValue nz = 1) ->
            mk tgt l2r (S (S f)) kind (Ptr x) (Ptr z) k p
            = rewrite_rules tgt l2r (mk tgt l2r (S f)) kind (Ptr x) (Ptr z) k p nx nz).
  { intros kind Hkind Hkx Hv.
    rewrite (mk_unfold tgt l2r _ kind x z k p nx nz)
      by (destruct Hkind as [-> | ->]; auto).
    destruct (find_node p kind (Ptr x) (Ptr z) k) as [i |] eqn:Fd; [| reflexivity].
    exfalso. destruct (find_no_rule tgt p kind x z k i nx nz Hwf Fd Hx Hz)
      as [(_ & H0 & _ & HS) _].
    destruct Hv as [Hv | [-> Hv]]; [tauto |]. destruct (HS eq_refl). tauto. }
  assert (Hrange : Node.kind nx = INT -> in_int32 (Node.intValue nx)).
  { intros Hkx. destruct (wf_ok _ _ Hwf x nx Hx) as [_ _ _ Hv | ? ? ? ? Hk' _ _ _ _ _ _ _];
      [assumption | exfalso; unfold PLUS, STAR, INT in *; lia]. }
  destruct (Z.eq_dec (Node.kind nx) INT) as [Hkx | Hkx].
  - (* [x] is a literal: the operands are exchanged and folded *)
    split; [| split]; intros Hv.
    + rewrite (mk_fold_eq tgt l2r f STAR x z k p nx nz) by auto.
      rewrite binop_val_star, Hv, Z.mul_0_r. change (wrap32 0) with 0.
      rewrite <- Hv. now apply mk_int_hit.
    + rewrite (mk_fold_eq tgt l2r f STAR x z k p nx nz) by auto.
      rewrite binop_val_star, Hv, wrap32_mul_1 by auto.
      eexists. split; [now apply mk_int_hit | auto].
    + rewrite (mk_fold_eq tgt l2r f PLUS x z k p nx nz) by auto.
      rewrite binop_val_plus, Hv, wrap32_add_0 by auto.
      eexists. split; [now apply mk_int_hit | auto].
  - split; [| split]; intros Hv.
    + rewrite Hmiss by auto. rewrite rule_star_zero by assumption.
      rewrite <- Hv. now apply mk_int_hit.
    + rewrite Hmiss by auto. rewrite rule_star_one by assumption. eauto.
    + rewrite Hmiss by auto. rewrite rule_plus_zero by assumption. eauto.
Qed.

Lemma canon_cases p kind l r l' r' :
  canon p kind l r = Ok (l', r') -> (l' = l /\ r' = r) \/ (l' = r /\ r' = l).
Proof.
  unfold canon. destruct (is_binop kind); [| intros [= <- <-]; auto].
  destruct (deref p l) as [nl | | |]; simpl; try discriminate.
  destruct (Node.kind nl =? INT); intros [= <- <-]; auto.
Qed.

(** C2 (as amended): when the canonicalized [(kind, l, r, value)] is the
    tuple of a node already in the pool, [mk] returns that node and appends
    nothing; the RISC-V program increments its share count, which starts at
    1 and is therefore at least 2 afterwards, while the x86 program sets its
    [shared] flag to 1. *)
Theorem mk_intern_hit (tgt : target) (l2r : bool) (p : pool) (kind : token_t)
    (l r l' r' : ast_t) (k : Z) (i : nat) (n : node) (fuel : nat) :
  wf_pool tgt p -> canon p kind l r = Ok (l', r') ->
  p !! i = Some n -> tuple_of n = (kind, l', r', k) -> (1 <= fuel)%nat ->
  let p' := alter (Node.set_shared (mark tgt)) i p in
  mk tgt l2r fuel kind l r k p = Ok (p', Ptr i) /\
  length p' = length p /\
  exists n', p' !! i = Some n' /\ tuple_of n' = tuple_of n /\
    match tgt with
    | RISCV => Node.shared n' = Node.shared n + 1 /\ 2 <= Node.shared n'
    | X86 => Node.shared n' = 1
    end.
Proof.
  intros Hwf Hcanon Hi Htup Hfuel p'.
  destruct fuel as [| f]; [lia |].
  unfold tuple_of in Htup. injection Htup as Hk Hl Hr Hv.
  destruct (node_ok_not_indet p i n (wf_ok _ _ Hwf i n Hi)) as [Hnl Hnr].
  assert (Hind : is_indet l || is_indet r = false).
  { destruct (canon_cases _ _ _ _ _ _ Hcanon) as [[-> ->] | [-> ->]];
      rewrite <- Hl in *; rewrite <- Hr in *;
      destruct (Node.l n), (Node.r n); simpl; congruence. }
  split; [| split].
  - rewrite mk_S. unfold mk_body. rewrite Hind, Hcanon. simpl.
    pose proof (wf_uniq _ _ Hwf i n Hi) as Hu. rewrite Hk, Hl, Hr, Hv in Hu.
    now rewrite Hu.
  - apply length_alter.
  - exists (Node.set_shared (mark tgt) n).
    split; [unfold p'; rewrite list_lookup_alter_eq, Hi; reflexivity |].
    split; [reflexivity |].
    pose proof (wf_shared _ _ Hwf i n Hi) as Hs.
    destruct tgt; simpl in *; lia.
Qed.

(** C6 (as amended): for a node [x] that is not a literal, [Add(x, x)] is
    what building [Mul(Int 2, x)] gives, and for a name [x] that is the node
    [Mul(x, Int 2)], the constant on the right; for a literal the sum is
    folded.  For the input "x+x" the AST is printed "(x*2)" (the x86
    program), and the code of both programs returns 4 under the default
    environment. *)
Theorem mk_add_self (tgt : target) (l2r : bool) (p : pool) (a : nat) (na : node)
    (k : Z) (fuel : nat) :
  wf_pool tgt p -> p !! a = Some na ->
  Z.of_nat (length p) + 2 <= NODES_MAX -> (2 <= fuel)%nat ->
  (Node.kind na <> INT ->
     mk tgt l2r (S fuel) PLUS (Ptr a) (Ptr a) k p
     = (let* (p1, two) := mk tgt l2r fuel INT NULL NULL 2 p in
        mk tgt l2r fuel STAR two (Ptr a) 0 p1)) /\
  (Node.kind na = NAME ->
     exists p' i n j nj,
       mk tgt l2r (S fuel) PLUS (Ptr a) (Ptr a) k p = Ok (p', Ptr i) /\
       p' !! i = Some n /\ Node.kind n = STAR /\
       Node.l n = Ptr a /\ Node.r n = Ptr j /\
       p' !! j = Some nj /\ Node.kind nj = INT /\ Node.intValue nj = 2) /\
  (Node.kind na = INT ->
     mk tgt l2r (S fuel) PLUS (Ptr a) (Ptr a) k p
     = mk tgt l2r fuel INT NULL NULL (wrap32 (Node.intValue na + Node.intValue na)) p) /\
  main X86 l2r default_env env_at cse_at "x+x" = Ok (Done "(x*2)" 5 4) /\
  (exists text count,
     main RISCV l2r default_env env_at cse_at "x+x" = Ok (Done text count 4)).
Proof.
  intros Hwf Ha Hcap Hfuel.
  assert (Hdouble : Node.kind na <> INT ->
     mk tgt l2r (S fuel) PLUS (Ptr a) (Ptr a) k p
     = (let* (p1, two) := mk tgt l2r fuel INT NULL NULL 2 p in
        mk tgt l2r fuel STAR two (Ptr a) 0 p1)).
  { intros Hka.
    rewrite (mk_unfold tgt l2r _ PLUS a a k p na na) by auto.
    destruct (find_node p PLUS (Ptr a) (Ptr a) k) as [i |] eqn:Fd.
    { exfalso. destruct (find_no_rule tgt p PLUS a a k i na na Hwf Fd Ha Ha)
        as [(_ & _ & HP & _) _]. destruct (HP eq_refl). congruence. }
    apply rule_double; [assumption | assumption | simpl; apply Nat.eqb_refl]. }
  split; [exact Hdouble |]. split.
  - intros Hkn.
    assert (Hka : Node.kind na <> INT) by (rewrite Hkn; discriminate).
    rewrite (Hdouble Hka).
    destruct fuel as [| [| f]]; try lia.
    destruct (mk_leaf tgt l2r (S f) INT 2 p Hwf (or_introl eq_refl)
                ltac:(unfold in_int32; lia) ltac:(lia))
      as (p1 & j & nj & Heq & Hwf1 & Hext1 & Hlen1 & Hj & Hkj & Hvj).
    rewrite Heq. simpl.
    destruct (ext_lookup p p1 a na Hext1 Ha) as (na1 & Ha1 & Eka1 & _).
    rewrite (mk_swap tgt l2r (S f) STAR j a 0 p1 nj na1) by (auto; congruence).
    rewrite (mk_unfold tgt l2r _ STAR a j 0 p1 na1 nj) by (auto; congruence).
    destruct (find_node p1 STAR (Ptr a) (Ptr j) 0) as [i |] eqn:Fd.
    + destruct (find_node_hit _ _ _ _ _ _ Fd) as (n & Hi & Hk & Hl & Hr & _).
      exists (alter (Node.set_shared (mark tgt)) i p1), i,
             (Node.set_shared (mark tgt) n), j.
      assert (Hij : i <> j) by (intros ->; rewrite Hj in Hi; injection Hi as ->;
                                rewrite Hk in Hkj; discriminate).
      exists nj. split; [reflexivity |].
      split; [rewrite list_lookup_alter_eq, Hi; reflexivity |].
      split; [assumption |]. split; [assumption |]. split; [assumption |].
      split; [rewrite list_lookup_alter_ne by auto; assumption | auto].
    + rewrite rule_none_star.
      * unfold append.
        rewrite (proj2 (Z.ltb_lt _ _)) by lia.
        exists (p1 ++ [new_node tgt STAR (Ptr a) (Ptr j) 0]), (length p1),
               (new_node tgt STAR (Ptr a) (Ptr j) 0), j, nj.
        split; [reflexivity |].
        split; [apply list_lookup_middle; reflexivity |].
        split; [reflexivity |]. split; [reflexivity |]. split; [reflexivity |].
        split; [rewrite lookup_app_l; eauto using lookup_lt_Some | auto].
      * congruence.
      * rewrite Hvj. intros [_ E]. discriminate E.
      * rewrite Hvj. intros [_ E]. discriminate E.
      * intros E. rewrite Eka1, Hkn in E. discriminate E.
      * intros _ E. rewrite Eka1, Hkn in E. discriminate E.
  - split; [| split].
    + intros Hki. destruct fuel as [| f]; [lia |].
      rewrite (mk_fold_eq tgt l2r f PLUS a a k p na na) by auto.
      rewrite binop_val_plus. reflexivity.
    + destruct l2r; vm_compute; reflexivity.
    + destruct l2r; eexists; eexists; vm_compute; reflexivity.
Qed.

(** ** Generator B: registers *)

Lemma rbind_Ok {A B} (m : result A) (f : A -> result B) (y : B) :
  rbind m f = Ok y -> exists x, m = Ok x /\ f x = Ok y.
Proof. destruct m; simpl; try discriminate. eauto. Qed.

Lemma genB_emit_inv w st st' :
  GenB.emit w st = Ok st' ->
  GenB.nodes st' = GenB.nodes st /\ GenB.reg_poll st' = GenB.reg_poll st /\
  GenB.next_free st' = GenB.next_free st /\ GenB.code st' = GenB.code st ++ [u32 w].
Proof.
  unfold GenB.emit. destruct (_ <=? _); [| discriminate].
  intros [= <-]. simpl. auto.
Qed.

Lemma genB_alloc_spec i st st' :
  GenB.alloc i st = Ok st' ->
  exists n x, GenB.nodes st !! i = Some n /\
    GenB.nodes st' = alter (Node.set_reg x) i (GenB.nodes st) /\
    GenB.reg_poll st' = GenB.reg_poll st /\ GenB.code st' = GenB.code st /\
    ((Node.alloc n <> 0 /\ x = Node.alloc n /\ GenB.next_free st' = GenB.next_free st) \/
     (Node.alloc n = 0 /\ (GenB.next_free st < GenB.NREGS)%nat /\
      GenB.reg_poll st !! GenB.next_free st = Some x /\
      GenB.next_free st' = S (GenB.next_free st))).
Proof.
  unfold GenB.alloc. intros H.
  apply rbind_Ok in H as (n & Hn & H). apply deref_Ok in Hn as (j & [= <-] & Hn).
  destruct (Z.eqb_spec (Node.alloc n) 0) as [Ea | Ea]; simpl in H.
  - destruct (Nat.ltb_spec (GenB.next_free st) GenB.NREGS) as [Hlt | Hge]; [| discriminate].
    destruct (GenB.reg_poll st !! GenB.next_free st) as [x |] eqn:Ex; [| discriminate].
    injection H as <-. exists n, x. simpl. tauto.
  - injection H as <-. exists n, (Node.alloc n). simpl. tauto.
Qed.

Lemma genB_use_spec i st st' x :
  GenB.use i st = Ok (st', x) ->
  exists n, GenB.nodes st !! i = Some n /\ x = Node.reg n /\ 0 < Node.shared n /\
    GenB.nodes st' = alter (Node.set_shared (fun _ => Node.shared n - 1)) i (GenB.nodes st) /\
    GenB.code st' = GenB.code st /\
    ((Node.shared n - 1 = 0 /\ exists nf, GenB.next_free st = S nf /\
        GenB.next_free st' = nf /\ GenB.reg_poll st' = <[nf := x]> (GenB.reg_poll st)) \/
     (Node.shared n - 1 <> 0 /\ GenB.next_free st' = GenB.next_free st /\
        GenB.reg_poll st' = GenB.reg_poll st)).
Proof.
  unfold GenB.use. intros H.
  apply rbind_Ok in H as (n & Hn & H). apply deref_Ok in Hn as (j & [= <-] & Hn).
  destruct (Z.ltb_spec 0 (Node.shared n)) as [Hs | Hs]; simpl in H; [| discriminate].
  destruct (Z.eqb_spec (Node.shared n - 1) 0) as [Ez | Ez].
  - destruct (GenB.next_free st) as [| nf] eqn:Enf; [discriminate |].
    injection H as <- <-. exists n. simpl. repeat (split; [auto; fail |]).
    left. split; [assumption |]. exists nf. auto.
  - injection H as <- <-. exists n. simpl. repeat (split; [auto; fail |]). right. auto.
Qed.

Lemma compiled_set_reg p i x j :
  x <> 0 -> compiled p j -> compiled (alter (Node.set_reg x) i p) j.
Proof.
  intros Hx (n & Hj & Hr). destruct (decide (j = i)) as [-> | Hne].
  - exists (Node.set_reg x n). rewrite list_lookup_alter_eq, Hj. auto.
  - exists n. rewrite list_lookup_alter_ne by auto. auto.
Qed.

Lemma compiled_set_reg_self p i x n :
  x <> 0 -> p !! i = Some n -> compiled (alter (Node.set_reg x) i p) i.
Proof.
  intros Hx Hi. exists (Node.set_reg x n). rewrite list_lookup_alter_eq, Hi. auto.
Qed.

Lemma compiled_set_shared p i f j :
  compiled p j -> compiled (alter (Node.set_shared f) i p) j.
Proof.
  intros (n & Hj & Hr). destruct (decide (j = i)) as [-> | Hne].
  - exists (Node.set_shared f n). rewrite list_lookup_alter_eq, Hj. auto.
  - exists n. rewrite list_lookup_alter_ne by auto. auto.
Qed.

(** What one call of [alloc] or [use] keeps. *)
Lemma genB_alloc_keeps i st st' :
  GenB.alloc i st = Ok st' ->
  (regs_ok st -> regs_ok st') /\
  (regs_nonzero st ->
     regs_nonzero st' /\ compiled (GenB.nodes st') i /\
     forall j, compiled (GenB.nodes st) j -> compiled (GenB.nodes st') j).
Proof.
  intros H. destruct (genB_alloc_spec i st st' H) as (n & x & Hn & Hnodes & Hpoll & _ & Hc).
  split.
  - intros [Hlen Hnf]. unfold regs_ok. rewrite Hpoll.
    destruct Hc as [(_ & _ & ->) | (_ & Hlt & _ & ->)]; split; auto; lia.
  - intros Hnz. assert (Hx : x <> 0).
    { destruct Hc as [(Ha & -> & _) | (_ & _ & Hx & _)]; [assumption |].
      unfold regs_nonzero in Hnz. rewrite Forall_lookup in Hnz. eapply Hnz; eauto. }
    unfold regs_nonzero. rewrite Hpoll, Hnodes.
    split; [assumption |]. split.
    + eapply compiled_set_reg_self; eauto.
    + intros j. now apply compiled_set_reg.
Qed.

Lemma genB_use_keeps i st st' x :
  GenB.use i st = Ok (st', x) ->
  (regs_ok st -> regs_ok st') /\
  (regs_nonzero st -> compiled (GenB.nodes st) i ->
     regs_nonzero st' /\
     forall j, compiled (GenB.nodes st) j -> compiled (GenB.nodes st') j).
Proof.
  intros H. destruct (genB_use_spec i st st' x H) as (n & Hn & -> & Hs & Hnodes & _ & Hc).
  split.
  - intros [Hlen Hnf]. unfold regs_ok.
    destruct Hc as [(_ & nf & E & -> & ->) | (_ & -> & ->)].
    + rewrite length_insert. split; [assumption | lia].
    + auto.
  - intros Hnz (n' & Hn' & Hr). rewrite Hn in Hn'. injection Hn' as <-.
    split.
    + unfold regs_nonzero in *.
      destruct Hc as [(_ & nf & E & _ & ->) | (_ & _ & ->)]; [| assumption].
      apply Forall_insert; assumption.
    + intros j Hj. rewrite Hnodes. now apply compiled_set_shared.
Qed.

Lemma genB_emit_keeps w st st' :
  GenB.emit w st = Ok st' ->
  (regs_ok st -> regs_ok st') /\ (regs_nonzero st -> regs_nonzero st') /\
  GenB.nodes st' = GenB.nodes st.
Proof.
  intros H. destruct (genB_emit_inv w st st' H) as (Hn & Hp & Hf & _).
  unfold regs_ok, regs_nonzero. rewrite Hp, Hf. auto.
Qed.

(** A call of [codegen] that returns keeps the free list intact, never
    clears a [reg], and leaves [reg] of its node set. *)
Lemma genB_codegen_keeps fuel : forall t st st',
  GenB.codegen fuel t st = Ok st' ->
  (regs_ok st -> regs_ok st') /\
  (regs_nonzero st ->
     regs_nonzero st' /\
     (exists i, t = Ptr i /\ compiled (GenB.nodes st') i) /\
     forall j, compiled (GenB.nodes st) j -> compiled (GenB.nodes st') j).
Proof.
  induction fuel as [| fuel IH]; intros t st st' H; [discriminate |].
  cbn [GenB.codegen] in H.
  apply rbind_Ok in H as (n & Hn & H).
  apply deref_Ok in Hn as (i & -> & Hn).
  destruct (Z.eqb_spec (Node.reg n) 0) as [Er | Er]; simpl in H.
  2: { injection H as <-. split; [auto |]. intros Hnz.
       split; [assumption |]. split; [| auto]. exists i. split; [reflexivity |].
       exists n. auto. }
  destruct (Node.kind n =? INT).
  { apply rbind_Ok in H as (st1 & H1 & H).
    destruct (genB_alloc_keeps _ _ _ H1) as [Hok1 Hnz1].
    apply rbind_Ok in H as (n1 & _ & H).
    apply rbind_Ok in H as ([st2 hi] & H2 & H).
    assert (Hk2 : (regs_ok st1 -> regs_ok st2) /\ (regs_nonzero st1 -> regs_nonzero st2) /\
                  GenB.nodes st2 = GenB.nodes st1).
    { destruct (negb _).
      - apply rbind_Ok in H2 as (st2' & H2 & [= <- <-]). now apply genB_emit_keeps in H2.
      - injection H2 as <- <-. auto. }
    destruct Hk2 as (Hok2 & Hnz2 & Hnodes2).
    destruct (genB_emit_keeps _ _ _ H) as (Hok3 & Hnz3 & Hnodes3).
    split; [auto |]. intros Hnz. destruct (Hnz1 Hnz) as (Hnz1' & Hc1 & Hm1).
    rewrite Hnodes3, Hnodes2. split; [auto |]. split; [eauto | auto]. }
  destruct (Node.kind n =? NAME).
  { apply rbind_Ok in H as (st1 & H1 & H).
    destruct (genB_alloc_keeps _ _ _ H1) as [Hok1 Hnz1].
    apply rbind_Ok in H as (n1 & _ & H).
    destruct (genB_emit_keeps _ _ _ H) as (Hok3 & Hnz3 & Hnodes3).
    split; [auto |]. intros Hnz. destruct (Hnz1 Hnz) as (Hnz1' & Hc1 & Hm1).
    rewrite Hnodes3. split; [auto |]. split; [eauto | auto]. }
  destruct ((Node.kind n =? PLUS) || (Node.kind n =? STAR)); [| discriminate].
  apply rbind_Ok in H as (st1 & H1 & H).
  apply rbind_Ok in H as (st2 & H2 & H).
  destruct (IH _ _ _ H1) as [Hok1 Hnz1]. destruct (IH _ _ _ H2) as [Hok2 Hnz2].
  destruct (Node.r n) as [| ir |] eqn:Er'; try discriminate.
  destruct (Node.l n) as [| il |] eqn:El'; try discriminate.
  apply rbind_Ok in H as ([st3 xr] & H3 & H).
  apply rbind_Ok in H as ([st4 xl] & H4 & H).
  apply rbind_Ok in H as (st5 & H5 & H).
  apply rbind_Ok in H as (n5 & _ & H).
  destruct (genB_use_keeps _ _ _ _ H3) as [Hok3 Hnz3].
  destruct (genB_use_keeps _ _ _ _ H4) as [Hok4 Hnz4].
  destruct (genB_alloc_keeps _ _ _ H5) as [Hok5 Hnz5].
  destruct (genB_emit_keeps _ _ _ H) as (Hok6 & Hnz6 & Hnodes6).
  split; [auto 10 |]. intros Hnz.
  destruct (Hnz1 Hnz) as (Hnz1' & (il' & [= <-] & Hcl) & Hm1).
  destruct (Hnz2 Hnz1') as (Hnz2' & (ir' & [= <-] & Hcr) & Hm2).
  destruct (Hnz3 Hnz2' Hcr) as (Hnz3' & Hm3).
  destruct (Hnz4 Hnz3' (Hm3 _ (Hm2 _ Hcl))) as (Hnz4' & Hm4).
  destruct (Hnz5 Hnz4') as (Hnz5' & Hc5 & Hm5).
  rewrite Hnodes6. split; [auto |]. split; [eauto |].
  intros j Hj. auto 10.
Qed.


(** ** Generator B: the pinned register *)






(** ** Generator A: cache slots *)

Section GenAFacts.
Variable env_addr cse_addr : Z.

Local Abbreviation cg := (GenA.codegen env_addr cse_addr).

Lemma genA_emit_spec bs st st' :
  GenA.emit bs st = Ok st' ->
  GenA.nodes st' = GenA.nodes st /\ GenA.code st' = GenA.code st ++ bs /\
  GenA.cse_p st' = GenA.cse_p st.
Proof.
  unfold GenA.emit. destruct (_ <=? _); [| discriminate].
  intros [= <-]. simpl. auto.
Qed.






End GenAFacts.

(** ** The claims about the code generators *)

(** Generator B never holds more registers than [reg_poll] has: every
    call of [alloc], [use] and [codegen] that returns leaves [next_free]
    within the 26 slots, and [alloc] on an exhausted pool does not return
    but fails its assertion. *)
Theorem regpool_safety (st : GenB.state) :
  regs_ok st ->
  (forall i st', GenB.alloc i st = Ok st' -> regs_ok st') /\
  (forall i n, GenB.nodes st !! i = Some n -> Node.alloc n = 0 ->
               GenB.next_free st = GenB.NREGS -> GenB.alloc i st = AssertFail) /\
  (forall i st' x, GenB.use i st = Ok (st', x) -> regs_ok st') /\
  (forall fuel t st', GenB.codegen fuel t st = Ok st' -> regs_ok st').
Proof.
  intros Hok. split; [| split; [| split]].
  - intros i st' H. now apply (proj1 (genB_alloc_keeps i st st' H)).
  - intros i n Hn Ha Hnf. unfold GenB.alloc. rewrite (deref_ptr _ _ _ Hn). simpl.
    rewrite Ha, Hnf. reflexivity.
  - intros i st' x H. now apply (proj1 (genB_use_keeps i st st' x H)).
  - intros fuel t st' H. now apply (proj1 (genB_codegen_keeps fuel t st st' H)).
Qed.


(** ** The programs on sample inputs *)

Lemma default_env_int c : in_int32 (default_env c).
Proof.
  unfold default_env, in_int32.
  destruct (c =? 120); [lia |]. destruct (c =? 121); lia.
Qed.

Lemma demo_pool_wf tgt : wf_pool tgt (demo_pool tgt).
Proof. apply wf_poolb_sound. destruct tgt; vm_compute; reflexivity. Qed.

(** Once [lookahead] is [ERROR], every [match] leaves the lexer as it is. *)
Lemma match_error_terminal lx expect :
  Lex.lookahead lx = ERROR -> expect <> ERROR -> match_ expect lx = Ok lx.
Proof.
  intros H He. unfold match_. rewrite H.
  rewrite (proj2 (Z.eqb_neq ERROR expect)) by congruence. simpl.
  destruct lx as [src s la iv sv]. simpl in H. subst la. reflexivity.
Qed.

(** C1: on the input "2048" the x86 code returns 2048, the value of the AST,
    while the RISC-V code, a single [addi a0, zero, -2048], returns -2048. *)
Theorem codegen_differ_2048 :
  ast_of RISCV true "2048" = Ok ([new_node RISCV INT NULL NULL 2048], Ptr 0%nat) /\
  eval default_env [new_node RISCV INT NULL NULL 2048] (Ptr 0%nat) = Some 2048 /\
  main X86 true default_env env_at cse_at "2048" = Ok (Done "2048" 2 2048) /\
  codeB "2048" = Ok [0x80000513; 0x8082] /\
  main RISCV true default_env env_at cse_at "2048" = Ok (Done "2048" 2 (-2048)).
Proof. repeat split; vm_compute; reflexivity. Qed.

(** C3: in "(x+y)*0 + (x+y)*z" the first [x+y] is dropped by [x * 0 -> 0]
    and found again by the CSE loop: its share count is 2 although one edge
    of the final AST, from [(x+y)*z], leads to it. *)
Theorem share_count_inflated :
  exists p n,
    ast_of RISCV true "(x+y)*0 + (x+y)*z" = Ok (p, Ptr 5%nat) /\
    p !! 2%nat = Some n /\ Node.kind n = PLUS /\
    reachable (length p) p (Ptr 5%nat) 2 = true /\
    Node.shared n = 2 /\ edges_into p (Ptr 5%nat) 2 = 1%nat.
Proof.
  eexists _, _. split; [vm_compute; reflexivity |].
  split; [reflexivity |]. repeat split; vm_compute; reflexivity.
Qed.

(** C9: on the input "x+" the operand after ['+'] is parsed at the end of
    the text: no case of [pFactor] applies, [lookahead] stays [END_OF_FILE]
    and the pointer returned is indeterminate; [mk] then runs into undefined
    behaviour and no syntax error is reported. *)
Theorem dangling_operator_unreported :
  let at_end := Lex.Build "x+" 3 END_OF_FILE 0 0 in
  let px := [new_node RISCV NAME NULL NULL 120] in
  pTerm RISCV true 3 (at_end, px) = Ok ((at_end, px), Indet) /\
  parse RISCV true "x+" = Undef /\
  main RISCV true default_env env_at cse_at "x+" = Undef /\
  main X86 true default_env env_at cse_at "x+" = Undef.
Proof. repeat split; vm_compute; reflexivity. Qed.

(** The claim C2 as stated fails in the x86 program: the third build of the
    name [x] finds the node with [shared] 1 and leaves it at 1. *)
Lemma mk_intern_x86_flag :
  mk X86 true 1 NAME NULL NULL 120 [] = Ok ([Node.Build NAME NULL NULL 120 0 0 0 None], Ptr 0%nat) /\
  mk X86 true 1 NAME NULL NULL 120 [Node.Build NAME NULL NULL 120 0 0 0 None]
  = Ok ([Node.Build NAME NULL NULL 120 1 0 0 None], Ptr 0%nat) /\
  mk X86 true 1 NAME NULL NULL 120 [Node.Build NAME NULL NULL 120 1 0 0 None]
  = Ok ([Node.Build NAME NULL NULL 120 1 0 0 None], Ptr 0%nat) /\
  Node.shared (Node.Build NAME NULL NULL 120 1 0 0 None) <> 1 + 1 /\
  ~ (2 <= Node.shared (Node.Build NAME NULL NULL 120 1 0 0 None)).
Proof. repeat split; try (vm_compute; reflexivity); simpl; lia. Qed.

(** The claim C6 as stated fails: the AST of "x+x" has the name on the left
    and the literal 2 on the right, and is printed "(x*2)". *)
Lemma add_self_constant_right :
  ast_of X86 true "x+x"
  = Ok ([Node.Build NAME NULL NULL 120 1 0 0 None;
         Node.Build INT NULL NULL 2 0 0 0 None;
         Node.Build STAR (Ptr 0) (Ptr 1) 0 0 0 0 None], Ptr 2%nat) /\
  main X86 true default_env env_at cse_at "x+x" = Ok (Done "(x*2)" 5 4) /\
  "(x*2)"%string <> "(2*x)"%string.
Proof. split; [| split]; [vm_compute; reflexivity .. | discriminate]. Qed.


(** ** The theorems at concrete inputs *)

Lemma mk_intern_hit_witness :
  mk RISCV true 1 NAME NULL NULL 120 (demo_pool RISCV)
  = Ok (alter (Node.set_shared (mark RISCV)) 0%nat (demo_pool RISCV), Ptr 0%nat).
Proof.
  refine (proj1 (mk_intern_hit RISCV true (demo_pool RISCV) NAME NULL NULL NULL NULL 120
                   0%nat (new_node RISCV NAME NULL NULL 120) 1 _ _ _ _ _)).
  - apply demo_pool_wf.
  - reflexivity.
  - reflexivity.
  - reflexivity.
  - lia.
Defined.

Lemma mk_identities_witness :
  mk RISCV true 2 STAR (Ptr 4%nat) (Ptr 1%nat) 0 (demo_pool RISCV)
  = Ok (alter (Node.set_shared (mark RISCV)) 1%nat (demo_pool RISCV), Ptr 1%nat).
Proof.
  refine (proj1 (mk_identities RISCV true (demo_pool RISCV) 4 1
                   (new_node RISCV STAR (Ptr 0%nat) (Ptr 3%nat) 0)
                   (new_node RISCV INT NULL NULL 0) 0 2 _ _ _ _ _) _).
  - apply demo_pool_wf.
  - reflexivity.
  - reflexivity.
  - reflexivity.
  - lia.
  - reflexivity.
Defined.

Lemma mk_constant_folding_witness :
  exists p' i n,
    mk RISCV true 2 PLUS (Ptr 3%nat) (Ptr 2%nat) 0 (demo_pool RISCV) = Ok (p', Ptr i) /\
    p' !! i = Some n /\ Node.kind n = INT /\ Node.intValue n = wrap32 (7 + 1) /\
    (p' = alter (Node.set_shared (mark RISCV)) i (demo_pool RISCV) \/
     p' = demo_pool RISCV ++ [new_node RISCV INT NULL NULL (wrap32 (7 + 1))]).
Proof.
  refine (proj1 (mk_constant_folding RISCV true (demo_pool RISCV) 3 2
                   (new_node RISCV INT NULL NULL 7) (new_node RISCV INT NULL NULL 1)
                   0 2 _ _ _ _ _ _ _)).
  - apply demo_pool_wf.
  - reflexivity.
  - reflexivity.
  - reflexivity.
  - reflexivity.
  - vm_compute. reflexivity.
  - lia.
Defined.

Lemma mk_add_self_witness :
  mk RISCV true 3 PLUS (Ptr 0%nat) (Ptr 0%nat) 0 (demo_pool RISCV)
  = (let* (p1, two) := mk RISCV true 2 INT NULL NULL 2 (demo_pool RISCV) in
     mk RISCV true 2 STAR two (Ptr 0%nat) 0 p1).
Proof.
  refine (proj1 (mk_add_self RISCV true (demo_pool RISCV) 0
                   (new_node RISCV NAME NULL NULL 120) 0 2 _ _ _ _) _).
  - apply demo_pool_wf.
  - reflexivity.
  - vm_compute. discriminate.
  - lia.
  - discriminate.
Defined.

Lemma regpool_safety_witness :
  regs_ok (GenB.Build (demo_pool RISCV) [] GenB.reg_poll_init 0) /\
  forall fuel t st',
    GenB.codegen fuel t (GenB.Build (demo_pool RISCV) [] GenB.reg_poll_init 0) = Ok st' ->
    regs_ok st'.
Proof.
  assert (H : regs_ok (GenB.Build (demo_pool RISCV) [] GenB.reg_poll_init 0)).
  { split; [reflexivity | simpl; unfold GenB.NREGS; lia]. }
  split; [exact H |].
  exact (proj2 (proj2 (proj2 (regpool_safety _ H)))).
Defined.

(** ** Generator A computes the value of the AST *)

Lemma of_le32_le32 z :
  of_le32 (byte z) (byte (z / 2^8)) (byte (z / 2^16)) (byte (z / 2^24)) = z mod 2^32.
Proof.
  unfold of_le32, byte.
  replace (z / 2^16) with (z / 2^8 / 2^8) by (rewrite Z.div_div by lia; reflexivity).
  replace (z / 2^24) with (z / 2^8 / 2^8 / 2^8) by (rewrite !Z.div_div by lia; reflexivity).
  pose proof (Z.div_mod z (2^8) ltac:(lia)) as E1.
  pose proof (Z.div_mod (z / 2^8) (2^8) ltac:(lia)) as E2.
  pose proof (Z.div_mod (z / 2^8 / 2^8) (2^8) ltac:(lia)) as E3.
  pose proof (Z.div_mod (z / 2^8 / 2^8 / 2^8) (2^8) ltac:(lia)) as E4.
  pose proof (Z.mod_pos_bound z (2^8) ltac:(lia)) as B1.
  pose proof (Z.mod_pos_bound (z / 2^8) (2^8) ltac:(lia)) as B2.
  pose proof (Z.mod_pos_bound (z / 2^8 / 2^8) (2^8) ltac:(lia)) as B3.
  pose proof (Z.mod_pos_bound (z / 2^8 / 2^8 / 2^8) (2^8) ltac:(lia)) as B4.
  change 256 with (2^8).
  set (r1 := z mod 2^8) in *. set (r2 := (z / 2^8) mod 2^8) in *.
  set (r3 := (z / 2^8 / 2^8) mod 2^8) in *.
  set (r4 := (z / 2^8 / 2^8 / 2^8) mod 2^8) in *.
  apply (Z.mod_unique z (2^32) (z / 2^8 / 2^8 / 2^8 / 2^8)); lia.
Qed.

Lemma wrap32_u32 z : in_int32 z -> wrap32 (z mod 2^32) = z.
Proof.
  intros H. rewrite <- (wrap32_id z H) at 2. apply wrap32_congr.
  rewrite Zminus_mod, Z.mod_mod, Z.sub_diag by lia. reflexivity.
Qed.

Section GenACorrect.
Variable env : Z -> Z.
Variable env_addr cse_addr : Z.
Hypothesis env_int : forall c, in_int32 (env c).
Hypothesis Hlayout : layout_ok env_addr cse_addr.

Local Abbreviation cg := (GenA.codegen env_addr cse_addr).
Local Abbreviation ex := (exec env env_addr cse_addr).
Local Abbreviation run := (X86.run env env_addr cse_addr).

Lemma exec_nil m : ex [] m m.
Proof. intros rest. reflexivity. Qed.

Lemma exec_app c1 c2 m m1 m2 : ex c1 m m1 -> ex c2 m1 m2 -> ex (c1 ++ c2) m m2.
Proof. intros H1 H2 rest. rewrite <- app_assoc, H1, H2. reflexivity. Qed.

Lemma exec_push_eax m :
  ex [0x50] m (X86.Build (X86.eax m) (X86.ebx m) (X86.eax m :: X86.stack m) (X86.slots m)).
Proof. intros rest. reflexivity. Qed.

Lemma exec_pop_ebx m v stk :
  X86.stack m = v :: stk ->
  ex [0x5B] m (X86.Build (X86.eax m) v stk (X86.slots m)).
Proof. intros H rest. simpl. rewrite H. reflexivity. Qed.

Lemma exec_add m :
  ex [0x01; 0xD8] m
     (X86.Build (wrap32 (X86.eax m + X86.ebx m)) (X86.ebx m) (X86.stack m) (X86.slots m)).
Proof. intros rest. reflexivity. Qed.

Lemma exec_imul m :
  ex [0x0F; 0xAF; 0xC3] m
     (X86.Build (wrap32 (X86.eax m * X86.ebx m)) (X86.ebx m) (X86.stack m) (X86.slots m)).
Proof. intros rest. reflexivity. Qed.

Lemma exec_mov_imm m v :
  in_int32 v ->
  ex (0xB8 :: le32 v) m (X86.Build v (X86.ebx m) (X86.stack m) (X86.slots m)).
Proof.
  intros Hv rest. unfold le32. cbn [app X86.run].
  rewrite of_le32_le32, wrap32_u32 by assumption. reflexivity.
Qed.

Lemma exec_load m a v :
  0 <= a < 2^32 -> X86.load env env_addr cse_addr m a = Ok v ->
  ex (0xA1 :: le32 a) m (X86.Build v (X86.ebx m) (X86.stack m) (X86.slots m)).
Proof.
  intros Ha Hl rest. unfold le32. cbn [app X86.run].
  rewrite of_le32_le32, Z.mod_small, Hl by assumption. reflexivity.
Qed.

Lemma exec_store m a m' :
  0 <= a < 2^32 -> X86.store cse_addr m a (X86.eax m) = Ok m' ->
  ex (0xA3 :: le32 a) m m'.
Proof.
  intros Ha Hs rest. unfold le32. cbn [app X86.run].
  rewrite of_le32_le32, Z.mod_small, Hs by assumption. reflexivity.
Qed.

(** Loads from the two tables. *)
Lemma load_env m c :
  0 <= c < 256 ->
  X86.load env env_addr cse_addr m (GenA.env_entry env_addr c) = Ok (env c).
Proof.
  intros Hc. unfold X86.load, GenA.env_entry.
  replace (env_addr + 4 * c - env_addr) with (c * 4) by lia.
  rewrite Z.mod_mul, Z.div_mul by lia.
  rewrite (proj2 (Z.leb_le _ _)), (proj2 (Z.ltb_lt _ _)) by lia. reflexivity.
Qed.

Lemma load_slot m k :
  Z.of_nat k < 9999 ->
  X86.load env env_addr cse_addr m (GenA.cse_slot cse_addr k)
  = Ok (X86.slots m (GenA.cse_slot cse_addr k)).
Proof.
  intros Hk. destruct Hlayout as (He0 & He1 & Hc0 & Hc1 & Hdis).
  unfold X86.load, GenA.cse_slot.
  assert (Henv : (env_addr <=? cse_addr + 4 * Z.of_nat k)
                 && (cse_addr + 4 * Z.of_nat k <? env_addr + 4 * 256) = false).
  { apply andb_false_iff. destruct Hdis.
    - right. apply Z.ltb_ge. lia.
    - left. apply Z.leb_gt. lia. }
  rewrite Henv. simpl.
  replace (cse_addr + 4 * Z.of_nat k - cse_addr) with (Z.of_nat k * 4) by lia.
  rewrite Z.mod_mul by lia.
  rewrite (proj2 (Z.leb_le _ _)), (proj2 (Z.ltb_lt _ _)) by lia. reflexivity.
Qed.

Lemma store_slot m k v :
  Z.of_nat k < 9999 ->
  X86.store cse_addr m (GenA.cse_slot cse_addr k) v
  = Ok (X86.Build (X86.eax m) (X86.ebx m) (X86.stack m)
          (fun a' => if a' =? GenA.cse_slot cse_addr k then v else X86.slots m a')).
Proof.
  intros Hk. unfold X86.store, GenA.cse_slot.
  replace (cse_addr + 4 * Z.of_nat k - cse_addr) with (Z.of_nat k * 4) by lia.
  rewrite Z.mod_mul by lia.
  rewrite (proj2 (Z.leb_le _ _)), (proj2 (Z.ltb_lt _ _)) by lia. reflexivity.
Qed.

Lemma slot_range k : Z.of_nat k < 9999 -> 0 <= GenA.cse_slot cse_addr k < 2^32.
Proof.
  intros Hk. destruct Hlayout as (He0 & He1 & Hc0 & Hc1 & Hdis).
  unfold GenA.cse_slot. lia.
Qed.

Lemma entry_range c : 0 <= c < 256 -> 0 <= GenA.env_entry env_addr c < 2^32.
Proof.
  intros Hc. destruct Hlayout as (He0 & He1 & Hc0 & Hc1 & Hdis).
  unfold GenA.env_entry. lia.
Qed.
End GenACorrect.

Lemma rbind_fuel {A B} (m : result A) (f : A -> result B) :
  rbind m f = OutOfFuel -> m = OutOfFuel \/ exists x, m = Ok x /\ f x = OutOfFuel.
Proof. destruct m; simpl; try discriminate; eauto. Qed.

Section GenAValue.
Variable env : Z -> Z.
Variable env_addr cse_addr : Z.
Hypothesis env_int : forall c, in_int32 (env c).
Hypothesis Hlayout : layout_ok env_addr cse_addr.
Variable p0 : pool.
Hypothesis Hwf : wf_pool X86 p0.
Hypothesis Hnames : names_ok p0.

Local Abbreviation cg := (GenA.codegen env_addr cse_addr).
Local Abbreviation ex := (exec env env_addr cse_addr).
Local Abbreviation sl := (slots_ok env cse_addr p0).

Lemma slots_ok_frame q k m m' :
  X86.slots m' = X86.slots m -> sl q k m -> sl q k m'.
Proof. intros E H i n' s Hi Hs. rewrite E. exact (H i n' s Hi Hs). Qed.

Lemma same_ast_refl : same_ast p0 p0.
Proof. split; [reflexivity |]. intros i n Hi. exists n. auto. Qed.

Lemma same_ast_set_saved q i k :
  same_ast p0 q -> same_ast p0 (alter (Node.set_saved (Some k)) i q).
Proof.
  intros [Hlen Hs]. split; [now rewrite length_alter |].
  intros j n' Hj. destruct (decide (j = i)) as [-> | Hne].
  - rewrite list_lookup_alter_eq in Hj.
    destruct (q !! i) as [n |] eqn:Hi; [| discriminate]. injection Hj as <-.
    destruct (Hs i n Hi) as (n0 & Hn0 & Ht & Hsh). exists n0. auto.
  - rewrite list_lookup_alter_ne in Hj by auto. auto.
Qed.

(** Storing the value of node [i] in a fresh slot keeps the slots right. *)
Lemma slots_ok_save q k m i v :
  sl q k m -> Z.of_nat k < 9999 ->
  eval env p0 (Ptr i) = Some v ->
  sl (alter (Node.set_saved (Some k)) i q) (S k)
     (X86.Build (X86.eax m) (X86.ebx m) (X86.stack m)
        (fun a' => if a' =? GenA.cse_slot cse_addr k then v else X86.slots m a')).
Proof.
  intros H Hk Hv j n' s Hj Hs. destruct (decide (j = i)) as [-> | Hne].
  - rewrite list_lookup_alter_eq in Hj.
    destruct (q !! i) as [n |] eqn:Hi; [| discriminate]. injection Hj as <-.
    simpl in Hs. injection Hs as <-. simpl. rewrite Z.eqb_refl.
    split; [lia |]. split; assumption.
  - rewrite list_lookup_alter_ne in Hj by auto.
    destruct (H j n' s Hj Hs) as (Hlt & Hr & He). simpl.
    assert (Hd : (GenA.cse_slot cse_addr s =? GenA.cse_slot cse_addr k) = false).
    { apply Z.eqb_neq. unfold GenA.cse_slot. lia. }
    rewrite Hd. split; [lia |]. split; assumption.
Qed.

(** The code emitted for a node leaves the value of the node in [eax],
    the stack as it was, and every slot handed out holding the value of
    its node. *)
Lemma genA_codegen_correct fuel : forall i st st' m,
  cg fuel (Ptr i) st = Ok st' ->
  same_ast p0 (GenA.nodes st) ->
  sl (GenA.nodes st) (GenA.cse_p st) m ->
  exists c m' v,
    GenA.code st' = GenA.code st ++ c /\ ex c m m' /\
    eval env p0 (Ptr i) = Some v /\ X86.eax m' = v /\
    X86.stack m' = X86.stack m /\
    same_ast p0 (GenA.nodes st') /\
    sl (GenA.nodes st') (GenA.cse_p st') m'.
Proof.
  induction fuel as [| fuel IH]; intros i st st' m H Hsame Hsl; [discriminate |].
  cbn [GenA.codegen] in H.
  apply rbind_Ok in H as (n & Hn & H).
  apply deref_Ok in Hn as (i' & [= <-] & Hi).
  destruct (proj2 Hsame i n Hi) as (n0 & Hn0 & Ht & Hsh).
  pose proof (tuple_kind _ _ Ht) as Ek. pose proof (tuple_val _ _ Ht) as Ev.
  pose proof (tuple_l _ _ Ht) as El. pose proof (tuple_r _ _ Ht) as Er.
  destruct (Z.eqb_spec (Node.kind n) INT) as [Hki | Hki].
  { (* a literal *)
    apply rbind_Ok in H as (st1 & H1 & [= <-]).
    destruct (genA_emit_spec _ _ _ H1) as (E1 & E2 & E3).
    assert (Hint : in_int32 (Node.intValue n)).
    { rewrite Ev.
      destruct (wf_ok _ _ Hwf i n0 Hn0) as [_ _ _ Hv | a b na nb [Hk | Hk] _ _ _ _ _ _ _].
      - assumption.
      - exfalso. unfold PLUS, INT in *. lia.
      - exfalso. unfold STAR, INT in *. lia. }
    exists (0xB8 :: le32 (Node.intValue n)),
      (X86.Build (Node.intValue n) (X86.ebx m) (X86.stack m) (X86.slots m)),
      (Node.intValue n).
    split; [exact E2 |].
    split; [apply exec_mov_imm; assumption |].
    split; [rewrite Ev; apply (eval_leaf_int X86 env env_int p0 Hwf i n0 Hn0); congruence |].
    split; [reflexivity |]. split; [reflexivity |].
    simpl. rewrite E1, E3. split; [assumption |].
    apply (slots_ok_frame _ _ m); [reflexivity | assumption]. }
  destruct (Z.eqb_spec (Node.kind n) NAME) as [Hkn | Hkn].
  { (* a name *)
    apply rbind_Ok in H as (st1 & H1 & [= <-]).
    destruct (genA_emit_spec _ _ _ H1) as (E1 & E2 & E3).
    assert (Hc : 0 <= Node.intValue n < 256).
    { rewrite Ev. apply (Hnames i n0 Hn0). congruence. }
    exists (0xA1 :: le32 (GenA.env_entry env_addr (Node.intValue n))),
      (X86.Build (env (Node.intValue n)) (X86.ebx m) (X86.stack m) (X86.slots m)),
      (env (Node.intValue n)).
    split; [exact E2 |].
    split.
    { apply (exec_load env env_addr cse_addr).
      - apply (entry_range env_addr cse_addr Hlayout). assumption.
      - apply load_env. assumption. }
    split; [rewrite Ev; apply (eval_leaf_name X86 env env_int p0 Hwf i n0 Hn0); congruence |].
    split; [reflexivity |]. split; [reflexivity |].
    simpl. rewrite E1, E3. split; [assumption |].
    apply (slots_ok_frame _ _ m); [reflexivity | assumption]. }
  destruct (Node.saved n) as [k |] eqn:Esv.
  { (* the value was stored before *)
    apply rbind_Ok in H as (st1 & H1 & [= <-]).
    destruct (genA_emit_spec _ _ _ H1) as (E1 & E2 & E3).
    destruct (Hsl i n k Hi Esv) as (Hlt & Hr & He).
    exists (0xA1 :: le32 (GenA.cse_slot cse_addr k)),
      (X86.Build (X86.slots m (GenA.cse_slot cse_addr k)) (X86.ebx m) (X86.stack m)
         (X86.slots m)),
      (X86.slots m (GenA.cse_slot cse_addr k)).
    split; [exact E2 |].
    split.
    { apply (exec_load env env_addr cse_addr).
      - apply (slot_range env_addr cse_addr Hlayout). assumption.
      - apply (load_slot env env_addr cse_addr Hlayout). assumption. }
    split; [assumption |].
    split; [reflexivity |]. split; [reflexivity |].
    simpl. rewrite E1, E3. split; [assumption |].
    apply (slots_ok_frame _ _ m); [reflexivity | assumption]. }
  (* an operator *)
  destruct (wf_ok _ _ Hwf i n0 Hn0)
    as [[Hk | Hk] _ _ _ | a b na nb Hk Hl Hr Ha Hb Hna Hnb _]; [congruence | congruence |].
  rewrite Er, Hr, El, Hl in H.
  apply rbind_Ok in H as (st1 & H1 & H).
  apply rbind_Ok in H as (st2 & H2 & H).
  apply rbind_Ok in H as (st3 & H3 & H).
  apply rbind_Ok in H as (st4 & H4 & H).
  apply rbind_Ok in H as (st5 & H5 & H).
  destruct (IH b st st1 m H1 Hsame Hsl) as (c1 & m1 & vb & C1 & X1 & V1 & A1 & S1 & Q1 & L1).
  destruct (genA_emit_spec _ _ _ H2) as (N2 & C2 & P2).
  set (m2 := X86.Build (X86.eax m1) (X86.ebx m1) (X86.eax m1 :: X86.stack m1) (X86.slots m1)).
  assert (Q2 : same_ast p0 (GenA.nodes st2)) by (rewrite N2; assumption).
  assert (L2 : sl (GenA.nodes st2) (GenA.cse_p st2) m2).
  { rewrite N2, P2. apply (slots_ok_frame _ _ m1); [reflexivity | assumption]. }
  destruct (IH a st2 st3 m2 H3 Q2 L2) as (c3 & m3 & va & C3 & X3 & V3 & A3 & S3 & Q3 & L3).
  destruct (genA_emit_spec _ _ _ H4) as (N4 & C4 & P4).
  set (m4 := X86.Build (X86.eax m3) (X86.eax m1) (X86.stack m1) (X86.slots m3)).
  assert (X4 : ex [0x5B] m3 m4).
  { apply (exec_pop_ebx env env_addr cse_addr m3 (X86.eax m1) (X86.stack m1)).
    rewrite S3. reflexivity. }
  set (v := binop_val (Node.kind n0) va vb).
  set (m5 := X86.Build v (X86.eax m1) (X86.stack m1) (X86.slots m3)).
  assert (Hv : eval env p0 (Ptr i) = Some v).
  { apply (eval_node_binop X86 env env_int p0 i n0 a b va vb); assumption. }
  assert (X5 : exists op, GenA.nodes st5 = GenA.nodes st4 /\
                          GenA.code st5 = GenA.code st4 ++ op /\
                          GenA.cse_p st5 = GenA.cse_p st4 /\ ex op m4 m5).
  { destruct (Z.eqb_spec (Node.kind n) PLUS) as [Hkp | Hkp].
    - destruct (genA_emit_spec _ _ _ H5) as (N5 & C5 & P5).
      exists [0x01; 0xD8]. split; [assumption |]. split; [assumption |].
      split; [assumption |].
      unfold m5, v. rewrite <- Ek, Hkp, binop_val_plus, <- A3, <- A1.
      apply (exec_add env env_addr cse_addr m4).
    - destruct (genA_emit_spec _ _ _ H5) as (N5 & C5 & P5).
      exists [0x0F; 0xAF; 0xC3]. split; [assumption |]. split; [assumption |].
      split; [assumption |].
      assert (Hks : Node.kind n0 = STAR) by (destruct Hk; congruence).
      unfold m5, v. rewrite Hks, binop_val_star, <- A3, <- A1.
      apply (exec_imul env env_addr cse_addr m4). }
  destruct X5 as (op & N5 & C5 & P5 & X5).
  assert (Xall : ex (c1 ++ [0x50] ++ c3 ++ [0x5B] ++ op) m m5).
  { apply (exec_app env env_addr cse_addr _ _ m m1 m5 X1).
    apply (exec_app env env_addr cse_addr _ _ m1 m2 m5 (exec_push_eax env env_addr cse_addr m1)).
    apply (exec_app env env_addr cse_addr _ _ m2 m3 m5 X3).
    apply (exec_app env env_addr cse_addr _ _ m3 m4 m5 X4 X5). }
  assert (Call : GenA.code st5 = GenA.code st ++ (c1 ++ [0x50] ++ c3 ++ [0x5B] ++ op)).
  { rewrite C5, C4, C3, C2, C1. rewrite <- !app_assoc. reflexivity. }
  assert (Q5 : same_ast p0 (GenA.nodes st5)) by (rewrite N5, N4; assumption).
  assert (L5 : sl (GenA.nodes st5) (GenA.cse_p st5) m5).
  { rewrite N5, N4, P5, P4. apply (slots_ok_frame _ _ m3); [reflexivity | assumption]. }
  destruct (Node.shared n =? 0).
  { injection H as <-. exists (c1 ++ [0x50] ++ c3 ++ [0x5B] ++ op), m5, v.
    split; [exact Call |]. split; [exact Xall |]. split; [exact Hv |].
    split; [reflexivity |]. split; [exact S1 |]. simpl. auto. }
  (* the value is stored *)
  apply rbind_Ok in H as ([st6 k] & H6 & H).
  apply rbind_Ok in H as (st7 & H7 & [= <-]).
  unfold GenA.save_slot in H6. simpl in H6.
  destruct (Z.ltb_spec (Z.of_nat (GenA.cse_p st5)) 9999) as [Hk9 | Hk9]; [| discriminate].
  injection H6 as <- <-.
  destruct (genA_emit_spec _ _ _ H7) as (N7 & C7 & P7). simpl in N7, C7, P7.
  set (k := GenA.cse_p st5) in *.
  set (m7 := X86.Build v (X86.eax m1) (X86.stack m1)
               (fun a' => if a' =? GenA.cse_slot cse_addr k then v else X86.slots m3 a')).
  exists ((c1 ++ [0x50] ++ c3 ++ [0x5B] ++ op) ++ 0xA3 :: le32 (GenA.cse_slot cse_addr k)),
    m7, v.
  split; [unfold GenA.count; cbn [GenA.code]; rewrite C7, Call, <- !app_assoc; reflexivity |].
  split.
  { apply (exec_app env env_addr cse_addr _ _ m m5 m7 Xall).
    apply (exec_store env env_addr cse_addr).
    - apply (slot_range env_addr cse_addr Hlayout). assumption.
    - rewrite (store_slot cse_addr m5 k (X86.eax m5)) by assumption. reflexivity. }
  split; [exact Hv |].
  split; [reflexivity |]. split; [exact S1 |].
  simpl. rewrite N7, P7. split.
  - apply same_ast_set_saved. assumption.
  - apply (slots_ok_save (GenA.nodes st5) k m5 i v L5 Hk9 Hv).
Qed.
(** The code of a whole compilation, called as [main] calls it, returns
    the value of the root. *)
Lemma genA_compile_value r g :
  unsaved p0 ->
  GenA.compile env_addr cse_addr p0 (Ptr r) = Ok g ->
  exists v, eval env p0 (Ptr r) = Some v /\
            X86.call env env_addr cse_addr (GenA.code g) = Ok v.
Proof.
  intros Hun H. unfold GenA.compile in H.
  apply rbind_Ok in H as (st0 & H0 & H).
  apply rbind_Ok in H as (st1 & H1 & H).
  apply rbind_Ok in H as (st2 & H2 & H).
  apply rbind_Ok in H as (st3 & H3 & [= <-]).
  destruct (genA_emit_spec _ _ _ H0) as (N0 & C0 & P0). simpl in N0, C0, P0.
  destruct (genA_emit_spec _ _ _ H2) as (N2 & C2 & P2).
  destruct (genA_emit_spec _ _ _ H3) as (N3 & C3 & P3).
  set (m0 := X86.Build 0 0 [0] (fun _ => 0)).
  destruct (genA_codegen_correct (length p0) r st0 st1 m0 H1)
    as (c & m' & v & C1 & X1 & V1 & A1 & S1 & _).
  { rewrite N0. apply same_ast_refl. }
  { rewrite N0. intros i n k Hi Hs. rewrite (Hun i n Hi) in Hs. discriminate. }
  exists v. split; [assumption |].
  unfold GenA.count; cbn [GenA.code]. rewrite C3, C2, C1, C0. unfold X86.call.
  rewrite <- !app_assoc.
  change (X86.run env env_addr cse_addr (c ++ [0x5B; 0xC3]) m0 = Ok v).
  rewrite (X1 [0x5B; 0xC3]). simpl. rewrite S1. simpl. now rewrite A1.
Qed.


End GenAValue.

(** ** Compiling a node once *)




Lemma layout_sample : layout_ok env_at cse_at.
Proof. unfold layout_ok, env_at, cse_at. lia. Qed.

(** * Further properties of the program *)

(** ** Every call of [mk] that returns keeps the pool well-formed *)

Lemma binop_val_comm kind a b : binop_val kind a b = binop_val kind b a.
Proof. unfold binop_val. destruct (kind =? PLUS); f_equal; lia. Qed.

Lemma lookup_snoc (p : pool) (n : node) : (p ++ [n]) !! length p = Some n.
Proof. apply list_lookup_middle. reflexivity. Qed.

Section MkSound.
Variable tgt : target.
Variable l2r : bool.
Variable env : Z -> Z.
Hypothesis env_int : forall c, in_int32 (env c).

Local Abbreviation M := (mk tgt l2r).

Lemma append_Ok kind l r k p p' t :
  append tgt kind l r k p = Ok (p', t) ->
  Z.of_nat (length p) < NODES_MAX /\ p' = p ++ [new_node tgt kind l r k] /\
  t = Ptr (length p).
Proof.
  unfold append. destruct (Z.ltb_spec (Z.of_nat (length p)) NODES_MAX); [| discriminate].
  intros [= <- <-]. auto.
Qed.

Lemma mk_leaf_sound fuel kind k p p' t :
  wf_pool tgt p -> kind = INT \/ kind = NAME -> in_int32 k ->
  M fuel kind NULL NULL k p = Ok (p', t) ->
  wf_pool tgt p' /\ ext p p' /\
  exists i n, t = Ptr i /\ p' !! i = Some n /\ Node.kind n = kind /\
              Node.intValue n = k.
Proof.
  intros Hwf Hk Hint H. destruct fuel as [| f]; [discriminate |].
  rewrite mk_leaf_unfold in H by (destruct Hk as [-> | ->]; reflexivity).
  destruct (find_node p kind NULL NULL k) as [i |] eqn:Fd.
  - injection H as <- <-.
    destruct (find_node_hit _ _ _ _ _ _ Fd) as (n & Hn & Hkn & _ & _ & Hv).
    split; [apply wf_alter_mark; assumption |].
    split; [apply ext_alter_shared |].
    exists i, (Node.set_shared (mark tgt) n).
    split; [reflexivity |]. rewrite list_lookup_alter_eq, Hn. auto.
  - apply append_Ok in H as (Hcap & -> & ->).
    split.
    { apply wf_append; [assumption | assumption | | assumption].
      apply ok_leaf; [exact Hk | reflexivity | reflexivity | exact Hint]. }
    split; [apply ext_app |].
    exists (length p), (new_node tgt kind NULL NULL k).
    split; [reflexivity |]. split; [apply lookup_snoc |]. auto.
Qed.

(** The same with the value of the literal. *)
Lemma mk_int_sound fuel k p p' t :
  wf_pool tgt p -> in_int32 k ->
  M fuel INT NULL NULL k p = Ok (p', t) ->
  wf_pool tgt p' /\ ext p p' /\ valid p' t /\ eval env p' t = Some k /\
  exists i n, t = Ptr i /\ p' !! i = Some n /\ Node.kind n = INT.
Proof.
  intros Hwf Hint H.
  destruct (mk_leaf_sound fuel INT k p p' t Hwf (or_introl eq_refl) Hint H)
    as (Hwf' & Hext & i & n & -> & Hn & Hk & Hv).
  split; [assumption |]. split; [assumption |].
  split; [exists i, n; auto |].
  split; [rewrite <- Hv; apply (eval_leaf_int tgt env env_int p' Hwf' i n Hn Hk) |].
  exists i, n. auto.
Qed.

(** The operands of an operator node, with their values. *)
Lemma wf_operands p a na va :
  wf_pool tgt p -> p !! a = Some na ->
  Node.kind na = PLUS \/ Node.kind na = STAR ->
  eval env p (Ptr a) = Some va ->
  exists y c ny nc vy vc, Node.l na = Ptr y /\ Node.r na = Ptr c /\
    p !! y = Some ny /\ p !! c = Some nc /\
    eval env p (Ptr y) = Some vy /\ eval env p (Ptr c) = Some vc /\
    va = binop_val (Node.kind na) vy vc /\
    lr_is_int p na = Ok (Node.kind nc =? INT).
Proof.
  intros Hwf Ha Hk Hva.
  destruct (wf_children tgt p a na Hwf Ha Hk)
    as (y & c & ny & nc & Hl & Hr & _ & _ & Hy & Hc & _).
  destruct (eval_total tgt env env_int p Hwf (Ptr y)) as (vy & Hvy & _);
    [exists y, ny; auto |].
  destruct (eval_total tgt env env_int p Hwf (Ptr c)) as (vc & Hvc & _);
    [exists c, nc; auto |].
  exists y, c, ny, nc, vy, vc.
  split; [assumption |]. split; [assumption |]. split; [assumption |].
  split; [assumption |]. split; [assumption |]. split; [assumption |].
  split.
  - pose proof (eval_node_binop tgt env env_int p a na y c vy vc Hwf Ha Hk Hl Hr Hvy Hvc).
    congruence.
  - unfold lr_is_int. rewrite Hr, (deref_ptr _ _ _ Hc). reflexivity.
Qed.

(** No test of [rewrite_rules] fired and the node is appended. *)
Lemma append_sound kind x y k p nx ny vx vy p' t :
  kind = PLUS \/ kind = STAR -> wf_pool tgt p ->
  p !! x = Some nx -> p !! y = Some ny ->
  eval env p (Ptr x) = Some vx -> eval env p (Ptr y) = Some vy ->
  find_node p kind (Ptr x) (Ptr y) k = None ->
  no_rule p kind x y nx ny ->
  append tgt kind (Ptr x) (Ptr y) k p = Ok (p', t) ->
  wf_pool tgt p' /\ ext p p' /\ valid p' t /\
  eval env p' t = Some (binop_val kind vx vy).
Proof.
  intros Hkind Hwf Hx Hy Hvx Hvy Fd Hno H.
  apply append_Ok in H as (Hcap & -> & ->).
  assert (Hwf' : wf_pool tgt (p ++ [new_node tgt kind (Ptr x) (Ptr y) k])).
  { apply wf_append; [assumption | assumption | | assumption].
    apply (ok_binop _ _ _ x y nx ny); try assumption; try reflexivity.
    - apply lookup_lt_Some in Hx. exact Hx.
    - apply lookup_lt_Some in Hy. exact Hy. }
  split; [assumption |]. split; [apply ext_app |].
  split; [exists (length p), (new_node tgt kind (Ptr x) (Ptr y) k);
          split; [reflexivity | apply lookup_snoc] |].
  apply (eval_node_binop tgt env env_int _ (length p)
           (new_node tgt kind (Ptr x) (Ptr y) k) x y vx vy Hwf' (lookup_snoc _ _)).
  - exact Hkind.
  - reflexivity.
  - reflexivity.
  - apply (eval_ext env p); [apply ext_app | assumption].
  - apply (eval_ext env p); [apply ext_app | assumption].
Qed.

Lemma not_const_right p op nx :
  (Node.kind nx = op -> lr_is_int p nx = Ok false) -> ~ const_right p op nx.
Proof.
  intros Hf Hc. pose proof (lr_is_int_true p op nx Hc) as Ht.
  destruct Hc as [Hk _]. rewrite (Hf Hk) in Ht. discriminate.
Qed.

(** A node and its value seen from a later pool. *)
Lemma later p p' a na va :
  ext p p' -> p !! a = Some na -> eval env p (Ptr a) = Some va ->
  exists na', p' !! a = Some na' /\ eval env p' (Ptr a) = Some va.
Proof.
  intros Hext Ha Hva. destruct (Hext a na Ha) as (na' & Ha' & _).
  exists na'. split; [assumption |]. apply (eval_ext env p); assumption.
Qed.

(** The rewrites, given that the calls they make are sound. *)
Lemma rules_sound f kind x y k p nx ny vx vy p' t :
  binop_sound tgt env (M f) ->
  kind = PLUS \/ kind = STAR -> wf_pool tgt p ->
  p !! x = Some nx -> p !! y = Some ny ->
  eval env p (Ptr x) = Some vx -> eval env p (Ptr y) = Some vy ->
  (Node.kind nx = INT -> Node.kind ny = INT) ->
  find_node p kind (Ptr x) (Ptr y) k = None ->
  rewrite_rules tgt l2r (M f) kind (Ptr x) (Ptr y) k p nx ny = Ok (p', t) ->
  wf_pool tgt p' /\ ext p p' /\ valid p' t /\
  eval env p' t = Some (binop_val kind vx vy).
Proof.
  intros IH Hkind Hwf Hx Hy Hvx Hvy Hswap Fd H.
  pose proof (eval_int32 tgt env env_int p Hwf _ _ Hvx) as Hix.
  pose proof (eval_int32 tgt env env_int p Hwf _ _ Hvy) as Hiy.
  assert (Hlit : forall a na va, p !! a = Some na -> eval env p (Ptr a) = Some va ->
                                 Node.kind na = INT -> va = Node.intValue na).
  { intros a na va Ha Hva Hk.
    pose proof (eval_leaf_int tgt env env_int p Hwf a na Ha Hk). congruence. }
  assert (Hself : wf_pool tgt p /\ ext p p /\ valid p (Ptr x)).
  { split; [assumption |]. split; [apply ext_refl |]. exists x, nx. auto. }
  destruct (Z.eq_dec (Node.kind nx) INT) as [Hkx | Hkx].
  { (* two literals *)
    pose proof (Hswap Hkx) as Hky.
    rewrite (Hlit x nx vx Hx Hvx Hkx), (Hlit y ny vy Hy Hvy Hky).
    destruct Hkind as [-> | ->].
    - rewrite rule_fold_plus in H by assumption.
      destruct (mk_int_sound _ _ _ _ _ Hwf (wrap32_range _) H) as (? & ? & ? & ? & _).
      rewrite binop_val_plus. auto.
    - rewrite rule_fold_star in H by assumption.
      destruct (mk_int_sound _ _ _ _ _ Hwf (wrap32_range _) H) as (? & ? & ? & ? & _).
      rewrite binop_val_star. auto. }
  destruct (Z.eq_dec (Node.kind ny) INT) as [Hky | Hky];
    [destruct (Z.eq_dec (Node.intValue ny) 0) as [Hy0 | Hy0] |].
  { (* the right operand is the literal 0 *)
    pose proof (Hlit y ny vy Hy Hvy Hky) as Ey. rewrite Hy0 in Ey. subst vy.
    destruct Hkind as [-> | ->].
    - rewrite rule_plus_zero in H by assumption. injection H as <- <-.
      rewrite binop_val_plus, wrap32_add_0 by assumption. tauto.
    - rewrite rule_star_zero in H by assumption.
      destruct (mk_int_sound f 0 p p' t Hwf ltac:(unfold in_int32; lia) H)
        as (? & ? & ? & ? & _).
      rewrite binop_val_star, Z.mul_0_r. auto. }
  { (* the right operand is another literal *)
    assert (Hnz : ~ (Node.kind ny = INT /\ Node.intValue ny = 0)) by tauto.
    assert (Hxy : ast_eqb (Ptr y) (Ptr x) = false).
    { rewrite ast_eqb_ptr. apply Nat.eqb_neq. intros ->. congruence. }
    assert (Hxy' : x <> y) by (intros ->; congruence).
    destruct Hkind as [-> | ->].
    - (* PLUS *)
      destruct (Z.eq_dec (Node.kind nx) PLUS) as [Hkp | Hkp].
      + destruct (wf_operands p x nx vx Hwf Hx (or_introl Hkp) Hvx)
          as (y0 & c & ny0 & nc & vy0 & vc & Hl & Hr & Hy0' & Hc & Hvy0 & Hvc & Ex & Hlr).
        destruct (Z.eqb_spec (Node.kind nc) INT) as [Hkc | Hkc].
        * rewrite rule_assoc_plus in H by assumption.
          rewrite Hl, Hr in H.
          apply rbind_Ok in H as ([p1 t1] & H1 & H2).
          destruct (IH PLUS y c 0 p ny nc vy vc p1 t1 (or_introl eq_refl) Hwf Hy Hc Hvy Hvc H1)
            as (Hwf1 & Hext1 & (i1 & n1 & -> & Hn1) & Hv1).
          destruct (later p p1 y0 ny0 vy0 Hext1 Hy0' Hvy0) as (ny0' & Hy01 & Hvy01).
          destruct (IH PLUS y0 i1 0 p1 ny0' n1 vy0 _ p' t (or_introl eq_refl) Hwf1
                      Hy01 Hn1 Hvy01 Hv1 H2) as (Hwf2 & Hext2 & Hval2 & Hv2).
          split; [assumption |]. split; [eapply ext_trans; eassumption |].
          split; [assumption |].
          rewrite Hv2, Ex, Hkp, !binop_val_plus. f_equal. apply wrap32_assoc_add.
        * rewrite rule_none_plus in H by (auto; intros _; exact Hlr).
          apply (append_sound PLUS x y k p nx ny vx vy p' t); auto.
          split; [assumption |]. split; [assumption |]. split.
          -- intros _. split; [assumption |]. apply not_const_right. intros _. exact Hlr.
          -- intros E. discriminate E.
      + rewrite rule_none_plus in H by (auto; intros E; contradiction).
        apply (append_sound PLUS x y k p nx ny vx vy p' t); auto.
        split; [assumption |]. split; [assumption |]. split.
        -- intros _. split; [assumption |]. intros [E _]. contradiction.
        -- intros E. discriminate E.
    - (* STAR *)
      destruct (Z.eq_dec (Node.intValue ny) 1) as [Hy1 | Hy1].
      { rewrite rule_star_one in H by assumption. injection H as <- <-.
        rewrite (Hlit y ny vy Hy Hvy Hky), Hy1, binop_val_star, wrap32_mul_1 by assumption.
        tauto. }
      assert (Hn1 : ~ (Node.kind ny = INT /\ Node.intValue ny = 1)) by tauto.
      destruct (Z.eq_dec (Node.kind nx) STAR) as [Hks | Hks];
        [| destruct (Z.eq_dec (Node.kind nx) PLUS) as [Hkp | Hkp]].
      + destruct (wf_operands p x nx vx Hwf Hx (or_intror Hks) Hvx)
          as (y0 & c & ny0 & nc & vy0 & vc & Hl & Hr & Hy0' & Hc & Hvy0 & Hvc & Ex & Hlr).
        destruct (Z.eqb_spec (Node.kind nc) INT) as [Hkc | Hkc].
        * rewrite rule_assoc_star in H by assumption.
          rewrite Hl, Hr in H.
          apply rbind_Ok in H as ([p1 t1] & H1 & H2).
          destruct (IH STAR y c 0 p ny nc vy vc p1 t1 (or_intror eq_refl) Hwf Hy Hc Hvy Hvc H1)
            as (Hwf1 & Hext1 & (i1 & n1 & -> & Hn1') & Hv1).
          destruct (later p p1 y0 ny0 vy0 Hext1 Hy0' Hvy0) as (ny0' & Hy01 & Hvy01).
          destruct (IH STAR y0 i1 0 p1 ny0' n1 vy0 _ p' t (or_intror eq_refl) Hwf1
                      Hy01 Hn1' Hvy01 Hv1 H2) as (Hwf2 & Hext2 & Hval2 & Hv2).
          split; [assumption |]. split; [eapply ext_trans; eassumption |].
          split; [assumption |].
          rewrite Hv2, Ex, Hks, !binop_val_star. f_equal. apply wrap32_assoc_mul.
        * rewrite rule_none_star in H;
            [| assumption | assumption | assumption | intros _; exact Hlr
             | intros _ E; rewrite Hks in E; discriminate E].
          apply (append_sound STAR x y k p nx ny vx vy p' t); auto.
          split; [assumption |]. split; [assumption |]. split.
          -- intros E. discriminate E.
          -- intros _. split; [assumption |]. split.
             ++ apply not_const_right. intros _. exact Hlr.
             ++ intros [_ [E _]]. rewrite Hks in E. discriminate E.
      + destruct (wf_operands p x nx vx Hwf Hx (or_introl Hkp) Hvx)
          as (y0 & c & ny0 & nc & vy0 & vc & Hl & Hr & Hy0' & Hc & Hvy0 & Hvc & Ex & Hlr).
        destruct (Z.eqb_spec (Node.kind nc) INT) as [Hkc | Hkc].
        * rewrite rule_distr in H by assumption.
          rewrite Hl, Hr in H.
          destruct l2r.
          -- apply rbind_Ok in H as ([p1 ta] & H1 & H).
             apply rbind_Ok in H as ([p2 tb] & H2 & H3).
             destruct (IH STAR y0 y 0 p ny0 ny vy0 vy p1 ta (or_intror eq_refl) Hwf
                         Hy0' Hy Hvy0 Hvy H1)
               as (Hwf1 & Hext1 & (ia & na & -> & Hna) & Hva).
             destruct (later p p1 c nc vc Hext1 Hc Hvc) as (nc' & Hc1 & Hvc1).
             destruct (later p p1 y ny vy Hext1 Hy Hvy) as (ny' & Hy1' & Hvy1).
             destruct (IH STAR c y 0 p1 nc' ny' vc vy p2 tb (or_intror eq_refl) Hwf1
                         Hc1 Hy1' Hvc1 Hvy1 H2)
               as (Hwf2 & Hext2 & (ib & nb & -> & Hnb) & Hvb).
             destruct (later p1 p2 ia na _ Hext2 Hna Hva) as (na' & Hna2 & Hva2).
             destruct (IH PLUS ia ib 0 p2 na' nb _ _ p' t (or_introl eq_refl) Hwf2
                         Hna2 Hnb Hva2 Hvb H3) as (Hwf3 & Hext3 & Hval3 & Hv3).
             split; [assumption |].
             split; [eapply ext_trans; [| eassumption]; eapply ext_trans; eassumption |].
             split; [assumption |].
             rewrite Hv3, Ex, Hkp, binop_val_plus, !binop_val_star. f_equal.
             apply wrap32_distr.
          -- apply rbind_Ok in H as ([p1 tb] & H1 & H).
             apply rbind_Ok in H as ([p2 ta] & H2 & H3).
             destruct (IH STAR c y 0 p nc ny vc vy p1 tb (or_intror eq_refl) Hwf
                         Hc Hy Hvc Hvy H1)
               as (Hwf1 & Hext1 & (ib & nb & -> & Hnb) & Hvb).
             destruct (later p p1 y0 ny0 vy0 Hext1 Hy0' Hvy0) as (ny0' & Hy01 & Hvy01).
             destruct (later p p1 y ny vy Hext1 Hy Hvy) as (ny' & Hy1' & Hvy1).
             destruct (IH STAR y0 y 0 p1 ny0' ny' vy0 vy p2 ta (or_intror eq_refl) Hwf1
                         Hy01 Hy1' Hvy01 Hvy1 H2)
               as (Hwf2 & Hext2 & (ia & na & -> & Hna) & Hva).
             destruct (later p1 p2 ib nb _ Hext2 Hnb Hvb) as (nb' & Hnb2 & Hvb2).
             destruct (IH PLUS ia ib 0 p2 na nb' _ _ p' t (or_introl eq_refl) Hwf2
                         Hna Hnb2 Hva Hvb2 H3) as (Hwf3 & Hext3 & Hval3 & Hv3).
             split; [assumption |].
             split; [eapply ext_trans; [| eassumption]; eapply ext_trans; eassumption |].
             split; [assumption |].
             rewrite Hv3, Ex, Hkp, binop_val_plus, !binop_val_star. f_equal.
             apply wrap32_distr.
        * rewrite rule_none_star in H;
            [| assumption | assumption | assumption
             | intros E; rewrite Hkp in E; discriminate E
             | intros _ _; exact Hlr].
          apply (append_sound STAR x y k p nx ny vx vy p' t); auto.
          split; [assumption |]. split; [assumption |]. split.
          -- intros E. discriminate E.
          -- intros _. split; [assumption |]. split.
             ++ intros [E _]. rewrite Hkp in E. discriminate E.
             ++ intros [_ Hcr]. revert Hcr. apply not_const_right. intros _. exact Hlr.
      + rewrite rule_none_star in H;
          [| assumption | assumption | assumption
           | intros E; contradiction | intros _ E; contradiction].
        apply (append_sound STAR x y k p nx ny vx vy p' t); auto.
        split; [assumption |]. split; [assumption |]. split.
        -- intros E. discriminate E.
        -- intros _. split; [assumption |]. split.
           ++ intros [E _]. contradiction.
           ++ intros [_ [E _]]. contradiction. }
  (* the right operand is no literal *)
  assert (Hnz : ~ (Node.kind ny = INT /\ Node.intValue ny = 0)) by tauto.
  assert (Hn1 : ~ (Node.kind ny = INT /\ Node.intValue ny = 1)) by tauto.
  destruct Hkind as [-> | ->].
  - (* PLUS *)
    destruct (decide (y = x)) as [-> | Hne].
    + assert (nx = ny) by congruence. subst ny.
      assert (vy = vx) by congruence. subst vy.
      rewrite rule_double in H by (auto; rewrite ast_eqb_ptr; apply Nat.eqb_refl).
      apply rbind_Ok in H as ([p1 two] & H1 & H2).
      destruct (mk_int_sound f 2 p p1 two Hwf ltac:(unfold in_int32; lia) H1)
        as (Hwf1 & Hext1 & _ & Hv1 & i2 & n2 & -> & Hn2 & _).
      destruct (later p p1 x nx vx Hext1 Hx Hvx) as (nx' & Hx1 & Hvx1).
      destruct (IH STAR i2 x 0 p1 n2 nx' 2 vx p' t (or_intror eq_refl) Hwf1
                  Hn2 Hx1 Hv1 Hvx1 H2) as (Hwf2 & Hext2 & Hval2 & Hv2).
      split; [assumption |]. split; [eapply ext_trans; eassumption |].
      split; [assumption |].
      rewrite Hv2, binop_val_star, binop_val_plus, Z.mul_comm. f_equal.
      apply wrap32_double.
    + assert (Hxy : ast_eqb (Ptr y) (Ptr x) = false).
      { rewrite ast_eqb_ptr. apply Nat.eqb_neq. exact Hne. }
      destruct (Z.eq_dec (Node.kind nx) PLUS) as [Hkp | Hkp].
      * destruct (wf_operands p x nx vx Hwf Hx (or_introl Hkp) Hvx)
          as (y0 & c & ny0 & nc & vy0 & vc & Hl & Hr & Hy0' & Hc & Hvy0 & Hvc & Ex & Hlr).
        destruct (Z.eqb_spec (Node.kind nc) INT) as [Hkc | Hkc].
        -- rewrite rule_assoc_plus in H by assumption.
           rewrite Hl, Hr in H.
           apply rbind_Ok in H as ([p1 t1] & H1 & H2).
           destruct (IH PLUS y c 0 p ny nc vy vc p1 t1 (or_introl eq_refl) Hwf Hy Hc Hvy Hvc H1)
             as (Hwf1 & Hext1 & (i1 & n1 & -> & Hn1') & Hv1).
           destruct (later p p1 y0 ny0 vy0 Hext1 Hy0' Hvy0) as (ny0' & Hy01 & Hvy01).
           destruct (IH PLUS y0 i1 0 p1 ny0' n1 vy0 _ p' t (or_introl eq_refl) Hwf1
                       Hy01 Hn1' Hvy01 Hv1 H2) as (Hwf2 & Hext2 & Hval2 & Hv2).
           split; [assumption |]. split; [eapply ext_trans; eassumption |].
           split; [assumption |].
           rewrite Hv2, Ex, Hkp, !binop_val_plus. f_equal. apply wrap32_assoc_add.
        -- rewrite rule_none_plus in H by (auto; intros _; exact Hlr).
           apply (append_sound PLUS x y k p nx ny vx vy p' t); auto.
           split; [assumption |]. split; [assumption |]. split.
           ++ intros _. split; [auto |]. apply not_const_right. intros _. exact Hlr.
           ++ intros E. discriminate E.
      * rewrite rule_none_plus in H by (auto; intros E; contradiction).
        apply (append_sound PLUS x y k p nx ny vx vy p' t); auto.
        split; [assumption |]. split; [assumption |]. split.
        -- intros _. split; [auto |]. intros [E _]. contradiction.
        -- intros E. discriminate E.
  - (* STAR *)
    destruct (Z.eq_dec (Node.kind nx) STAR) as [Hks | Hks].
    + destruct (wf_operands p x nx vx Hwf Hx (or_intror Hks) Hvx)
        as (y0 & c & ny0 & nc & vy0 & vc & Hl & Hr & Hy0' & Hc & Hvy0 & Hvc & Ex & Hlr).
      destruct (Z.eqb_spec (Node.kind nc) INT) as [Hkc | Hkc].
      * rewrite rule_assoc_star in H by assumption.
        rewrite Hl, Hr in H.
        apply rbind_Ok in H as ([p1 t1] & H1 & H2).
        destruct (IH STAR y c 0 p ny nc vy vc p1 t1 (or_intror eq_refl) Hwf Hy Hc Hvy Hvc H1)
          as (Hwf1 & Hext1 & (i1 & n1 & -> & Hn1') & Hv1).
        destruct (later p p1 y0 ny0 vy0 Hext1 Hy0' Hvy0) as (ny0' & Hy01 & Hvy01).
        destruct (IH STAR y0 i1 0 p1 ny0' n1 vy0 _ p' t (or_intror eq_refl) Hwf1
                    Hy01 Hn1' Hvy01 Hv1 H2) as (Hwf2 & Hext2 & Hval2 & Hv2).
        split; [assumption |]. split; [eapply ext_trans; eassumption |].
        split; [assumption |].
        rewrite Hv2, Ex, Hks, !binop_val_star. f_equal. apply wrap32_assoc_mul.
      * rewrite rule_none_star in H;
          [| assumption | assumption | assumption | intros _; exact Hlr
           | intros E; contradiction].
        apply (append_sound STAR x y k p nx ny vx vy p' t); auto.
        split; [assumption |]. split; [assumption |]. split.
        -- intros E. discriminate E.
        -- intros _. split; [assumption |]. split.
           ++ apply not_const_right. intros _. exact Hlr.
           ++ intros [E _]. contradiction.
    + rewrite rule_none_star in H;
        [| assumption | assumption | assumption
         | intros E; contradiction | intros E; contradiction].
      apply (append_sound STAR x y k p nx ny vx vy p' t); auto.
      split; [assumption |]. split; [assumption |]. split.
      -- intros E. discriminate E.
      -- intros _. split; [assumption |]. split.
         ++ intros [E _]. contradiction.
         ++ intros [E _]. contradiction.
Qed.
Lemma mk_binop_sound fuel : binop_sound tgt env (M fuel).
Proof.
  induction fuel as [| f IH];
    intros kind a b k p na nb va vb p' t Hkind Hwf Ha Hb Hva Hvb H; [discriminate |].
  assert (Hbin : is_binop kind = true) by (destruct Hkind as [-> | ->]; reflexivity).
  assert (Hhit : forall x y nx ny vx vy i,
             p !! x = Some nx -> p !! y = Some ny ->
             eval env p (Ptr x) = Some vx -> eval env p (Ptr y) = Some vy ->
             find_node p kind (Ptr x) (Ptr y) k = Some i ->
             wf_pool tgt (alter (Node.set_shared (mark tgt)) i p) /\
             ext p (alter (Node.set_shared (mark tgt)) i p) /\
             valid (alter (Node.set_shared (mark tgt)) i p) (Ptr i) /\
             eval env (alter (Node.set_shared (mark tgt)) i p) (Ptr i)
             = Some (binop_val kind vx vy)).
  { intros x y nx ny vx vy i Hx Hy Hvx Hvy Fd.
    destruct (find_node_hit _ _ _ _ _ _ Fd) as (n & Hn & Hkn & Hl & Hr & _).
    split; [apply wf_alter_mark; assumption |].
    split; [apply ext_alter_shared |].
    split.
    { exists i, (Node.set_shared (mark tgt) n). split; [reflexivity |].
      rewrite list_lookup_alter_eq, Hn. reflexivity. }
    apply (eval_ext env p); [apply ext_alter_shared |].
    rewrite <- Hkn.
    apply (eval_node_binop tgt env env_int p i n x y vx vy Hwf Hn); auto.
    rewrite Hkn. exact Hkind. }
  destruct (Z.eq_dec (Node.kind na) INT) as [Hka | Hka].
  - rewrite (mk_unfold_swap tgt l2r f kind a b k p na nb Hbin Ha Hb Hka) in H.
    rewrite (binop_val_comm kind va vb).
    destruct (find_node p kind (Ptr b) (Ptr a) k) as [i |] eqn:Fd.
    + injection H as <- <-. apply (Hhit b a nb na vb va i); assumption.
    + apply (rules_sound f kind b a k p nb na vb va p' t IH); auto.
  - rewrite (mk_unfold tgt l2r f kind a b k p na nb Hbin Ha Hb Hka) in H.
    destruct (find_node p kind (Ptr a) (Ptr b) k) as [i |] eqn:Fd.
    + injection H as <- <-. apply (Hhit a b na nb va vb i); assumption.
    + apply (rules_sound f kind a b k p na nb va vb p' t IH); auto.
      intros E. contradiction.
Qed.
End MkSound.

(** X6: whenever a call of [mk] on two nodes of a well-formed pool returns, for
    any pool size, the pool it leaves is well-formed again (no
    two nodes with the same fields, no node to which a rewrite applies), it
    holds every node of the old pool at its old index with its old fields,
    and the node returned is in it and has the value of the operation on the
    values of the operands. *)
Theorem mk_returns_sound (tgt : target) (l2r : bool) (env : Z -> Z) (fuel : nat)
    (kind : token_t) (l r : ast_t) (k : Z) (p p' : pool) (t : ast_t) :
  (forall c, in_int32 (env c)) -> wf_pool tgt p ->
  kind = PLUS \/ kind = STAR -> valid p l -> valid p r ->
  mk tgt l2r fuel kind l r k p = Ok (p', t) ->
  wf_pool tgt p' /\ ext p p' /\ valid p' t /\
  exists a b, eval env p l = Some a /\ eval env p r = Some b /\
              eval env p' t = Some (binop_val kind a b).
Proof.
  intros Henv Hwf Hkind Hl Hr H.
  destruct (eval_total tgt env Henv p Hwf l Hl) as (a & Ha & _).
  destruct (eval_total tgt env Henv p Hwf r Hr) as (b & Hb & _).
  destruct Hl as (il & nl & -> & Hil). destruct Hr as (ir & nr & -> & Hir).
  destruct (mk_binop_sound tgt l2r env Henv fuel kind il ir k p nl nr a b p' t
              Hkind Hwf Hil Hir Ha Hb H) as (Hwf' & Hext & Hval & Hv).
  split; [assumption |]. split; [assumption |]. split; [assumption |].
  exists a, b. auto.
Qed.

(** ** The lexer stays inside the text *)

Lemma get_Some (src : string) : forall i,
  (i < String.length src)%nat -> exists c, String.get i src = Some c.
Proof.
  induction src as [| a src IH]; intros i Hi; simpl in Hi; [lia |].
  destruct i as [| i]; simpl; [eauto |]. apply IH. lia.
Qed.

Lemma get_None (src : string) : forall i,
  (String.length src <= i)%nat -> String.get i src = None.
Proof.
  induction src as [| a src IH]; intros i Hi; simpl in *; [destruct i; reflexivity |].
  destruct i as [| i]; [lia |]. apply IH. lia.
Qed.

Lemma nat_of_ascii_bound a : (nat_of_ascii a < 256)%nat.
Proof. destruct a as [[] [] [] [] [] [] [] []]; vm_compute; lia. Qed.

(** A character of the text is a byte; the terminator follows the text;
    beyond it nothing can be read. *)
Lemma char_at_inside src i :
  (i < String.length src)%nat -> exists c, char_at src i = Ok c /\ 0 <= c < 256.
Proof.
  intros Hi. destruct (get_Some src i Hi) as (a & Ha). unfold char_at. rewrite Ha.
  eexists. split; [reflexivity |]. pose proof (nat_of_ascii_bound a). lia.
Qed.

Lemma char_at_end src : char_at src (String.length src) = Ok 0.
Proof. unfold char_at. rewrite get_None by lia. now rewrite Nat.eqb_refl. Qed.

Lemma char_at_beyond src i : (String.length src < i)%nat -> char_at src i = Undef.
Proof.
  intros Hi. unfold char_at. rewrite get_None by lia.
  rewrite (proj2 (Nat.eqb_neq _ _)) by lia. reflexivity.
Qed.

Lemma char_at_Ok src i c :
  char_at src i = Ok c -> (i <= String.length src)%nat /\ 0 <= c < 256.
Proof.
  intros H. destruct (Nat.lt_trichotomy i (String.length src)) as [Hi | [-> | Hi]].
  - destruct (char_at_inside src i Hi) as (c' & E & Hc). split; [lia |]. congruence.
  - rewrite char_at_end in H. injection H as <-. lia.
  - rewrite char_at_beyond in H by assumption. discriminate.
Qed.

(** A run of characters that pass [f] ends at the terminator at the latest. *)
Lemma skip_while_spec f src : f 0 = false ->
  forall fuel i, (i <= String.length src)%nat -> (String.length src - i < fuel)%nat ->
  exists j, skip_while f fuel src i = Ok j /\
    (i <= j <= String.length src)%nat /\
    (exists c, char_at src j = Ok c /\ f c = false) /\
    forall m, (i <= m < j)%nat -> exists c, char_at src m = Ok c /\ f c = true.
Proof.
  intros Hf. induction fuel as [| fuel IH]; intros i Hi Hfuel; [lia |].
  cbn [skip_while].
  destruct (Nat.eq_dec i (String.length src)) as [-> | Hne].
  - rewrite char_at_end. simpl. rewrite Hf. exists (String.length src).
    split; [reflexivity |]. split; [lia |]. split.
    + exists 0. split; [apply char_at_end | exact Hf].
    + intros m Hm. lia.
  - destruct (char_at_inside src i ltac:(lia)) as (c & Hc & _). rewrite Hc. simpl.
    destruct (f c) eqn:Efc.
    + destruct (IH (S i) ltac:(lia) ltac:(lia)) as (j & Hj & Hr & Hend & Hrun).
      exists j. split; [exact Hj |]. split; [lia |]. split; [exact Hend |].
      intros m Hm. destruct (Nat.eq_dec m i) as [-> | Hmi]; [eauto |].
      apply Hrun. lia.
    + exists i. split; [reflexivity |]. split; [lia |]. split; [eauto |].
      intros m Hm. lia.
Qed.

Lemma scan_int_spec src :
  forall fuel i acc, (i <= String.length src)%nat -> (String.length src - i < fuel)%nat ->
  in_int32 acc ->
  exists j v, scan_int fuel src i acc = Ok (j, v) /\
    (i <= j <= String.length src)%nat /\ in_int32 v /\
    (exists c, char_at src j = Ok c /\ isdigit c = false).
Proof.
  induction fuel as [| fuel IH]; intros i acc Hi Hfuel Hacc; [lia |].
  cbn [scan_int].
  destruct (Nat.eq_dec i (String.length src)) as [-> | Hne].
  - rewrite char_at_end. simpl. exists (String.length src), acc.
    split; [reflexivity |]. split; [lia |]. split; [assumption |].
    exists 0. split; [apply char_at_end | reflexivity].
  - destruct (char_at_inside src i ltac:(lia)) as (c & Hc & _). rewrite Hc. simpl.
    destruct (isdigit c) eqn:Ed.
    + destruct (IH (S i) (wrap32 (10 * acc + c - 48)) ltac:(lia) ltac:(lia)
                  (wrap32_range _)) as (j & v & Hj & Hr & Hv & Hend).
      exists j, v. split; [exact Hj |]. split; [lia |]. auto.
    + exists i, acc. split; [reflexivity |]. split; [lia |]. split; [assumption |]. eauto.
Qed.

Lemma isalpha_not_digit c : isalnum c = false -> isdigit c = false.
Proof. unfold isalnum. intros H. apply orb_false_iff in H. tauto. Qed.

(** With the cursor inside the text [nexttoken] returns, keeps the cursor
    inside unless it has read the terminator, and leaves the lexer fit for
    the next call. *)
Lemma nexttoken_ok lx :
  (Lex.s lx <= String.length (Lex.src lx))%nat -> in_int32 (Lex.intValue lx) ->
  exists lx', nexttoken lx = Ok lx' /\ Lex.src lx' = Lex.src lx /\ lex_ok lx' /\
    (Lex.s lx <= Lex.s lx' <= S (String.length (Lex.src lx)))%nat /\
    ((Lex.s lx' <= String.length (Lex.src lx))%nat \/ Lex.lookahead lx' = END_OF_FILE).
Proof.
  intros Hs Hint. unfold nexttoken.
  destruct (skip_while_spec isspace (Lex.src lx) eq_refl (S (String.length (Lex.src lx)))
              (Lex.s lx) Hs ltac:(lia)) as (i & Hi & Hri & (c & Hc & Hsp) & _).
  rewrite Hi. cbn [rbind]. rewrite Hc. cbn [rbind].
  destruct (isdigit c) eqn:Ed.
  - destruct (scan_int_spec (Lex.src lx) (S (String.length (Lex.src lx))) i 0
                ltac:(lia) ltac:(lia) ltac:(unfold in_int32; lia))
      as (j & v & Hj & Hrj & Hv & _).
    rewrite Hj. cbn [rbind]. eexists. split; [reflexivity |]. simpl.
    split; [reflexivity |]. split.
    { split; [exact Hv |]. simpl. split; [intros _ _; lia |]. intros E. discriminate E. }
    split; [lia |]. left. lia.
  - destruct (isalpha c) eqn:Ea.
    + destruct (skip_while_spec isalnum (Lex.src lx) eq_refl
                  (S (String.length (Lex.src lx))) i ltac:(lia) ltac:(lia))
        as (j & Hj & Hrj & _ & _).
      rewrite Hj. cbn [rbind]. eexists. split; [reflexivity |]. simpl.
      split; [reflexivity |]. split.
      { split; [exact Hint |]. simpl. split; [intros _ _; lia |].
        intros _. exists c. split; [exact Hc |]. apply (char_at_Ok _ _ _ Hc). }
      split; [lia |]. left. lia.
    + eexists. split; [reflexivity |]. simpl.
      split; [reflexivity |].
      destruct (Nat.eq_dec i (String.length (Lex.src lx))) as [Ei | Ei].
      * assert (c = 0) by (rewrite Ei, char_at_end in Hc; congruence). subst c.
        split.
        { split; [exact Hint |]. simpl. split; [intros E; contradiction |].
          intros E. discriminate E. }
        split; [lia |]. right. reflexivity.
      * split.
        { split; [exact Hint |]. simpl. split; [intros _ _; lia |].
          intros E. pose proof (proj2 (char_at_Ok _ _ _ Hc)). unfold NAME in E. lia. }
        split; [lia |]. left. lia.
Qed.

(** [nexttoken] with the cursor beyond the terminator reads out of bounds. *)
Lemma nexttoken_beyond lx :
  (String.length (Lex.src lx) < Lex.s lx)%nat -> nexttoken lx = Undef.
Proof.
  intros H. unfold nexttoken. cbn [skip_while]. rewrite char_at_beyond by assumption.
  reflexivity.
Qed.

(** [match] on a lexer that is fit for it. *)
Lemma match_ok expect lx :
  lex_ok lx -> expect <> END_OF_FILE -> expect <> ERROR ->
  exists lx', match_ expect lx = Ok lx' /\ Lex.src lx' = Lex.src lx /\ lex_ok lx' /\
    (Lex.s lx <= Lex.s lx')%nat.
Proof.
  intros (Hint & Hs & Hname) He0 He1. unfold match_.
  destruct (Z.eqb_spec (Lex.lookahead lx) expect) as [E | E]; simpl.
  - destruct (nexttoken_ok lx) as (lx' & H & Hsrc & Hok & Hr & _).
    + apply Hs; congruence.
    + exact Hint.
    + exists lx'. split; [exact H |]. split; [exact Hsrc |]. split; [exact Hok | lia].
  - eexists. split; [reflexivity |]. simpl. split; [reflexivity |].
    split; [| lia]. split; [exact Hint |]. simpl.
    split; [intros _ E1; contradiction |]. intros E1. discriminate E1.
Qed.

(** ** What [mk] never touches *)

Ltac top_if H := match type of H with (if ?b then _ else _) = _ => destruct b end.

Section MkKeeps.
Variable tgt : target.
Variable l2r : bool.
Variable P : node -> Prop.
Hypothesis HP : mk_closed tgt P.

Local Abbreviation M := (mk tgt l2r).

Lemma mk_keeps fuel : forall kind l r k p p' t,
  (forall l' r', P (new_node tgt kind l' r' k)) ->
  Forall P p -> M fuel kind l r k p = Ok (p', t) -> Forall P p'.
Proof.
  destruct HP as [Hmark Hnew].
  induction fuel as [| f IH]; intros kind l r k p p' t Htop Hp H; [discriminate |].
  assert (Hrec : forall kind' l r k p p' t,
             kind' = INT \/ kind' = PLUS \/ kind' = STAR ->
             Forall P p -> M f kind' l r k p = Ok (p', t) -> Forall P p').
  { intros kind' l0 r0 k0 p0 p0' t0 Hk. apply IH. intros l' r'. apply Hnew. exact Hk. }
  assert (Happ : forall l r p p' t, Forall P p ->
             append tgt kind l r k p = Ok (p', t) -> Forall P p').
  { intros l0 r0 p0 p0' t0 Hp0 H0. unfold append in H0.
    destruct (_ <? _); [| discriminate]. injection H0 as <- <-.
    apply Forall_app. split; [assumption |]. constructor; [apply Htop | constructor]. }
  rewrite mk_S in H. unfold mk_body in H.
  destruct (is_indet l || is_indet r); [discriminate |].
  apply rbind_Ok in H as ([l1 r1] & _ & H).
  destruct (find_node p kind l1 r1 k) as [i |].
  { injection H as <- <-. apply Forall_alter; [assumption |]. intros x _. apply Hmark. }
  destruct (is_binop kind); [| exact (Happ _ _ _ _ _ Hp H)].
  apply rbind_Ok in H as (nl & _ & H). apply rbind_Ok in H as (nr & _ & H).
  unfold rewrite_rules in H. cbv zeta in H.
  top_if H; [exact (Hrec _ _ _ _ _ _ _ (or_introl eq_refl) Hp H) |].
  top_if H; [exact (Hrec _ _ _ _ _ _ _ (or_introl eq_refl) Hp H) |].
  top_if H; [exact (Hrec _ _ _ _ _ _ _ (or_introl eq_refl) Hp H) |].
  top_if H; [injection H as <- <-; exact Hp |].
  top_if H; [injection H as <- <-; exact Hp |].
  top_if H.
  { apply rbind_Ok in H as ([p1 two] & H1 & H2).
    apply (Hrec _ _ _ _ _ _ _ (or_intror (or_intror eq_refl))
             (Hrec _ _ _ _ _ _ _ (or_introl eq_refl) Hp H1) H2). }
  apply rbind_Ok in H as (c1 & _ & H). destruct c1.
  { apply rbind_Ok in H as ([p1 t1] & H1 & H2).
    apply (Hrec _ _ _ _ _ _ _ (or_intror (or_introl eq_refl))
             (Hrec _ _ _ _ _ _ _ (or_intror (or_introl eq_refl)) Hp H1) H2). }
  apply rbind_Ok in H as (c2 & _ & H). destruct c2.
  { apply rbind_Ok in H as ([p1 t1] & H1 & H2).
    apply (Hrec _ _ _ _ _ _ _ (or_intror (or_intror eq_refl))
             (Hrec _ _ _ _ _ _ _ (or_intror (or_intror eq_refl)) Hp H1) H2). }
  apply rbind_Ok in H as (c3 & _ & H). destruct c3; [| exact (Happ _ _ _ _ _ Hp H)].
  destruct l2r.
  - apply rbind_Ok in H as ([p1 ta] & H1 & H).
    apply rbind_Ok in H as ([p2 tb] & H2 & H3).
    apply (Hrec _ _ _ _ _ _ _ (or_intror (or_introl eq_refl))
             (Hrec _ _ _ _ _ _ _ (or_intror (or_intror eq_refl))
                (Hrec _ _ _ _ _ _ _ (or_intror (or_intror eq_refl)) Hp H1) H2) H3).
  - apply rbind_Ok in H as ([p1 tb] & H1 & H).
    apply rbind_Ok in H as ([p2 ta] & H2 & H3).
    apply (Hrec _ _ _ _ _ _ _ (or_intror (or_introl eq_refl))
             (Hrec _ _ _ _ _ _ _ (or_intror (or_intror eq_refl))
                (Hrec _ _ _ _ _ _ _ (or_intror (or_intror eq_refl)) Hp H1) H2) H3).
Qed.
End MkKeeps.

Lemma fresh_closed tgt :
  mk_closed tgt (fun n => Node.alloc n = 0 /\ Node.reg n = 0 /\ Node.saved n = None).
Proof. split; [intros f n H; exact H | intros; simpl; auto]. Qed.

Lemma names_closed tgt :
  mk_closed tgt (fun n => Node.kind n = NAME -> 0 <= Node.intValue n < 256).
Proof.
  split; [intros f n H; exact H |].
  intros kind l r k [-> | [-> | ->]] E; discriminate E.
Qed.

(** [mk] leaves [alloc], [reg] and [saved] of every node clear. *)
Lemma mk_keeps_fresh tgt l2r fuel kind l r k p p' t :
  fresh_pool p -> mk tgt l2r fuel kind l r k p = Ok (p', t) -> fresh_pool p'.
Proof.
  intros Hp H. unfold fresh_pool. apply Forall_lookup.
  apply (mk_keeps tgt l2r _ (fresh_closed tgt) fuel kind l r k p p' t); [| | exact H].
  - intros l' r'. simpl. auto.
  - apply Forall_lookup. exact Hp.
Qed.

(** A name node holds a byte. *)
Lemma mk_keeps_names tgt l2r fuel kind l r k p p' t :
  (kind = NAME -> 0 <= k < 256) ->
  names_ok p -> mk tgt l2r fuel kind l r k p = Ok (p', t) -> names_ok p'.
Proof.
  intros Hk Hp H. unfold names_ok.
  apply (proj1 (Forall_lookup (fun n => Node.kind n = NAME -> 0 <= Node.intValue n < 256) p')).
  apply (mk_keeps tgt l2r _ (names_closed tgt) fuel kind l r k p p' t); [| | exact H].
  - intros l' r'. simpl. exact Hk.
  - apply (proj2 (Forall_lookup _ p)). exact Hp.
Qed.

(** ** The parser keeps the pool well-formed *)

Lemma mk_not_indet tgt l2r fuel kind l r k p res :
  mk tgt l2r fuel kind l r k p = Ok res -> l <> Indet /\ r <> Indet.
Proof.
  destruct fuel as [| f]; [discriminate |]. rewrite mk_S. unfold mk_body.
  destruct l, r; simpl; try discriminate; split; discriminate.
Qed.

Lemma parsed_ext p p' v : ext p p' -> parsed p v -> parsed p' v.
Proof. intros Hext [-> | Hv]; [left; reflexivity | right; eapply ext_valid; eauto]. Qed.

Lemma parse_inv_intro tgt src lx p :
  Lex.src lx = src -> lex_ok lx -> wf_pool tgt p -> names_ok p -> fresh_pool p ->
  parse_inv tgt src (lx, p).
Proof. intros. split; [| split; [| split; [| split]]]; assumption. Qed.

Section ParserInv.
Variable tgt : target.
Variable l2r : bool.
Variable src : string.

Local Abbreviation inv := (parse_inv tgt src).
Local Abbreviation post := (parse_post tgt src).
Local Abbreviation ok := (parser_ok tgt src).

(** [v = mk(op, v, w, 0)] in the loops of [pTerm] and [pExp]. *)
Lemma mk'_operator op v w p p' t :
  op = PLUS \/ op = STAR ->
  wf_pool tgt p -> names_ok p -> fresh_pool p -> parsed p v -> parsed p w ->
  mk' tgt l2r op v w 0 p = Ok (p', t) ->
  wf_pool tgt p' /\ names_ok p' /\ fresh_pool p' /\ ext p p' /\ valid p' t.
Proof.
  intros Hop Hwf Hn Hf Hv Hw H. unfold mk' in H.
  destruct (mk_not_indet _ _ _ _ _ _ _ _ _ H) as [Hv' Hw'].
  destruct Hv as [-> | Hv]; [contradiction |].
  destruct Hw as [-> | Hw]; [contradiction |].
  destruct (eval_total tgt default_env default_env_int p Hwf v Hv) as (va & Hva & _).
  destruct (eval_total tgt default_env default_env_int p Hwf w Hw) as (vb & Hvb & _).
  assert (Hnm := mk_keeps_names tgt l2r _ op v w 0 p p' t ltac:(intros _; lia) Hn H).
  assert (Hfr := mk_keeps_fresh _ _ _ _ _ _ _ _ _ _ Hf H).
  destruct Hv as (iv & nv & -> & Hiv). destruct Hw as (iw & nw & -> & Hiw).
  destruct (mk_binop_sound tgt l2r default_env default_env_int _ op iv iw 0 p nv nw
              va vb p' t Hop Hwf Hiv Hiw Hva Hvb H) as (Hwf' & Hext & Hval & _).
  auto.
Qed.

(** [mk(NAME, 0, 0, c)] and [mk(INT, 0, 0, k)] in [pFactor]. *)
Lemma mk'_leaf kind k p p' t :
  kind = INT \/ kind = NAME -> in_int32 k -> (kind = NAME -> 0 <= k < 256) ->
  wf_pool tgt p -> names_ok p -> fresh_pool p ->
  mk' tgt l2r kind NULL NULL k p = Ok (p', t) ->
  wf_pool tgt p' /\ names_ok p' /\ fresh_pool p' /\ ext p p' /\ valid p' t.
Proof.
  intros Hk Hint Hbyte Hwf Hn Hf H. unfold mk' in H.
  destruct (mk_leaf_sound tgt l2r _ kind k p p' t Hwf Hk Hint H)
    as (Hwf' & Hext & i & n & -> & Hi & _).
  split; [assumption |].
  split; [apply (mk_keeps_names _ _ _ _ _ _ _ _ _ _ Hbyte Hn H) |].
  split; [apply (mk_keeps_fresh _ _ _ _ _ _ _ _ _ _ Hf H) |].
  split; [assumption |]. exists i, n. auto.
Qed.

Lemma match_inv expect lx lx' :
  expect <> END_OF_FILE -> expect <> ERROR ->
  Lex.src lx = src -> lex_ok lx -> match_ expect lx = Ok lx' ->
  Lex.src lx' = src /\ lex_ok lx' /\ (Lex.s lx <= Lex.s lx')%nat.
Proof.
  intros H0 H1 Hsrc Hok H.
  destruct (match_ok expect lx Hok H0 H1) as (lx1 & Hm & Hs1 & Hok1 & Hle).
  rewrite Hm in H. injection H as <-. rewrite Hs1. auto.
Qed.

Lemma ploop_ok operand op :
  ok operand -> op = PLUS \/ op = STAR ->
  forall n st v st' v',
    inv st -> parsed (snd st) v ->
    ploop tgt l2r operand op n st v = Ok (st', v') -> post st st' v'.
Proof.
  intros Hoperand Hop. induction n as [| n IH]; intros st v st' v' Hinv Hv H;
    [discriminate |].
  cbn [ploop] in H. destruct st as [lx p].
  destruct (Lex.lookahead lx =? op).
  - destruct Hinv as (Hsrc & Hlex & Hwf & Hn & Hf). simpl in *.
    apply rbind_Ok in H as (lx1 & H1 & H).
    apply rbind_Ok in H as ([[lx2 p2] w] & H2 & H).
    apply rbind_Ok in H as ([p3 v1] & H3 & H).
    destruct (match_inv op lx lx1) as (Hsrc1 & Hlex1 & Hle1); auto;
      try (destruct Hop as [-> | ->]; discriminate).
    destruct (Hoperand (lx1, p) (lx2, p2) w) as (Hinv2 & Hext2 & Hw & Hle2);
      [apply parse_inv_intro; assumption | assumption |].
    destruct Hinv2 as (Hsrc2 & Hlex2 & Hwf2 & Hn2 & Hf2). simpl in *.
    destruct (mk'_operator op v w p2 p3 v1 Hop Hwf2 Hn2 Hf2
                (parsed_ext _ _ _ Hext2 Hv) Hw H3) as (Hwf3 & Hn3 & Hf3 & Hext3 & Hv1).
    destruct (IH (lx2, p3) v1 st' v') as (Hinv4 & Hext4 & Hv4 & Hle4);
      [apply parse_inv_intro; assumption | right; assumption | assumption |].
    simpl in *. split; [assumption |].
    split; [eapply ext_trans; [| eassumption]; eapply ext_trans; eassumption |].
    split; [assumption | simpl; lia].
  - injection H as <- <-. split; [assumption |]. split; [apply ext_refl |].
    split; [assumption | simpl; lia].
Qed.

Lemma pFactor_body_ok pE : ok pE -> ok (pFactor_body tgt l2r pE).
Proof.
  intros HpE [lx p] st' v Hinv H. unfold pFactor_body in H.
  destruct Hinv as (Hsrc & Hlex & Hwf & Hn & Hf). simpl in *.
  destruct (Z.eqb_spec (Lex.lookahead lx) LPAREN) as [Ela | Ela].
  { apply rbind_Ok in H as (lx1 & H1 & H).
    apply rbind_Ok in H as ([[lx2 p2] w] & H2 & H).
    apply rbind_Ok in H as (lx3 & H3 & [= <- <-]).
    destruct (match_inv LPAREN lx lx1) as (Hsrc1 & Hlex1 & Hle1); auto; try discriminate.
    destruct (HpE (lx1, p) (lx2, p2) w) as (Hinv2 & Hext2 & Hw & Hle2);
      [apply parse_inv_intro; assumption | assumption |].
    destruct Hinv2 as (Hsrc2 & Hlex2 & Hwf2 & Hn2 & Hf2). simpl in *.
    destruct (match_inv RPAREN lx2 lx3) as (Hsrc3 & Hlex3 & Hle3); auto; try discriminate.
    split; [apply parse_inv_intro; assumption |]. simpl.
    split; [assumption |]. split; [assumption | simpl; lia]. }
  destruct (Z.eqb_spec (Lex.lookahead lx) NAME) as [Ena | Ena].
  { apply rbind_Ok in H as (c & Hc & H).
    apply rbind_Ok in H as ([p1 w] & H1 & H).
    apply rbind_Ok in H as (lx1 & H2 & [= <- <-]).
    destruct Hlex as (Hint & Hs & Hname).
    destruct (Hname Ena) as (c' & Hc' & Hbyte).
    assert (c' = c) by congruence. subst c'.
    destruct (mk'_leaf NAME c p p1 w (or_intror eq_refl)
                ltac:(unfold in_int32; lia) ltac:(intros _; exact Hbyte) Hwf Hn Hf H1)
      as (Hwf1 & Hn1 & Hf1 & Hext1 & Hw).
    destruct (match_inv NAME lx lx1) as (Hsrc1 & Hlex1 & Hle1); auto; try discriminate.
    { split; [assumption |]. split; assumption. }
    split; [apply parse_inv_intro; assumption |]. simpl.
    split; [assumption |]. split; [right; assumption | simpl; lia]. }
  destruct (Z.eqb_spec (Lex.lookahead lx) INT) as [Eint | Eint].
  { apply rbind_Ok in H as ([p1 w] & H1 & H).
    apply rbind_Ok in H as (lx1 & H2 & [= <- <-]).
    destruct (mk'_leaf INT (Lex.intValue lx) p p1 w (or_introl eq_refl)
                (proj1 Hlex) ltac:(intros E; discriminate E) Hwf Hn Hf H1)
      as (Hwf1 & Hn1 & Hf1 & Hext1 & Hw).
    destruct (match_inv INT lx lx1) as (Hsrc1 & Hlex1 & Hle1); auto; try discriminate.
    split; [apply parse_inv_intro; assumption |]. simpl.
    split; [assumption |]. split; [right; assumption | simpl; lia]. }
  injection H as <- <-.
  split; [apply parse_inv_intro; assumption |]. simpl.
  split; [apply ext_refl |]. split; [left; reflexivity | simpl; lia].
Qed.

(** A factor or term followed by the loop over its operator. *)
Lemma then_loop_ok first operand op n :
  ok first -> ok operand -> op = PLUS \/ op = STAR ->
  ok (fun st => let* (st1, v) := first st in ploop tgt l2r operand op n st1 v).
Proof.
  intros Hfirst Hoperand Hop st st' v Hinv H.
  apply rbind_Ok in H as ([st1 v1] & H1 & H2).
  destruct (Hfirst st st1 v1 Hinv H1) as (Hinv1 & Hext1 & Hv1 & Hle1).
  destruct (ploop_ok operand op Hoperand Hop n st1 v1 st' v Hinv1 Hv1 H2)
    as (Hinv2 & Hext2 & Hv2 & Hle2).
  split; [assumption |]. split; [eapply ext_trans; eassumption |].
  split; [assumption | simpl; lia].
Qed.

Lemma pExp_ok fuel : ok (pExp tgt l2r fuel).
Proof.
  induction fuel as [| f IH]; [intros st st' v _ H; discriminate |].
  cbn [pExp].
  pose proof (pFactor_body_ok _ IH) as HF.
  pose proof (then_loop_ok _ _ STAR f HF HF (or_intror eq_refl)) as HT.
  exact (then_loop_ok _ _ PLUS f HT HT (or_introl eq_refl)).
Qed.

Lemma pFactor_ok fuel : ok (pFactor tgt l2r fuel).
Proof. apply pFactor_body_ok, pExp_ok. Qed.

Lemma pTerm_ok fuel : ok (pTerm tgt l2r fuel).
Proof.
  apply (then_loop_ok _ _ STAR fuel (pFactor_ok fuel) (pFactor_ok fuel) (or_intror eq_refl)).
Qed.
End ParserInv.

Lemma names_nil : names_ok [].
Proof. intros i n Hi. destruct i; discriminate. Qed.

Lemma fresh_nil : fresh_pool [].
Proof. intros i n Hi. destruct i; discriminate. Qed.

Lemma fresh_unsaved p : fresh_pool p -> unsaved p.
Proof. intros H i n Hi. apply (H i n Hi). Qed.

Lemma parse_post_parse tgt l2r src st v :
  parse tgt l2r src = Ok (st, v) -> parse_post tgt src (Lex.Build src 0 0 0 0, []) st v.
Proof.
  intros H. unfold parse in H. apply rbind_Ok in H as (lx & H1 & H2).
  destruct (nexttoken_ok (Lex.Build src 0 0 0 0)) as (lx' & Hn & Hsrc & Hok & Hr & _);
    [simpl; lia | simpl; unfold in_int32; lia |].
  rewrite Hn in H1. injection H1 as <-.
  destruct (pExp_ok tgt l2r src (S (String.length src)) (lx', []) st v) as (Hinv & Hext & Hv & Hle);
    [| exact H2 |].
  - split; [exact Hsrc |]. split; [exact Hok |]. simpl.
    split; [apply wf_nil |]. split; [apply names_nil | apply fresh_nil].
  - split; [assumption |]. split; [assumption |]. split; [assumption |]. simpl. lia.
Qed.

(** ** From the text to the value *)

Lemma parse_facts tgt l2r src lx p v :
  parse tgt l2r src = Ok ((lx, p), v) ->
  wf_pool tgt p /\ names_ok p /\ fresh_pool p /\ parsed p v /\
  Lex.src lx = src /\ lex_ok lx.
Proof.
  intros H.
  destruct (parse_post_parse tgt l2r src (lx, p) v H)
    as ((Hsrc & Hlex & Hwf & Hn & Hf) & _ & Hv & _).
  simpl in *. auto 7.
Qed.

(** X9: whenever parsing a text returns, whatever the text, the pool it leaves is
    well-formed, every name node holds a byte, the fields of the code
    generators are clear, the pointer returned is a node of the pool or the
    uninitialised [v] of [pFactor], and the lexer is still on the text. *)
Theorem parse_sound (tgt : target) (l2r : bool) (src : string)
    (lx : lexer) (p : pool) (v : ast_t) :
  parse tgt l2r src = Ok ((lx, p), v) ->
  wf_pool tgt p /\ names_ok p /\ fresh_pool p /\ parsed p v /\
  Lex.src lx = src /\ lex_ok lx.
Proof.
  intros H. exact (parse_facts tgt l2r src lx p v H).
Qed.

(** Generator A does not compile an indeterminate pointer. *)
Lemma genA_compile_ptr env_addr cse_addr p t g :
  GenA.compile env_addr cse_addr p t = Ok g -> exists r n, t = Ptr r /\ p !! r = Some n.
Proof.
  intros H. unfold GenA.compile in H.
  apply rbind_Ok in H as (st0 & H0 & H).
  apply rbind_Ok in H as (st1 & H1 & _).
  destruct (genA_emit_spec _ _ _ H0) as (N0 & _). simpl in N0.
  destruct (length p) as [| f]; [discriminate |].
  cbn [GenA.codegen] in H1. apply rbind_Ok in H1 as (n & Hn & _).
  rewrite N0 in Hn. apply deref_Ok in Hn as (r & -> & Hr). eauto.
Qed.

(** X13: the x86 program, end to end: whenever [main] prints a value for a text,
    the text was parsed to its end, and the value printed, computed by the
    machine code, is the value of the AST that was printed. *)
Theorem main_x86_value (l2r : bool) (env : Z -> Z) (env_addr cse_addr : Z)
    (src text : string) (count value : Z) :
  (forall c, in_int32 (env c)) -> layout_ok env_addr cse_addr ->
  main X86 l2r env env_addr cse_addr src = Ok (Done text count value) ->
  exists lx p t,
    parse X86 l2r src = Ok ((lx, p), t) /\ Lex.lookahead lx = END_OF_FILE /\
    wf_pool X86 p /\ unparse (length p) p t = Ok text /\
    eval env p t = Some value.
Proof.
  intros Henv Hlay H. unfold main in H.
  apply rbind_Ok in H as ([[lx p] t] & Hp & H).
  destruct (Z.eqb_spec (Lex.lookahead lx) 0) as [Hla | Hla]; simpl in H; [| discriminate].
  apply rbind_Ok in H as (text' & Ht & H).
  apply rbind_Ok in H as (g & Hg & H).
  apply rbind_Ok in H as (v & Hv & [= <- <- <-]).
  destruct (parse_facts X86 l2r src lx p t Hp) as (Hwf & Hn & Hf & _).
  destruct (genA_compile_ptr _ _ _ _ _ Hg) as (r & n & -> & Hr).
  destruct (genA_compile_value env env_addr cse_addr Henv Hlay p Hwf Hn r g
              (fresh_unsaved p Hf) Hg) as (v' & Hv' & Hcall).
  exists lx, p, (Ptr r). split; [assumption |]. split; [assumption |].
  split; [assumption |]. split; [assumption |]. congruence.
Qed.

(** ** Unparsing *)

Lemma unparse_mono p : forall f f' t s,
  (f <= f')%nat -> unparse f p t = Ok s -> unparse f' p t = Ok s.
Proof.
  induction f as [| f IH]; intros f' t s Hle H; [discriminate |].
  destruct f' as [| f']; [lia |]. cbn [unparse] in *.
  apply rbind_Ok in H as (n & Hn & H). rewrite Hn. cbn [rbind].
  destruct (Node.kind n =? INT); [exact H |].
  destruct (Node.kind n =? NAME); [exact H |].
  apply rbind_Ok in H as (sl & Hl & H). apply rbind_Ok in H as (sr & Hr & H).
  rewrite (IH f' _ _ ltac:(lia) Hl), (IH f' _ _ ltac:(lia) Hr). exact H.
Qed.

Lemma unparse_exists tgt p : wf_pool tgt p ->
  forall i n, p !! i = Some n -> exists s, unparse (S i) p (Ptr i) = Ok s.
Proof.
  intros Hwf i. induction (lt_wf i) as [i _ IH]. intros n Hi.
  cbn [unparse]. rewrite (deref_ptr _ _ _ Hi). cbn [rbind].
  destruct (wf_ok _ _ Hwf i n Hi)
    as [[Hk | Hk] _ _ _ | a b na nb Hk Hl Hr Ha Hb Hna Hnb _].
  - rewrite Hk. simpl. eauto.
  - rewrite Hk. simpl. eauto.
  - assert ((Node.kind n =? INT) = false) as -> by (destruct Hk as [-> | ->]; reflexivity).
    assert ((Node.kind n =? NAME) = false) as -> by (destruct Hk as [-> | ->]; reflexivity).
    destruct (IH a Ha na Hna) as (sl & Hsl). destruct (IH b Hb nb Hnb) as (sr & Hsr).
    rewrite Hl, Hr.
    rewrite (unparse_mono p (S a) i _ _ ltac:(lia) Hsl).
    rewrite (unparse_mono p (S b) i _ _ ltac:(lia) Hsr).
    simpl. eauto.
Qed.

(** X11: [unparse] returns a text for every node of a well-formed pool.  An
    operator node is printed in parentheses around the texts of its two
    operands, with ['!'] after the opening one when [shared] is not 0; in the
    RISC-V program, where a new node starts with [shared] 1, the ['!'] is
    printed for every operator node. *)
Theorem unparse_node (tgt : target) (p : pool) (i : nat) (n : node) :
  wf_pool tgt p -> p !! i = Some n ->
  exists s, unparse (length p) p (Ptr i) = Ok s /\
    (Node.kind n = PLUS \/ Node.kind n = STAR ->
     exists sl sr,
       unparse (length p) p (Node.l n) = Ok sl /\
       unparse (length p) p (Node.r n) = Ok sr /\
       s = ("(" ++ (if (Node.shared n =? 0)%Z then "" else "!") ++ sl
                ++ print_char (Node.kind n) ++ sr ++ ")")%string /\
       (tgt = RISCV -> s = ("(!" ++ sl ++ print_char (Node.kind n) ++ sr ++ ")")%string)).
Proof.
  intros Hwf Hi.
  pose proof (lookup_lt_Some _ _ _ Hi) as Hlt.
  destruct (unparse_exists tgt p Hwf i n Hi) as (s & Hs).
  exists s. split; [apply (unparse_mono p (S i)); [lia | exact Hs] |].
  intros Hk.
  cbn [unparse] in Hs. rewrite (deref_ptr _ _ _ Hi) in Hs. cbn [rbind] in Hs.
  assert ((Node.kind n =? INT) = false) as E1 by (destruct Hk as [-> | ->]; reflexivity).
  assert ((Node.kind n =? NAME) = false) as E2 by (destruct Hk as [-> | ->]; reflexivity).
  rewrite E1, E2 in Hs.
  apply rbind_Ok in Hs as (sl & Hl & Hs). apply rbind_Ok in Hs as (sr & Hr & [= <-]).
  exists sl, sr.
  split; [apply (unparse_mono p i); [lia | exact Hl] |].
  split; [apply (unparse_mono p i); [lia | exact Hr] |].
  split; [reflexivity |].
  intros ->. pose proof (wf_shared _ _ Hwf i n Hi) as Hsh. simpl in Hsh.
  rewrite (proj2 (Z.eqb_neq _ _)) by lia. reflexivity.
Qed.

(** ** The lexer and the error state *)

(** X1: [nexttoken] stays inside the text: called with the cursor on the text or
    on its terminator it returns a token, moves the cursor forward only, and
    leaves it beyond the terminator only when the token is the terminator
    itself; called with the cursor beyond the terminator it reads out of
    bounds. *)
Theorem nexttoken_in_bounds (lx : lexer) :
  in_int32 (Lex.intValue lx) ->
  ((Lex.s lx <= String.length (Lex.src lx))%nat ->
   exists lx', nexttoken lx = Ok lx' /\ Lex.src lx' = Lex.src lx /\
     (Lex.s lx <= Lex.s lx' <= S (String.length (Lex.src lx)))%nat /\
     ((Lex.s lx' <= String.length (Lex.src lx))%nat \/ Lex.lookahead lx' = END_OF_FILE) /\
     in_int32 (Lex.intValue lx')) /\
  ((String.length (Lex.src lx) < Lex.s lx)%nat -> nexttoken lx = Undef).
Proof.
  intros Hint. split.
  - intros Hs. destruct (nexttoken_ok lx Hs Hint) as (lx' & H & Hsrc & Hok & Hr & He).
    exists lx'. split; [exact H |]. split; [exact Hsrc |]. split; [exact Hr |].
    split; [exact He |]. apply Hok.
  - apply nexttoken_beyond.
Qed.

Lemma skip_while_mono f src : forall fuel fuel' i j,
  (fuel <= fuel')%nat -> skip_while f fuel src i = Ok j -> skip_while f fuel' src i = Ok j.
Proof.
  induction fuel as [| fuel IH]; intros fuel' i j Hle H; [discriminate |].
  destruct fuel' as [| fuel']; [lia |]. cbn [skip_while] in *.
  destruct (char_at src i) as [c | | |]; try discriminate. cbn [rbind] in *.
  destruct (f c); [| exact H]. apply (IH fuel' (S i) j); [lia | exact H].
Qed.

Lemma skip_while_run f src : forall d fuel i,
  (forall m, (i <= m < i + d)%nat -> exists c, char_at src m = Ok c /\ f c = true) ->
  skip_while f (d + fuel) src i = skip_while f fuel src (i + d).
Proof.
  induction d as [| d IH]; intros fuel i Hrun.
  - rewrite Nat.add_0_r. reflexivity.
  - cbn [Nat.add skip_while].
    destruct (Hrun i ltac:(lia)) as (c & Hc & Hf). rewrite Hc. cbn [rbind]. rewrite Hf.
    rewrite IH by (intros m Hm; apply Hrun; lia).
    f_equal. lia.
Qed.

(** X2: blanks before a token are skipped: from any cursor inside a run of
    white space [nexttoken] gives what it gives at the end of the run. *)
Theorem nexttoken_skips_blanks (src : string) (s i : nat) (la : token_t) (iv : Z) (sv : nat) :
  (s <= i <= String.length src)%nat ->
  (forall m, (s <= m < i)%nat -> exists c, char_at src m = Ok c /\ isspace c = true) ->
  nexttoken (Lex.Build src s la iv sv) = nexttoken (Lex.Build src i la iv sv).
Proof.
  intros Hr Hrun. unfold nexttoken. cbn [Lex.src Lex.s Lex.intValue Lex.symbolValue].
  assert (E : skip_while isspace (S (String.length src)) src s
              = skip_while isspace (S (String.length src)) src i).
  { destruct (skip_while_spec isspace src eq_refl (S (String.length src) - (i - s)) i
                ltac:(lia) ltac:(lia)) as (j & Hj & _).
    rewrite (skip_while_mono isspace src (S (String.length src) - (i - s))
               (S (String.length src)) i j ltac:(lia) Hj).
    replace (S (String.length src)) with ((i - s) + (S (String.length src) - (i - s)))%nat
      at 1 by lia.
    rewrite skip_while_run by (intros m Hm; apply Hrun; lia).
    replace (s + (i - s))%nat with i by lia. exact Hj. }
  rewrite E. reflexivity.
Qed.

(** X5: A failed [match] stops the parser for good: [lookahead] becomes [ERROR]
    and the cursor stays; from then on every [match] fails the same way
    without reading, [pFactor] returns at once, and the loops of [pTerm] and
    [pExp] are not entered. *)
Theorem match_error_sticky (tgt : target) (l2r : bool) (lx : lexer) (expect : token_t) :
  Lex.lookahead lx <> expect ->
  let lx' := set_lookahead ERROR lx in
  match_ expect lx = Ok lx' /\
  Lex.s lx' = Lex.s lx /\
  (forall e, e <> ERROR -> match_ e lx' = Ok lx') /\
  (forall pE p, pFactor_body tgt l2r pE (lx', p) = Ok ((lx', p), Indet)) /\
  (forall operand op n p v, op <> ERROR ->
     ploop tgt l2r operand op (S n) (lx', p) v = Ok ((lx', p), v)).
Proof.
  intros Hne lx'. subst lx'. split; [| split; [| split; [| split]]].
  - unfold match_. rewrite (proj2 (Z.eqb_neq _ _) Hne). reflexivity.
  - reflexivity.
  - intros e He. unfold match_. cbn [Lex.lookahead set_lookahead].
    rewrite (proj2 (Z.eqb_neq ERROR e)) by congruence. reflexivity.
  - intros pE p. reflexivity.
  - intros operand op n p v Hop. cbn [ploop Lex.lookahead set_lookahead].
    rewrite (proj2 (Z.eqb_neq ERROR op)) by congruence. reflexivity.
Qed.

Lemma rest_of_inside src i :
  (i <= String.length src)%nat ->
  rest_of src i = Ok (String.substring i (String.length src - i) src).
Proof. intros H. unfold rest_of. rewrite (proj2 (Nat.leb_le _ _) H). reflexivity. Qed.

Lemma rest_of_beyond src i : (String.length src < i)%nat -> rest_of src i = Undef.
Proof. intros H. unfold rest_of. rewrite (proj2 (Nat.leb_gt _ _) H). reflexivity. Qed.

(** X12: what [main] prints after "Syntax error at:" is the text from the cursor
    on, a suffix of the source: unless the error was raised by a failed
    [match] after the terminator had been read, where [s] points beyond the
    text and [printf] reads out of bounds. *)
Theorem main_syntax_error (tgt : target) (l2r : bool) (env : Z -> Z)
    (env_addr cse_addr : Z) (src : string) (r : result string) :
  main tgt l2r env env_addr cse_addr src = Ok (SyntaxError r) ->
  exists lx p t,
    parse tgt l2r src = Ok ((lx, p), t) /\ Lex.lookahead lx <> END_OF_FILE /\
    (((Lex.s lx <= String.length src)%nat /\
      r = Ok (String.substring (Lex.s lx) (String.length src - Lex.s lx) src)) \/
     ((String.length src < Lex.s lx)%nat /\ Lex.lookahead lx = ERROR /\ r = Undef)).
Proof.
  intros H. unfold main in H.
  apply rbind_Ok in H as ([[lx p] t] & Hp & H).
  destruct (Z.eqb_spec (Lex.lookahead lx) 0) as [Hla | Hla]; simpl in H.
  { apply rbind_Ok in H as (text & _ & H). destruct tgt.
    - apply rbind_Ok in H as (g & _ & H). apply rbind_Ok in H as (v & _ & H). discriminate.
    - apply rbind_Ok in H as (g & _ & H). apply rbind_Ok in H as (v & _ & H). discriminate. }
  injection H as <-.
  destruct (parse_facts tgt l2r src lx p t Hp) as (_ & _ & _ & _ & Hsrc & _ & Hs & _).
  exists lx, p, t. split; [exact Hp |]. split; [exact Hla |].
  rewrite Hsrc in Hs.
  destruct (le_lt_dec (Lex.s lx) (String.length src)) as [Hin | Hout].
  - left. split; [exact Hin |]. apply rest_of_inside. exact Hin.
  - right. split; [exact Hout |]. split; [| apply rest_of_beyond; exact Hout].
    destruct (Z.eq_dec (Lex.lookahead lx) ERROR) as [E | E]; [exact E |].
    specialize (Hs Hla E). lia.
Qed.

Lemma mk'_indet_r tgt l2r op v p : mk' tgt l2r op v Indet 0 p = Undef.
Proof.
  unfold mk', mk_fuel. replace (length p + 5)%nat with (S (length p + 4)) by lia.
  rewrite mk_S. unfold mk_body. destruct v; reflexivity.
Qed.

Lemma match_hit e lx : Lex.lookahead lx = e -> match_ e lx = nexttoken lx.
Proof. intros H. unfold match_. rewrite H, Z.eqb_refl. reflexivity. Qed.

Lemma pFactor_body_none tgt l2r pE lx p :
  Lex.lookahead lx <> LPAREN -> Lex.lookahead lx <> NAME -> Lex.lookahead lx <> INT ->
  pFactor_body tgt l2r pE (lx, p) = Ok ((lx, p), Indet).
Proof.
  intros H1 H2 H3. unfold pFactor_body.
  rewrite (proj2 (Z.eqb_neq _ _) H1), (proj2 (Z.eqb_neq _ _) H2),
    (proj2 (Z.eqb_neq _ _) H3). reflexivity.
Qed.

(** X10: an operator that is not followed by the start of a factor (a
    parenthesis, a name or a number) is not reported: [pFactor] returns its
    uninitialised [v], and the [mk] of the loop in [pTerm] or [pExp] is
    called with it. *)
Theorem missing_operand_undefined (tgt : target) (l2r : bool) (fuel n : nat)
    (lx lx1 : lexer) (p : pool) (v : ast_t) :
  nexttoken lx = Ok lx1 ->
  Lex.lookahead lx1 <> LPAREN -> Lex.lookahead lx1 <> NAME -> Lex.lookahead lx1 <> INT ->
  (Lex.lookahead lx = STAR ->
   ploop tgt l2r (pFactor tgt l2r fuel) STAR (S n) (lx, p) v = Undef) /\
  (Lex.lookahead lx = PLUS -> Lex.lookahead lx1 <> STAR ->
   ploop tgt l2r (pTerm tgt l2r (S fuel)) PLUS (S n) (lx, p) v = Undef).
Proof.
  intros Hn H1 H2 H3. split.
  - intros Hla. cbn [ploop]. rewrite Hla, Z.eqb_refl.
    rewrite (match_hit STAR lx Hla), Hn. cbn [rbind].
    unfold pFactor. rewrite pFactor_body_none by assumption. cbn [rbind].
    rewrite mk'_indet_r. reflexivity.
  - intros Hla Hst. cbn [ploop]. rewrite Hla, Z.eqb_refl.
    rewrite (match_hit PLUS lx Hla), Hn. cbn [rbind].
    unfold pTerm, pFactor. rewrite pFactor_body_none by assumption. cbn [rbind ploop].
    rewrite (proj2 (Z.eqb_neq _ _) Hst). cbn [rbind].
    rewrite mk'_indet_r. reflexivity.
Qed.

(** ** The pool only grows *)

Lemma grows_trans tgt p1 p2 p3 : grows tgt p1 p2 -> grows tgt p2 p3 -> grows tgt p1 p3.
Proof.
  intros H12 H23. induction H23 as [| p' i _ IH | p' kind l r k _ IH Hcap].
  - exact H12.
  - apply grows_mark. exact IH.
  - apply grows_new; assumption.
Qed.

Lemma valid_alter f i p t : valid p t -> valid (alter f i p) t.
Proof.
  intros (j & n & -> & Hj). destruct (decide (j = i)) as [-> | Hne].
  - exists i, (f n). split; [reflexivity |]. rewrite list_lookup_alter_eq, Hj. reflexivity.
  - exists j, n. split; [reflexivity |]. rewrite list_lookup_alter_ne by auto. exact Hj.
Qed.

Lemma valid_app p q t : valid p t -> valid (p ++ q) t.
Proof.
  intros (j & n & -> & Hj). exists j, n. split; [reflexivity |].
  rewrite lookup_app_l by (eapply lookup_lt_Some; eauto). exact Hj.
Qed.

Lemma grows_valid tgt p p' t : grows tgt p p' -> valid p t -> valid p' t.
Proof.
  intros H Hv. induction H as [| p' i _ IH | p' kind l r k _ IH Hcap].
  - exact Hv.
  - apply valid_alter. exact IH.
  - apply valid_app. exact IH.
Qed.

Section MkGrows.
Variable tgt : target.
Variable l2r : bool.

Local Abbreviation M := (mk tgt l2r).

Lemma mk_grows fuel : forall kind l r k p p' t,
  M fuel kind l r k p = Ok (p', t) -> grows tgt p p' /\ valid p' t.
Proof.
  induction fuel as [| f IH]; intros kind l r k p p' t H; [discriminate |].
  assert (Happ : forall kind l r k p p' t,
             append tgt kind l r k p = Ok (p', t) -> grows tgt p p' /\ valid p' t).
  { intros kind0 l0 r0 k0 p0 p0' t0 H0. unfold append in H0.
    destruct (Z.ltb_spec (Z.of_nat (length p0)) NODES_MAX); [| discriminate].
    injection H0 as <- <-. split.
    - apply grows_new; [apply grows_refl | assumption].
    - exists (length p0), (new_node tgt kind0 l0 r0 k0).
      split; [reflexivity | apply lookup_snoc]. }
  assert (Hseq : forall kind1 l1 r1 k1 kind2 k2 (arg : ast_t -> ast_t * ast_t) p p' t,
             (let* (p1, t1) := M f kind1 l1 r1 k1 p in
              M f kind2 (fst (arg t1)) (snd (arg t1)) k2 p1) = Ok (p', t) ->
             grows tgt p p' /\ valid p' t).
  { intros kind1 l1 r1 k1 kind2 k2 arg p0 p0' t0 H0.
    apply rbind_Ok in H0 as ([p1 t1] & H1 & H2).
    destruct (IH _ _ _ _ _ _ _ H1) as [G1 _]. destruct (IH _ _ _ _ _ _ _ H2) as [G2 V2].
    split; [eapply grows_trans; eassumption | exact V2]. }
  rewrite mk_S in H. unfold mk_body in H.
  destruct (is_indet l || is_indet r); [discriminate |].
  apply rbind_Ok in H as ([l1 r1] & _ & H).
  destruct (find_node p kind l1 r1 k) as [i |] eqn:Fd.
  { injection H as <- <-. split; [apply grows_mark, grows_refl |].
    destruct (find_node_hit _ _ _ _ _ _ Fd) as (n & Hn & _).
    apply valid_alter. exists i, n. auto. }
  destruct (is_binop kind); [| exact (Happ _ _ _ _ _ _ _ H)].
  apply rbind_Ok in H as (nl & Hnl & H). apply rbind_Ok in H as (nr & _ & H).
  assert (Hl1 : valid p l1).
  { apply deref_Ok in Hnl as (i & -> & Hi). exists i, nl. auto. }
  unfold rewrite_rules in H. cbv zeta in H.
  top_if H; [exact (IH _ _ _ _ _ _ _ H) |].
  top_if H; [exact (IH _ _ _ _ _ _ _ H) |].
  top_if H; [exact (IH _ _ _ _ _ _ _ H) |].
  top_if H; [injection H as <- <-; split; [apply grows_refl | exact Hl1] |].
  top_if H; [injection H as <- <-; split; [apply grows_refl | exact Hl1] |].
  top_if H; [exact (Hseq INT NULL NULL 2 STAR 0 (fun t1 => (t1, l1)) _ _ _ H) |].
  apply rbind_Ok in H as (c1 & _ & H). destruct c1;
    [exact (Hseq PLUS r1 (Node.r nl) 0 PLUS 0 (fun t1 => (Node.l nl, t1)) _ _ _ H) |].
  apply rbind_Ok in H as (c2 & _ & H). destruct c2;
    [exact (Hseq STAR r1 (Node.r nl) 0 STAR 0 (fun t1 => (Node.l nl, t1)) _ _ _ H) |].
  apply rbind_Ok in H as (c3 & _ & H). destruct c3; [| exact (Happ _ _ _ _ _ _ _ H)].
  destruct l2r.
  - apply rbind_Ok in H as ([p1 ta] & H1 & H).
    apply rbind_Ok in H as ([p2 tb] & H2 & H3).
    destruct (IH _ _ _ _ _ _ _ H1) as [G1 _]. destruct (IH _ _ _ _ _ _ _ H2) as [G2 _].
    destruct (IH _ _ _ _ _ _ _ H3) as [G3 V3].
    split; [eapply grows_trans; [| eassumption]; eapply grows_trans; eassumption | exact V3].
  - apply rbind_Ok in H as ([p1 tb] & H1 & H).
    apply rbind_Ok in H as ([p2 ta] & H2 & H3).
    destruct (IH _ _ _ _ _ _ _ H1) as [G1 _]. destruct (IH _ _ _ _ _ _ _ H2) as [G2 _].
    destruct (IH _ _ _ _ _ _ _ H3) as [G3 V3].
    split; [eapply grows_trans; [| eassumption]; eapply grows_trans; eassumption | exact V3].
Qed.
End MkGrows.

(** What growing keeps. *)
Lemma grows_length tgt p p' :
  grows tgt p p' ->
  (length p <= length p')%nat /\
  (Z.of_nat (length p) <= NODES_MAX -> Z.of_nat (length p') <= NODES_MAX).
Proof.
  intros H. induction H as [| p' i _ IH | p' kind l r k _ IH Hcap].
  - split; [lia | auto].
  - rewrite length_alter. exact IH.
  - rewrite length_app. simpl. split; [lia | intros _; lia].
Qed.

Lemma grows_old tgt p p' :
  grows tgt p p' ->
  forall i n, p !! i = Some n ->
    exists n', p' !! i = Some n' /\ tuple_of n' = tuple_of n /\
      Node.alloc n' = Node.alloc n /\ Node.reg n' = Node.reg n /\
      Node.saved n' = Node.saved n.
Proof.
  intros H. induction H as [| p' j _ IH | p' kind l r k _ IH Hcap]; intros i n Hi.
  - exists n. auto.
  - destruct (IH i n Hi) as (n' & Hn' & Ht & Ha & Hr & Hs).
    destruct (decide (i = j)) as [-> | Hne].
    + exists (Node.set_shared (mark tgt) n').
      split; [rewrite list_lookup_alter_eq, Hn'; reflexivity |]. auto.
    + exists n'. split; [rewrite list_lookup_alter_ne by auto; exact Hn' |]. auto.
  - destruct (IH i n Hi) as (n' & Hn' & Hrest).
    exists n'. split; [| exact Hrest].
    rewrite lookup_app_l by (eapply lookup_lt_Some; eauto). exact Hn'.
Qed.

Lemma grows_fresh tgt p p' :
  grows tgt p p' ->
  forall i n', (length p <= i)%nat -> p' !! i = Some n' ->
    Node.alloc n' = 0 /\ Node.reg n' = 0 /\ Node.saved n' = None.
Proof.
  intros H. induction H as [| p' j _ IH | p' kind l r k G IH Hcap]; intros i n' Hle Hi.
  - apply lookup_lt_Some in Hi. lia.
  - destruct (decide (i = j)) as [-> | Hne].
    + rewrite list_lookup_alter_eq in Hi.
      destruct (p' !! j) as [m |] eqn:Hj; [| discriminate]. injection Hi as <-.
      exact (IH j m Hle Hj).
    + rewrite list_lookup_alter_ne in Hi by auto. exact (IH i n' Hle Hi).
  - destruct (lt_dec i (length p')) as [Hlt | Hge].
    + rewrite lookup_app_l in Hi by assumption. exact (IH i n' Hle Hi).
    + rewrite lookup_app_r in Hi by lia.
      destruct (i - length p')%nat; [| destruct n; discriminate].
      injection Hi as <-. simpl. auto.
Qed.

(** X7: every call of [mk] that returns, on any pool and with any arguments,
    has only marked nodes and appended new ones: the pool is no shorter and
    still within the 9999 elements of [nodes], every node is where it was
    with its kind, operands and value and with [alloc], [reg] and [saved]
    untouched, the nodes added have those fields clear, and the pointer
    returned is the address of a node of the pool. *)
Theorem mk_pool_grows (tgt : target) (l2r : bool) (fuel : nat) (kind : token_t)
    (l r : ast_t) (k : Z) (p p' : pool) (t : ast_t) :
  Z.of_nat (length p) <= NODES_MAX ->
  mk tgt l2r fuel kind l r k p = Ok (p', t) ->
  (length p <= length p')%nat /\ Z.of_nat (length p') <= NODES_MAX /\
  (forall i n, p !! i = Some n ->
     exists n', p' !! i = Some n' /\ tuple_of n' = tuple_of n /\
       Node.alloc n' = Node.alloc n /\ Node.reg n' = Node.reg n /\
       Node.saved n' = Node.saved n) /\
  (forall i n', (length p <= i)%nat -> p' !! i = Some n' ->
     Node.alloc n' = 0 /\ Node.reg n' = 0 /\ Node.saved n' = None) /\
  valid p' t.
Proof.
  intros Hcap H. destruct (mk_grows tgt l2r fuel kind l r k p p' t H) as [G V].
  destruct (grows_length tgt p p' G) as [Hlen Hmax].
  split; [exact Hlen |]. split; [exact (Hmax Hcap) |].
  split; [exact (grows_old tgt p p' G) |].
  split; [exact (grows_fresh tgt p p' G) | exact V].
Qed.

(** X8: A literal operand may be given on either side: with a literal on the
    left [mk] builds what it builds with the operands exchanged. *)
Theorem mk_literal_commutes (tgt : target) (l2r : bool) (fuel : nat) (op : token_t)
    (a b : nat) (na nb : node) (k : Z) (p : pool) :
  wf_pool tgt p -> op = PLUS \/ op = STAR ->
  p !! a = Some na -> p !! b = Some nb -> Node.kind na = INT ->
  mk tgt l2r fuel op (Ptr a) (Ptr b) k p = mk tgt l2r fuel op (Ptr b) (Ptr a) k p.
Proof.
  intros Hwf Hop Ha Hb Hka. destruct fuel as [| f]; [reflexivity |].
  assert (Hbin : is_binop op = true) by (destruct Hop as [-> | ->]; reflexivity).
  destruct (Z.eq_dec (Node.kind nb) INT) as [Hkb | Hkb];
    [| apply (mk_swap tgt l2r f op a b k p na nb); assumption].
  rewrite (mk_unfold_swap tgt l2r f op a b k p na nb Hbin Ha Hb Hka).
  rewrite (mk_unfold_swap tgt l2r f op b a k p nb na Hbin Hb Ha Hkb).
  assert (Hmiss : forall x y nx ny, p !! x = Some nx -> p !! y = Some ny ->
            Node.kind nx = INT -> find_node p op (Ptr x) (Ptr y) k = None).
  { intros x y nx ny Hx Hy Hkx.
    destruct (find_node p op (Ptr x) (Ptr y) k) as [i |] eqn:Fd; [| reflexivity].
    destruct (find_no_rule tgt p op x y k i nx ny Hwf Fd Hx Hy) as [(Hno & _) _].
    contradiction. }
  rewrite (Hmiss b a nb na Hb Ha Hkb), (Hmiss a b na nb Ha Hb Hka).
  destruct Hop as [-> | ->].
  - rewrite !rule_fold_plus by assumption. f_equal. f_equal. lia.
  - rewrite !rule_fold_star by assumption. f_equal. f_equal. lia.
Qed.

(** ** Generator B: registers and instruction words *)

(** X14: [alloc] takes the register at [next_free]; [use] gives it back with the
    last reference and keeps it while references remain. *)
Theorem alloc_then_use (st : GenB.state) (i : nat) (n : node) :
  regs_ok st -> GenB.nodes st !! i = Some n ->
  Node.alloc n = 0 -> 1 <= Node.shared n ->
  (GenB.next_free st < GenB.NREGS)%nat ->
  exists x st1 st2,
    GenB.reg_poll st !! GenB.next_free st = Some x /\
    GenB.alloc i st = Ok st1 /\ GenB.use i st1 = Ok (st2, x) /\
    GenB.reg_poll st2 = GenB.reg_poll st /\ GenB.code st2 = GenB.code st /\
    GenB.next_free st2
    = (if Node.shared n =? 1 then GenB.next_free st else S (GenB.next_free st)).
Proof.
  intros [Hlen Hnf] Hn Ha Hsh Hfree.
  destruct (lookup_lt_is_Some_2 (GenB.reg_poll st) (GenB.next_free st)) as (x & Hx);
    [rewrite Hlen; exact Hfree |].
  exists x,
    (GenB.Build (alter (Node.set_reg x) i (GenB.nodes st)) (GenB.code st)
       (GenB.reg_poll st) (S (GenB.next_free st))).
  assert (Halloc : GenB.alloc i st
                   = Ok (GenB.Build (alter (Node.set_reg x) i (GenB.nodes st)) (GenB.code st)
                           (GenB.reg_poll st) (S (GenB.next_free st)))).
  { unfold GenB.alloc. rewrite (deref_ptr _ _ _ Hn). cbn [rbind].
    rewrite Ha, Hx. cbn [Z.eqb negb].
    rewrite (proj2 (Nat.ltb_lt _ _) Hfree). reflexivity. }
  assert (Hd : deref (alter (Node.set_reg x) i (GenB.nodes st)) (Ptr i)
               = Ok (Node.set_reg x n)).
  { apply deref_ptr. rewrite list_lookup_alter_eq, Hn. reflexivity. }
  destruct (Z.eqb_spec (Node.shared n) 1) as [E | E].
  - eexists. split; [exact Hx |]. split; [exact Halloc |].
    split.
    { unfold GenB.use. cbn [GenB.nodes GenB.next_free GenB.code GenB.reg_poll].
      rewrite Hd. cbn [rbind Node.reg Node.shared Node.set_reg].
      rewrite E. cbn [Z.ltb Z.compare negb Z.sub Z.add Z.opp Z.pos_sub Z.eqb].
      reflexivity. }
    cbn [GenB.reg_poll GenB.code GenB.next_free].
    split; [apply list_insert_id; exact Hx |]. split; reflexivity.
  - eexists. split; [exact Hx |]. split; [exact Halloc |].
    split.
    { unfold GenB.use. cbn [GenB.nodes GenB.next_free GenB.code GenB.reg_poll].
      rewrite Hd. cbn [rbind Node.reg Node.shared Node.set_reg].
      rewrite (proj2 (Z.ltb_lt 0 (Node.shared n))) by lia. cbn [negb].
      rewrite (proj2 (Z.eqb_neq (Node.shared n - 1) 0)) by lia. reflexivity. }
    cbn [GenB.reg_poll GenB.code GenB.next_free GenB.set_nodes].
    split; [reflexivity |]. split; reflexivity.
Qed.

Lemma land_mul_small c n b : 0 <= n -> 0 <= b < 2^n -> Z.land (c * 2^n) b = 0.
Proof.
  intros Hn Hb. apply Z.bits_inj'. intros k Hk.
  rewrite Z.land_spec, Z.bits_0.
  destruct (Z.lt_ge_cases k n) as [Hlt | Hge].
  - rewrite Z.mul_pow2_bits_low by lia. reflexivity.
  - assert (E : Z.testbit b k = false).
    { destruct (Z.eq_dec b 0) as [-> | Hb0]; [apply Z.bits_0 |].
      apply Z.bits_above_log2; [lia |].
      apply Z.log2_lt_pow2; [lia |].
      apply Z.lt_le_trans with (2^n); [lia |]. apply Z.pow_le_mono_r; lia. }
    rewrite E. apply andb_false_r.
Qed.

Lemma lor_small c n b : 0 <= n -> 0 <= b < 2^n -> Z.lor (c * 2^n) b = c * 2^n + b.
Proof.
  intros Hn Hb. pose proof (land_mul_small c n b Hn Hb) as H0.
  rewrite <- (Z.lxor_lor _ _ H0). symmetry. apply Z.add_nocarry_lxor. exact H0.
Qed.

Lemma field_spec w lo n : 0 <= lo -> 0 <= n -> RV.field w lo n = (w / 2^lo) mod 2^n.
Proof.
  intros Hlo Hn. unfold RV.field. rewrite Z.shiftr_div_pow2 by assumption.
  rewrite <- Z.land_ones by assumption. f_equal. rewrite Z.ones_equiv. lia.
Qed.

Lemma land_low12 v : Z.land v 0xFFF = v mod 4096.
Proof. change 0xFFF with (Z.ones 12). rewrite Z.land_ones by lia. reflexivity. Qed.

Lemma land_high20 v : Z.land v 0xFFFFF000 = ((v / 4096) mod 2^20) * 4096.
Proof.
  change 0xFFFFF000 with (Z.shiftl (Z.ones 20) 12).
  change 4096 with (2^12).
  rewrite <- Z.land_ones by lia. rewrite <- (Z.shiftr_div_pow2 v 12) by lia.
  rewrite <- Z.shiftl_mul_pow2 by lia.
  apply Z.bits_inj'. intros k Hk.
  rewrite Z.land_spec.
  destruct (Z.lt_ge_cases k 12) as [Hlt | Hge].
  - rewrite !Z.shiftl_spec_low by lia. apply andb_false_r.
  - rewrite !Z.shiftl_spec_high by lia. rewrite Z.land_spec, Z.shiftr_spec by lia.
    f_equal. f_equal. lia.
Qed.

Ltac pows :=
  change (2^0) with 1 in *; change (2^3) with 8 in *; change (2^5) with 32 in *;
  change (2^7) with 128 in *; change (2^8) with 256 in *; change (2^12) with 4096 in *;
  change (2^13) with 8192 in *; change (2^15) with 32768 in *;
  change (2^20) with 1048576 in *; change (2^25) with 33554432 in *;
  change (2^32) with 4294967296 in *.

Lemma word_addi l hi x :
  0 <= l < 4096 -> 0 <= hi < 32 -> 0 <= x < 32 ->
  u32 (Z.lor (Z.lor (Z.lor (GenB.shl l 20) (GenB.shl hi 15)) (GenB.shl x 7)) 0x13)
  = l * 2^20 + hi * 2^15 + x * 2^7 + 19.
Proof.
  intros Hl Hh Hx. unfold GenB.shl, u32. rewrite !Z.shiftl_mul_pow2 by lia.
  rewrite (lor_small l 20 (hi * 2^15)) by lia.
  replace (l * 2^20 + hi * 2^15) with ((l * 2^5 + hi) * 2^15) by lia.
  rewrite (lor_small _ 15 (x * 2^7)) by lia.
  replace ((l * 2^5 + hi) * 2^15 + x * 2^7) with ((l * 2^13 + hi * 2^8 + x) * 2^7) by lia.
  rewrite (lor_small _ 7 19) by lia.
  apply Z.mod_small. lia.
Qed.

Lemma step_addi env ea l hi x regs :
  0 <= l < 4096 -> 0 <= hi < 32 -> 0 <= x < 32 ->
  RV.step env ea
    (u32 (Z.lor (Z.lor (Z.lor (GenB.shl l 20) (GenB.shl hi 15)) (GenB.shl x 7)) 0x13)) regs
  = Ok (RV.set regs x (RV.get regs hi + RV.sext 12 l)).
Proof.
  intros Hl Hh Hx. rewrite word_addi by assumption.
  set (w := l * 2^20 + hi * 2^15 + x * 2^7 + 19).
  unfold RV.step. rewrite !field_spec by lia.
  assert (E0 : (w / 2^0) mod 2^7 = 19) by (unfold w; pows; Z.div_mod_to_equations; lia).
  assert (E1 : (w / 2^7) mod 2^5 = x) by (unfold w; pows; Z.div_mod_to_equations; lia).
  assert (E2 : (w / 2^12) mod 2^3 = 0) by (unfold w; pows; Z.div_mod_to_equations; lia).
  assert (E3 : (w / 2^15) mod 2^5 = hi) by (unfold w; pows; Z.div_mod_to_equations; lia).
  assert (E4 : (w / 2^20) mod 2^12 = l) by (unfold w; pows; Z.div_mod_to_equations; lia).
  rewrite E0, E1, E2, E3, E4. reflexivity.
Qed.

Lemma word_lui h x :
  0 <= h < 2^20 -> 0 <= x < 32 ->
  u32 (Z.lor (Z.lor (h * 4096) (GenB.shl x 7)) 0x37) = h * 2^12 + x * 2^7 + 55.
Proof.
  intros Hh Hx. unfold GenB.shl, u32. rewrite !Z.shiftl_mul_pow2 by lia.
  change 4096 with (2^12).
  rewrite (lor_small h 12 (x * 2^7)) by (pows; lia).
  replace (h * 2^12 + x * 2^7) with ((h * 2^5 + x) * 2^7) by lia.
  rewrite (lor_small _ 7 55) by lia.
  apply Z.mod_small. pows. lia.
Qed.

Lemma step_lui env ea h x regs :
  0 <= h < 2^20 -> 0 <= x < 32 ->
  RV.step env ea (u32 (Z.lor (Z.lor (h * 4096) (GenB.shl x 7)) 0x37)) regs
  = Ok (RV.set regs x (RV.sext 32 (h * 4096))).
Proof.
  intros Hh Hx. rewrite word_lui by assumption.
  set (w := h * 2^12 + x * 2^7 + 55).
  unfold RV.step. rewrite land_high20. rewrite !field_spec by lia.
  assert (E0 : (w / 2^0) mod 2^7 = 55) by (unfold w; pows; Z.div_mod_to_equations; lia).
  assert (E1 : (w / 2^7) mod 2^5 = x) by (unfold w; pows; Z.div_mod_to_equations; lia).
  assert (E2 : (w / 4096) mod 2^20 = h) by (unfold w; pows; Z.div_mod_to_equations; lia).
  rewrite E0, E1, E2. reflexivity.
Qed.

Lemma word_lw imm x :
  0 <= imm < 4096 -> 0 <= x < 32 ->
  u32 (Z.lor (Z.lor (Z.lor (Z.lor (GenB.shl imm 20) (GenB.shl 2 12))
                           (GenB.shl GenB.reg_a0 15)) (GenB.shl x 7)) 0x03)
  = imm * 2^20 + 10 * 2^15 + 2 * 2^12 + x * 2^7 + 3.
Proof.
  intros Hi Hx. unfold GenB.shl, GenB.reg_a0, u32. rewrite !Z.shiftl_mul_pow2 by lia.
  rewrite <- (Z.lor_assoc (imm * 2^20)), (Z.lor_comm (2 * 2^12)).
  rewrite (lor_small 10 15 (2 * 2^12)) by (pows; lia).
  rewrite (lor_small imm 20 (10 * 2^15 + 2 * 2^12)) by (pows; lia).
  replace (imm * 2^20 + (10 * 2^15 + 2 * 2^12))
    with ((imm * 2^8 + 10 * 2^3 + 2) * 2^12) by lia.
  rewrite (lor_small _ 12 (x * 2^7)) by (pows; lia).
  replace ((imm * 2^8 + 10 * 2^3 + 2) * 2^12 + x * 2^7)
    with ((imm * 2^13 + 10 * 2^8 + 2 * 2^5 + x) * 2^7) by lia.
  rewrite (lor_small _ 7 3) by lia.
  rewrite Z.mod_small by (pows; lia). lia.
Qed.

Lemma step_lw env ea imm x regs :
  0 <= imm < 4096 -> 0 <= x < 32 ->
  RV.step env ea
    (u32 (Z.lor (Z.lor (Z.lor (Z.lor (GenB.shl imm 20) (GenB.shl 2 12))
                              (GenB.shl GenB.reg_a0 15)) (GenB.shl x 7)) 0x03)) regs
  = (let* v := RV.load env ea (RV.get regs 10 + RV.sext 12 imm) in
     Ok (RV.set regs x (RV.sext 32 v))).
Proof.
  intros Hi Hx. rewrite word_lw by assumption.
  set (w := imm * 2^20 + 10 * 2^15 + 2 * 2^12 + x * 2^7 + 3).
  unfold RV.step. rewrite !field_spec by lia.
  assert (E0 : (w / 2^0) mod 2^7 = 3) by (unfold w; pows; Z.div_mod_to_equations; lia).
  assert (E1 : (w / 2^7) mod 2^5 = x) by (unfold w; pows; Z.div_mod_to_equations; lia).
  assert (E2 : (w / 2^12) mod 2^3 = 2) by (unfold w; pows; Z.div_mod_to_equations; lia).
  assert (E3 : (w / 2^15) mod 2^5 = 10) by (unfold w; pows; Z.div_mod_to_equations; lia).
  assert (E4 : (w / 2^20) mod 2^12 = imm) by (unfold w; pows; Z.div_mod_to_equations; lia).
  rewrite E0, E1, E2, E3, E4. reflexivity.
Qed.

Lemma compile_literal v :
  GenB.compile [new_node RISCV INT NULL NULL v] (Ptr 0)
  = Ok (GenB.Build [Node.Build INT NULL NULL v 1 10 10 None]
          ((if negb (Z.land v 0xFFFFF000 =? 0)
            then [u32 (Z.lor (Z.lor (Z.land v 0xFFFFF000) (GenB.shl 10 7)) 0x37)]
            else [])
           ++ [u32 (Z.lor (Z.lor (Z.lor (GenB.shl (Z.land v 0xFFF) 20)
                                        (GenB.shl (if negb (Z.land v 0xFFFFF000 =? 0) then 10 else 0) 15))
                                 (GenB.shl 10 7)) 0x13);
               u32 0x8082])
          GenB.reg_poll_init 0).
Proof.
  unfold GenB.compile. cbn [deref lookup list_lookup rbind length alter list_alter].
  cbn [GenB.codegen deref GenB.nodes lookup list_lookup rbind Node.reg Node.set_alloc new_node
       Node.kind Z.eqb negb INT Pos.eqb].
  unfold GenB.alloc.
  cbn [deref GenB.nodes lookup list_lookup rbind Node.alloc Node.set_alloc new_node
       GenB.reg_a0 Z.eqb negb GenB.set_reg_of GenB.set_nodes alter list_alter Node.set_reg
       Node.kind Node.l Node.r Node.intValue Node.shared Node.reg Node.saved
       GenB.code GenB.reg_poll GenB.next_free fresh_shared].
  destruct (Z.land v 0xFFFFF000 =? 0); cbn [negb]; reflexivity.
Qed.

Lemma compile_name c :
  GenB.compile [new_node RISCV NAME NULL NULL c] (Ptr 0)
  = Ok (GenB.Build [Node.Build NAME NULL NULL c 1 10 10 None]
          [u32 (Z.lor (Z.lor (Z.lor (Z.lor (GenB.shl (c * 4) 20) (GenB.shl 2 12))
                                    (GenB.shl GenB.reg_a0 15)) (GenB.shl 10 7)) 0x03);
           u32 0x8082]
          GenB.reg_poll_init 0).
Proof.
  unfold GenB.compile. cbn [deref lookup list_lookup rbind length alter list_alter].
  cbn [GenB.codegen deref GenB.nodes lookup list_lookup rbind Node.reg Node.set_alloc new_node
       Node.kind Z.eqb negb INT NAME Pos.eqb].
  unfold GenB.alloc.
  cbn [deref GenB.nodes lookup list_lookup rbind Node.alloc Node.set_alloc new_node
       GenB.reg_a0 Z.eqb negb GenB.set_reg_of GenB.set_nodes alter list_alter Node.set_reg
       Node.kind Node.l Node.r Node.intValue Node.shared Node.reg Node.saved
       GenB.code GenB.reg_poll GenB.next_free fresh_shared].
  reflexivity.
Qed.

Lemma run_step env ea w ws regs :
  w mod 128 <> 2 ->
  RV.run env ea (w :: ws) regs = (let* regs' := RV.step env ea w regs in RV.run env ea ws regs').
Proof.
  intros Hw. cbn [RV.run].
  destruct (Z.eqb_spec w 0x8082) as [-> | _]; [exfalso; apply Hw; reflexivity | reflexivity].
Qed.

Ltac sexts :=
  change (RV.sext 12) with (fun z => (z + 2048) mod 4096 - 2048) in *;
  change (RV.sext 32) with (fun z => (z + 2147483648) mod 4294967296 - 2147483648) in *;
  change (RV.sext 64)
    with (fun z => (z + 9223372036854775808) mod 18446744073709551616
                   - 9223372036854775808) in *;
  cbv beta in *.

Lemma genB_literal_run (env : Z -> Z) (env_addr : Z) (v : Z) :
  in_int32 v ->
  exists g,
    GenB.compile [new_node RISCV INT NULL NULL v] (Ptr 0) = Ok g /\
    RV.call env env_addr (GenB.code g)
    = Ok (if v mod 4096 <? 2048 then v else wrap32 (v - 4096)).
Proof.
  intros Hv. eexists. split; [apply compile_literal |].
  cbn [GenB.code]. unfold RV.call.
  rewrite land_high20, land_low12.
  set (h := (v / 4096) mod 2^20). set (l := v mod 4096).
  assert (Hh : 0 <= h < 2^20) by (apply Z.mod_pos_bound; lia).
  assert (Hl : 0 <= l < 4096) by (apply Z.mod_pos_bound; lia).
  assert (Ev : v + 2147483648 = 4096 * ((v + 2147483648) / 4096) + l).
  { unfold l. unfold in_int32 in Hv. change (2^31) with 2147483648 in Hv.
    Z.div_mod_to_equations. lia. }
  assert (Eh : h * 4096 + l = v mod 4294967296).
  { unfold h, l. unfold in_int32 in Hv. change (2^31) with 2147483648 in Hv. pows.
    Z.div_mod_to_equations. lia. }
  destruct (Z.eqb_spec (h * 4096) 0) as [E0 | E0]; cbn [negb app].
  - rewrite run_step by (rewrite word_addi by lia; pows; Z.div_mod_to_equations; lia).
    rewrite step_addi by lia. cbn [rbind RV.run].
    change (u32 32898 =? 32898) with true. cbv iota.
    unfold RV.get, RV.set. cbn [Z.eqb Pos.eqb]. sexts.
    assert (v = l).
    { unfold in_int32 in Hv. change (2^31) with 2147483648 in Hv.
      Z.div_mod_to_equations. lia. }
    unfold wrap32. pows. change (2^31) with 2147483648.
    destruct (Z.ltb_spec l 2048); f_equal; Z.div_mod_to_equations; lia.
  - rewrite run_step by (rewrite word_lui by lia; pows; Z.div_mod_to_equations; lia).
    rewrite step_lui by lia. cbn [rbind].
    rewrite run_step by (rewrite word_addi by lia; pows; Z.div_mod_to_equations; lia).
    rewrite step_addi by lia. cbn [rbind RV.run].
    change (u32 32898 =? 32898) with true. cbv iota.
    unfold RV.get, RV.set. cbn [Z.eqb Pos.eqb]. sexts.
    unfold wrap32, in_int32 in *. pows. change (2^31) with 2147483648 in *.
    destruct (Z.ltb_spec l 2048); f_equal; Z.div_mod_to_equations; lia.
Qed.

(** X15: the code of generator B for a text that is one number [v]: [lui] is
    emitted when the upper 20 bits of [v] are not all clear, [addi] adds the
    low 12 bits as a signed quantity, so the function returns [v] when bit
    11 of [v] is clear and [v - 4096], in 32 bits, when it is set. *)
Theorem genB_literal_value (env : Z -> Z) (env_addr : Z) (v : Z) :
  in_int32 v ->
  exists g,
    GenB.compile [new_node RISCV INT NULL NULL v] (Ptr 0) = Ok g /\
    RV.call env env_addr (GenB.code g)
    = Ok (if v mod 4096 <? 2048 then v else wrap32 (v - 4096)).
Proof. apply genB_literal_run. Qed.

(** X16: the code of generator B for a text that is one name: the name's letter,
    times four, is the offset of the [lw] from [a0], and the function
    returns the element of [env] for that letter. *)
Theorem genB_name_value (env : Z -> Z) (env_addr : Z) (c : Z) :
  0 <= c < 256 -> in_int32 (env c) ->
  exists g,
    GenB.compile [new_node RISCV NAME NULL NULL c] (Ptr 0) = Ok g /\
    RV.call env env_addr (GenB.code g) = Ok (env c).
Proof.
  intros Hc Hv. eexists. split; [apply compile_name |].
  cbn [GenB.code]. unfold RV.call.
  rewrite run_step by (rewrite word_lw by lia; pows; Z.div_mod_to_equations; lia).
  rewrite step_lw by lia.
  unfold RV.get at 1. cbn [Z.eqb Pos.eqb].
  assert (El : RV.load env env_addr (env_addr + RV.sext 12 (c * 4)) = Ok (env c)).
  { unfold RV.load. sexts.
    replace ((c * 4 + 2048) mod 4096 - 2048) with (c * 4)
      by (Z.div_mod_to_equations; lia).
    replace (env_addr + c * 4 - env_addr) with (c * 4) by lia.
    rewrite Z.mod_mul, Z.div_mul by lia.
    rewrite (proj2 (Z.leb_le _ _)), (proj2 (Z.ltb_lt _ _)) by lia. reflexivity. }
  rewrite El. cbn [rbind RV.run].
  change (u32 32898 =? 32898) with true. cbv iota.
  unfold RV.get, RV.set. cbn [Z.eqb Pos.eqb]. sexts.
  unfold in_int32 in Hv. change (2^31) with 2147483648 in Hv.
  f_equal. Z.div_mod_to_equations. lia.
Qed.

(** ** Numbers: from [printf] back through the lexer *)

Lemma digits_val_pos d : forall acc : positive,
  digits_val d (Z.pos acc) = Z.pos (Pos.of_uint_acc d acc).
Proof.
  induction d; intros acc; cbn [digits_val Pos.of_uint_acc];
    try reflexivity; rewrite <- IHd; f_equal; lia.
Qed.

Lemma digits_val_0 d : digits_val d 0 = Z.of_N (Pos.of_uint d).
Proof.
  induction d; cbn [digits_val Pos.of_uint]; try reflexivity;
    try (exact IHd);
    try (change (10 * 0 + 1) with (Z.pos 1); apply digits_val_pos);
    try (change (10 * 0 + 2) with (Z.pos 2); apply digits_val_pos);
    try (change (10 * 0 + 3) with (Z.pos 3); apply digits_val_pos);
    try (change (10 * 0 + 4) with (Z.pos 4); apply digits_val_pos);
    try (change (10 * 0 + 5) with (Z.pos 5); apply digits_val_pos);
    try (change (10 * 0 + 6) with (Z.pos 6); apply digits_val_pos);
    try (change (10 * 0 + 7) with (Z.pos 7); apply digits_val_pos);
    try (change (10 * 0 + 8) with (Z.pos 8); apply digits_val_pos);
    try (change (10 * 0 + 9) with (Z.pos 9); apply digits_val_pos).
Qed.

Lemma digits_of_val n : 0 <= n -> digits_val (digits_of n) 0 = n.
Proof.
  intros Hn. destruct n as [| p | p]; [reflexivity | | lia].
  cbn [digits_of]. rewrite digits_val_0, DecimalPos.Unsigned.of_to. reflexivity.
Qed.

Lemma digits_of_print n : 0 <= n -> print_int n = NilEmpty.string_of_uint (digits_of n).
Proof.
  intros Hn. destruct n as [| p | p]; [reflexivity | | lia].
  unfold print_int. cbn [Z.to_int NilZero.string_of_int digits_of].
  unfold NilZero.string_of_uint.
  pose proof (DecimalPos.Unsigned.to_uint_nonnil p) as Hnil.
  destruct (Pos.to_uint p); [contradiction | reflexivity ..].
Qed.

Lemma digits_val_mono d : forall acc, 0 <= acc -> acc <= digits_val d acc.
Proof.
  induction d; intros acc Hacc; cbn [digits_val]; [lia | ..];
    (etransitivity; [| apply IHd; lia]; lia).
Qed.

Lemma text_at_tail src i a t : text_at src i (String a t) -> text_at src (S i) t.
Proof.
  intros H m c Hm. specialize (H (S m) c Hm).
  replace (S i + m)%nat with (i + S m)%nat by lia. exact H.
Qed.

Lemma text_at_head src i a t :
  text_at src i (String a t) -> char_at src i = Ok (Z.of_nat (nat_of_ascii a)).
Proof.
  intros H. specialize (H 0%nat a eq_refl). rewrite Nat.add_0_r in H.
  unfold char_at. rewrite H. reflexivity.
Qed.

Lemma scan_step src fuel i acc a t k :
  text_at src i (String a t) -> Z.of_nat (nat_of_ascii a) = 48 + k ->
  0 <= k <= 9 -> 0 <= acc -> 10 * acc + k < 2^31 ->
  scan_int (S fuel) src i acc = scan_int fuel src (S i) (10 * acc + k).
Proof.
  intros Ht Ea Hk Hacc Hv. cbn [scan_int]. rewrite (text_at_head _ _ _ _ Ht), Ea.
  cbn [rbind].
  assert (Ed : isdigit (48 + k) = true).
  { unfold isdigit. rewrite (proj2 (Z.leb_le _ _)), (proj2 (Z.leb_le _ _)) by lia.
    reflexivity. }
  rewrite Ed. replace (10 * acc + (48 + k) - 48) with (10 * acc + k) by lia.
  rewrite wrap32_id by (unfold in_int32; lia). reflexivity.
Qed.

Ltac digit K IH Ht Hv :=
  match type of Hv with
  | digits_val ?d (10 * ?acc + _) < _ =>
      pose proof (digits_val_mono d (10 * acc + K) ltac:(lia));
      rewrite (scan_step _ _ _ acc _ _ K Ht eq_refl ltac:(lia) ltac:(lia) ltac:(lia));
      rewrite (IH _ _ (10 * acc + K) (text_at_tail _ _ _ _ Ht) ltac:(lia) Hv);
      f_equal; lia
  end.

(** The digit loop of [nexttoken] over the digits [d]. *)
Lemma scan_digits src d : forall fuel i acc,
  text_at src i (NilEmpty.string_of_uint d) ->
  0 <= acc -> digits_val d acc < 2^31 ->
  scan_int (String.length (NilEmpty.string_of_uint d) + fuel) src i acc
  = scan_int fuel src (i + String.length (NilEmpty.string_of_uint d)) (digits_val d acc).
Proof.
  induction d; intros fuel i acc Ht Hacc Hv;
    cbn [NilEmpty.string_of_uint String.length digits_val Nat.add] in *.
  - rewrite Nat.add_0_r. reflexivity.
  - digit 0 IHd Ht Hv.
  - digit 1 IHd Ht Hv.
  - digit 2 IHd Ht Hv.
  - digit 3 IHd Ht Hv.
  - digit 4 IHd Ht Hv.
  - digit 5 IHd Ht Hv.
  - digit 6 IHd Ht Hv.
  - digit 7 IHd Ht Hv.
  - digit 8 IHd Ht Hv.
  - digit 9 IHd Ht Hv.
Qed.
Lemma length_append (a b : string) :
  String.length (a ++ b) = (String.length a + String.length b)%nat.
Proof. induction a as [| c a IH]; simpl; [reflexivity | now rewrite IH]. Qed.

Lemma get_app_r (a b : string) m : String.get (String.length a + m) (a ++ b) = String.get m b.
Proof. rewrite Nat.add_comm. symmetry. apply append_correct2. Qed.

Lemma char_at_app (a b : string) m : char_at (a ++ b) (String.length a + m) = char_at b m.
Proof.
  unfold char_at. rewrite get_app_r, length_append.
  destruct (String.get m b); [reflexivity |].
  destruct (Nat.eqb_spec m (String.length b)) as [-> | Hne].
  - now rewrite Nat.eqb_refl.
  - rewrite (proj2 (Nat.eqb_neq _ _)) by lia. reflexivity.
Qed.

Lemma text_at_app (pre t rest : string) : text_at (pre ++ t ++ rest) (String.length pre) t.
Proof.
  intros m c Hm. rewrite get_app_r.
  assert (Hlt : (m < String.length t)%nat).
  { destruct (le_lt_dec (String.length t) m) as [Hge | Hlt]; [| exact Hlt].
    rewrite get_None in Hm by assumption. discriminate. }
  rewrite <- append_correct1 by assumption. exact Hm.
Qed.

Lemma digits_head d :
  d <> Decimal.Nil ->
  exists a t k, NilEmpty.string_of_uint d = String a t /\
                Z.of_nat (nat_of_ascii a) = 48 + k /\ 0 <= k <= 9.
Proof.
  intros Hd. destruct d; [contradiction | ..]; cbn [NilEmpty.string_of_uint].
  - exists "0"%char, (NilEmpty.string_of_uint d), 0. split; [reflexivity |]. split; [reflexivity | lia].
  - exists "1"%char, (NilEmpty.string_of_uint d), 1. split; [reflexivity |]. split; [reflexivity | lia].
  - exists "2"%char, (NilEmpty.string_of_uint d), 2. split; [reflexivity |]. split; [reflexivity | lia].
  - exists "3"%char, (NilEmpty.string_of_uint d), 3. split; [reflexivity |]. split; [reflexivity | lia].
  - exists "4"%char, (NilEmpty.string_of_uint d), 4. split; [reflexivity |]. split; [reflexivity | lia].
  - exists "5"%char, (NilEmpty.string_of_uint d), 5. split; [reflexivity |]. split; [reflexivity | lia].
  - exists "6"%char, (NilEmpty.string_of_uint d), 6. split; [reflexivity |]. split; [reflexivity | lia].
  - exists "7"%char, (NilEmpty.string_of_uint d), 7. split; [reflexivity |]. split; [reflexivity | lia].
  - exists "8"%char, (NilEmpty.string_of_uint d), 8. split; [reflexivity |]. split; [reflexivity | lia].
  - exists "9"%char, (NilEmpty.string_of_uint d), 9. split; [reflexivity |]. split; [reflexivity | lia].
Qed.

Lemma digits_of_nonnil n : digits_of n <> Decimal.Nil.
Proof.
  destruct n; cbn [digits_of]; try discriminate.
  apply DecimalPos.Unsigned.to_uint_nonnil.
Qed.

Lemma lex_number (n : Z) (pre rest : string) (la : token_t) (iv : Z) (sv : nat) :
  0 <= n < 2^31 ->
  (forall a, String.get 0 rest = Some a -> isdigit (Z.of_nat (nat_of_ascii a)) = false) ->
  nexttoken (Lex.Build (pre ++ print_int n ++ rest) (String.length pre) la iv sv)
  = Ok (Lex.Build (pre ++ print_int n ++ rest)
          (String.length pre + String.length (print_int n)) INT n sv).
Proof.
  intros Hn Hrest. rewrite (digits_of_print n) by lia.
  set (d := digits_of n). set (t := NilEmpty.string_of_uint d).
  set (src := (pre ++ t ++ rest)%string).
  pose proof (text_at_app pre t rest : text_at src (String.length pre) t) as Ht.
  destruct (digits_head d (digits_of_nonnil n)) as (a & t' & k & Et & Ea & Hk).
  fold t in Et.
  assert (Hc : char_at src (String.length pre) = Ok (48 + k)).
  { rewrite <- Ea. apply (text_at_head src _ a t'). rewrite <- Et. exact Ht. }
  assert (Hlen : String.length src
                 = (String.length pre + (String.length t + String.length rest))%nat).
  { unfold src. rewrite !length_append. reflexivity. }
  assert (Hend : exists c, char_at src (String.length pre + String.length t) = Ok c /\
                           isdigit c = false).
  { unfold src.
    rewrite char_at_app.
    replace (String.length t) with (String.length t + 0)%nat by lia.
    rewrite char_at_app. unfold char_at.
    destruct (String.get 0 rest) as [a0 |] eqn:E0.
    - eexists. split; [reflexivity |]. apply Hrest. reflexivity.
    - destruct rest as [| a1 r1]; [exists 0; split; reflexivity | discriminate E0]. }
  destruct Hend as (c & Hcend & Hnd).
  unfold nexttoken. cbn [Lex.src Lex.s Lex.intValue Lex.symbolValue].
  cbn [skip_while]. rewrite Hc. cbn [rbind].
  assert (Es : isspace (48 + k) = false).
  { unfold isspace. rewrite (proj2 (Z.eqb_neq _ _)) by lia.
    rewrite (proj2 (Z.leb_gt (48 + k) 13)) by lia. now rewrite andb_false_r. }
  assert (Ed : isdigit (48 + k) = true).
  { unfold isdigit. rewrite (proj2 (Z.leb_le _ _)), (proj2 (Z.leb_le _ _)) by lia.
    reflexivity. }
  rewrite Es. cbn [rbind]. rewrite Hc. cbn [rbind]. rewrite Ed.
  replace (S (String.length src))
    with (String.length t + S (String.length pre + String.length rest))%nat by lia.
  subst t.
  rewrite (scan_digits src d _ (String.length pre) 0 Ht ltac:(lia));
    [| unfold d; rewrite digits_of_val by lia; lia].
  cbn [scan_int]. rewrite Hcend. cbn [rbind]. rewrite Hnd.
  unfold d. rewrite digits_of_val by lia. reflexivity.
Qed.

(** X4: A number that [unparse] prints is read back by the lexer: on the text
    that [printf("%d")] gives for [n], wherever it stands in the source and
    with a character that is no digit (or the end) behind it, [nexttoken]
    returns the token [INT] with [intValue] [n] and the cursor just behind
    the digits. *)
Theorem number_roundtrip (n : Z) (pre rest : string) (la : token_t) (iv : Z) (sv : nat) :
  0 <= n < 2^31 ->
  (forall a, String.get 0 rest = Some a -> isdigit (Z.of_nat (nat_of_ascii a)) = false) ->
  nexttoken (Lex.Build (pre ++ print_int n ++ rest) (String.length pre) la iv sv)
  = Ok (Lex.Build (pre ++ print_int n ++ rest)
          (String.length pre + String.length (print_int n)) INT n sv).
Proof. apply lex_number. Qed.

(** ** The two programs on a number *)

Lemma append_empty_r (t : string) : (t ++ "")%string = t.
Proof. induction t as [| a t IH]; simpl; [reflexivity | now rewrite IH]. Qed.

Lemma nexttoken_at_end src la iv sv :
  nexttoken (Lex.Build src (String.length src) la iv sv)
  = Ok (Lex.Build src (S (String.length src)) END_OF_FILE iv sv).
Proof.
  unfold nexttoken. cbn [Lex.src Lex.s Lex.intValue Lex.symbolValue skip_while].
  rewrite (char_at_end src). cbn [rbind]. change (isspace 0) with false. cbv iota.
  cbn [rbind]. rewrite (char_at_end src). reflexivity.
Qed.

Lemma print_int_length n : 0 <= n -> (1 <= String.length (print_int n))%nat.
Proof.
  intros Hn. rewrite digits_of_print by assumption.
  destruct (digits_head _ (digits_of_nonnil n)) as (a & t & k & E & _).
  rewrite E. simpl. lia.
Qed.

Lemma ploop_exit tgt l2r operand op n lx p v :
  Lex.lookahead lx <> op ->
  ploop tgt l2r operand op (S n) (lx, p) v = Ok ((lx, p), v).
Proof. intros H. cbn [ploop]. rewrite (proj2 (Z.eqb_neq _ _) H). reflexivity. Qed.

(** [pFactor] on a number that ends the text, with an empty pool. *)
Lemma pFactor_number tgt l2r pE src n sv :
  pFactor_body tgt l2r pE (Lex.Build src (String.length src) INT n sv, [])
  = Ok ((Lex.Build src (S (String.length src)) END_OF_FILE n sv,
         [new_node tgt INT NULL NULL n]), Ptr 0).
Proof.
  unfold pFactor_body. cbn [Lex.lookahead Lex.intValue].
  change (INT =? LPAREN) with false. change (INT =? NAME) with false.
  change (INT =? INT) with true. cbv iota.
  unfold mk', mk_fuel. cbn [length Nat.add].
  rewrite mk_leaf_unfold by reflexivity.
  cbn [find_node find_from]. unfold append. cbn [length Z.of_nat].
  change (0 <? NODES_MAX) with true. cbv iota. cbn [rbind app].
  rewrite match_hit by reflexivity.
  rewrite nexttoken_at_end. reflexivity.
Qed.

(** Parsing the text of a number gives the one-node pool of its literal. *)
Lemma parse_number tgt l2r n :
  0 <= n < 2^31 ->
  parse tgt l2r (print_int n)
  = Ok ((Lex.Build (print_int n) (S (String.length (print_int n))) END_OF_FILE n 0,
         [new_node tgt INT NULL NULL n]), Ptr 0).
Proof.
  intros Hn. unfold parse.
  pose proof (lex_number n "" "" 0 0 0 Hn ltac:(intros a E; discriminate E)) as Hlex.
  cbn [String.append String.length Nat.add] in Hlex. rewrite append_empty_r in Hlex.
  rewrite Hlex. cbn [rbind].
  pose proof (print_int_length n ltac:(lia)) as Hlen.
  set (src := print_int n) in *.
  destruct (String.length src) as [| m] eqn:El; [lia |].
  cbn [pExp]. rewrite <- El.
  rewrite pFactor_number. cbn [rbind]. rewrite El.
  rewrite ploop_exit by discriminate. cbn [rbind].
  rewrite ploop_exit by discriminate. reflexivity.
Qed.

Lemma genA_compile_literal env_addr cse_addr tgt n :
  GenA.compile env_addr cse_addr [new_node tgt INT NULL NULL n] (Ptr 0)
  = Ok (GenA.Build [new_node tgt INT NULL NULL n]
          ([0x53] ++ (0xB8 :: le32 n) ++ [0x5B; 0xC3]) 2 0).
Proof. reflexivity. Qed.

(** X18: on the text of any number [n] from 0 to 2^31 - 1 both programs print
    the number back.  The x86 program then reports 2 instructions and the
    value [n].  The RISC-V program reports 2 instructions below 4096 and 3
    from there on, and the value [n] only when bit 11 of [n] is clear:
    otherwise it reports [n - 4096]. *)
Theorem main_on_number (l2r : bool) (env : Z -> Z) (env_addr cse_addr : Z) (n : Z) :
  0 <= n < 2^31 ->
  main X86 l2r env env_addr cse_addr (print_int n) = Ok (Done (print_int n) 2 n) /\
  main RISCV l2r env env_addr cse_addr (print_int n)
  = Ok (Done (print_int n) (if n <? 4096 then 2 else 3)
          (if n mod 4096 <? 2048 then n else wrap32 (n - 4096))).
Proof.
  intros Hn. split.
  - unfold main. rewrite parse_number by assumption.
    cbn [rbind Lex.lookahead]. change (negb (END_OF_FILE =? 0)) with false. cbv iota.
    cbn [length unparse deref lookup list_lookup rbind new_node Node.kind Node.intValue].
    change (INT =? INT) with true. cbv iota. cbn [rbind].
    rewrite genA_compile_literal. cbn [rbind GenA.code GenA.instructions].
    unfold X86.call, le32. cbn [app X86.run X86.stack X86.eax X86.ebx X86.slots].
    rewrite of_le32_le32, wrap32_u32 by (unfold in_int32; lia). reflexivity.
  - unfold main. rewrite parse_number by assumption.
    cbn [rbind Lex.lookahead]. change (negb (END_OF_FILE =? 0)) with false. cbv iota.
    cbn [length unparse deref lookup list_lookup rbind new_node Node.kind Node.intValue].
    change (INT =? INT) with true. cbv iota. cbn [rbind].
    destruct (genB_literal_run env env_addr n ltac:(unfold in_int32; lia))
      as (g & Hg & Hcall).
    change (Node.Build INT NULL NULL n (fresh_shared RISCV) 0 0 None)
      with (new_node RISCV INT NULL NULL n).
    rewrite Hg. cbn [rbind]. rewrite Hcall. cbn [rbind].
    f_equal. f_equal.
    rewrite compile_literal in Hg. injection Hg as <-. cbn [GenB.code].
    rewrite land_high20.
    destruct (Z.ltb_spec n 4096) as [Hlt | Hge].
    + rewrite Z.div_small by lia. reflexivity.
    + assert (E : ((n / 4096) mod 2^20) * 4096 <> 0).
      { change (2^31) with 2147483648 in Hn. pows. Z.div_mod_to_equations. lia. }
      rewrite (proj2 (Z.eqb_neq _ _) E). reflexivity.
Qed.

(** ** The further properties at concrete inputs *)

Lemma mk_returns_sound_witness :
  wf_pool RISCV (fst demo_sum) /\
  eval default_env (fst demo_sum) (snd demo_sum) = Some 21.
Proof.
  destruct (mk_returns_sound RISCV true default_env 10 PLUS (Ptr 4%nat) (Ptr 3%nat) 0
              (demo_pool RISCV) (fst demo_sum) (snd demo_sum)
              default_env_int (demo_pool_wf RISCV) (or_introl eq_refl))
    as (Hwf & _ & _ & a & b & Ha & Hb & Hv).
  - eexists _, _. split; reflexivity.
  - eexists _, _. split; reflexivity.
  - vm_compute. reflexivity.
  - split; [exact Hwf |].
    vm_compute in Ha. vm_compute in Hb. injection Ha as <-. injection Hb as <-.
    exact Hv.
Defined.

Lemma mk_pool_grows_witness :
  (length (demo_pool RISCV) <= length (fst demo_sum))%nat /\
  Z.of_nat (length (fst demo_sum)) <= NODES_MAX /\
  valid (fst demo_sum) (snd demo_sum).
Proof.
  destruct (mk_pool_grows RISCV true 10 PLUS (Ptr 4%nat) (Ptr 3%nat) 0
              (demo_pool RISCV) (fst demo_sum) (snd demo_sum))
    as (Hlen & Hmax & _ & _ & Hv).
  - vm_compute. discriminate.
  - vm_compute. reflexivity.
  - split; [exact Hlen |]. split; [exact Hmax | exact Hv].
Defined.

Lemma mk_literal_commutes_witness :
  mk RISCV true 5 STAR (Ptr 3%nat) (Ptr 0%nat) 0 (demo_pool RISCV)
  = mk RISCV true 5 STAR (Ptr 0%nat) (Ptr 3%nat) 0 (demo_pool RISCV).
Proof.
  apply (mk_literal_commutes RISCV true 5 STAR 3 0
           (new_node RISCV INT NULL NULL 7) (new_node RISCV NAME NULL NULL 120) 0
           (demo_pool RISCV) (demo_pool_wf RISCV) (or_intror eq_refl)).
  - reflexivity.
  - reflexivity.
  - reflexivity.
Defined.

Lemma parse_sound_witness :
  wf_pool X86 demo_sq /\ names_ok demo_sq /\ fresh_pool demo_sq /\
  parsed demo_sq (Ptr 3%nat) /\ lex_ok demo_lx.
Proof.
  destruct (parse_sound X86 true "(x+1)*(x+1)" demo_lx demo_sq (Ptr 3%nat))
    as (H1 & H2 & H3 & H4 & _ & H5).
  - vm_compute. reflexivity.
  - auto.
Defined.

Lemma main_x86_value_witness :
  exists lx p t,
    parse X86 true "(x+1)*(x+1)" = Ok ((lx, p), t) /\
    unparse (length p) p t = Ok "((!x+1)*(!x+1))"%string /\
    eval default_env p t = Some 9.
Proof.
  destruct (main_x86_value true default_env env_at cse_at "(x+1)*(x+1)"
              "((!x+1)*(!x+1))" 9 9 default_env_int layout_sample)
    as (lx & p & t & Hp & _ & _ & Hu & Hv).
  - vm_compute. reflexivity.
  - exists lx, p, t. auto.
Defined.

Lemma main_syntax_error_witness :
  exists lx p t,
    parse X86 true "x)" = Ok ((lx, p), t) /\ Lex.lookahead lx <> END_OF_FILE /\
    (((Lex.s lx <= 2)%nat /\
      Ok ""%string = Ok (String.substring (Lex.s lx) (2 - Lex.s lx) "x)")) \/
     ((2 < Lex.s lx)%nat /\ Lex.lookahead lx = ERROR /\ Ok ""%string = @Undef string)).
Proof.
  apply (main_syntax_error X86 true default_env env_at cse_at "x)" (Ok ""%string)).
  vm_compute. reflexivity.
Defined.

Lemma missing_operand_undefined_witness :
  ploop RISCV true (pTerm RISCV true 1) PLUS 1 (demo_plus, [new_node RISCV NAME NULL NULL 120])
        (Ptr 0%nat)
  = Undef.
Proof.
  refine (proj2 (missing_operand_undefined RISCV true 0 0 demo_plus demo_plus_end
                   [new_node RISCV NAME NULL NULL 120] (Ptr 0%nat) _ _ _ _) _ _).
  - vm_compute. reflexivity.
  - discriminate.
  - discriminate.
  - discriminate.
  - reflexivity.
  - discriminate.
Defined.

Lemma nexttoken_in_bounds_witness :
  exists lx', nexttoken (Lex.Build "x+1" 0 0 0 0) = Ok lx' /\ (Lex.s lx' <= 4)%nat.
Proof.
  destruct (proj1 (nexttoken_in_bounds (Lex.Build "x+1" 0 0 0 0)
                     ltac:(unfold in_int32; simpl; lia)) ltac:(simpl; lia))
    as (lx' & H & _ & Hr & _).
  exists lx'. split; [exact H |]. simpl in Hr. lia.
Defined.

Lemma nexttoken_skips_blanks_witness :
  nexttoken (Lex.Build "  7" 0 0 0 0) = nexttoken (Lex.Build "  7" 2 0 0 0).
Proof.
  apply (nexttoken_skips_blanks "  7" 0 2 0 0 0).
  - simpl. lia.
  - intros m Hm. exists 32. destruct m as [| [| m]]; [split; reflexivity .. | lia].
Defined.

Lemma match_error_sticky_witness :
  match_ RPAREN (Lex.Build "x y" 1 NAME 0 0) = Ok (Lex.Build "x y" 1 ERROR 0 0) /\
  match_ NAME (Lex.Build "x y" 1 ERROR 0 0) = Ok (Lex.Build "x y" 1 ERROR 0 0).
Proof.
  destruct (match_error_sticky RISCV true (Lex.Build "x y" 1 NAME 0 0) RPAREN
              ltac:(discriminate)) as (H1 & _ & H2 & _).
  split; [exact H1 |]. apply H2. discriminate.
Defined.

Lemma unparse_node_witness :
  exists s, unparse 5 (demo_pool RISCV) (Ptr 4%nat) = Ok s.
Proof.
  destruct (unparse_node RISCV (demo_pool RISCV) 4 (new_node RISCV STAR (Ptr 0%nat) (Ptr 3%nat) 0)
              (demo_pool_wf RISCV) eq_refl) as (s & Hs & _).
  exists s. exact Hs.
Defined.

Lemma alloc_then_use_witness :
  exists x st1 st2,
    GenB.alloc 0 demoB0 = Ok st1 /\ GenB.use 0 st1 = Ok (st2, x) /\
    GenB.next_free st2 = 0%nat.
Proof.
  destruct (alloc_then_use demoB0 0 (new_node RISCV NAME NULL NULL 120))
    as (x & st1 & st2 & _ & Ha & Hu & _ & _ & Hn).
  - split; [reflexivity | simpl; unfold GenB.NREGS; lia].
  - reflexivity.
  - reflexivity.
  - simpl. lia.
  - simpl. unfold GenB.NREGS. lia.
  - exists x, st1, st2. split; [exact Ha |]. split; [exact Hu |]. exact Hn.
Defined.

Lemma genB_literal_value_witness :
  exists g,
    GenB.compile [new_node RISCV INT NULL NULL 2048] (Ptr 0%nat) = Ok g /\
    RV.call default_env env_at (GenB.code g) = Ok (-2048).
Proof.
  exact (genB_literal_value default_env env_at 2048 ltac:(unfold in_int32; lia)).
Defined.

Lemma genB_name_value_witness :
  exists g,
    GenB.compile [new_node RISCV NAME NULL NULL 120] (Ptr 0%nat) = Ok g /\
    RV.call default_env env_at (GenB.code g) = Ok 2.
Proof.
  exact (genB_name_value default_env env_at 120 ltac:(lia) (default_env_int 120)).
Defined.

Lemma number_roundtrip_witness :
  nexttoken (Lex.Build "x+2048)" 2 PLUS 0 0) = Ok (Lex.Build "x+2048)" 6 INT 2048 0).
Proof.
  exact (number_roundtrip 2048 "x+" ")" PLUS 0 0 ltac:(lia)
           ltac:(intros a [= <-]; reflexivity)).
Defined.

Lemma main_on_number_witness :
  main X86 true default_env env_at cse_at "2048" = Ok (Done "2048" 2 2048) /\
  main RISCV true default_env env_at cse_at "2048" = Ok (Done "2048" 2 (-2048)).
Proof.
  exact (main_on_number true default_env env_at cse_at 2048 ltac:(lia)).
Defined.

(** ** Generator B on an operator over two names *)

Lemma sext64_id z : - 2^63 <= z < 2^63 -> RV.sext 64 z = z.
Proof.
  intros H. sexts. change (2^63) with 9223372036854775808 in H.
  Z.div_mod_to_equations. lia.
Qed.

Lemma sext32_id z : in_int32 z -> RV.sext 32 z = z.
Proof.
  intros H. sexts. unfold in_int32 in H. change (2^31) with 2147483648 in H.
  Z.div_mod_to_equations. lia.
Qed.

Lemma sext32_wrap z : RV.sext 32 z = wrap32 z.
Proof. reflexivity. Qed.

Lemma load_name env ea c :
  0 <= c < 256 -> RV.load env ea (ea + RV.sext 12 (c * 4)) = Ok (env c).
Proof.
  intros Hc. unfold RV.load. sexts.
  replace ((c * 4 + 2048) mod 4096 - 2048) with (c * 4) by (Z.div_mod_to_equations; lia).
  replace (ea + c * 4 - ea) with (c * 4) by lia.
  rewrite Z.mod_mul, Z.div_mul by lia.
  rewrite (proj2 (Z.leb_le _ _)), (proj2 (Z.ltb_lt _ _)) by lia. reflexivity.
Qed.

Lemma compile_two_names op a b :
  op = PLUS \/ op = STAR ->
  exists p',
    GenB.compile [new_node RISCV NAME NULL NULL a; new_node RISCV NAME NULL NULL b;
                  new_node RISCV op (Ptr 0) (Ptr 1) 0] (Ptr 2)
    = Ok (GenB.Build p'
            [u32 (Z.lor (Z.lor (Z.lor (Z.lor (GenB.shl (a * 4) 20) (GenB.shl 2 12))
                                      (GenB.shl GenB.reg_a0 15)) (GenB.shl 5 7)) 0x03);
             u32 (Z.lor (Z.lor (Z.lor (Z.lor (GenB.shl (b * 4) 20) (GenB.shl 2 12))
                                      (GenB.shl GenB.reg_a0 15)) (GenB.shl 6 7)) 0x03);
             (if op =? PLUS then 6456627 else 40011059); 32898]
            GenB.reg_poll_init 0).
Proof. intros [-> | ->]; eexists; reflexivity. Qed.

Lemma compile_square a :
  exists p',
    GenB.compile [Node.Build NAME NULL NULL a 2 0 0 None;
                  new_node RISCV STAR (Ptr 0) (Ptr 0) 0] (Ptr 1)
    = Ok (GenB.Build p'
            [u32 (Z.lor (Z.lor (Z.lor (Z.lor (GenB.shl (a * 4) 20) (GenB.shl 2 12))
                                      (GenB.shl GenB.reg_a0 15)) (GenB.shl 5 7)) 0x03);
             38962483; 32898]
            GenB.reg_poll_init 0).
Proof. eexists. reflexivity. Qed.

Lemma mul_int32 x y : in_int32 x -> in_int32 y -> - 2^63 <= x * y < 2^63.
Proof.
  unfold in_int32. change (2^31) with 2147483648. change (2^63) with 9223372036854775808.
  intros Hx Hy. nia.
Qed.

(** X17: the code of generator B for an operator over two names (for two
    different names these are the three nodes the parser leaves): the names
    are loaded into [t0] and [t1], both
    registers are given back, the result is computed into [a0], and the
    function returns the sum or the product of the two elements of [env] in
    32 bits.  For the product of a name with itself, where the one name node
    has two references, the register is loaded once and used twice. *)
Theorem genB_two_names (env : Z -> Z) (env_addr : Z) (op : token_t) (a b : Z) :
  op = PLUS \/ op = STAR -> 0 <= a < 256 -> 0 <= b < 256 ->
  in_int32 (env a) -> in_int32 (env b) ->
  (exists g,
     GenB.compile [new_node RISCV NAME NULL NULL a; new_node RISCV NAME NULL NULL b;
                   new_node RISCV op (Ptr 0) (Ptr 1) 0] (Ptr 2) = Ok g /\
     GenB.next_free g = 0%nat /\ GenB.reg_poll g = GenB.reg_poll_init /\
     RV.call env env_addr (GenB.code g) = Ok (binop_val op (env a) (env b))) /\
  (exists g,
     GenB.compile [Node.Build NAME NULL NULL a 2 0 0 None;
                   new_node RISCV STAR (Ptr 0) (Ptr 0) 0] (Ptr 1) = Ok g /\
     length (GenB.code g) = 3%nat /\
     RV.call env env_addr (GenB.code g) = Ok (wrap32 (env a * env a))).
Proof.
  intros Hop Ha Hb Hva Hvb. split.
  - destruct (compile_two_names op a b Hop) as (p' & Hc).
    eexists. split; [exact Hc |]. split; [reflexivity |]. split; [reflexivity |].
    cbn [GenB.code]. unfold RV.call.
    rewrite run_step by (rewrite word_lw by lia; pows; Z.div_mod_to_equations; lia).
    rewrite step_lw by lia.
    unfold RV.get at 1. cbn [Z.eqb Pos.eqb]. rewrite load_name by assumption. cbn [rbind].
    rewrite run_step by (rewrite word_lw by lia; pows; Z.div_mod_to_equations; lia).
    rewrite step_lw by lia.
    unfold RV.get at 1, RV.set at 1. cbn [Z.eqb Pos.eqb].
    rewrite load_name by assumption. cbn [rbind].
    rewrite !sext32_id by assumption.
    destruct Hop as [-> | ->]; cbn [Z.eqb Pos.eqb PLUS STAR];
      (rewrite run_step by (vm_compute; discriminate));
      match goal with
      | |- context [RV.step ?e ?ea ?w ?x] =>
          change (RV.step e ea w x)
            with (Ok (RV.set x 10 (RV.get x 5 + RV.get x 6))) ||
          change (RV.step e ea w x)
            with (Ok (RV.set x 10 (RV.get x 5 * RV.get x 6)))
      end;
      cbn [rbind RV.run]; change (32898 =? 32898) with true; cbv iota;
      unfold RV.get, RV.set; cbn [Z.eqb Pos.eqb];
      rewrite !(sext64_id (env _)) by (unfold in_int32 in *; change (2^31) with 2147483648 in *;
                                      change (2^63) with 9223372036854775808; lia).
    + rewrite sext64_id, sext32_wrap, binop_val_plus; [reflexivity |].
      unfold in_int32 in *. change (2^31) with 2147483648 in *.
      change (2^63) with 9223372036854775808. lia.
    + rewrite sext64_id, sext32_wrap, binop_val_star; [reflexivity |].
      apply mul_int32; assumption.
  - destruct (compile_square a) as (p' & Hc).
    eexists. split; [exact Hc |]. split; [reflexivity |].
    cbn [GenB.code]. unfold RV.call.
    rewrite run_step by (rewrite word_lw by lia; pows; Z.div_mod_to_equations; lia).
    rewrite step_lw by lia.
    unfold RV.get at 1. cbn [Z.eqb Pos.eqb]. rewrite load_name by assumption. cbn [rbind].
    rewrite !sext32_id by assumption.
    rewrite run_step by (vm_compute; discriminate).
    match goal with
    | |- context [RV.step ?e ?ea ?w ?x] =>
        change (RV.step e ea w x) with (Ok (RV.set x 10 (RV.get x 5 * RV.get x 5)))
    end.
    cbn [rbind RV.run]. change (32898 =? 32898) with true. cbv iota.
    unfold RV.get, RV.set. cbn [Z.eqb Pos.eqb].
    rewrite !(sext64_id (env _)) by (unfold in_int32 in *; change (2^31) with 2147483648 in *;
                                    change (2^63) with 9223372036854775808; lia).
    rewrite sext64_id, sext32_wrap; [reflexivity |]. apply mul_int32; assumption.
Qed.

(** ** Names *)

Lemma isalpha_class c : isalpha c = true -> isspace c = false /\ isdigit c = false.
Proof.
  unfold isalpha, isspace, isdigit. intros H.
  apply orb_true_iff in H as [H | H]; apply andb_true_iff in H as [H1 H2];
    apply Z.leb_le in H1; apply Z.leb_le in H2;
    (split;
     [rewrite (proj2 (Z.eqb_neq c 32)) by lia;
      rewrite (proj2 (Z.leb_gt c 13)) by lia; now rewrite andb_false_r
     | first [rewrite (proj2 (Z.leb_gt c 57)) by lia; now rewrite andb_false_r
             | rewrite (proj2 (Z.leb_gt 48 c)) by lia; reflexivity]]).
Qed.

(** X3: A name is a letter followed by the longest run of letters and digits:
    on such a run [nexttoken] returns [NAME], leaves [symbolValue] on the
    letter and the cursor on the first character behind the run, and does
    not touch [intValue]. *)
Theorem nexttoken_name (src : string) (i j : nat) (la : token_t) (iv : Z) (sv : nat) :
  (i < j <= String.length src)%nat ->
  (exists c, char_at src i = Ok c /\ isalpha c = true) ->
  (forall m, (i <= m < j)%nat -> exists c, char_at src m = Ok c /\ isalnum c = true) ->
  (exists c, char_at src j = Ok c /\ isalnum c = false) ->
  nexttoken (Lex.Build src i la iv sv) = Ok (Lex.Build src j NAME iv i).
Proof.
  intros Hr (c & Hc & Ha) Hrun (e & He & Hne).
  destruct (isalpha_class c Ha) as [Hsp Hdg].
  assert (E1 : skip_while isspace (S (String.length src)) src i = Ok i).
  { cbn [skip_while]. rewrite Hc. cbn [rbind]. rewrite Hsp. reflexivity. }
  assert (E2 : skip_while isalnum (S (String.length src)) src i = Ok j).
  { replace (S (String.length src))
      with ((j - i) + S (String.length src - (j - i)))%nat by lia.
    rewrite skip_while_run by (intros m Hm; apply Hrun; lia).
    replace (i + (j - i))%nat with j by lia.
    cbn [skip_while]. rewrite He. cbn [rbind]. rewrite Hne. reflexivity. }
  unfold nexttoken. cbn [Lex.src Lex.s Lex.intValue Lex.symbolValue].
  rewrite E1. cbn [rbind]. rewrite Hc. cbn [rbind]. rewrite Hdg, Ha, E2. reflexivity.
Qed.

Lemma nexttoken_name_witness :
  nexttoken (Lex.Build "ab1+c" 0 0 7 0) = Ok (Lex.Build "ab1+c" 3 NAME 7 0).
Proof.
  apply (nexttoken_name "ab1+c" 0 3 0 7 0).
  - simpl. lia.
  - exists 97. split; reflexivity.
  - intros m Hm. destruct m as [| [| [| m]]]; [eexists; split; reflexivity .. | lia].
  - exists 43. split; reflexivity.
Defined.

Lemma genB_two_names_witness :
  exists g,
    GenB.compile [new_node RISCV NAME NULL NULL 120; new_node RISCV NAME NULL NULL 121;
                  new_node RISCV PLUS (Ptr 0%nat) (Ptr 1%nat) 0] (Ptr 2%nat) = Ok g /\
    RV.call default_env env_at (GenB.code g) = Ok 5.
Proof.
  destruct (proj1 (genB_two_names default_env env_at PLUS 120 121 (or_introl eq_refl)
                     ltac:(lia) ltac:(lia) (default_env_int 120) (default_env_int 121)))
    as (g & Hg & _ & _ & Hc).
  exists g. split; [exact Hg | exact Hc].
Defined.

(** ** The instructions of generator B, for any registers *)

Lemma wrap32_sext64 z : wrap32 (RV.sext 64 z) = wrap32 z.
Proof.
  apply wrap32_congr. sexts. pows. Z.div_mod_to_equations. lia.
Qed.

Lemma word_op f r l x :
  0 <= f < 128 -> 0 <= r < 32 -> 0 <= l < 32 -> 0 <= x < 32 ->
  u32 (Z.lor (Z.lor (Z.lor (Z.lor (GenB.shl f 25) (GenB.shl r 20)) (GenB.shl l 15))
                    (GenB.shl x 7)) 0x33)
  = f * 2^25 + r * 2^20 + l * 2^15 + x * 2^7 + 51.
Proof.
  intros Hf Hr Hl Hx. unfold GenB.shl, u32. rewrite !Z.shiftl_mul_pow2 by lia.
  rewrite (lor_small f 25 (r * 2^20)) by lia.
  replace (f * 2^25 + r * 2^20) with ((f * 2^5 + r) * 2^20) by lia.
  rewrite (lor_small _ 20 (l * 2^15)) by lia.
  replace ((f * 2^5 + r) * 2^20 + l * 2^15) with ((f * 2^10 + r * 2^5 + l) * 2^15) by lia.
  rewrite (lor_small _ 15 (x * 2^7)) by lia.
  replace ((f * 2^10 + r * 2^5 + l) * 2^15 + x * 2^7)
    with ((f * 2^18 + r * 2^13 + l * 2^8 + x) * 2^7) by lia.
  rewrite (lor_small _ 7 51) by lia.
  rewrite Z.mod_small by lia. lia.
Qed.

Lemma step_op env ea f r l x regs :
  f = 0 \/ f = 1 -> 0 <= r < 32 -> 0 <= l < 32 -> 0 <= x < 32 ->
  RV.step env ea
    (u32 (Z.lor (Z.lor (Z.lor (Z.lor (GenB.shl f 25) (GenB.shl r 20)) (GenB.shl l 15))
                       (GenB.shl x 7)) 0x33)) regs
  = Ok (RV.set regs x (if f =? 0 then RV.get regs l + RV.get regs r
                       else RV.get regs l * RV.get regs r)).
Proof.
  intros Hf Hr Hl Hx. rewrite word_op by lia.
  set (w := f * 2^25 + r * 2^20 + l * 2^15 + x * 2^7 + 51).
  unfold RV.step. rewrite !field_spec by lia.
  assert (E0 : (w / 2^0) mod 2^7 = 51) by (unfold w; pows; Z.div_mod_to_equations; lia).
  assert (E1 : (w / 2^7) mod 2^5 = x) by (unfold w; pows; Z.div_mod_to_equations; lia).
  assert (E2 : (w / 2^12) mod 2^3 = 0) by (unfold w; pows; Z.div_mod_to_equations; lia).
  assert (E3 : (w / 2^15) mod 2^5 = l) by (unfold w; pows; Z.div_mod_to_equations; lia).
  assert (E4 : (w / 2^20) mod 2^5 = r) by (unfold w; pows; Z.div_mod_to_equations; lia).
  assert (E5 : (w / 2^25) mod 2^7 = f) by (unfold w; pows; Z.div_mod_to_equations; lia).
  rewrite E0, E1, E2, E3, E4, E5. destruct Hf as [-> | ->]; reflexivity.
Qed.

Section ExecBSteps.
Variable env : Z -> Z.
Variable env_addr : Z.

Local Abbreviation exe := (execB env env_addr).

Lemma execB_nil x : exe [] x x.
Proof. intros rest. reflexivity. Qed.

Lemma execB_app c1 c2 x x1 x2 : exe c1 x x1 -> exe c2 x1 x2 -> exe (c1 ++ c2) x x2.
Proof. intros H1 H2 rest. rewrite <- app_assoc, H1, H2. reflexivity. Qed.

Lemma execB_step w x x' :
  w mod 128 <> 2 -> RV.step env env_addr w x = Ok x' -> exe [w] x x'.
Proof.
  intros Hw Hs rest. cbn [app]. rewrite run_step by assumption. rewrite Hs. reflexivity.
Qed.

(** [add] and [mul] *)
Lemma execB_op kind rd rl rr x :
  kind = PLUS \/ kind = STAR -> 0 < rd < 32 -> 0 < rl < 32 -> 0 < rr < 32 ->
  exists x',
    exe [u32 (Z.lor (Z.lor (Z.lor (Z.lor (if kind =? PLUS then 0 else GenB.shl 1 25)
                                         (GenB.shl rr 20)) (GenB.shl rl 15))
                           (GenB.shl rd 7)) 0x33)] x x' /\
    wrap32 (x' rd) = binop_val kind (wrap32 (x rl)) (wrap32 (x rr)) /\
    forall r, r <> rd -> x' r = x r.
Proof.
  intros Hk Hd Hl Hr.
  set (f := if kind =? PLUS then 0 else 1).
  assert (Hf : f = 0 \/ f = 1) by (unfold f; destruct (kind =? PLUS); auto).
  assert (Ef : (if kind =? PLUS then 0 else GenB.shl 1 25) = GenB.shl f 25)
    by (unfold f; destruct (kind =? PLUS); reflexivity).
  rewrite Ef.
  eexists. split; [| split].
  - apply execB_step; [| apply step_op; lia].
    rewrite word_op by lia. pows. Z.div_mod_to_equations. lia.
  - unfold RV.set. rewrite Z.eqb_refl, wrap32_sext64.
    unfold RV.get. rewrite (proj2 (Z.eqb_neq rl 0)), (proj2 (Z.eqb_neq rr 0)) by lia.
    unfold f. destruct Hk as [-> | ->]; cbn [Z.eqb Pos.eqb PLUS STAR].
    + rewrite binop_val_plus, wrap32_add_l, wrap32_add_r. reflexivity.
    + rewrite binop_val_star, wrap32_mul_l, wrap32_mul_r. reflexivity.
  - intros r Hne. unfold RV.set. now rewrite (proj2 (Z.eqb_neq r rd)).
Qed.

(** [lw] from [env] *)
Lemma execB_name rd c x :
  0 < rd < 32 -> 0 <= c < 256 -> in_int32 (env c) -> x GenB.reg_a0 = env_addr ->
  exists x',
    exe [u32 (Z.lor (Z.lor (Z.lor (Z.lor (GenB.shl (c * 4) 20) (GenB.shl 2 12))
                                  (GenB.shl GenB.reg_a0 15)) (GenB.shl rd 7)) 0x03)] x x' /\
    wrap32 (x' rd) = env c /\
    forall r, r <> rd -> x' r = x r.
Proof.
  intros Hd Hc He Ha.
  eexists. split; [| split].
  - apply execB_step.
    + rewrite word_lw by lia. pows. Z.div_mod_to_equations. lia.
    + rewrite step_lw by lia.
      unfold RV.get. cbn [Z.eqb]. change (x 10) with (x GenB.reg_a0). rewrite Ha.
      rewrite load_name by assumption. cbn [rbind]. reflexivity.
  - unfold RV.set. rewrite Z.eqb_refl, wrap32_sext64.
    rewrite (sext32_id (env c)) by assumption. now apply wrap32_id.
  - intros r Hne. unfold RV.set. now rewrite (proj2 (Z.eqb_neq r rd)).
Qed.

(** [lui] when the upper 20 bits are not clear, then [addi] *)
Lemma execB_literal rd v x :
  0 < rd < 32 -> in_int32 v ->
  exists x',
    exe ((if negb (Z.land v 0xFFFFF000 =? 0)
          then [u32 (Z.lor (Z.lor (Z.land v 0xFFFFF000) (GenB.shl rd 7)) 0x37)]
          else [])
         ++ [u32 (Z.lor (Z.lor (Z.lor (GenB.shl (Z.land v 0xFFF) 20)
                    (GenB.shl (if negb (Z.land v 0xFFFFF000 =? 0) then rd else 0) 15))
                    (GenB.shl rd 7)) 0x13)]) x x' /\
    wrap32 (x' rd) = lit_val v /\
    forall r, r <> rd -> x' r = x r.
Proof.
  intros Hd Hv.
  rewrite land_high20, land_low12.
  set (h := (v / 4096) mod 2^20). set (l := v mod 4096).
  assert (Hh : 0 <= h < 2^20) by (apply Z.mod_pos_bound; lia).
  assert (Hl : 0 <= l < 4096) by (apply Z.mod_pos_bound; lia).
  assert (Eh : h * 4096 + l = v mod 4294967296).
  { unfold h, l. unfold in_int32 in Hv. change (2^31) with 2147483648 in Hv. pows.
    Z.div_mod_to_equations. lia. }
  destruct (Z.eqb_spec (h * 4096) 0) as [E0 | E0]; cbn [negb app].
  - eexists. split; [| split].
    + apply execB_step; [| apply step_addi; lia].
      rewrite word_addi by lia. pows. Z.div_mod_to_equations. lia.
    + unfold RV.set. rewrite Z.eqb_refl, wrap32_sext64.
      unfold RV.get. cbn [Z.eqb]. unfold lit_val. fold l.
      assert (v = l).
      { unfold in_int32 in Hv. change (2^31) with 2147483648 in Hv.
        Z.div_mod_to_equations. lia. }
      sexts. unfold wrap32. pows. change (2^31) with 2147483648.
      destruct (Z.ltb_spec l 2048); Z.div_mod_to_equations; lia.
    + intros r Hne. unfold RV.set. now rewrite (proj2 (Z.eqb_neq r rd)).
  - eexists. split; [| split].
    + eapply (execB_app [_] [_]).
      * apply execB_step; [| apply step_lui; lia].
        rewrite word_lui by lia. pows. Z.div_mod_to_equations. lia.
      * apply execB_step; [| apply step_addi; lia].
        rewrite word_addi by lia. pows. Z.div_mod_to_equations. lia.
    + unfold RV.set, RV.get. rewrite Z.eqb_refl, (proj2 (Z.eqb_neq rd 0)) by lia.
      rewrite wrap32_sext64.
      unfold lit_val. fold l.
      sexts. unfold wrap32, in_int32 in *. pows. change (2^31) with 2147483648 in *.
      destruct (Z.ltb_spec l 2048); Z.div_mod_to_equations; lia.
    + intros r Hne. unfold RV.set. now rewrite !(proj2 (Z.eqb_neq r rd)).
Qed.
End ExecBSteps.

(** ** Generator B: registers and values *)

Lemma pool_reg_range x : pool_reg x -> 0 < x < 32 /\ x <> 10.
Proof. unfold pool_reg, GenB.reg_a0. lia. Qed.

Lemma drop_insert_head {A} (l : list A) (i : nat) (a : A) :
  (i < length l)%nat -> drop i (<[i := a]> l) = a :: drop (S i) l.
Proof.
  intros Hi. rewrite insert_take_drop by assumption.
  rewrite drop_app_length'; [reflexivity |]. rewrite length_take. lia.
Qed.

Lemma genB_ast_alter root p q f j :
  (forall n, tuple_of (f n) = tuple_of n /\ Node.alloc (f n) = Node.alloc n) ->
  genB_ast root p q -> genB_ast root p (alter f j q).
Proof.
  intros Hf [Hlen Hq]. split; [now rewrite length_alter |].
  intros k n' Hk. destruct (decide (k = j)) as [-> | Hne].
  - rewrite list_lookup_alter_eq in Hk.
    destruct (q !! j) as [n |] eqn:E; [| discriminate]. injection Hk as <-.
    destruct (Hq j n E) as (n0 & Hn0 & Ht & Ha). exists n0.
    destruct (Hf n) as [Ht' Ha']. repeat split; congruence.
  - rewrite list_lookup_alter_ne in Hk by auto. auto.
Qed.

Lemma genB_ast_set_reg root p q x j :
  genB_ast root p q -> genB_ast root p (alter (Node.set_reg x) j q).
Proof. apply genB_ast_alter. intros n. split; reflexivity. Qed.

Lemma genB_ast_set_shared root p q f j :
  genB_ast root p q -> genB_ast root p (alter (Node.set_shared f) j q).
Proof. apply genB_ast_alter. intros n. split; reflexivity. Qed.

(** [codegen] changes [reg] and [shared] only. *)
Lemma genB_codegen_ast root p fuel : forall t st st',
  GenB.codegen fuel t st = Ok st' ->
  genB_ast root p (GenB.nodes st) -> genB_ast root p (GenB.nodes st').
Proof.
  induction fuel as [| fuel IH]; intros t st st' H; [discriminate |].
  assert (Halloc : forall i s s', GenB.alloc i s = Ok s' ->
                     genB_ast root p (GenB.nodes s) -> genB_ast root p (GenB.nodes s')).
  { intros i s s' Hs. destruct (genB_alloc_spec i s s' Hs) as (n & x & _ & -> & _).
    apply genB_ast_set_reg. }
  assert (Huse : forall i s s' x, GenB.use i s = Ok (s', x) ->
                   genB_ast root p (GenB.nodes s) -> genB_ast root p (GenB.nodes s')).
  { intros i s s' x Hs. destruct (genB_use_spec i s s' x Hs) as (n & _ & _ & _ & -> & _).
    apply genB_ast_set_shared. }
  assert (Hemit : forall w s s', GenB.emit w s = Ok s' -> GenB.nodes s' = GenB.nodes s).
  { intros w s s' Hs. now destruct (genB_emit_inv w s s' Hs). }
  cbn [GenB.codegen] in H.
  apply rbind_Ok in H as (n & Hn & H).
  apply deref_Ok in Hn as (i & -> & Hn).
  destruct (negb (Node.reg n =? 0)); [injection H as <-; auto |].
  destruct (Node.kind n =? INT).
  { apply rbind_Ok in H as (st1 & H1 & H).
    apply rbind_Ok in H as (n1 & _ & H).
    apply rbind_Ok in H as ([st2 hi] & H2 & H).
    assert (E2 : GenB.nodes st2 = GenB.nodes st1).
    { destruct (negb _).
      - apply rbind_Ok in H2 as (st2' & H2 & [= <- <-]). eauto.
      - now injection H2 as <- <-. }
    rewrite (Hemit _ _ _ H), E2. eauto. }
  destruct (Node.kind n =? NAME).
  { apply rbind_Ok in H as (st1 & H1 & H).
    apply rbind_Ok in H as (n1 & _ & H).
    rewrite (Hemit _ _ _ H). eauto. }
  destruct ((Node.kind n =? PLUS) || (Node.kind n =? STAR)); [| discriminate].
  apply rbind_Ok in H as (st1 & H1 & H).
  apply rbind_Ok in H as (st2 & H2 & H).
  destruct (Node.r n) as [| ir |]; try discriminate.
  destruct (Node.l n) as [| il |]; try discriminate.
  apply rbind_Ok in H as ([st3 xr] & H3 & H).
  apply rbind_Ok in H as ([st4 xl] & H4 & H).
  apply rbind_Ok in H as (st5 & H5 & H).
  apply rbind_Ok in H as (n5 & _ & H).
  rewrite (Hemit _ _ _ H). intros H0.
  eapply Halloc; [eassumption |]. eapply Huse; [eassumption |].
  eapply Huse; [eassumption |]. eapply IH; [eassumption |]. eapply IH; eassumption.
Qed.

Section GenBInv.
Variable env_addr : Z.
Variable val : nat -> Z.
Variable root : nat.
Variable p : pool.

Local Abbreviation inv := (genB_inv env_addr val root p).

Lemma inv_regs_nonzero st x : inv st x -> regs_nonzero st.
Proof.
  intros I. unfold regs_nonzero. eapply Forall_impl; [apply (gi_pool _ _ _ _ _ _ I) |].
  intros r Hr. apply pool_reg_range in Hr. lia.
Qed.

(** [use]: the register returned holds the value of the node; it goes
    back to the free part with the last reference. *)
Lemma genB_use_inv j st st' r x :
  inv st x -> compiled (GenB.nodes st) j -> GenB.use j st = Ok (st', r) ->
  inv st' x /\ pool_reg r /\ wrap32 (x r) = val j /\ GenB.code st' = GenB.code st /\
  (forall k, compiled (GenB.nodes st) k -> compiled (GenB.nodes st') k).
Proof.
  intros I (n0 & Hn0 & Hr0) H.
  destruct (genB_use_spec j st st' r H) as (n & Hn & -> & Hs & Hnodes & Hcode & Hc).
  rewrite Hn0 in Hn. injection Hn as ->.
  assert (Hlive : live n) by (split; assumption).
  destruct (gi_live _ _ _ _ _ _ I j n Hn0 Hlive) as (Hpr & Hnf & Hv).
  assert (Hold : forall k n', GenB.nodes st' !! k = Some n' ->
             exists nk, GenB.nodes st !! k = Some nk /\ Node.reg n' = Node.reg nk /\
               (k <> j -> n' = nk) /\
               (k = j -> nk = n /\ Node.shared n' = Node.shared n - 1)).
  { intros k n' Hk. rewrite Hnodes in Hk. destruct (decide (k = j)) as [-> | Hne].
    - rewrite list_lookup_alter_eq, Hn0 in Hk. injection Hk as <-.
      exists n. repeat split; auto; contradiction.
    - rewrite list_lookup_alter_ne in Hk by auto. exists n'.
      repeat split; auto; contradiction. }
  split; [| split; [assumption | split; [assumption | split; [assumption |]]]].
  2: { intros k Hk. rewrite Hnodes. now apply compiled_set_shared. }
  destruct Hc as [(E0 & nf & Enf & Enf' & Epoll) | (E0 & Enf & Epoll)].
  - (* the last reference *)
    assert (Hlt : (nf < length (GenB.reg_poll st))%nat).
    { pose proof (gi_len _ _ _ _ _ _ I). pose proof (gi_nf _ _ _ _ _ _ I).
      unfold GenB.NREGS in *. lia. }
    assert (Hdrop : drop (GenB.next_free st') (GenB.reg_poll st')
                    = Node.reg n :: drop (GenB.next_free st) (GenB.reg_poll st)).
    { rewrite Enf', Epoll, Enf. now apply drop_insert_head. }
    assert (Hdead : forall k n', GenB.nodes st' !! k = Some n' -> live n' ->
               k <> j /\ GenB.nodes st !! k = Some n').
    { intros k n' Hk [_ Hl]. destruct (Hold k n' Hk) as (nk & Hnk & _ & Hne & Heq).
      destruct (decide (k = j)) as [-> | Hkj].
      - destruct (Heq eq_refl) as [_ E]. lia.
      - split; [assumption |]. now rewrite (Hne Hkj). }
    constructor.
    + rewrite Epoll, length_insert. apply (gi_len _ _ _ _ _ _ I).
    + pose proof (gi_nf _ _ _ _ _ _ I). lia.
    + rewrite Epoll. apply Forall_insert; [apply (gi_pool _ _ _ _ _ _ I) | assumption].
    + rewrite Hdrop. apply NoDup_cons. split; [assumption | apply (gi_free _ _ _ _ _ _ I)].
    + apply (gi_a0 _ _ _ _ _ _ I).
    + rewrite Hnodes. apply genB_ast_set_shared. apply (gi_ast _ _ _ _ _ _ I).
    + intros n' Hn'. destruct (Hold root n' Hn') as (nk & Hnk & -> & _).
      apply (gi_root _ _ _ _ _ _ I nk Hnk).
    + intros k n' Hk Hl. destruct (Hdead k n' Hk Hl) as [Hkj Hk0].
      destruct (gi_live _ _ _ _ _ _ I k n' Hk0 Hl) as (Hp1 & Hp2 & Hp3).
      split; [assumption |]. split; [| assumption].
      rewrite Hdrop. apply not_elem_of_cons. split; [| assumption].
      apply (gi_dist _ _ _ _ _ _ I k j n' n Hk0 Hn0 Hl Hlive Hkj).
    + intros k1 k2 n1 n2 Hk1 Hk2 Hl1 Hl2 Hne.
      destruct (Hdead k1 n1 Hk1 Hl1) as [_ Hk1'].
      destruct (Hdead k2 n2 Hk2 Hl2) as [_ Hk2'].
      apply (gi_dist _ _ _ _ _ _ I k1 k2 n1 n2 Hk1' Hk2' Hl1 Hl2 Hne).
  - (* references remain *)
    assert (Hkeep : forall k n', GenB.nodes st' !! k = Some n' -> live n' ->
               exists nk, GenB.nodes st !! k = Some nk /\ Node.reg n' = Node.reg nk /\
                          live nk).
    { intros k n' Hk [Hl1 Hl2]. destruct (Hold k n' Hk) as (nk & Hnk & Er & Hne & Heq).
      exists nk. split; [assumption |]. split; [assumption |].
      destruct (decide (k = j)) as [-> | Hkj].
      - destruct (Heq eq_refl) as [-> _]. assumption.
      - rewrite <- (Hne Hkj). split; assumption. }
    constructor.
    + rewrite Epoll. apply (gi_len _ _ _ _ _ _ I).
    + rewrite Enf. apply (gi_nf _ _ _ _ _ _ I).
    + rewrite Epoll. apply (gi_pool _ _ _ _ _ _ I).
    + rewrite Enf, Epoll. apply (gi_free _ _ _ _ _ _ I).
    + apply (gi_a0 _ _ _ _ _ _ I).
    + rewrite Hnodes. apply genB_ast_set_shared. apply (gi_ast _ _ _ _ _ _ I).
    + intros n' Hn'. destruct (Hold root n' Hn') as (nk & Hnk & -> & _).
      apply (gi_root _ _ _ _ _ _ I nk Hnk).
    + intros k n' Hk Hl. destruct (Hkeep k n' Hk Hl) as (nk & Hnk & -> & Hlk).
      rewrite Enf, Epoll. apply (gi_live _ _ _ _ _ _ I k nk Hnk Hlk).
    + intros k1 k2 n1 n2 Hk1 Hk2 Hl1 Hl2 Hne.
      destruct (Hkeep k1 n1 Hk1 Hl1) as (m1 & Hm1 & -> & Hlm1).
      destruct (Hkeep k2 n2 Hk2 Hl2) as (m2 & Hm2 & -> & Hlm2).
      apply (gi_dist _ _ _ _ _ _ I k1 k2 m1 m2 Hm1 Hm2 Hlm1 Hlm2 Hne).
Qed.

(** [alloc] on a node below the root: the register comes off the free
    part, and the invariant is back once the register holds the value. *)
Lemma genB_alloc_inv i st st' x :
  inv st x -> i <> root -> GenB.alloc i st = Ok st' ->
  exists rd, pool_reg rd /\
    GenB.nodes st' = alter (Node.set_reg rd) i (GenB.nodes st) /\
    GenB.code st' = GenB.code st /\
    forall x', (forall r, r <> rd -> x' r = x r) -> wrap32 (x' rd) = val i -> inv st' x'.
Proof.
  intros I Hir H.
  destruct (genB_alloc_spec i st st' H) as (n & rd & Hn & Hnodes & Hpoll & Hcode & Hc).
  destruct (proj2 (gi_ast _ _ _ _ _ _ I) i n Hn) as (n0 & Hn0 & Ht & Ha).
  rewrite (proj2 (Nat.eqb_neq i root) Hir) in Ha.
  destruct Hc as [(Hc & _) | (_ & Hlt & Hrd & Enf)]; [contradiction |].
  assert (Hprd : pool_reg rd).
  { apply (proj1 (Forall_lookup _ _) (gi_pool _ _ _ _ _ _ I) _ _ Hrd). }
  pose proof (gi_free _ _ _ _ _ _ I) as Hnd.
  rewrite (drop_S _ _ _ Hrd) in Hnd. apply NoDup_cons in Hnd as [Hrd' Hnd].
  assert (Hin : forall r, ~ elem_of r (drop (GenB.next_free st) (GenB.reg_poll st)) ->
                  r <> rd /\ ~ elem_of r (drop (S (GenB.next_free st)) (GenB.reg_poll st))).
  { intros r Hr. rewrite (drop_S _ _ _ Hrd) in Hr. apply not_elem_of_cons in Hr. tauto. }
  exists rd. split; [assumption |]. split; [assumption |]. split; [assumption |].
  intros x' Hx' Hv.
  assert (Hold : forall k n', GenB.nodes st' !! k = Some n' -> k <> i ->
             GenB.nodes st !! k = Some n').
  { intros k n' Hk Hne. rewrite Hnodes, list_lookup_alter_ne in Hk by auto. exact Hk. }
  assert (Hnew : forall n', GenB.nodes st' !! i = Some n' -> Node.reg n' = rd).
  { intros n' Hk. rewrite Hnodes, list_lookup_alter_eq, Hn in Hk. now injection Hk as <-. }
  constructor.
  - rewrite Hpoll. apply (gi_len _ _ _ _ _ _ I).
  - rewrite Enf. unfold GenB.NREGS in *. lia.
  - rewrite Hpoll. apply (gi_pool _ _ _ _ _ _ I).
  - rewrite Enf, Hpoll. exact Hnd.
  - rewrite Hx'; [apply (gi_a0 _ _ _ _ _ _ I) |].
    destruct Hprd as [_ Hne]. congruence.
  - rewrite Hnodes. apply genB_ast_set_reg. apply (gi_ast _ _ _ _ _ _ I).
  - intros n' Hn'. apply (gi_root _ _ _ _ _ _ I). apply Hold; auto.
  - intros k n' Hk Hl. rewrite Enf, Hpoll. destruct (decide (k = i)) as [-> | Hne].
    + rewrite (Hnew n' Hk). auto.
    + destruct (gi_live _ _ _ _ _ _ I k n' (Hold k n' Hk Hne) Hl) as (Hp1 & Hp2 & Hp3).
      destruct (Hin _ Hp2) as [Hp4 Hp5].
      split; [assumption |]. split; [assumption |]. rewrite Hx' by assumption. exact Hp3.
  - intros k1 k2 n1 n2 Hk1 Hk2 Hl1 Hl2 Hne.
    destruct (decide (k1 = i)) as [-> | H1]; destruct (decide (k2 = i)) as [-> | H2].
    + contradiction.
    + rewrite (Hnew n1 Hk1).
      destruct (gi_live _ _ _ _ _ _ I k2 n2 (Hold k2 n2 Hk2 H2) Hl2) as (_ & Hp2 & _).
      destruct (Hin _ Hp2) as [Hp4 _]. congruence.
    + rewrite (Hnew n2 Hk2).
      destruct (gi_live _ _ _ _ _ _ I k1 n1 (Hold k1 n1 Hk1 H1) Hl1) as (_ & Hp2 & _).
      destruct (Hin _ Hp2) as [Hp4 _]. congruence.
    + apply (gi_dist _ _ _ _ _ _ I k1 k2 n1 n2); auto.
Qed.

(** [alloc] on the root takes [a0]. *)
Lemma genB_alloc_root st st' :
  genB_ast root p (GenB.nodes st) -> GenB.alloc root st = Ok st' ->
  GenB.nodes st' = alter (Node.set_reg GenB.reg_a0) root (GenB.nodes st) /\
  GenB.code st' = GenB.code st.
Proof.
  intros [_ Hq] H.
  destruct (genB_alloc_spec root st st' H) as (n & rd & Hn & Hnodes & _ & Hcode & Hc).
  destruct (Hq root n Hn) as (n0 & _ & _ & Ha). rewrite Nat.eqb_refl in Ha.
  destruct Hc as [(_ & -> & _) | (Hc & _)].
  - rewrite Ha in Hnodes. auto.
  - rewrite Ha in Hc. discriminate.
Qed.
End GenBInv.

(** ** Generator B: the code computes the value of the tree *)

Section GenBSound.
Variable env : Z -> Z.
Variable env_addr : Z.
Variable p : pool.
Variable root : nat.
Variable val : nat -> Z.

Hypothesis Hwf : wf_pool RISCV p.
Hypothesis Hnames : names_ok p.
Hypothesis Henv : forall c, in_int32 (env c).
Hypothesis Hlit : forall j n,
  p !! j = Some n -> Node.kind n = INT -> val j = lit_val (Node.intValue n).
Hypothesis Hname : forall j n,
  p !! j = Some n -> Node.kind n = NAME -> val j = env (Node.intValue n).
Hypothesis Hop : forall j n a b,
  p !! j = Some n -> Node.kind n = PLUS \/ Node.kind n = STAR ->
  Node.l n = Ptr a -> Node.r n = Ptr b ->
  val j = binop_val (Node.kind n) (val a) (val b).

Local Abbreviation inv := (genB_inv env_addr val root p).
Local Abbreviation exe := (execB env env_addr).

Lemma inv_same st st' x :
  GenB.nodes st' = GenB.nodes st -> GenB.reg_poll st' = GenB.reg_poll st ->
  GenB.next_free st' = GenB.next_free st -> inv st x -> inv st' x.
Proof.
  destruct st, st'. cbn [GenB.nodes GenB.reg_poll GenB.next_free].
  intros -> -> -> I. destruct I. constructor; assumption.
Qed.

Lemma inv_emit w st st' x : GenB.emit w st = Ok st' -> inv st x -> inv st' x.
Proof.
  intros H. destruct (genB_emit_inv w st st' H) as (Hn & Hp & Hf & _).
  now apply inv_same.
Qed.

(** [alloc], on the root or below it. *)
Lemma genB_alloc_any i st st' x :
  (i <= root)%nat -> inv st x -> GenB.alloc i st = Ok st' ->
  exists rd, 0 < rd < 32 /\
    GenB.nodes st' = alter (Node.set_reg rd) i (GenB.nodes st) /\
    GenB.code st' = GenB.code st /\
    (i = root -> rd = GenB.reg_a0) /\
    (i <> root ->
     forall x', (forall r, r <> rd -> x' r = x r) -> wrap32 (x' rd) = val i -> inv st' x').
Proof.
  intros Hle I H. destruct (decide (i = root)) as [-> | Hne].
  - destruct (genB_alloc_root root p st st' (gi_ast _ _ _ _ _ _ I) H) as [Hn Hc].
    exists GenB.reg_a0. unfold GenB.reg_a0 at 1 2.
    split; [lia |]. split; [assumption |]. split; [assumption |].
    split; [reflexivity | contradiction].
  - destruct (genB_alloc_inv env_addr val root p i st st' x I Hne H)
      as (rd & Hrd & Hn & Hc & Hf).
    exists rd. split; [apply pool_reg_range in Hrd; lia |].
    split; [assumption |]. split; [assumption |]. split; [contradiction | auto].
Qed.

Lemma lookup_set_reg (q : pool) i rd n n' :
  q !! i = Some n -> deref (alter (Node.set_reg rd) i q) (Ptr i) = Ok n' ->
  n' = Node.set_reg rd n.
Proof.
  intros Hn H. apply deref_Ok in H as (j & [= <-] & H).
  rewrite list_lookup_alter_eq, Hn in H. now injection H as <-.
Qed.

(** A call of [codegen] that returns has emitted code that runs through;
    below the root it keeps the invariant, with the value of its node
    in the node's register; on the root it leaves the value in [a0]. *)
Lemma genB_codegen_sound fuel : forall i st st' x,
  (i <= root)%nat -> inv st x -> GenB.codegen fuel (Ptr i) st = Ok st' ->
  exists ws x',
    GenB.code st' = GenB.code st ++ ws /\ exe ws x x' /\
    (i <> root ->
     inv st' x' /\ compiled (GenB.nodes st') i /\
     forall j, compiled (GenB.nodes st) j -> compiled (GenB.nodes st') j) /\
    (i = root -> wrap32 (x' GenB.reg_a0) = val root).
Proof.
  induction fuel as [| fuel IH]; intros i st st' x Hle I H; [discriminate |].
  destruct (proj2 (genB_codegen_keeps _ _ _ _ H) (inv_regs_nonzero _ _ _ _ _ _ I))
    as (_ & (i' & [= <-] & Hci) & Hcm).
  cbn [GenB.codegen] in H.
  apply rbind_Ok in H as (n & Hn & H).
  apply deref_Ok in Hn as (i' & [= <-] & Hn).
  destruct (proj2 (gi_ast _ _ _ _ _ _ I) i n Hn) as (n0 & Hn0 & Ht & _).
  pose proof (tuple_kind _ _ Ht) as Ek. pose proof (tuple_val _ _ Ht) as Ev.
  pose proof (tuple_l _ _ Ht) as El. pose proof (tuple_r _ _ Ht) as Er.
  destruct (Z.eqb_spec (Node.reg n) 0) as [Ereg | Ereg]; cbn [negb] in H.
  2: { injection H as <-. exists [], x. rewrite app_nil_r.
       split; [reflexivity |]. split; [apply execB_nil |]. split; [auto |].
       intros ->. elim Ereg. apply (gi_root _ _ _ _ _ _ I n Hn). }
  destruct (Z.eqb_spec (Node.kind n) INT) as [Hki | Hki].
  { (* a literal *)
    assert (Hv : in_int32 (Node.intValue n)).
    { rewrite Ev. destruct (wf_ok _ _ Hwf i n0 Hn0) as [_ _ _ Hv | a b na nb [Hk | Hk] _];
        [assumption | |]; rewrite <- Ek, Hki in Hk; discriminate. }
    apply rbind_Ok in H as (st1 & H1 & H).
    destruct (genB_alloc_any i st st1 x Hle I H1) as (rd & Hrd & Hn1 & Hc1 & Hroot & Hlow).
    apply rbind_Ok in H as (n1 & Hd1 & H). rewrite Hn1 in Hd1.
    apply (lookup_set_reg _ _ _ _ _ Hn) in Hd1. subst n1.
    cbn [Node.set_reg Node.reg Node.intValue] in H.
    destruct (execB_literal env env_addr rd (Node.intValue n) x Hrd Hv)
      as (x' & Hexe & Hval & Hagree).
    apply rbind_Ok in H as ([st2 hi] & H2 & H).
    assert (Hws : GenB.code st' = GenB.code st ++
              (if negb (Z.land (Node.intValue n) 0xFFFFF000 =? 0)
               then [u32 (Z.lor (Z.lor (Z.land (Node.intValue n) 0xFFFFF000)
                                       (GenB.shl rd 7)) 0x37)]
               else [])
              ++ [u32 (Z.lor (Z.lor (Z.lor (GenB.shl (Z.land (Node.intValue n) 0xFFF) 20)
                    (GenB.shl (if negb (Z.land (Node.intValue n) 0xFFFFF000 =? 0)
                               then rd else 0) 15))
                    (GenB.shl rd 7)) 0x13)] /\
              GenB.nodes st' = GenB.nodes st1 /\ GenB.reg_poll st' = GenB.reg_poll st1 /\
              GenB.next_free st' = GenB.next_free st1).
    { destruct (negb (Z.land (Node.intValue n) 0xFFFFF000 =? 0)).
      - apply rbind_Ok in H2 as (st2' & H2 & [= <- <-]).
        destruct (genB_emit_inv _ _ _ H2) as (A1 & A2 & A3 & A4).
        destruct (genB_emit_inv _ _ _ H) as (B1 & B2 & B3 & B4).
        rewrite B4, A4, Hc1, <- app_assoc. repeat split; congruence.
      - injection H2 as <- <-.
        destruct (genB_emit_inv _ _ _ H) as (B1 & B2 & B3 & B4).
        rewrite B4, Hc1. repeat split; congruence. }
    destruct Hws as (Hws & Q1 & Q2 & Q3).
    eexists. exists x'. split; [exact Hws |]. split; [exact Hexe |]. split.
    - intros Hne. split; [| split; [exact Hci | exact Hcm]].
      apply (inv_same st1 st' x' Q1 Q2 Q3). apply (Hlow Hne x' Hagree).
      rewrite Hval. symmetry. rewrite Ev. apply (Hlit i n0 Hn0). congruence.
    - intros ->. rewrite <- (Hroot eq_refl), Hval. symmetry. rewrite Ev.
      apply (Hlit root n0 Hn0). congruence. }
  destruct (Z.eqb_spec (Node.kind n) NAME) as [Hkn | Hkn].
  { (* a name *)
    assert (Hc : 0 <= Node.intValue n < 256).
    { rewrite Ev. apply (Hnames i n0 Hn0). congruence. }
    apply rbind_Ok in H as (st1 & H1 & H).
    destruct (genB_alloc_any i st st1 x Hle I H1) as (rd & Hrd & Hn1 & Hc1 & Hroot & Hlow).
    apply rbind_Ok in H as (n1 & Hd1 & H). rewrite Hn1 in Hd1.
    apply (lookup_set_reg _ _ _ _ _ Hn) in Hd1. subst n1.
    cbn [Node.set_reg Node.reg Node.intValue] in H.
    destruct (execB_name env env_addr rd (Node.intValue n) x Hrd Hc (Henv _)
                (gi_a0 _ _ _ _ _ _ I)) as (x' & Hexe & Hval & Hagree).
    destruct (genB_emit_inv _ _ _ H) as (B1 & B2 & B3 & B4).
    eexists. exists x'. split; [rewrite B4, Hc1; reflexivity |]. split; [exact Hexe |]. split.
    - intros Hne. split; [| split; [exact Hci | exact Hcm]].
      apply (inv_same st1 st' x' B1 B2 B3). apply (Hlow Hne x' Hagree).
      rewrite Hval. symmetry. rewrite Ev. apply (Hname i n0 Hn0). congruence.
    - intros ->. rewrite <- (Hroot eq_refl), Hval. symmetry. rewrite Ev.
      apply (Hname root n0 Hn0). congruence. }
  (* an operator *)
  destruct ((Node.kind n =? PLUS) || (Node.kind n =? STAR)) eqn:Hkb; [| discriminate].
  assert (Hk : Node.kind n = PLUS \/ Node.kind n = STAR).
  { apply orb_true_iff in Hkb as [E | E]; apply Z.eqb_eq in E; auto. }
  destruct (wf_ok _ _ Hwf i n0 Hn0)
    as [[Hk0 | Hk0] _ _ _ | a b na nb _ Hl Hr Ha Hb Hna Hnb _]; [congruence | congruence |].
  rewrite El, Hl, Er, Hr in H.
  apply rbind_Ok in H as (s1 & H1 & H).
  apply rbind_Ok in H as (s2 & H2 & H).
  apply rbind_Ok in H as ([s3 rr] & H3 & H).
  apply rbind_Ok in H as ([s4 rl] & H4 & H).
  apply rbind_Ok in H as (s5 & H5 & H).
  apply rbind_Ok in H as (n5 & Hd5 & H).
  destruct (IH a st s1 x ltac:(lia) I H1) as (w1 & x1 & C1 & X1 & L1 & _).
  destruct (L1 ltac:(lia)) as (I1 & Ca1 & M1).
  destruct (IH b s1 s2 x1 ltac:(lia) I1 H2) as (w2 & x2 & C2 & X2 & L2 & _).
  destruct (L2 ltac:(lia)) as (I2 & Cb2 & M2).
  destruct (genB_use_inv env_addr val root p b s2 s3 rr x2 I2 Cb2 H3)
    as (I3 & Prr & Vrr & C3 & M3).
  destruct (genB_use_inv env_addr val root p a s3 s4 rl x2 I3 (M3 _ (M2 _ Ca1)) H4)
    as (I4 & Prl & Vrl & C4 & M4).
  destruct (genB_alloc_any i s4 s5 x2 Hle I4 H5) as (rd & Hrd & Hn5 & C5 & Hroot & Hlow).
  assert (Hreg : Node.reg n5 = rd).
  { apply deref_Ok in Hd5 as (j & [= <-] & Hd5).
    rewrite Hn5, list_lookup_alter_eq in Hd5.
    destruct (GenB.nodes s4 !! i); [| discriminate]. now injection Hd5 as <-. }
  rewrite Hreg in H.
  apply pool_reg_range in Prr. apply pool_reg_range in Prl.
  destruct (execB_op env env_addr (Node.kind n) rd rl rr x2 Hk Hrd ltac:(lia) ltac:(lia))
    as (x' & Hexe & Hval & Hagree).
  destruct (genB_emit_inv _ _ _ H) as (B1 & B2 & B3 & B4).
  assert (Hv : wrap32 (x' rd) = val i).
  { rewrite Hval, Vrl, Vrr. symmetry. rewrite Ek. apply (Hop i n0 a b Hn0); congruence. }
  eexists. exists x'. split; [| split; [| split]].
  - rewrite B4, C5, C4, C3, C2, C1, <- !app_assoc. reflexivity.
  - eapply execB_app; [exact X1 |]. eapply execB_app; [exact X2 | exact Hexe].
  - intros Hne. split; [| split; [exact Hci | exact Hcm]].
    apply (inv_same s5 st' x' B1 B2 B3). apply (Hlow Hne x' Hagree Hv).
  - intros ->. rewrite <- (Hroot eq_refl). exact Hv.
Qed.
End GenBSound.

(** ** Generator B: from [main] to the value *)

Lemma genB_alloc_fuel i st : GenB.alloc i st <> OutOfFuel.
Proof.
  unfold GenB.alloc. cbn [deref]. destruct (GenB.nodes st !! i); cbn [rbind]; [| discriminate].
  destruct (negb _); [discriminate |].
  destruct (_ <? _)%nat; [| discriminate]. destruct (_ !! _); discriminate.
Qed.

Lemma genB_use_fuel i st : GenB.use i st <> OutOfFuel.
Proof.
  unfold GenB.use. cbn [deref]. destruct (GenB.nodes st !! i); cbn [rbind]; [| discriminate].
  destruct (negb _); [discriminate |].
  destruct (_ =? _); [| discriminate]. destruct (GenB.next_free st); discriminate.
Qed.

Lemma genB_emit_fuel w st : GenB.emit w st <> OutOfFuel.
Proof. unfold GenB.emit. destruct (_ <=? _); discriminate. Qed.

(** The fuel [main] gives generator B is enough. *)
Lemma genB_codegen_fuel root p fuel : forall i st,
  wf_pool RISCV p -> (i < fuel)%nat -> genB_ast root p (GenB.nodes st) ->
  GenB.codegen fuel (Ptr i) st <> OutOfFuel.
Proof.
  induction fuel as [| fuel IH]; intros i st Hwf Hlt Hast H; [lia |].
  cbn [GenB.codegen] in H.
  apply rbind_fuel in H as [H | (n & Hn & H)].
  { simpl in H. destruct (GenB.nodes st !! i); discriminate. }
  apply deref_Ok in Hn as (i' & [= <-] & Hi).
  destruct (proj2 Hast i n Hi) as (n0 & Hn0 & Ht & _).
  pose proof (tuple_kind _ _ Ht) as Ek.
  pose proof (tuple_l _ _ Ht) as El. pose proof (tuple_r _ _ Ht) as Er.
  destruct (negb (Node.reg n =? 0)); [discriminate |].
  destruct (Z.eqb_spec (Node.kind n) INT) as [Hki | Hki].
  { apply rbind_fuel in H as [H | (st1 & H1 & H)]; [exact (genB_alloc_fuel _ _ H) |].
    apply rbind_fuel in H as [H | (n1 & Hn1 & H)].
    { simpl in H. destruct (GenB.nodes st1 !! i); discriminate. }
    apply rbind_fuel in H as [H | ([st2 hi] & H2 & H)]; [| exact (genB_emit_fuel _ _ H)].
    destruct (negb _); [| discriminate].
    apply rbind_fuel in H as [H | (st2 & H2 & H)]; [exact (genB_emit_fuel _ _ H) |].
    discriminate. }
  destruct (Z.eqb_spec (Node.kind n) NAME) as [Hkn | Hkn].
  { apply rbind_fuel in H as [H | (st1 & H1 & H)]; [exact (genB_alloc_fuel _ _ H) |].
    apply rbind_fuel in H as [H | (n1 & Hn1 & H)]; [| exact (genB_emit_fuel _ _ H)].
    simpl in H. destruct (GenB.nodes st1 !! i); discriminate. }
  destruct ((Node.kind n =? PLUS) || (Node.kind n =? STAR)); [| discriminate].
  destruct (wf_ok _ _ Hwf i n0 Hn0)
    as [[Hk | Hk] _ _ _ | a b na nb Hk Hl Hr Ha Hb Hna Hnb _]; [congruence | congruence |].
  rewrite El, Hl, Er, Hr in H.
  apply rbind_fuel in H as [H | (s1 & H1 & H)].
  { apply (IH a st); [assumption | lia | assumption | exact H]. }
  apply rbind_fuel in H as [H | (s2 & H2 & H)].
  { apply (IH b s1); [assumption | lia | | exact H].
    apply (genB_codegen_ast root p _ _ _ _ H1 Hast). }
  apply rbind_fuel in H as [H | ([s3 rr] & H3 & H)]; [exact (genB_use_fuel _ _ H) |].
  apply rbind_fuel in H as [H | ([s4 rl] & H4 & H)]; [exact (genB_use_fuel _ _ H) |].
  apply rbind_fuel in H as [H | (s5 & H5 & H)]; [exact (genB_alloc_fuel _ _ H) |].
  apply rbind_fuel in H as [H | (n5 & Hn5 & H)]; [| exact (genB_emit_fuel _ _ H)].
  simpl in H. destruct (GenB.nodes s5 !! i); discriminate.
Qed.

(** *** The value generator B computes *)

Lemma lit_fix_tuple n :
  Node.kind (lit_fix n) = Node.kind n /\ Node.l (lit_fix n) = Node.l n /\
  Node.r (lit_fix n) = Node.r n /\
  Node.intValue (lit_fix n)
  = (if Node.kind n =? INT then lit_val (Node.intValue n) else Node.intValue n).
Proof. unfold lit_fix. destruct (Node.kind n =? INT); auto. Qed.

Lemma lit_fix_id n :
  (Node.kind n = INT -> Node.intValue n mod 4096 < 2048) -> lit_fix n = n.
Proof.
  intros H. unfold lit_fix. destruct (Z.eqb_spec (Node.kind n) INT) as [E | E]; [| reflexivity].
  unfold lit_val. rewrite (proj2 (Z.ltb_lt _ _) (H E)). now destruct n.
Qed.

Lemma lit_fix_pool (p : pool) :
  (forall j n, p !! j = Some n -> Node.kind n = INT -> Node.intValue n mod 4096 < 2048) ->
  lit_fix <$> p = p.
Proof.
  intros H. apply list_eq. intros j. rewrite list_lookup_fmap.
  destruct (p !! j) as [n |] eqn:E; [| reflexivity]. cbn [fmap option_fmap option_map].
  f_equal. apply lit_fix_id. eauto.
Qed.

Section EvalB.
Variable env : Z -> Z.
Variable p : pool.
Hypothesis Hwf : wf_pool RISCV p.

Lemma evalB_walk i : forall n,
  p !! i = Some n ->
  exists v, eval_walk (S i) env (lit_fix <$> p) (Ptr i) = Some v /\
    (Node.kind n = INT -> v = lit_val (Node.intValue n)) /\
    (Node.kind n = NAME -> v = env (Node.intValue n)) /\
    (Node.kind n = PLUS \/ Node.kind n = STAR ->
     forall a b, Node.l n = Ptr a -> Node.r n = Ptr b ->
       exists va vb,
         eval_walk (S a) env (lit_fix <$> p) (Ptr a) = Some va /\
         eval_walk (S b) env (lit_fix <$> p) (Ptr b) = Some vb /\
         (a < i)%nat /\ (b < i)%nat /\
         v = binop_val (Node.kind n) va vb).
Proof.
  induction (lt_wf i) as [i _ IH]. intros n Hi.
  assert (Hd : deref (lit_fix <$> p) (Ptr i) = Ok (lit_fix n)).
  { apply deref_ptr. rewrite list_lookup_fmap, Hi. reflexivity. }
  destruct (lit_fix_tuple n) as (Fk & Fl & Fr & Fv).
  cbn [eval_walk]. rewrite Hd, Fk, Fl, Fr, Fv.
  destruct (wf_ok _ _ Hwf i n Hi)
    as [[Hk | Hk] _ _ Hv | a b na nb [Hk | Hk] Hl Hr Ha Hb Hna Hnb _].
  - rewrite Hk. cbn [Z.eqb INT Pos.eqb]. eexists. split; [reflexivity |].
    repeat split; try (intros E; discriminate E); try reflexivity.
    intros [E | E]; discriminate E.
  - rewrite Hk. cbn [Z.eqb INT NAME Pos.eqb]. eexists. split; [reflexivity |].
    repeat split; try (intros E; discriminate E); try reflexivity.
    intros [E | E]; discriminate E.
  - destruct (IH a Ha na Hna) as (va & Hva & _).
    destruct (IH b Hb nb Hnb) as (vb & Hvb & _).
    rewrite Hk, Hl, Hr. cbn [Z.eqb INT NAME PLUS Pos.eqb].
    rewrite (eval_walk_mono env _ (S a) i _ _ ltac:(lia) Hva).
    rewrite (eval_walk_mono env _ (S b) i _ _ ltac:(lia) Hvb).
    eexists. split; [reflexivity |].
    repeat split; try (intros E; discriminate E).
    intros _ a' b' [= <-] [= <-]. exists va, vb. auto 6.
  - destruct (IH a Ha na Hna) as (va & Hva & _).
    destruct (IH b Hb nb Hnb) as (vb & Hvb & _).
    rewrite Hk, Hl, Hr. cbn [Z.eqb INT NAME PLUS STAR Pos.eqb].
    rewrite (eval_walk_mono env _ (S a) i _ _ ltac:(lia) Hva).
    rewrite (eval_walk_mono env _ (S b) i _ _ ltac:(lia) Hvb).
    eexists. split; [reflexivity |].
    repeat split; try (intros E; discriminate E).
    intros _ a' b' [= <-] [= <-]. exists va, vb. auto 6.
Qed.

Lemma evalB_at i n v :
  p !! i = Some n -> eval_walk (S i) env (lit_fix <$> p) (Ptr i) = Some v ->
  evalB env p (Ptr i) = Some v.
Proof.
  intros Hi Hv. unfold evalB, eval. apply (eval_walk_mono env _ (S i)); [| assumption].
  rewrite length_fmap. apply lookup_lt_Some in Hi. lia.
Qed.

Lemma valB_eval i n : p !! i = Some n -> evalB env p (Ptr i) = Some (valB env p i).
Proof.
  intros Hi. destruct (evalB_walk i n Hi) as (v & Hv & _).
  unfold valB. now rewrite (evalB_at i n v Hi Hv).
Qed.

Lemma valB_int j n :
  p !! j = Some n -> Node.kind n = INT -> valB env p j = lit_val (Node.intValue n).
Proof.
  intros Hj Hk. destruct (evalB_walk j n Hj) as (v & Hv & Hi & _).
  unfold valB. rewrite (evalB_at j n v Hj Hv). auto.
Qed.

Lemma valB_name j n :
  p !! j = Some n -> Node.kind n = NAME -> valB env p j = env (Node.intValue n).
Proof.
  intros Hj Hk. destruct (evalB_walk j n Hj) as (v & Hv & _ & Hn & _).
  unfold valB. rewrite (evalB_at j n v Hj Hv). auto.
Qed.

Lemma valB_op j n a b :
  p !! j = Some n -> Node.kind n = PLUS \/ Node.kind n = STAR ->
  Node.l n = Ptr a -> Node.r n = Ptr b ->
  valB env p j = binop_val (Node.kind n) (valB env p a) (valB env p b).
Proof.
  intros Hj Hk Hl Hr. destruct (evalB_walk j n Hj) as (v & Hv & _ & _ & Ho).
  destruct (Ho Hk a b Hl Hr) as (va & vb & Hva & Hvb & Ha & Hb & ->).
  assert (Hja := lookup_lt_Some _ _ _ Hj).
  destruct (lookup_lt_is_Some_2 p a ltac:(lia)) as [na Hna].
  destruct (lookup_lt_is_Some_2 p b ltac:(lia)) as [nb Hnb].
  unfold valB. rewrite (evalB_at j n _ Hj Hv).
  now rewrite (evalB_at a na va Hna Hva), (evalB_at b nb vb Hnb Hvb).
Qed.
End EvalB.

Lemma reg_poll_init_ok : Forall pool_reg GenB.reg_poll_init /\ NoDup GenB.reg_poll_init.
Proof.
  split.
  - unfold GenB.reg_poll_init, pool_reg, GenB.reg_a0. repeat constructor; lia.
  - apply (bool_decide_unpack _). vm_compute. reflexivity.
Qed.

(** The state [main] starts generator B in. *)
Lemma genB_inv_init env_addr val r p :
  fresh_pool p ->
  genB_inv env_addr val r p
    (GenB.Build (alter (Node.set_alloc GenB.reg_a0) r p) [] GenB.reg_poll_init 0)
    (fun i => if i =? 10 then env_addr else 0).
Proof.
  intros Hf.
  assert (Hold : forall j n', alter (Node.set_alloc GenB.reg_a0) r p !! j = Some n' ->
             exists n, p !! j = Some n /\ tuple_of n' = tuple_of n /\
               Node.reg n' = 0 /\
               Node.alloc n' = (if (j =? r)%nat then GenB.reg_a0 else 0)).
  { intros j n' Hj. destruct (decide (j = r)) as [-> | Hne].
    - rewrite list_lookup_alter_eq in Hj. destruct (p !! r) as [n |] eqn:E; [| discriminate].
      injection Hj as <-. exists n. rewrite Nat.eqb_refl.
      destruct (Hf r n E) as (_ & Hr & _). auto.
    - rewrite list_lookup_alter_ne in Hj by auto. exists n'.
      rewrite (proj2 (Nat.eqb_neq j r) Hne).
      destruct (Hf j n' Hj) as (Ha & Hr & _). auto. }
  constructor; cbn [GenB.nodes GenB.reg_poll GenB.next_free GenB.code].
  - reflexivity.
  - unfold GenB.NREGS. lia.
  - apply reg_poll_init_ok.
  - rewrite drop_0. apply reg_poll_init_ok.
  - reflexivity.
  - split; [apply length_alter |]. intros j n' Hj.
    destruct (Hold j n' Hj) as (n & Hn & Ht & _ & Ha). eauto.
  - intros n' Hn'. now destruct (Hold r n' Hn') as (n & _ & _ & Hr & _).
  - intros j n' Hj [Hl _]. destruct (Hold j n' Hj) as (n & _ & _ & Hr & _). contradiction.
  - intros j k nj nk Hj _ [Hl _]. destruct (Hold j nj Hj) as (n & _ & _ & Hr & _).
    contradiction.
Qed.

Lemma genB_compile_sound env env_addr p r :
  (forall c, in_int32 (env c)) -> wf_pool RISCV p -> names_ok p -> fresh_pool p ->
  GenB.compile p (Ptr r) <> OutOfFuel /\
  forall g, GenB.compile p (Ptr r) = Ok g ->
    RV.call env env_addr (GenB.code g) = Ok (valB env p r) /\
    evalB env p (Ptr r) = Some (valB env p r).
Proof.
  intros Henv Hwf Hnames Hfresh. unfold GenB.compile. cbn [deref].
  destruct (p !! r) as [n |] eqn:Hr; cbn [rbind]; [| split; [discriminate | discriminate]].
  pose proof (genB_inv_init env_addr (valB env p) r p Hfresh) as I.
  set (st0 := GenB.Build (alter (Node.set_alloc GenB.reg_a0) r p) [] GenB.reg_poll_init 0) in *.
  set (x0 := fun i : Z => if i =? 10 then env_addr else 0) in *.
  split.
  - intros H. apply rbind_fuel in H as [H | (st1 & _ & H)]; [| exact (genB_emit_fuel _ _ H)].
    apply (genB_codegen_fuel r p (length p) r st0 Hwf); [| | exact H].
    + apply (lookup_lt_Some _ _ _ Hr).
    + apply (gi_ast _ _ _ _ _ _ I).
  - intros g H. apply rbind_Ok in H as (st1 & H1 & H).
    destruct (genB_codegen_sound env env_addr p r (valB env p) Hwf Hnames Henv
                (valB_int env p Hwf) (valB_name env p Hwf) (valB_op env p Hwf)
                (length p) r st0 st1 x0 (le_n r) I H1) as (ws & x' & C & X & _ & V).
    destruct (genB_emit_inv _ _ _ H) as (_ & _ & _ & Cg).
    split; [| apply (valB_eval env p Hwf r n Hr)].
    rewrite Cg, C. cbn [GenB.code st0 app]. unfold RV.call. fold x0. rewrite X.
    cbn [RV.run]. change (u32 32898 =? 32898) with true. cbv iota.
    unfold RV.get. cbn [Z.eqb]. rewrite sext32_wrap.
    f_equal. apply (V eq_refl).
Qed.

(** X19: generator B on any well-formed pool, as the parser leaves it: the
    fuel is enough, and whenever [codegen] returns (no assertion fails, the
    code fits the buffer), the code, called as [main] calls it, returns the
    value of the AST with every literal [v] read as [lui] and [addi] load
    it, [v] or [v - 4096]; where no literal has bit 11 set this is the
    tree-walking value. *)
Theorem genB_compile_value (env : Z -> Z) (env_addr : Z) (p : pool) (r : nat) :
  (forall c, in_int32 (env c)) -> wf_pool RISCV p -> names_ok p -> fresh_pool p ->
  GenB.compile p (Ptr r) <> OutOfFuel /\
  forall g, GenB.compile p (Ptr r) = Ok g ->
    exists v, evalB env p (Ptr r) = Some v /\
      RV.call env env_addr (GenB.code g) = Ok v /\
      ((forall j n, p !! j = Some n -> Node.kind n = INT ->
                    Node.intValue n mod 4096 < 2048) ->
       eval env p (Ptr r) = Some v).
Proof.
  intros Henv Hwf Hnames Hfresh.
  destruct (genB_compile_sound env env_addr p r Henv Hwf Hnames Hfresh) as [Hfuel Hval].
  split; [exact Hfuel |]. intros g Hg. destruct (Hval g Hg) as [Hcall Hev].
  exists (valB env p r). split; [exact Hev |]. split; [exact Hcall |].
  intros Hlit. rewrite <- Hev. unfold evalB. now rewrite (lit_fix_pool p Hlit).
Qed.

(** Generator B does not compile an indeterminate pointer. *)
Lemma genB_compile_ptr p t g : GenB.compile p t = Ok g -> exists r, t = Ptr r.
Proof. unfold GenB.compile. destruct t; try discriminate. eauto. Qed.

(** X20: the RISC-V program, end to end: whenever [main] prints a value for
    a text, the text was parsed to its end, the count printed is the number
    of words emitted, [c.ret] included, and the value printed, computed by
    the machine code, is the value of the AST that was printed, with every
    literal read as [lui] and [addi] load it. *)
Theorem main_riscv_value (l2r : bool) (env : Z -> Z) (env_addr cse_addr : Z)
    (src text : string) (count value : Z) :
  (forall c, in_int32 (env c)) ->
  main RISCV l2r env env_addr cse_addr src = Ok (Done text count value) ->
  exists lx p t g,
    parse RISCV l2r src = Ok ((lx, p), t) /\ Lex.lookahead lx = END_OF_FILE /\
    wf_pool RISCV p /\ unparse (length p) p t = Ok text /\
    GenB.compile p t = Ok g /\ count = Z.of_nat (length (GenB.code g)) /\
    evalB env p t = Some value.
Proof.
  intros Henv H. unfold main in H.
  apply rbind_Ok in H as ([[lx p] t] & Hp & H).
  destruct (Z.eqb_spec (Lex.lookahead lx) 0) as [Hla | Hla]; simpl in H; [| discriminate].
  apply rbind_Ok in H as (text' & Ht & H).
  apply rbind_Ok in H as (g & Hg & H).
  apply rbind_Ok in H as (v & Hv & [= <- <- <-]).
  destruct (parse_facts RISCV l2r src lx p t Hp) as (Hwf & Hn & Hf & _).
  destruct (genB_compile_ptr _ _ _ Hg) as (r & ->).
  destruct (proj2 (genB_compile_sound env env_addr p r Henv Hwf Hn Hf) g Hg) as [Hcall Hev].
  exists lx, p, (Ptr r), g. split; [assumption |]. split; [assumption |].
  split; [assumption |]. split; [assumption |]. split; [assumption |].
  split; [reflexivity |]. congruence.
Qed.

Lemma demo_pool_names : names_ok (demo_pool RISCV).
Proof.
  intros i n Hi Hk.
  destruct i as [| [| [| [| [| i]]]]]; cbn in Hi; try discriminate;
    injection Hi as <-; vm_compute in Hk; try discriminate Hk;
    unfold new_node; cbn [Node.intValue]; lia.
Qed.

Lemma demo_pool_fresh : fresh_pool (demo_pool RISCV).
Proof.
  intros i n Hi.
  destruct i as [| [| [| [| [| i]]]]]; cbn in Hi; try discriminate;
    injection Hi as <-; cbn; auto.
Qed.

Lemma genB_compile_value_witness :
  exists g,
    GenB.compile (demo_pool RISCV) (Ptr 4%nat) = Ok g /\
    RV.call default_env env_at (GenB.code g) = Ok 14 /\
    eval default_env (demo_pool RISCV) (Ptr 4%nat) = Some 14.
Proof.
  destruct (GenB.compile (demo_pool RISCV) (Ptr 4%nat)) as [g | | |] eqn:Hg;
    try (exfalso; vm_compute in Hg; discriminate Hg).
  destruct (proj2 (genB_compile_value default_env env_at (demo_pool RISCV) 4
                     default_env_int (demo_pool_wf RISCV) demo_pool_names demo_pool_fresh)
              g Hg) as (v & Hev & Hcall & Hlit).
  assert (E : v = 14).
  { vm_compute in Hev. now injection Hev as <-. }
  subst v. exists g. split; [reflexivity |]. split; [exact Hcall |].
  apply Hlit. intros j n Hj Hk.
  destruct j as [| [| [| [| [| j]]]]]; cbn in Hj; try discriminate;
    injection Hj as <-; vm_compute in Hk; try discriminate Hk;
    vm_compute; reflexivity.
Defined.

Lemma main_riscv_value_witness :
  exists lx p t g,
    parse RISCV true "(x+1)*(x+1)" = Ok ((lx, p), t) /\
    unparse (length p) p t = Ok "(!(!x+1)*(!x+1))"%string /\
    GenB.compile p t = Ok g /\ 5 = Z.of_nat (length (GenB.code g)) /\
    evalB default_env p t = Some 9.
Proof.
  destruct (main_riscv_value true default_env env_at cse_at "(x+1)*(x+1)"
              "(!(!x+1)*(!x+1))" 5 9 default_env_int)
    as (lx & p & t & g & Hp & _ & _ & Hu & Hg & Hc & Hv).
  - vm_compute. reflexivity.
  - exists lx, p, t, g. auto 6.
Defined.

(** * Registers, shared nodes and the budget of [mk] *)

(** ** The register pool runs dry on a narrow expression *)

(** C8 (the code departs from the claim): the sum of fourteen names needs
    two temporaries, and generator B compiles it with [t0], [t1] and [a0]
    only, giving every register back.  On the square of that sum the RISC-V
    program stops at the [assert] of [alloc]; the x86 program compiles and
    runs it.  At the failing call, [alloc] for the sum itself, [next_free]
    is 26: each of the 26 registers is still the [reg] of one of the nodes
    0..25, all of which have one edge in the AST and have been used by it,
    and whose share count is 1, not 0, because the count was also raised
    when the second copy of the sum found the node again.  The same leak on
    a small input: after [(x+1)*(x+1)] two registers are still taken. *)
Theorem regpool_exhausted (l2r : bool) :
  (exists p t g,
     ast_of RISCV l2r sum14 = Ok (p, t) /\ GenB.compile p t = Ok g /\
     GenB.next_free g = 0%nat /\
     Forall (fun n => Node.reg n = 5 \/ Node.reg n = 6 \/ Node.reg n = GenB.reg_a0)
            (GenB.nodes g)) /\
  main RISCV l2r default_env env_at cse_at square14 = AssertFail /\
  (exists text,
     main X86 l2r default_env env_at cse_at square14 = Ok (Done text 57 0)) /\
  (exists st,
     before_alloc14 l2r = Ok st /\
     GenB.next_free st = GenB.NREGS /\
     GenB.alloc 26 st = AssertFail /\
     map (fun n => (Node.shared n, Node.reg n)) (take 26 (GenB.nodes st)) =
       map (fun x => (1, x)) GenB.reg_poll_init /\
     map (edges_into (GenB.nodes st) (Ptr 27)) (seq 0 26) = repeat 1%nat 26) /\
  (exists p t g,
     ast_of RISCV l2r "(x+1)*(x+1)" = Ok (p, t) /\ GenB.compile p t = Ok g /\
     GenB.next_free g = 2%nat).
Proof.
  split; [|split; [|split; [|split]]].
  - destruct l2r; eexists; eexists; eexists;
      (split; [vm_compute; reflexivity|]);
      (split; [vm_compute; reflexivity|]);
      (split; [vm_compute; reflexivity|]);
      vm_compute;
      repeat (constructor; [auto|]); constructor.
  - destruct l2r; vm_compute; reflexivity.
  - destruct l2r; eexists; vm_compute; reflexivity.
  - destruct l2r; eexists;
      (split; [vm_compute; reflexivity|]);
      (split; [vm_compute; reflexivity|]);
      (split; [vm_compute; reflexivity|]);
      (split; vm_compute; reflexivity).
  - destruct l2r; eexists; eexists; eexists;
      (split; [vm_compute; reflexivity|]);
      (split; vm_compute; reflexivity).
Qed.

(** ** Counting the paths of the AST *)







Section Paths.
Variable tgt : target.
Variable p : pool.
Hypothesis Hwf : wf_pool tgt p.
Variable y : nat.




End Paths.









(** ** The x86 [mk] marks every node it hands out a second time *)





Section MkPaths.
Variable l2r : bool.

Local Abbreviation M := (mk X86 l2r).






End MkPaths.

(** ** The parser holds no unmarked operator node twice *)

Section ParserPaths.
Variable l2r : bool.
Variable src : string.

Local Abbreviation inv := (parse_inv X86 src).
Local Abbreviation ok := (parser_ok X86 src).
Local Abbreviation apart := (parser_paths src).




End ParserPaths.


(** ** Edges and paths *)










(** ** Generator A computes no operator node twice *)

Section ComputedOnce.
Variable env_addr cse_addr : Z.
Variable p0 : pool.
Hypothesis Hwf : wf_pool X86 p0.

Local Abbreviation cg := (GenA.codegen env_addr cse_addr).
Local Abbreviation cp := (computedA env_addr cse_addr).



End ComputedOnce.

(** ** Compiling a node once, however many edges lead to it *)


(** The list on [(x+1)*(x+1)]: the product and the sum, once each.  With
    the mark of [x+1] cleared by hand the sum is computed for both operands,
    and the list holds it twice. *)
Lemma computedA_sample :
  computedA env_at cse_at 4 (Ptr 3%nat) (GenA.Build demo_sq [0x53] 0 0) = [3; 2]%nat /\
  computedA env_at cse_at 4 (Ptr 3%nat)
    (GenA.Build (alter (Node.set_shared (fun _ => 0)) 2%nat demo_sq) [0x53] 0 0)
  = [3; 2; 2]%nat.
Proof. split; vm_compute; reflexivity. Qed.



(** ** [mk] never uses up the budget the parser gives it *)

Lemma zero_env_int (c : Z) : in_int32 ((fun _ : Z => 0) c).
Proof. unfold in_int32. lia. Qed.

Section MkFuel.
Variable tgt : target.
Variable l2r : bool.

Local Abbreviation M := (mk tgt l2r).

(** What is known of a call that returned. *)
Lemma mk_ok_binop F kind a b k p na nb p1 t1 :
  kind = PLUS \/ kind = STAR -> wf_pool tgt p ->
  p !! a = Some na -> p !! b = Some nb ->
  M F kind (Ptr a) (Ptr b) k p = Ok (p1, t1) ->
  wf_pool tgt p1 /\ ext p p1 /\ exists j nj, t1 = Ptr j /\ p1 !! j = Some nj.
Proof.
  intros Hkind Hwf Ha Hb H.
  destruct (eval_total tgt _ zero_env_int p Hwf (Ptr a)) as (va & Hva & _);
    [exists a, na; auto |].
  destruct (eval_total tgt _ zero_env_int p Hwf (Ptr b)) as (vb & Hvb & _);
    [exists b, nb; auto |].
  destruct (mk_binop_sound tgt l2r _ zero_env_int F kind a b k p na nb va vb p1 t1
              Hkind Hwf Ha Hb Hva Hvb H) as (Hwf1 & Hext1 & Hv1 & _).
  auto.
Qed.

Lemma mk_ok_int F v p p1 t1 :
  wf_pool tgt p -> in_int32 v -> M F INT NULL NULL v p = Ok (p1, t1) ->
  wf_pool tgt p1 /\ ext p p1 /\
  exists j nj, t1 = Ptr j /\ p1 !! j = Some nj /\ Node.kind nj = INT.
Proof.
  intros Hwf Hv H.
  destruct (mk_leaf_sound tgt l2r F INT v p p1 t1 Hwf (or_introl eq_refl) Hv H)
    as (Hwf1 & Hext1 & j & nj & -> & Hj & Hk & _).
  split; [assumption |]. split; [assumption |]. exists j, nj. auto.
Qed.

Lemma binop_val_int32 kind x y : in_int32 (binop_val kind x y).
Proof. unfold binop_val. destruct (kind =? PLUS); apply wrap32_range. Qed.

Lemma mk_ok_fold F kind a b k p na nb p1 t1 :
  wf_pool tgt p -> kind = PLUS \/ kind = STAR ->
  p !! a = Some na -> p !! b = Some nb ->
  Node.kind na = INT -> Node.kind nb = INT -> (2 <= F)%nat ->
  M F kind (Ptr a) (Ptr b) k p = Ok (p1, t1) ->
  wf_pool tgt p1 /\ ext p p1 /\
  exists j nj, t1 = Ptr j /\ p1 !! j = Some nj /\ Node.kind nj = INT.
Proof.
  intros Hwf Hkind Ha Hb Hka Hkb HF H.
  destruct F as [| [| F]]; try lia.
  rewrite (mk_fold_eq tgt l2r F kind a b k p na nb Hwf Hkind Ha Hb Hka Hkb) in H.
  apply (mk_ok_int _ _ _ _ _ Hwf (binop_val_int32 _ _ _) H).
Qed.

(** The calls that make no further call. *)
Lemma leaf_fuel F kind v p :
  (1 <= F)%nat -> is_binop kind = false -> M F kind NULL NULL v p <> OutOfFuel.
Proof.
  intros HF Hk. destruct F as [| F]; [lia |].
  rewrite mk_leaf_unfold by assumption.
  destruct (find_node p kind NULL NULL v); [discriminate |].
  unfold append. destruct (_ <? _); discriminate.
Qed.

Lemma fold_fuel F kind a b k p na nb :
  wf_pool tgt p -> kind = PLUS \/ kind = STAR ->
  p !! a = Some na -> p !! b = Some nb ->
  Node.kind na = INT -> Node.kind nb = INT -> (2 <= F)%nat ->
  M F kind (Ptr a) (Ptr b) k p <> OutOfFuel.
Proof.
  intros Hwf Hkind Ha Hb Hka Hkb HF.
  destruct F as [| [| F]]; try lia.
  rewrite (mk_fold_eq tgt l2r F kind a b k p na nb Hwf Hkind Ha Hb Hka Hkb).
  apply leaf_fuel; [lia | reflexivity].
Qed.

Lemma plain_fuel F kind a b k p na nb :
  wf_pool tgt p -> kind = PLUS \/ kind = STAR ->
  p !! a = Some na -> p !! b = Some nb ->
  no_rule p kind a b na nb -> (1 <= F)%nat ->
  M F kind (Ptr a) (Ptr b) k p <> OutOfFuel.
Proof.
  intros Hwf Hkind Ha Hb Hno HF. destruct F as [| F]; [lia |].
  pose proof Hno as (Hna & Hz & HP & HS).
  rewrite (mk_unfold tgt l2r F kind a b k p na nb)
    by (destruct Hkind as [-> | ->]; auto).
  destruct (find_node p kind (Ptr a) (Ptr b) k) as [i |]; [discriminate |].
  assert (Happ : rewrite_rules tgt l2r (M F) kind (Ptr a) (Ptr b) k p na nb
                 = append tgt kind (Ptr a) (Ptr b) k p).
  { destruct Hkind as [-> | ->].
    - destruct (HP eq_refl) as [Hab Hc].
      apply rule_none_plus; auto.
      + simpl. apply Nat.eqb_neq. auto.
      + intros Hk. apply (lr_is_int_false tgt p a na PLUS); auto.
    - destruct (HS eq_refl) as (Ho & Hc & Hd).
      apply rule_none_star; auto.
      + intros Hk. apply (lr_is_int_false tgt p a na STAR); auto.
      + intros Hkb Hk. apply (lr_is_int_false tgt p a na PLUS); auto. }
  rewrite Happ. unfold append. destruct (_ <? _); discriminate.
Qed.

(** *** Sums with a literal *)

Lemma plus_simple_fuel F a b k p na nb :
  wf_pool tgt p -> p !! a = Some na -> p !! b = Some nb ->
  Node.kind na <> INT -> ~ const_right p PLUS na -> a <> b -> (1 <= F)%nat ->
  M F PLUS (Ptr a) (Ptr b) k p <> OutOfFuel.
Proof.
  intros Hwf Ha Hb Hka Hc Hab HF.
  destruct (Z.eq_dec (Node.kind nb) INT) as [Ekb | Ekb];
    [destruct (Z.eq_dec (Node.intValue nb) 0) as [Ez | Ez] |].
  - destruct F as [| F]; [lia |].
    rewrite (mk_unfold tgt l2r F PLUS a b k p na nb) by auto.
    destruct (find_node p PLUS (Ptr a) (Ptr b) k); [discriminate |].
    rewrite rule_plus_zero by assumption. discriminate.
  - apply (plain_fuel F PLUS a b k p na nb); auto.
    split; [assumption |]. split; [tauto |].
    split; [intros _; auto | intros E; discriminate E].
  - apply (plain_fuel F PLUS a b k p na nb); auto.
    split; [assumption |]. split; [tauto |].
    split; [intros _; auto | intros E; discriminate E].
Qed.

Lemma plus_lit_fuel F a b k p na nb :
  wf_pool tgt p -> p !! a = Some na -> p !! b = Some nb ->
  Node.kind na <> INT -> Node.kind nb = INT -> (3 <= F)%nat ->
  M F PLUS (Ptr a) (Ptr b) k p <> OutOfFuel.
Proof.
  intros Hwf Ha Hb Hka Hkb HF.
  assert (Hab : a <> b) by (intros ->; congruence).
  destruct (const_right_dec p PLUS na) as [Hc | Hc];
    [| apply (plus_simple_fuel F a b k p na nb); auto; lia].
  destruct F as [| [| [| F]]]; try lia.
  rewrite (mk_unfold tgt l2r _ PLUS a b k p na nb) by auto.
  destruct (find_node p PLUS (Ptr a) (Ptr b) k); [discriminate |].
  destruct (Z.eq_dec (Node.intValue nb) 0) as [Ez | Ez].
  { rewrite rule_plus_zero by assumption. discriminate. }
  destruct Hc as [Hkp Hcr]. pose proof (conj Hkp Hcr) as Hc.
  destruct (wf_children tgt p a na Hwf Ha (or_introl Hkp))
    as (y & c & ny & nc & Hl & Hr & Hy & Hcl & Hny & Hnc & Hno).
  pose proof (const_right_kind p PLUS na c nc Hc Hr Hnc) as Hkc.
  rewrite rule_assoc_plus;
    [| assumption | eapply lr_is_int_true; eauto | tauto
     | simpl; apply Nat.eqb_neq; auto].
  rewrite Hl, Hr. intros H.
  apply rbind_fuel in H as [H | ([p1 t] & H1 & H)].
  { revert H. apply (fold_fuel _ PLUS b c 0 p nb nc); auto. lia. }
  destruct (mk_ok_fold (S (S F)) PLUS b c 0 p nb nc p1 t Hwf (or_introl eq_refl) Hb Hnc Hkb Hkc
              ltac:(lia) H1) as (Hwf1 & Hext1 & j & nj & -> & Hj & Hkj).
  destruct (ext_lookup p p1 a na Hext1 Ha) as (na1 & Ha1 & Ek1 & El1 & Er1 & _).
  destruct (wf_children tgt p1 a na1 Hwf1 Ha1 ltac:(rewrite Ek1; auto))
    as (y' & c' & ny1 & nc1 & Hl1 & Hr1 & _ & _ & Hny1 & Hnc1 & Hno1).
  rewrite El1, Hl in Hl1. injection Hl1 as <-.
  rewrite Ek1, Hkp in Hno1. destruct Hno1 as (Hky1 & _ & HP1 & _).
  destruct (HP1 eq_refl) as [_ Hcy1].
  revert H. apply (plus_simple_fuel _ y j 0 p1 ny1 nj); auto; [| lia].
  intros ->. congruence.
Qed.

Lemma plus_K_fuel F a b k p na nb :
  wf_pool tgt p -> p !! a = Some na -> p !! b = Some nb ->
  Node.kind na = INT \/ Node.kind nb = INT -> (3 <= F)%nat ->
  M F PLUS (Ptr a) (Ptr b) k p <> OutOfFuel.
Proof.
  intros Hwf Ha Hb Hk HF.
  destruct (Z.eq_dec (Node.kind na) INT) as [Eka | Eka];
    destruct (Z.eq_dec (Node.kind nb) INT) as [Ekb | Ekb]; try tauto.
  - apply (fold_fuel F PLUS a b k p na nb); auto. lia.
  - destruct F as [| F]; [lia |].
    rewrite (mk_swap tgt l2r F PLUS a b k p na nb) by auto.
    apply (plus_lit_fuel (S F) b a k p nb na); auto.
  - apply (plus_lit_fuel F a b k p na nb); auto.
Qed.
(** *** [x * k] with a literal [k], by the shape of [x] as in
    [mk_mul_lit_r] *)

Lemma mul_lit_r_fuel n : forall F a b k p na nb,
  wf_pool tgt p -> p !! a = Some na -> p !! b = Some nb ->
  Node.kind na <> INT -> Node.kind nb = INT ->
  (n = 0%nat -> ~ const_right p STAR na /\ ~ const_right p PLUS na) ->
  (n = 1%nat -> ~ const_right p PLUS na) ->
  (n + 4 <= F)%nat ->
  M F STAR (Ptr a) (Ptr b) k p <> OutOfFuel.
Proof.
  induction n as [n IH] using lt_wf_ind.
  intros F a b k p na nb Hwf Ha Hb Hka Hkb Hr0 Hr1 HF.
  assert (Hab : a <> b) by (intros ->; congruence).
  destruct F as [| [| [| F]]]; try lia.
  destruct (Z.eq_dec (Node.intValue nb) 0) as [Ez | Ez].
  { rewrite (mk_unfold tgt l2r _ STAR a b k p na nb) by auto.
    destruct (find_node p STAR (Ptr a) (Ptr b) k); [discriminate |].
    rewrite rule_star_zero by assumption.
    apply leaf_fuel; [lia | reflexivity]. }
  destruct (Z.eq_dec (Node.intValue nb) 1) as [Eo | Eo].
  { rewrite (mk_unfold tgt l2r _ STAR a b k p na nb) by auto.
    destruct (find_node p STAR (Ptr a) (Ptr b) k); [discriminate |].
    rewrite rule_star_one by assumption. discriminate. }
  destruct (const_right_dec p STAR na) as [Hc | Hcs].
  { (* (y * k1) * k *)
    rewrite (mk_unfold tgt l2r _ STAR a b k p na nb) by auto.
    destruct (find_node p STAR (Ptr a) (Ptr b) k); [discriminate |].
    pose proof Hc as [Hks _].
    destruct (wf_children tgt p a na Hwf Ha (or_intror Hks))
      as (y & c & ny & nc & Hl & Hr & Hy & Hcl & Hny & Hnc & Hno).
    pose proof (const_right_kind p STAR na c nc Hc Hr Hnc) as Hkc.
    rewrite rule_assoc_star;
      [| assumption | eapply lr_is_int_true; eauto | tauto | tauto].
    rewrite Hl, Hr. intros H.
    apply rbind_fuel in H as [H | ([p1 t] & H1 & H)].
    { revert H. apply (fold_fuel (S (S F)) STAR b c 0 p nb nc); auto. lia. }
    destruct (mk_ok_fold (S (S F)) STAR b c 0 p nb nc p1 t Hwf (or_intror eq_refl)
                Hb Hnc Hkb Hkc ltac:(lia) H1) as (Hwf1 & Hext1 & j & nj & -> & Hj & Hkj).
    assert (Hn0 : n <> 0%nat) by (intros E; destruct (Hr0 E); tauto).
    destruct (Hext1 y ny Hny) as (ny1 & Hny1 & Ety).
    pose proof (proj1 Hno) as Hky.
    destruct Hno as (_ & _ & _ & HS). destruct (HS Hks) as (_ & Hys & Hyp).
    revert H.
    apply (IH 0%nat ltac:(lia) (S (S F)) y j 0 p1 ny1 nj); auto.
    - rewrite (tuple_kind _ _ Ety). exact Hky.
    - intros _. split; intros Hc1.
      + apply Hys. apply (const_right_ext_inv tgt p p1 Hwf Hext1 STAR y ny ny1 Hny Ety Hc1).
      + apply Hyp. split; [assumption |].
        apply (const_right_ext_inv tgt p p1 Hwf Hext1 PLUS y ny ny1 Hny Ety Hc1).
    - intros E. discriminate E.
    - lia. }
  destruct (const_right_dec p PLUS na) as [Hc | Hcp].
  { (* (y + k2) * k *)
    rewrite (mk_unfold tgt l2r _ STAR a b k p na nb) by auto.
    destruct (find_node p STAR (Ptr a) (Ptr b) k); [discriminate |].
    pose proof Hc as [Hkp _].
    destruct (wf_children tgt p a na Hwf Ha (or_introl Hkp))
      as (y & c & ny & nc & Hl & Hr & Hy & Hcl & Hny & Hnc & Hno).
    pose proof (const_right_kind p PLUS na c nc Hc Hr Hnc) as Hkc.
    rewrite rule_distr; [| assumption | eapply lr_is_int_true; eauto | assumption ..].
    rewrite Hl, Hr.
    assert (Hn2 : (2 <= n)%nat).
    { destruct n as [| [| n']];
        [destruct (Hr0 eq_refl); tauto | elim (Hr1 eq_refl); exact Hc | lia]. }
    pose proof (proj1 Hno) as Hky.
    assert (Hyp : ~ const_right p PLUS ny).
    { destruct Hno as (_ & _ & HP & _). destruct (HP Hkp) as [_ Hyp]. exact Hyp. }
    apply (if_bool_case (fun res => res <> OutOfFuel)); intros _ H.
    - (* the product with [y] first *)
      apply rbind_fuel in H as [H | ([p1 tA] & H1 & H)].
      { revert H. apply (IH 1%nat ltac:(lia) (S (S F)) y b 0 p ny nb); auto.
        - intros E. discriminate E.
        - lia. }
      destruct (mk_ok_binop (S (S F)) STAR y b 0 p ny nb p1 tA (or_intror eq_refl) Hwf
                  Hny Hb H1) as (Hwf1 & Hext1 & ia & nA & -> & HnA).
      destruct (ext_lookup p p1 c nc Hext1 Hnc) as (nc1 & Hnc1 & Ekc1 & _).
      destruct (ext_lookup p p1 b nb Hext1 Hb) as (nb1 & Hnb1 & Ekb1 & _).
      apply rbind_fuel in H as [H | ([p2 tB] & H2 & H)].
      { revert H. apply (fold_fuel (S (S F)) STAR c b 0 p1 nc1 nb1); auto;
          [congruence | congruence | lia]. }
      destruct (mk_ok_fold (S (S F)) STAR c b 0 p1 nc1 nb1 p2 tB Hwf1 (or_intror eq_refl)
                  Hnc1 Hnb1 ltac:(congruence) ltac:(congruence) ltac:(lia) H2)
        as (Hwf2 & Hext2 & j & nj & -> & Hj & Hkj).
      destruct (ext_lookup p1 p2 ia nA Hext2 HnA) as (nA2 & HnA2 & _).
      revert H. apply (plus_K_fuel (S (S F)) ia j 0 p2 nA2 nj); auto. lia.
    - (* the product of the literals first *)
      apply rbind_fuel in H as [H | ([p1 tB] & H1 & H)].
      { revert H. apply (fold_fuel (S (S F)) STAR c b 0 p nc nb); auto. lia. }
      destruct (mk_ok_fold (S (S F)) STAR c b 0 p nc nb p1 tB Hwf (or_intror eq_refl)
                  Hnc Hb Hkc Hkb ltac:(lia) H1)
        as (Hwf1 & Hext1 & j & nj & -> & Hj & Hkj).
      destruct (Hext1 y ny Hny) as (ny1 & Hny1 & Ety).
      destruct (ext_lookup p p1 b nb Hext1 Hb) as (nb1 & Hnb1 & Ekb1 & _).
      assert (Hyp1 : ~ const_right p1 PLUS ny1).
      { intros Hc1. apply Hyp.
        apply (const_right_ext_inv tgt p p1 Hwf Hext1 PLUS y ny ny1 Hny Ety Hc1). }
      apply rbind_fuel in H as [H | ([p2 tA] & H2 & H)].
      { revert H. apply (IH 1%nat ltac:(lia) (S (S F)) y b 0 p1 ny1 nb1); auto.
        - rewrite (tuple_kind _ _ Ety). exact Hky.
        - congruence.
        - intros E. discriminate E.
        - lia. }
      destruct (mk_ok_binop (S (S F)) STAR y b 0 p1 ny1 nb1 p2 tA (or_intror eq_refl) Hwf1
                  Hny1 Hnb1 H2) as (Hwf2 & Hext2 & ia & nA & -> & HnA).
      destruct (ext_lookup p1 p2 j nj Hext2 Hj) as (nj2 & Hj2 & Ekj2 & _).
      revert H. apply (plus_K_fuel (S (S F)) ia j 0 p2 nA nj2); auto; [| lia].
      right. congruence. }
  (* no rewrite applies *)
  apply (plain_fuel _ STAR a b k p na nb); auto; [| lia].
  split; [assumption |]. split; [tauto |].
  split; [intros E; discriminate E | intros _; tauto].
Qed.

Lemma mul_lit_fuel F a b k p na nb :
  wf_pool tgt p -> p !! a = Some na -> p !! b = Some nb ->
  Node.kind na <> INT -> Node.kind nb = INT -> (a + 4 <= F)%nat ->
  M F STAR (Ptr a) (Ptr b) k p <> OutOfFuel.
Proof.
  intros Hwf Ha Hb Hka Hkb HF.
  destruct (const_right_dec p PLUS na) as [Hcp | Hcp].
  { pose proof (const_right_index tgt p PLUS a na Hwf Ha (or_introl eq_refl) Hcp).
    apply (mul_lit_r_fuel 2 F a b k p na nb); auto; lia. }
  destruct (const_right_dec p STAR na) as [Hcs | Hcs].
  { pose proof (const_right_index tgt p STAR a na Hwf Ha (or_intror eq_refl) Hcs).
    apply (mul_lit_r_fuel 1 F a b k p na nb); auto; lia. }
  apply (mul_lit_r_fuel 0 F a b k p na nb); auto; lia.
Qed.

(** *** The general calls *)

Lemma mul_K_fuel F a b k p na nb :
  wf_pool tgt p -> p !! a = Some na -> p !! b = Some nb ->
  Node.kind na = INT \/ Node.kind nb = INT -> (length p + 4 <= F)%nat ->
  M F STAR (Ptr a) (Ptr b) k p <> OutOfFuel.
Proof.
  intros Hwf Ha Hb Hk HF.
  assert (Hla : (a < length p)%nat) by (eapply lookup_lt_Some; eauto).
  assert (Hlb : (b < length p)%nat) by (eapply lookup_lt_Some; eauto).
  destruct (Z.eq_dec (Node.kind na) INT) as [Eka | Eka];
    destruct (Z.eq_dec (Node.kind nb) INT) as [Ekb | Ekb]; try tauto.
  - apply (fold_fuel F STAR a b k p na nb); auto. lia.
  - destruct F as [| F]; [lia |].
    rewrite (mk_swap tgt l2r F STAR a b k p na nb) by auto.
    apply (mul_lit_fuel (S F) b a k p nb na); auto; lia.
  - apply (mul_lit_fuel F a b k p na nb); auto; lia.
Qed.

Lemma double_fuel F a k p na :
  wf_pool tgt p -> p !! a = Some na -> Node.kind na <> INT -> (a + 5 <= F)%nat ->
  M F PLUS (Ptr a) (Ptr a) k p <> OutOfFuel.
Proof.
  intros Hwf Ha Hka HF.
  destruct F as [| [| F]]; try lia.
  rewrite (mk_unfold tgt l2r _ PLUS a a k p na na) by auto.
  destruct (find_node p PLUS (Ptr a) (Ptr a) k); [discriminate |].
  rewrite rule_double; [| assumption | assumption | simpl; apply Nat.eqb_refl].
  intros H. apply rbind_fuel in H as [H | ([p1 t] & H1 & H)].
  { revert H. apply leaf_fuel; [lia | reflexivity]. }
  destruct (mk_ok_int (S F) 2 p p1 t Hwf ltac:(unfold in_int32; lia) H1)
    as (Hwf1 & Hext1 & j & nj & -> & Hj & Hkj).
  destruct (ext_lookup p p1 a na Hext1 Ha) as (na1 & Ha1 & Eka1 & _).
  rewrite (mk_swap tgt l2r F STAR j a 0 p1 nj na1) in H by (auto; congruence).
  revert H. apply (mul_lit_fuel (S F) a j 0 p1 na1 nj); auto; [congruence | lia].
Qed.

Lemma plus_outer_fuel F a b k p na nb :
  wf_pool tgt p -> p !! a = Some na -> p !! b = Some nb ->
  Node.kind na <> INT -> ~ const_right p PLUS na -> (a + 5 <= F)%nat ->
  M F PLUS (Ptr a) (Ptr b) k p <> OutOfFuel.
Proof.
  intros Hwf Ha Hb Hka Hc HF.
  destruct (decide (a = b)) as [<- | Hab].
  - apply (double_fuel F a k p na); auto.
  - apply (plus_simple_fuel F a b k p na nb); auto; lia.
Qed.

Lemma plus_fuel F a b k p na nb :
  wf_pool tgt p -> p !! a = Some na -> p !! b = Some nb -> (length p + 5 <= F)%nat ->
  M F PLUS (Ptr a) (Ptr b) k p <> OutOfFuel.
Proof.
  intros Hwf Ha Hb HF.
  assert (Hla : (a < length p)%nat) by (eapply lookup_lt_Some; eauto).
  assert (Hlb : (b < length p)%nat) by (eapply lookup_lt_Some; eauto).
  destruct (Z.eq_dec (Node.kind na) INT) as [Eka | Eka];
    [apply (plus_K_fuel F a b k p na nb); auto; lia |].
  destruct (Z.eq_dec (Node.kind nb) INT) as [Ekb | Ekb];
    [apply (plus_K_fuel F a b k p na nb); auto; lia |].
  destruct (const_right_dec p PLUS na) as [Hc | Hc];
    [| apply (plus_outer_fuel F a b k p na nb); auto; lia].
  destruct (decide (a = b)) as [<- | Hab];
    [apply (double_fuel F a k p na); auto; lia |].
  destruct F as [| F]; [lia |].
  rewrite (mk_unfold tgt l2r _ PLUS a b k p na nb) by auto.
  destruct (find_node p PLUS (Ptr a) (Ptr b) k); [discriminate |].
  pose proof Hc as [Hkp _].
  destruct (wf_children tgt p a na Hwf Ha (or_introl Hkp))
    as (y & c & ny & nc & Hl & Hr & Hy & Hcl & Hny & Hnc & Hno).
  pose proof (const_right_kind p PLUS na c nc Hc Hr Hnc) as Hkc.
  rewrite rule_assoc_plus;
    [| assumption | eapply lr_is_int_true; eauto | tauto
     | simpl; apply Nat.eqb_neq; auto].
  rewrite Hl, Hr. intros H.
  apply rbind_fuel in H as [H | ([p1 t] & H1 & H)].
  { revert H. apply (plus_K_fuel F b c 0 p nb nc); auto. lia. }
  destruct (mk_ok_binop F PLUS b c 0 p nb nc p1 t (or_introl eq_refl) Hwf Hb Hnc H1)
    as (Hwf1 & Hext1 & j & nj & -> & Hj).
  destruct (ext_lookup p p1 a na Hext1 Ha) as (na1 & Ha1 & Ek1 & El1 & Er1 & _).
  destruct (wf_children tgt p1 a na1 Hwf1 Ha1 ltac:(rewrite Ek1; auto))
    as (y' & c' & ny1 & nc1 & Hl1 & Hr1 & _ & _ & Hny1 & Hnc1 & Hno1).
  rewrite El1, Hl in Hl1. injection Hl1 as <-.
  rewrite Ek1, Hkp in Hno1. destruct Hno1 as (Hky1 & _ & HP1 & _).
  destruct (HP1 eq_refl) as [_ Hcy1].
  revert H. apply (plus_outer_fuel F y j 0 p1 ny1 nj); auto. lia.
Qed.

Lemma mul_outer_fuel F a b k p na nb :
  wf_pool tgt p -> p !! a = Some na -> p !! b = Some nb ->
  Node.kind na <> INT -> ~ const_right p STAR na -> (a + 4 <= F)%nat ->
  M F STAR (Ptr a) (Ptr b) k p <> OutOfFuel.
Proof.
  intros Hwf Ha Hb Hka Hc HF.
  destruct (Z.eq_dec (Node.kind nb) INT) as [Ekb | Ekb].
  - apply (mul_lit_fuel F a b k p na nb); auto.
  - apply (plain_fuel F STAR a b k p na nb); auto; [| lia].
    split; [assumption |]. split; [tauto |].
    split; [intros E; discriminate E | intros _; tauto].
Qed.

Lemma mul_fuel F a b k p na nb :
  wf_pool tgt p -> p !! a = Some na -> p !! b = Some nb -> (length p + 5 <= F)%nat ->
  M F STAR (Ptr a) (Ptr b) k p <> OutOfFuel.
Proof.
  intros Hwf Ha Hb HF.
  assert (Hla : (a < length p)%nat) by (eapply lookup_lt_Some; eauto).
  assert (Hlb : (b < length p)%nat) by (eapply lookup_lt_Some; eauto).
  destruct (Z.eq_dec (Node.kind na) INT) as [Eka | Eka];
    [apply (mul_K_fuel F a b k p na nb); auto; lia |].
  destruct (Z.eq_dec (Node.kind nb) INT) as [Ekb | Ekb];
    [apply (mul_K_fuel F a b k p na nb); auto; lia |].
  destruct (const_right_dec p STAR na) as [Hc | Hc];
    [| apply (mul_outer_fuel F a b k p na nb); auto; lia].
  destruct F as [| F]; [lia |].
  rewrite (mk_unfold tgt l2r _ STAR a b k p na nb) by auto.
  destruct (find_node p STAR (Ptr a) (Ptr b) k); [discriminate |].
  pose proof Hc as [Hks _].
  destruct (wf_children tgt p a na Hwf Ha (or_intror Hks))
    as (y & c & ny & nc & Hl & Hr & Hy & Hcl & Hny & Hnc & Hno).
  pose proof (const_right_kind p STAR na c nc Hc Hr Hnc) as Hkc.
  rewrite rule_assoc_star;
    [| assumption | eapply lr_is_int_true; eauto | tauto | tauto].
  rewrite Hl, Hr. intros H.
  apply rbind_fuel in H as [H | ([p1 t] & H1 & H)].
  { revert H. apply (mul_lit_fuel F b c 0 p nb nc); auto. lia. }
  destruct (mk_ok_binop F STAR b c 0 p nb nc p1 t (or_intror eq_refl) Hwf Hb Hnc H1)
    as (Hwf1 & Hext1 & j & nj & -> & Hj).
  destruct (ext_lookup p p1 a na Hext1 Ha) as (na1 & Ha1 & Ek1 & El1 & Er1 & _).
  destruct (wf_children tgt p1 a na1 Hwf1 Ha1 ltac:(rewrite Ek1; auto))
    as (y' & c' & ny1 & nc1 & Hl1 & Hr1 & _ & _ & Hny1 & Hnc1 & Hno1).
  rewrite El1, Hl in Hl1. injection Hl1 as <-.
  rewrite Ek1, Hks in Hno1. destruct Hno1 as (Hky1 & _ & _ & HS1).
  destruct (HS1 eq_refl) as (_ & Hcy1 & _).
  revert H. apply (mul_outer_fuel F y j 0 p1 ny1 nj); auto. lia.
Qed.
End MkFuel.

(** ** Every rewrite of [mk] keeps the value *)

(** C10: every rewrite of [mk] preserves the value, for every pair of nodes
    of every well-formed pool: whenever [mk('+', l, r, 0)] or
    [mk('*', l, r, 0)] returns, the node returned lies in a well-formed pool
    that extends the old one, and its tree-walking value is the 32-bit sum,
    respectively product, of the values of [l] and [r].  With the budget
    the parser gives them the calls never run out of fuel, in a pool of any
    size, and they do return whenever [nodes] has room for 16 more nodes
    (with less room the C code may write past the end of [nodes]). *)
Theorem mk_value_preserving (tgt : target) (l2r : bool) (env : Z -> Z) (p : pool)
    (l r : ast_t) (fuel : nat) :
  (forall c, in_int32 (env c)) -> wf_pool tgt p -> valid p l -> valid p r ->
  exists a b, eval env p l = Some a /\ eval env p r = Some b /\
    (forall p' t, mk tgt l2r fuel PLUS l r 0 p = Ok (p', t) ->
       wf_pool tgt p' /\ ext p p' /\ eval env p' t = Some (wrap32 (a + b))) /\
    (forall p' t, mk tgt l2r fuel STAR l r 0 p = Ok (p', t) ->
       wf_pool tgt p' /\ ext p p' /\ eval env p' t = Some (wrap32 (a * b))) /\
    ((length p + 5 <= fuel)%nat ->
       mk tgt l2r fuel PLUS l r 0 p <> OutOfFuel /\
       mk tgt l2r fuel STAR l r 0 p <> OutOfFuel /\
       (Z.of_nat (length p) + 16 <= NODES_MAX ->
          (exists p' t, mk tgt l2r fuel PLUS l r 0 p = Ok (p', t)) /\
          (exists p' t, mk tgt l2r fuel STAR l r 0 p = Ok (p', t)))).
Proof.
  intros Henv Hwf Hl Hr.
  destruct (eval_total tgt env Henv p Hwf l Hl) as (a & Ha & _).
  destruct (eval_total tgt env Henv p Hwf r Hr) as (b & Hb & _).
  destruct Hl as (il & nl & -> & Hil). destruct Hr as (ir & nr & -> & Hir).
  exists a, b. split; [assumption |]. split; [assumption |].
  split; [| split].
  - intros p' t H.
    destruct (mk_binop_sound tgt l2r env Henv fuel PLUS il ir 0 p nl nr a b p' t
                (or_introl eq_refl) Hwf Hil Hir Ha Hb H) as (Hwf' & Hext & _ & Hev).
    rewrite binop_val_plus in Hev. auto.
  - intros p' t H.
    destruct (mk_binop_sound tgt l2r env Henv fuel STAR il ir 0 p nl nr a b p' t
                (or_intror eq_refl) Hwf Hil Hir Ha Hb H) as (Hwf' & Hext & _ & Hev).
    rewrite binop_val_star in Hev. auto.
  - intros Hfuel.
    split; [apply (plus_fuel tgt l2r fuel il ir 0 p nl nr Hwf Hil Hir Hfuel) |].
    split; [apply (mul_fuel tgt l2r fuel il ir 0 p nl nr Hwf Hil Hir Hfuel) |].
    intros Hcap. split.
    + destruct (mk_plus_c tgt l2r env Henv fuel il ir 0 p nl nr a b Hwf Hil Hir Ha Hb
                  ltac:(lia) Hfuel) as (p' & t & Heq & _).
      eauto.
    + destruct (mk_mul_c tgt l2r env Henv fuel il ir 0 p nl nr a b Hwf Hil Hir Ha Hb
                  Hcap Hfuel) as (p' & t & Heq & _).
      eauto.
Qed.

Lemma mk_value_preserving_witness :
  exists a b,
    eval default_env (demo_pool RISCV) (Ptr 4%nat) = Some a /\
    eval default_env (demo_pool RISCV) (Ptr 3%nat) = Some b /\
    (exists p' t, mk RISCV true 10 PLUS (Ptr 4%nat) (Ptr 3%nat) 0 (demo_pool RISCV)
                  = Ok (p', t) /\ wf_pool RISCV p' /\
                  eval default_env p' t = Some (wrap32 (a + b))) /\
    (exists p' t, mk RISCV true 10 STAR (Ptr 4%nat) (Ptr 3%nat) 0 (demo_pool RISCV)
                  = Ok (p', t) /\ wf_pool RISCV p' /\
                  eval default_env p' t = Some (wrap32 (a * b))).
Proof.
  destruct (mk_value_preserving RISCV true default_env (demo_pool RISCV)
              (Ptr 4%nat) (Ptr 3%nat) 10 default_env_int (demo_pool_wf RISCV))
    as (a & b & Ha & Hb & HP & HS & Hret).
  - eexists _, _. split; reflexivity.
  - eexists _, _. split; reflexivity.
  - destruct Hret as (_ & _ & Hret); [simpl; lia |].
    destruct Hret as [(p1 & t1 & H1) (p2 & t2 & H2)].
    + vm_compute. discriminate.
    + exists a, b. split; [exact Ha |]. split; [exact Hb |]. split.
      * exists p1, t1. destruct (HP p1 t1 H1) as (Hwf1 & _ & Hv1). auto.
      * exists p2, t2. destruct (HS p2 t2 H2) as (Hwf2 & _ & Hv2). auto.
Defined.
